(** * Minimum-cost perfect matching engine (mcpm::Matching)

  A shallow embedding of the blossom / primal-dual matching engine of the
  LineCoverage library, and the properties of its specification that can be
  stated over it.

  Conventions of the embedding.
  - C++ [int] is [Z] (all values are vertex or edge indices, bounded by
    [2n] and [m], so no wrap-around is reachable); [-1] is the "none" value
    as in the source.
  - C++ [double] is [float], the binary64 numbers of IEEE 754 with the
    operations of the kernel: [+], [-], [*] and [/] round to nearest, ties
    to even, and overflow to an infinity, as the source's do.  Every
    comparison of the source goes through [GREATER].
  - [std::vector] and [std::list] are [list]; an access outside the bounds
    of a vector, [back()] of an empty list or dereferencing [end()] is
    undefined behaviour in C++ and is the outcome [Undefined] here.
  - The object of class [Matching] is the record [Matching]; methods are
    computations in the monad [M] that threads it.
  - [while] loops and recursive methods take a [fuel] bound; running out of
    it is the outcome [OutOfFuel], which is not an outcome of the program. *)

From Stdlib Require Import ZArith List Bool Lia FinFun Sorted Floats.
Import ListNotations.
Local Open Scope Z_scope.

Set Implicit Arguments.
Set Warnings "-inexact-float".

(* ================================================================== *)
(** ** Vectors indexed by [int] *)

Module Vec.

Definition get {A : Type} (v : list A) (i : Z) : option A :=
  if i <? 0 then None else nth_error v (Z.to_nat i).

Fixpoint upd {A : Type} (v : list A) (i : nat) (x : A) : list A :=
  match v, i with
  | [], _ => []
  | _ :: t, O => x :: t
  | h :: t, S j => h :: upd t j x
  end.

Definition set {A : Type} (v : list A) (i : Z) (x : A) : option (list A) :=
  if (0 <=? i) && (i <? Z.of_nat (length v))
  then Some (upd v (Z.to_nat i) x) else None.

(** [range lo hi] is the index sequence of [for (i = lo; i < hi; i++)]. *)
Definition range (lo hi : Z) : list Z :=
  map (fun k => lo + Z.of_nat k) (seq 0 (Z.to_nat (hi - lo))).

(** [std::vector<T>(k, x)] and [assign(k, x)]. *)
Definition make {A : Type} (k : Z) (x : A) : list A := repeat x (Z.to_nat k).

End Vec.

(* ================================================================== *)
(** ** The graph *)

(** Modelled from the spec: class [Graph] of [mcpm/graph.h], which is not
  among the sources.  The spec (4.2) describes it as an immutable simple
  undirected graph built from [n] and an edge list, with lookup of an edge
  by index, lookup of the index by end points (a sentinel when the two
  vertices are not adjacent; the sentinel is [-1] here), an adjacency list
  per vertex (taken here in the order of the edge list) and a dense
  adjacency matrix. *)
Record Graph : Type := mkGraph {
numVertices : Z;
edges : list (Z * Z)
}.

Module Gr.

Definition GetNumVertices (G : Graph) : Z := numVertices G.
Definition GetNumEdges (G : Graph) : Z := Z.of_nat (length (edges G)).

Definition GetEdge (G : Graph) (i : Z) : option (Z * Z) := Vec.get (edges G) i.

Definition joins (u v : Z) (e : Z * Z) : bool :=
  ((fst e =? u) && (snd e =? v)) || ((fst e =? v) && (snd e =? u)).

Fixpoint index_from (u v : Z) (l : list (Z * Z)) (i : Z) : Z :=
  match l with
  | [] => -1
  | e :: t => if joins u v e then i else index_from u v t (i + 1)
  end.

Definition GetEdgeIndex (G : Graph) (u v : Z) : Z := index_from u v (edges G) 0.

Definition inRange (G : Graph) (u : Z) : bool := (0 <=? u) && (u <? numVertices G).

Fixpoint neighbours (u : Z) (l : list (Z * Z)) : list Z :=
  match l with
  | [] => []
  | (a, b) :: t =>
      if a =? u then b :: neighbours u t
      else if b =? u then a :: neighbours u t
      else neighbours u t
  end.

(** [G.AdjList(u)]: [None] when [u] is not a vertex. *)
Definition AdjList (G : Graph) (u : Z) : option (list Z) :=
  if inRange G u then Some (neighbours u (edges G)) else None.

(** [G.AdjMat()[u][v]]: [None] when [u] or [v] is not a vertex. *)
Definition AdjMat (G : Graph) (u v : Z) : option bool :=
  if inRange G u && inRange G v then Some (existsb (joins u v) (edges G)) else None.

Definition edge_ok (G : Graph) (e : Z * Z) : bool :=
  inRange G (fst e) && inRange G (snd e) && negb (fst e =? snd e).

Fixpoint simple (l : list (Z * Z)) : bool :=
  match l with
  | [] => true
  | (a, b) :: t => negb (existsb (joins a b) t) && simple t
  end.

(** A well-formed graph: end points are vertices, no loops, no parallel
    edges (spec 3: "a pair (u, v) with u <> v and a stable integer index"). *)
Definition wf (G : Graph) : bool :=
  (0 <=? numVertices G) && forallb (edge_ok G) (edges G) && simple (edges G).

End Gr.

(* ================================================================== *)
(** ** Outcomes, the object state and the monad *)

(** The error kinds that the spec (7) gives the matching engine.  The source
    has one [throw], the string of [SolveMinimumCostPerfectMatching], which
    is [NoPerfectMatching]. *)
Inductive error : Type :=
| NoPerfectMatching
| NumericalFailure.

Inductive result (A : Type) : Type :=
| Ok (a : A)
| Throw (e : error)
| Undefined
| OutOfFuel.

Arguments Ok {A} a.
Arguments Throw {A} e.
Arguments Undefined {A}.
Arguments OutOfFuel {A}.

(** The data members of class [Matching] ([G], [m] and [n] are constant and
    come from the graph). *)
Record Matching : Type := mkMatching {
  free : list Z;
  outer : list Z;
  deep : list (list Z);
  shallow : list (list Z);
  tip : list Z;
  active : list bool;
  type : list Z;
  forest : list Z;
  root : list Z;
  blocked : list bool;
  dual : list float;
  slack : list float;
  mate : list Z;
  perfect : bool;
  forestList : list Z;
  visited : list Z
}.

Definition M (A : Type) : Type := Matching -> result (A * Matching).

Definition ret {A : Type} (a : A) : M A := fun s => Ok (a, s).

Definition bind {A B : Type} (c : M A) (k : A -> M B) : M B :=
  fun s =>
    match c s with
    | Ok (a, s') => k a s'
    | Throw e => Throw e
    | Undefined => Undefined
    | OutOfFuel => OutOfFuel
    end.

Declare Scope engine_scope.
Delimit Scope engine_scope with engine.
Notation "x <- c1 ;; c2" := (bind c1 (fun x => c2))
  (at level 61, c1 at next level, right associativity) : engine_scope.
Notation "c1 ;; c2" := (bind c1 (fun _ => c2))
  (at level 61, right associativity) : engine_scope.
Local Open Scope engine_scope.

Definition throw {A : Type} (e : error) : M A := fun _ => Throw e.
Definition undefined {A : Type} : M A := fun _ => Undefined.
Definition out_of_fuel {A : Type} : M A := fun _ => OutOfFuel.

Definition gets {A : Type} (f : Matching -> A) : M A := fun s => Ok (f s, s).
Definition modify (f : Matching -> Matching) : M unit := fun s => Ok (tt, f s).

(** A read-only computation that is undefined behaviour when it is [None]. *)
Definition reads {A : Type} (f : Matching -> option A) : M A :=
  fun s => match f s with Some a => Ok (a, s) | None => Undefined end.

Fixpoint forM {A : Type} (l : list A) (body : A -> M unit) : M unit :=
  match l with
  | [] => ret tt
  | x :: t => body x ;; forM t body
  end.

(** A vector member of the object: how to read it and how to replace it. *)
Record field (A : Type) : Type := mkField {
  fget : Matching -> list A;
  fput : list A -> Matching -> Matching
}.

Definition f_outer : field Z := mkField outer (fun v s =>
  mkMatching (free s) v (deep s) (shallow s) (tip s) (active s) (type s) (forest s)
    (root s) (blocked s) (dual s) (slack s) (mate s) (perfect s) (forestList s) (visited s)).
Definition f_deep : field (list Z) := mkField deep (fun v s =>
  mkMatching (free s) (outer s) v (shallow s) (tip s) (active s) (type s) (forest s)
    (root s) (blocked s) (dual s) (slack s) (mate s) (perfect s) (forestList s) (visited s)).
Definition f_shallow : field (list Z) := mkField shallow (fun v s =>
  mkMatching (free s) (outer s) (deep s) v (tip s) (active s) (type s) (forest s)
    (root s) (blocked s) (dual s) (slack s) (mate s) (perfect s) (forestList s) (visited s)).
Definition f_tip : field Z := mkField tip (fun v s =>
  mkMatching (free s) (outer s) (deep s) (shallow s) v (active s) (type s) (forest s)
    (root s) (blocked s) (dual s) (slack s) (mate s) (perfect s) (forestList s) (visited s)).
Definition f_active : field bool := mkField active (fun v s =>
  mkMatching (free s) (outer s) (deep s) (shallow s) (tip s) v (type s) (forest s)
    (root s) (blocked s) (dual s) (slack s) (mate s) (perfect s) (forestList s) (visited s)).
Definition f_type : field Z := mkField type (fun v s =>
  mkMatching (free s) (outer s) (deep s) (shallow s) (tip s) (active s) v (forest s)
    (root s) (blocked s) (dual s) (slack s) (mate s) (perfect s) (forestList s) (visited s)).
Definition f_forest : field Z := mkField forest (fun v s =>
  mkMatching (free s) (outer s) (deep s) (shallow s) (tip s) (active s) (type s) v
    (root s) (blocked s) (dual s) (slack s) (mate s) (perfect s) (forestList s) (visited s)).
Definition f_root : field Z := mkField root (fun v s =>
  mkMatching (free s) (outer s) (deep s) (shallow s) (tip s) (active s) (type s) (forest s)
    v (blocked s) (dual s) (slack s) (mate s) (perfect s) (forestList s) (visited s)).
Definition f_blocked : field bool := mkField blocked (fun v s =>
  mkMatching (free s) (outer s) (deep s) (shallow s) (tip s) (active s) (type s) (forest s)
    (root s) v (dual s) (slack s) (mate s) (perfect s) (forestList s) (visited s)).
Definition f_dual : field float := mkField dual (fun v s =>
  mkMatching (free s) (outer s) (deep s) (shallow s) (tip s) (active s) (type s) (forest s)
    (root s) (blocked s) v (slack s) (mate s) (perfect s) (forestList s) (visited s)).
Definition f_slack : field float := mkField slack (fun v s =>
  mkMatching (free s) (outer s) (deep s) (shallow s) (tip s) (active s) (type s) (forest s)
    (root s) (blocked s) (dual s) v (mate s) (perfect s) (forestList s) (visited s)).
Definition f_mate : field Z := mkField mate (fun v s =>
  mkMatching (free s) (outer s) (deep s) (shallow s) (tip s) (active s) (type s) (forest s)
    (root s) (blocked s) (dual s) (slack s) v (perfect s) (forestList s) (visited s)).
Definition f_visited : field Z := mkField visited (fun v s =>
  mkMatching (free s) (outer s) (deep s) (shallow s) (tip s) (active s) (type s) (forest s)
    (root s) (blocked s) (dual s) (slack s) (mate s) (perfect s) (forestList s) v).

Definition set_free (v : list Z) (s : Matching) : Matching :=
  mkMatching v (outer s) (deep s) (shallow s) (tip s) (active s) (type s) (forest s)
    (root s) (blocked s) (dual s) (slack s) (mate s) (perfect s) (forestList s) (visited s).
Definition set_perfect (b : bool) (s : Matching) : Matching :=
  mkMatching (free s) (outer s) (deep s) (shallow s) (tip s) (active s) (type s) (forest s)
    (root s) (blocked s) (dual s) (slack s) (mate s) b (forestList s) (visited s).
Definition set_forestList (v : list Z) (s : Matching) : Matching :=
  mkMatching (free s) (outer s) (deep s) (shallow s) (tip s) (active s) (type s) (forest s)
    (root s) (blocked s) (dual s) (slack s) (mate s) (perfect s) v (visited s).

(** [x = vec[i]] and [vec[i] = x]. *)
Definition rd {A : Type} (f : field A) (i : Z) : M A :=
  reads (fun s => Vec.get (fget f s) i).

Definition wr {A : Type} (f : field A) (i : Z) (x : A) : M unit :=
  fun s =>
    match Vec.set (fget f s) i x with
    | Some v => Ok (tt, fput f v s)
    | None => Undefined
    end.

(** Whole-vector assignment ([slack = cost], [visited.assign(2*n, 0)]). *)
Definition assign {A : Type} (f : field A) (v : list A) : M unit := modify (fput f v).

Definition EVEN : Z := 2.
Definition ODD : Z := 1.
Definition UNLABELED : Z := 0.

(** The constructor: every vector has [2n] value-initialised entries, [slack]
    has [m]; the two lists are empty.  [perfect] is not initialised by the
    source and is written by [Grow] before it is first read. *)
Definition Matching_new (G : Graph) : Matching :=
  let k := 2 * Gr.GetNumVertices G in
  mkMatching [] (Vec.make k 0) (Vec.make k []) (Vec.make k []) (Vec.make k 0)
    (Vec.make k false) (Vec.make k 0) (Vec.make k 0) (Vec.make k 0) (Vec.make k false)
    (Vec.make k 0%float) (Vec.make (Gr.GetNumEdges G) 0%float) (Vec.make k 0) false []
    (Vec.make k 0).

(* ================================================================== *)
(** ** The heap of the heuristic *)

(** Modelled from the spec: class [BinaryHeap] of [mcpm/binary_heap.h], which
    is not among the sources.  The spec (4.1) describes a min-heap of
    (key, id) pairs; [DeleteMin] returns the id of a least key.  The order
    among equal keys is not fixed by the spec; here the entry inserted first
    leaves first. *)
Module BinaryHeap.

Definition t : Type := list (Z * Z).

Definition empty : t := [].

Fixpoint Insert (key id : Z) (h : t) : t :=
  match h with
  | [] => [(key, id)]
  | (k, i) :: r => if key <? k then (key, id) :: h else (k, i) :: Insert key id r
  end.

Definition Size (h : t) : Z := Z.of_nat (length h).

Definition DeleteMin (h : t) : option (Z * t) :=
  match h with
  | [] => None
  | (_, i) :: r => Some (i, r)
  end.

(** The ids in the order in which repeated [DeleteMin] returns them. *)
Definition drain (h : t) : list Z := map snd h.

End BinaryHeap.

(* ================================================================== *)
(** ** The engine *)

Section Engine.

(** Modelled from the spec: the tolerance of [mcpm/graph.h], which is not
    among the sources (spec 4.3, numerical policy: "a small positive
    tolerance").  It is a parameter of the development. *)
Variable EPSILON : float.

Variable G : Graph.

Local Abbreviation n := (Gr.GetNumVertices G).
Local Abbreviation m := (Gr.GetNumEdges G).

(** Modelled from the spec: macro [GREATER] of [mcpm/graph.h], which is not
    among the sources; the spec gives [GREATER(a, b) = a - b > EPSILON].
    The subtraction and the comparison are those of [double]. *)
Definition GREATER (a b : float) : bool := (EPSILON <? a - b)%float.

(** *** Free list of blossom indices *)

Definition AddFreeBlossomIndex (i : Z) : M unit :=
  modify (fun s => set_free (free s ++ [i]) s).

Definition GetFreeBlossomIndex : M Z :=
  fr <- gets free ;;
  match rev fr with
  | [] => undefined
  | i :: r => modify (set_free (rev r)) ;; ret i
  end.

Definition ClearBlossomIndices : M unit :=
  modify (set_free []) ;;
  forM (Vec.range n (2 * n)) AddFreeBlossomIndex.

(** *** Blocked edges and adjacency *)

Definition edgeBlocked (s : Matching) (e : Z) : option bool :=
  option_map (fun x => GREATER x 0) (Vec.get (slack s) e).

Definition IsEdgeBlocked (e : Z) : M bool := reads (fun s => edgeBlocked s e).

Definition IsEdgeBlocked2 (u v : Z) : M bool :=
  reads (fun s => edgeBlocked s (Gr.GetEdgeIndex G u v)).

(** [G.AdjMat()[u][v] and not IsEdgeBlocked(u, v)], with the short circuit. *)
Definition adjacent (s : Matching) (u v : Z) : option bool :=
  match Gr.AdjMat G u v with
  | None => None
  | Some false => Some false
  | Some true => option_map negb (edgeBlocked s (Gr.GetEdgeIndex G u v))
  end.

Definition IsAdjacent (u v : Z) : M bool := reads (fun s => adjacent s u v).

(** *** DestroyBlossom *)

Fixpoint DestroyBlossom (fuel : nat) (t : Z) : M unit :=
  match fuel with
  | O => out_of_fuel
  | S fuel' =>
      stop <- (if t <? n then ret true
               else b <- rd f_blocked t ;;
                    if b then d <- rd f_dual t ;; ret (GREATER d 0)
                    else ret false) ;;
      if stop : bool then ret tt
      else
        sh <- rd f_shallow t ;;
        forM sh (fun s =>
          wr f_outer s s ;;
          ds <- rd f_deep s ;;
          forM ds (fun j => wr f_outer j s) ;;
          DestroyBlossom fuel' s) ;;
        wr f_active t false ;;
        wr f_blocked t false ;;
        AddFreeBlossomIndex t ;;
        wr f_mate t (-1)
  end.

(** *** Expand *)

(** The search of [Expand] for the edge that re-mates [u] and [v]: the two
    nested loops over [deep[u]] and [deep[v]], with the running triple
    [(index, p, q)]. *)
Fixpoint Expand_find_row (s : Matching) (di : Z) (dv : list Z) (acc : Z * Z * Z)
  : option (Z * Z * Z) :=
  match dv with
  | [] => Some acc
  | dj :: r =>
      match adjacent s di dj with
      | None => None
      | Some a =>
          if a && (Gr.GetEdgeIndex G di dj <? fst (fst acc))
          then Expand_find_row s di r (Gr.GetEdgeIndex G di dj, di, dj)
          else Expand_find_row s di r acc
      end
  end.

Fixpoint Expand_find_from (s : Matching) (du dv : list Z) (acc : Z * Z * Z)
  : option (Z * Z * Z) :=
  match du with
  | [] => Some acc
  | di :: r =>
      match Expand_find_row s di dv acc with
      | None => None
      | Some acc' => Expand_find_from s r dv acc'
      end
  end.

Definition Expand_find (s : Matching) (u v : Z) : option (Z * Z * Z) :=
  match Vec.get (deep s) u, Vec.get (deep s) v with
  | Some du, Some dv => Expand_find_from s du dv (m, -1, -1)
  | _, _ => None
  end.

(** The loop that brings the member of [shallow[u]] holding [p] to the
    front.  The iterator stays on the front element: a miss moves the front
    to the back; with a single element the increment reaches [end()] and the
    loop stops. *)
Fixpoint Expand_rotate (fuel : nat) (u p : Z) : M unit :=
  match fuel with
  | O => out_of_fuel
  | S fuel' =>
      sh <- rd f_shallow u ;;
      match sh with
      | [] => ret tt
      | si :: rest =>
          dsi <- rd f_deep si ;;
          if existsb (Z.eqb p) dsi then ret tt
          else
            wr f_shallow u (rest ++ [si]) ;;
            match rest with
            | [] => ret tt
            | _ :: _ => Expand_rotate fuel' u p
            end
      end
  end.

(** The pairs after the tip; an even number of members dereferences
    [end()]. *)
Fixpoint Expand_pairs (l : list Z) : M unit :=
  match l with
  | [] => ret tt
  | [_] => undefined
  | a :: b :: r => wr f_mate a b ;; wr f_mate b a ;; Expand_pairs r
  end.

Definition Expand_remate (u : Z) : M unit :=
  sh <- rd f_shallow u ;;
  match sh with
  | [] => undefined
  | s0 :: r => mu <- rd f_mate u ;; wr f_mate s0 mu ;; Expand_pairs r
  end.

Definition release_members (sh : list Z) : M unit :=
  forM sh (fun s =>
    wr f_outer s s ;;
    ds <- rd f_deep s ;;
    forM ds (fun j => wr f_outer j s)).

Fixpoint Expand (fuel : nat) (u : Z) (expandBlocked : bool) : M unit :=
  match fuel with
  | O => out_of_fuel
  | S fuel' =>
      mu <- rd f_mate u ;;
      v <- rd f_outer mu ;;
      r <- reads (fun s => Expand_find s u v) ;;
      wr f_mate u (snd r) ;;
      wr f_mate v (snd (fst r)) ;;
      stop <- (if u <? n then ret true
               else b <- rd f_blocked u ;; ret (b && negb expandBlocked)) ;;
      if stop : bool then ret tt
      else
        Expand_rotate fuel' u (snd (fst r)) ;;
        Expand_remate u ;;
        sh <- rd f_shallow u ;;
        release_members sh ;;
        wr f_active u false ;;
        AddFreeBlossomIndex u ;;
        forM sh (fun s => Expand fuel' s expandBlocked)
  end.

(** *** Augment *)

Definition Augment_pair (fuel : nat) (p q : Z) : M unit :=
  wr f_mate p q ;;
  wr f_mate q p ;;
  Expand fuel p false ;;
  Expand fuel q false.

(** [while (fp != -1)] of [Augment]. *)
Fixpoint Augment_walk (fuel k : nat) (p fp : Z) : M unit :=
  if fp =? -1 then ret tt
  else
    match k with
    | O => out_of_fuel
    | S k' =>
        f1 <- rd f_forest p ;;
        q <- rd f_outer f1 ;;
        f2 <- rd f_forest q ;;
        p' <- rd f_outer f2 ;;
        fp' <- rd f_forest p' ;;
        Augment_pair fuel p' q ;;
        Augment_walk fuel k' p' fp'
    end.

Definition Augment (fuel : nat) (u v : Z) : M unit :=
  p <- rd f_outer u ;;
  q <- rd f_outer v ;;
  fp <- rd f_forest p ;;
  Augment_pair fuel p q ;;
  Augment_walk fuel fuel p fp ;;
  fq <- rd f_forest q ;;
  Augment_walk fuel fuel q fq.

(** *** Reset *)

Definition Reset_roots : M unit :=
  forM (Vec.range 0 n) (fun i =>
    oi <- rd f_outer i ;;
    mo <- rd f_mate oi ;;
    if mo =? -1 then
      wr f_type oi 2 ;;
      vis <- rd f_visited oi ;;
      (if vis =? 0
       then modify (fun s => set_forestList (forestList s ++ [i]) s)
       else ret tt) ;;
      wr f_visited oi 1
    else wr f_type oi 0).

Definition Reset (fuel : nat) : M unit :=
  forM (Vec.range 0 (2 * n)) (fun i =>
    wr f_forest i (-1) ;;
    wr f_root i i ;;
    if i >=? n then
      a <- rd f_active i ;;
      if a : bool then
        o <- rd f_outer i ;;
        if o =? i then DestroyBlossom fuel i else ret tt
      else ret tt
    else ret tt) ;;
  assign f_visited (Vec.make (2 * n) 0) ;;
  modify (set_forestList []) ;;
  Reset_roots.

(** *** Blossom *)

(** [while (u_ != -1) { isInPath[outer[u_]] = true; u_ = forest[outer[u_]]; }] *)
Fixpoint Blossom_mark (k : nat) (u_ : Z) (isInPath : list bool) : M (list bool) :=
  if u_ =? -1 then ret isInPath
  else
    match k with
    | O => out_of_fuel
    | S k' =>
        o <- rd f_outer u_ ;;
        match Vec.set isInPath o true with
        | None => undefined
        | Some isInPath' =>
            u' <- rd f_forest o ;;
            Blossom_mark k' u' isInPath'
        end
    end.

(** [while (not isInPath[v_]) v_ = outer[forest[v_]];] *)
Fixpoint Blossom_tip (k : nat) (v_ : Z) (isInPath : list bool) : M Z :=
  match Vec.get isInPath v_ with
  | None => undefined
  | Some true => ret v_
  | Some false =>
      match k with
      | O => out_of_fuel
      | S k' =>
          f <- rd f_forest v_ ;;
          v' <- rd f_outer f ;;
          Blossom_tip k' v' isInPath
      end
  end.

(** [while (u_ != tip[t]) { u_ = outer[forest[u_]]; circuit.push_front(u_); }] *)
Fixpoint Blossom_circuit (k : nat) (u_ tp : Z) (circuit : list Z) : M (list Z) :=
  if u_ =? tp then ret circuit
  else
    match k with
    | O => out_of_fuel
    | S k' =>
        f <- rd f_forest u_ ;;
        u' <- rd f_outer f ;;
        Blossom_circuit k' u' tp (u' :: circuit)
    end.

(** [while (v_ != tip[t]) { shallow[t].push_back(v_); v_ = outer[forest[v_]]; }] *)
Fixpoint Blossom_tail (k : nat) (t v_ tp : Z) : M unit :=
  if v_ =? tp then ret tt
  else
    match k with
    | O => out_of_fuel
    | S k' =>
        sh <- rd f_shallow t ;;
        wr f_shallow t (sh ++ [v_]) ;;
        f <- rd f_forest v_ ;;
        v' <- rd f_outer f ;;
        Blossom_tail k' t v' tp
    end.

(** The loop that fills [deep[t]] and redirects [outer]. *)
Definition Blossom_absorb (t : Z) (sh : list Z) : M unit :=
  forM sh (fun u_ =>
    wr f_outer u_ t ;;
    du <- rd f_deep u_ ;;
    forM du (fun j =>
      dt <- rd f_deep t ;;
      wr f_deep t (dt ++ [j]) ;;
      wr f_outer j t)).

Definition Blossom (fuel : nat) (u v : Z) : M Z :=
  t <- GetFreeBlossomIndex ;;
  isInPath <- Blossom_mark fuel u (Vec.make (2 * n) false) ;;
  ov <- rd f_outer v ;;
  tp <- Blossom_tip fuel ov isInPath ;;
  wr f_tip t tp ;;
  ou <- rd f_outer u ;;
  circuit <- Blossom_circuit fuel ou tp [ou] ;;
  wr f_shallow t [] ;;
  wr f_deep t [] ;;
  wr f_shallow t circuit ;;
  ov' <- rd f_outer v ;;
  Blossom_tail fuel t ov' tp ;;
  sh <- rd f_shallow t ;;
  Blossom_absorb t sh ;;
  ft <- rd f_forest tp ;;
  wr f_forest t ft ;;
  wr f_type t EVEN ;;
  rt <- rd f_root tp ;;
  wr f_root t rt ;;
  wr f_active t true ;;
  wr f_outer t t ;;
  mt <- rd f_mate tp ;;
  wr f_mate t mt ;;
  ret t.

(** *** Grow *)

(** The branch of [Grow] that extends the forest through the unlabeled [v]. *)
Definition Grow_extend (u v : Z) : M unit :=
  ov <- rd f_outer v ;;
  vm <- rd f_mate ov ;;
  wr f_forest ov u ;;
  wr f_type ov ODD ;;
  ou <- rd f_outer u ;;
  ru <- rd f_root ou ;;
  wr f_root ov ru ;;
  ovm <- rd f_outer vm ;;
  wr f_forest ovm v ;;
  wr f_type ovm EVEN ;;
  ru' <- rd f_root ou ;;
  wr f_root ovm ru' ;;
  vis <- rd f_visited ovm ;;
  if vis =? 0 then
    modify (fun s => set_forestList (forestList s ++ [vm]) s) ;;
    wr f_visited ovm 1
  else ret tt.

(** The loop over [G.AdjList(u)]; the result is [cont]. *)
Fixpoint Grow_adj (fuel : nat) (u : Z) (adj : list Z) : M bool :=
  match adj with
  | [] => ret false
  | v :: rest =>
      b <- IsEdgeBlocked2 u v ;;
      if b : bool then Grow_adj fuel u rest
      else
        ov <- rd f_outer v ;;
        tv <- rd f_type ov ;;
        if tv =? ODD then Grow_adj fuel u rest
        else if negb (tv =? EVEN) then
          Grow_extend u v ;; Grow_adj fuel u rest
        else
          rv <- rd f_root ov ;;
          ou <- rd f_outer u ;;
          ru <- rd f_root ou ;;
          if negb (rv =? ru) then
            Augment fuel u v ;; Reset fuel ;; ret true
          else if negb (ou =? ov) then
            b <- Blossom fuel u v ;;
            modify (fun s => set_forestList (b :: forestList s) s) ;;
            wr f_visited b 1 ;;
            ret true
          else Grow_adj fuel u rest
  end.

(** The loop over [deep[w]]. *)
Fixpoint Grow_deep (fuel : nat) (dw : list Z) : M unit :=
  match dw with
  | [] => ret tt
  | u :: rest =>
      adj <- reads (fun _ => Gr.AdjList G u) ;;
      cont <- Grow_adj fuel u adj ;;
      if cont : bool then ret tt else Grow_deep fuel rest
  end.

(** [while (!forestList.empty())] *)
Fixpoint Grow_forest (fuel k : nat) : M unit :=
  fl <- gets forestList ;;
  match fl with
  | [] => ret tt
  | x :: rest =>
      match k with
      | O => out_of_fuel
      | S k' =>
          w <- rd f_outer x ;;
          modify (set_forestList rest) ;;
          dw <- rd f_deep w ;;
          Grow_deep fuel dw ;;
          Grow_forest fuel k'
      end
  end.

Definition check_perfect : M unit :=
  modify (set_perfect true) ;;
  forM (Vec.range 0 n) (fun i =>
    oi <- rd f_outer i ;;
    mo <- rd f_mate oi ;;
    if mo =? -1 then modify (set_perfect false) else ret tt).

Definition Grow (fuel : nat) : M unit :=
  Reset fuel ;;
  Grow_forest fuel fuel ;;
  check_perfect.

(** *** UpdateDualCosts *)

(** The running minima of [UpdateDualCosts] with their [init] flags. *)
Record candidates : Type := mkCand {
  e1 : float; inite1 : bool;
  e2 : float; inite2 : bool;
  e3 : float; inite3 : bool
}.

(** [if (!init or GREATER(e, x)) { e = x; init = true; }] *)
Definition take_min (e : float) (init : bool) (x : float) : float * bool :=
  if negb init || GREATER e x then (x, true) else (e, init).

(** [type[outer[u]]] *)
Definition label (s : Matching) (u : Z) : option Z :=
  match Vec.get (outer s) u with
  | Some o => Vec.get (type s) o
  | None => None
  end.

Fixpoint fold_opt {A B : Type} (f : A -> B -> option A) (l : list B) (a : A) : option A :=
  match l with
  | [] => Some a
  | x :: r => match f a x with Some a' => fold_opt f r a' | None => None end
  end.

(** The body of the first loop over the edges. *)
Definition scan_edge (s : Matching) (c : candidates) (i : Z) : option candidates :=
  match Gr.GetEdge G i with
  | None => None
  | Some (u, v) =>
      match Vec.get (outer s) u, Vec.get (outer s) v, label s u, label s v with
      | Some ou, Some ov, Some tu, Some tv =>
          if ((tu =? EVEN) && (tv =? UNLABELED)) || ((tv =? EVEN) && (tu =? UNLABELED)) then
            match Vec.get (slack s) i with
            | Some x =>
                let r := take_min (e1 c) (inite1 c) x in
                Some (mkCand (fst r) (snd r) (e2 c) (inite2 c) (e3 c) (inite3 c))
            | None => None
            end
          else if negb (ou =? ov) && (tu =? EVEN) && (tv =? EVEN) then
            match Vec.get (slack s) i with
            | Some x =>
                let r := take_min (e2 c) (inite2 c) x in
                Some (mkCand (e1 c) (inite1 c) (fst r) (snd r) (e3 c) (inite3 c))
            | None => None
            end
          else Some c
      | _, _, _, _ => None
      end
  end.

(** The body of the loop over the pseudo-vertices, with its short circuits. *)
Definition scan_blossom (s : Matching) (c : candidates) (i : Z) : option candidates :=
  match Vec.get (active s) i with
  | None => None
  | Some false => Some c
  | Some true =>
      match Vec.get (outer s) i with
      | None => None
      | Some o =>
          if negb (i =? o) then Some c
          else
            match label s i with
            | None => None
            | Some ti =>
                if negb (ti =? ODD) then Some c
                else
                  match Vec.get (dual s) i with
                  | None => None
                  | Some d =>
                      let r := take_min (e3 c) (inite3 c) d in
                      Some (mkCand (e1 c) (inite1 c) (e2 c) (inite2 c) (fst r) (snd r))
                  end
            end
      end
  end.

Definition scan (s : Matching) : option candidates :=
  match fold_opt (scan_edge s) (Vec.range 0 m) (mkCand 0 false 0 false 0 false) with
  | None => None
  | Some c => fold_opt (scan_blossom s) (Vec.range n (2 * n)) c
  end.

(** The choice of the step [e]. *)
Definition step_size (c : candidates) : float :=
  let e := if inite1 c then e1 c
           else if inite2 c then e2 c
           else if inite3 c then e3 c
           else 0%float in
  let e := if GREATER e (e2 c / 2) && inite2 c then (e2 c / 2)%float else e in
  if GREATER e (e3 c) && inite3 c then e3 c else e.

Definition update_duals (e : float) : M unit :=
  forM (Vec.range 0 (2 * n)) (fun i =>
    o <- rd f_outer i ;;
    if negb (i =? o) then ret tt
    else
      a <- rd f_active i ;;
      if a : bool then
        ti <- rd f_type o ;;
        if ti =? EVEN then d <- rd f_dual i ;; wr f_dual i (d + e)%float
        else if ti =? ODD then d <- rd f_dual i ;; wr f_dual i (d - e)%float
        else ret tt
      else ret tt).

Definition update_slacks (e : float) : M unit :=
  forM (Vec.range 0 m) (fun i =>
    uv <- reads (fun _ => Gr.GetEdge G i) ;;
    ou <- rd f_outer (fst uv) ;;
    ov <- rd f_outer (snd uv) ;;
    if negb (ou =? ov) then
      tu <- rd f_type ou ;;
      tv <- rd f_type ov ;;
      if (tu =? EVEN) && (tv =? EVEN) then
        x <- rd f_slack i ;; wr f_slack i (x - 2 * e)%float
      else if (tu =? ODD) && (tv =? ODD) then
        x <- rd f_slack i ;; wr f_slack i (x + 2 * e)%float
      else if ((tv =? UNLABELED) && (tu =? EVEN)) || ((tu =? UNLABELED) && (tv =? EVEN)) then
        x <- rd f_slack i ;; wr f_slack i (x - e)%float
      else if ((tv =? UNLABELED) && (tu =? ODD)) || ((tu =? UNLABELED) && (tv =? ODD)) then
        x <- rd f_slack i ;; wr f_slack i (x + e)%float
      else ret tt
    else ret tt).

Definition update_blocked (fuel : nat) : M unit :=
  forM (Vec.range n (2 * n)) (fun i =>
    d <- rd f_dual i ;;
    if GREATER d 0 then wr f_blocked i true
    else
      a <- rd f_active i ;;
      if a : bool then
        b <- rd f_blocked i ;;
        if b : bool then
          mi <- rd f_mate i ;;
          if mi =? -1 then DestroyBlossom fuel i
          else wr f_blocked i false ;; Expand fuel i false
        else ret tt
      else ret tt).

Definition UpdateDualCosts (fuel : nat) : M unit :=
  c <- reads scan ;;
  update_duals (step_size c) ;;
  update_slacks (step_size c) ;;
  update_blocked fuel.

(** *** Clear *)

Definition Clear : M unit :=
  ClearBlossomIndices ;;
  forM (Vec.range 0 (2 * n)) (fun i =>
    wr f_outer i i ;;
    wr f_deep i (if i <? n then [i] else []) ;;
    wr f_shallow i [] ;;
    wr f_active i (i <? n) ;;
    wr f_type i 0 ;;
    wr f_forest i (-1) ;;
    wr f_root i i ;;
    wr f_blocked i false ;;
    wr f_dual i 0%float ;;
    wr f_mate i (-1) ;;
    wr f_tip i i) ;;
  assign f_slack (Vec.make m 0%float).

(** *** Heuristic *)

Fixpoint foldM {A B : Type} (l : list B) (f : A -> B -> M A) (a : A) : M A :=
  match l with
  | [] => ret a
  | x :: r => a' <- f a x ;; foldM r f a'
  end.

(** [degree[u]++] on the local vector. *)
Definition incr (degree : list Z) (u : Z) : option (list Z) :=
  match Vec.get degree u with
  | Some d => Vec.set degree u (d + 1)
  | None => None
  end.

Definition Heuristic_degrees : M (list Z) :=
  foldM (Vec.range 0 m) (fun degree i =>
    b <- IsEdgeBlocked i ;;
    if b : bool then ret degree
    else
      uv <- reads (fun _ => Gr.GetEdge G i) ;;
      d1 <- reads (fun _ => incr degree (fst uv)) ;;
      reads (fun _ => incr d1 (snd uv))) (Vec.make n 0).

Definition Heuristic_heap (degree : list Z) : option BinaryHeap.t :=
  fold_opt (fun B i =>
    match Vec.get degree i with
    | Some d => Some (BinaryHeap.Insert d i B)
    | None => None
    end) (Vec.range 0 n) BinaryHeap.empty.

(** The loop over [G.AdjList(u)] that selects [min]. *)
Definition Heuristic_pick (degree : list Z) (u : Z) (adj : list Z) : M Z :=
  foldM adj (fun mn v =>
    b <- IsEdgeBlocked2 u v ;;
    if b : bool then ret mn
    else
      ou <- rd f_outer u ;;
      ov <- rd f_outer v ;;
      if ou =? ov then ret mn
      else
        mv <- rd f_mate ov ;;
        if negb (mv =? -1) then ret mn
        else if mn =? -1 then ret v
        else
          dv <- reads (fun _ => Vec.get degree v) ;;
          dm <- reads (fun _ => Vec.get degree mn) ;;
          if dv <? dm then ret v else ret mn) (-1).

Definition Heuristic_visit (degree : list Z) (u : Z) : M unit :=
  ou <- rd f_outer u ;;
  mo <- rd f_mate ou ;;
  if mo =? -1 then
    adj <- reads (fun _ => Gr.AdjList G u) ;;
    mn <- Heuristic_pick degree u adj ;;
    if negb (mn =? -1) then
      ou' <- rd f_outer u ;;
      wr f_mate ou' mn ;;
      om <- rd f_outer mn ;;
      wr f_mate om u
    else ret tt
  else ret tt.

Definition Heuristic : M unit :=
  degree <- Heuristic_degrees ;;
  B <- reads (fun _ => Heuristic_heap degree) ;;
  forM (BinaryHeap.drain B) (Heuristic_visit degree).

(** *** PositiveCosts *)

Definition min_edge_step (s : Matching) (minEdge : float) (i : Z) : option float :=
  match Vec.get (slack s) i with
  | Some x => Some (if GREATER (minEdge - x) 0 then x else minEdge)
  | None => None
  end.

Definition min_edge (s : Matching) : option float :=
  fold_opt (min_edge_step s) (Vec.range 0 m) 0%float.

Definition PositiveCosts : M unit :=
  minEdge <- reads min_edge ;;
  forM (Vec.range 0 m) (fun i =>
    x <- rd f_slack i ;; wr f_slack i (x - minEdge)%float).

(** *** RetrieveMatching *)

Definition expand_all (fuel : nat) : M unit :=
  forM (Vec.range 0 (2 * n)) (fun i =>
    a <- rd f_active i ;;
    if a : bool then
      mi <- rd f_mate i ;;
      if negb (mi =? -1) then
        o <- rd f_outer i ;;
        if o =? i then Expand fuel i true else ret tt
      else ret tt
    else ret tt).

Definition collect_step (s : Matching) (matching : list Z) (i : Z) : option (list Z) :=
  match Gr.GetEdge G i with
  | None => None
  | Some (u, v) =>
      match Vec.get (mate s) u with
      | Some mu => Some (if mu =? v then matching ++ [i] else matching)
      | None => None
      end
  end.

Definition collect (s : Matching) : option (list Z) :=
  fold_opt (collect_step s) (Vec.range 0 m) [].

Definition RetrieveMatching (fuel : nat) : M (list Z) :=
  expand_all fuel ;;
  reads collect.

(** *** The public operations *)

Definition SolveMaximumMatching (fuel : nat) : M (list Z) :=
  Clear ;;
  Grow fuel ;;
  RetrieveMatching fuel.

(** [obj += cost[*it]] over the matching. *)
Definition objective (cost : list float) (matching : list Z) : option float :=
  fold_opt (fun obj i =>
    match Vec.get cost i with
    | Some c => Some (obj + c)%float
    | None => None
    end) matching 0%float.

(** [Clear(); slack = cost; PositiveCosts();] *)
Definition initialise (cost : list float) : M unit :=
  Clear ;;
  assign f_slack cost ;;
  PositiveCosts.

(** The body of the primal-dual loop. *)
Definition iteration (fuel : nat) : M unit :=
  Heuristic ;;
  Grow fuel ;;
  UpdateDualCosts fuel ;;
  Reset fuel.

(** [while (not perfect) { ... }] *)
Fixpoint primal_dual (fuel k : nat) : M unit :=
  p <- gets perfect ;;
  if p : bool then ret tt
  else
    match k with
    | O => out_of_fuel
    | S k' => iteration fuel ;; primal_dual fuel k'
    end.

(** The dual objective that the source sums after the primal one is stored
    in a local variable that is never read; it is left out. *)
Definition SolveMinimumCostPerfectMatching (fuel : nat) (cost : list float)
  : M (list Z * float) :=
  SolveMaximumMatching fuel ;;
  p <- gets perfect ;;
  if negb p then throw NoPerfectMatching
  else
    initialise cost ;;
    modify (set_perfect false) ;;
    primal_dual fuel fuel ;;
    matching <- RetrieveMatching fuel ;;
    obj <- reads (fun _ => objective cost matching) ;;
    ret (matching, obj).

End Engine.

(* ================================================================== *)
(** ** Notions used by the properties *)

Section Notions.

Variable G : Graph.

(** [mate[outer[i]] == -1]: vertex [i] lies in an outer blossom without a
    mate. *)
Definition unmatched (s : Matching) (i : Z) : Prop :=
  exists o, Vec.get (outer s) i = Some o /\ Vec.get (mate s) o = Some (-1).

(** The preliminary pass of [SolveMinimumCostPerfectMatching] up to the end
    of [Grow], where [perfect] is decided. *)
Definition maximum_pass (EPSILON : float) (fuel : nat) : M unit :=
  Clear G ;; Grow EPSILON G fuel.

End Notions.

(* ================================================================== *)
(** ** The sizes of the vectors *)

Definition len {A : Type} (v : list A) : Z := Z.of_nat (length v).

(** Every vector but [slack] has [2n] entries, as the constructor makes
    them. *)
Definition sized (G : Graph) (s : Matching) : Prop :=
  0 <= Gr.GetNumVertices G /\
  len (outer s) = 2 * Gr.GetNumVertices G /\
  len (deep s) = 2 * Gr.GetNumVertices G /\
  len (shallow s) = 2 * Gr.GetNumVertices G /\
  len (tip s) = 2 * Gr.GetNumVertices G /\
  len (active s) = 2 * Gr.GetNumVertices G /\
  len (type s) = 2 * Gr.GetNumVertices G /\
  len (forest s) = 2 * Gr.GetNumVertices G /\
  len (root s) = 2 * Gr.GetNumVertices G /\
  len (blocked s) = 2 * Gr.GetNumVertices G /\
  len (dual s) = 2 * Gr.GetNumVertices G /\
  len (mate s) = 2 * Gr.GetNumVertices G /\
  len (visited s) = 2 * Gr.GetNumVertices G.

(** The state that [Clear] builds, entry by entry. *)
Definition cleared_at (G : Graph) (s : Matching) (i : Z) : Prop :=
  Vec.get (outer s) i = Some i /\
  Vec.get (deep s) i = Some (if i <? Gr.GetNumVertices G then [i] else []) /\
  Vec.get (shallow s) i = Some [] /\
  Vec.get (active s) i = Some (i <? Gr.GetNumVertices G) /\
  Vec.get (type s) i = Some 0 /\
  Vec.get (forest s) i = Some (-1) /\
  Vec.get (root s) i = Some i /\
  Vec.get (blocked s) i = Some false /\
  Vec.get (dual s) i = Some 0%float /\
  Vec.get (mate s) i = Some (-1) /\
  Vec.get (tip s) i = Some i.

Definition cleared (G : Graph) (s : Matching) : Prop :=
  free s = Vec.range (Gr.GetNumVertices G) (2 * Gr.GetNumVertices G) /\
  forall i, 0 <= i < 2 * Gr.GetNumVertices G -> cleared_at G s i.


(* ================================================================== *)
(** ** Runs and the inputs of the examples *)

(** The state and the value that a run returns (the start state and [None]
    when it does not return). *)
Definition exec {A : Type} (c : M A) (s : Matching) : Matching :=
  match c s with
  | Ok (_, s') => s'
  | _ => s
  end.

Definition value {A : Type} (c : M A) (s : Matching) : option A :=
  match c s with
  | Ok (a, _) => Some a
  | _ => None
  end.


(** The tolerance that the spec gives as an example, [1e-10]. *)
Definition eps10 : float := 1e-10.

(** Two vertices joined by one edge. *)
Definition G_edge : Graph := mkGraph 2 [(0, 1)].

(** A triangle [0, 1, 2] and a vertex [3] joined to [0] (edge 0) and to [1]
    (edge 2). *)
Definition G_kite : Graph := mkGraph 4 [(0, 3); (0, 1); (1, 3); (0, 2); (1, 2)].

Definition cost_kite : list float := [9; 3; 5; 3; 3]%float.

(** A triangle [0, 1, 3] and a vertex [2] joined to [1]. *)
Definition G_pennant : Graph := mkGraph 4 [(0, 1); (1, 3); (1, 2); (0, 3)].

Definition cost_pennant : list float := [2; 1; 3; 2]%float.

(** [k] iterations of the primal-dual loop. *)
Fixpoint iterations (EPSILON : float) (G : Graph) (fuel k : nat) : M unit :=
  match k with
  | O => ret tt
  | S k' => iteration EPSILON G fuel ;; iterations EPSILON G fuel k'
  end.

(** The run of [SolveMinimumCostPerfectMatching] up to the entry of the
    primal-dual loop. *)
Definition enter_loop (EPSILON : float) (G : Graph) (fuel : nat) (cost : list float) : M unit :=
  SolveMaximumMatching EPSILON G fuel ;;
  p <- gets perfect ;;
  if negb p then throw NoPerfectMatching
  else initialise EPSILON G cost ;; modify (set_perfect false).

(* ================================================================== *)
(** ** The candidates of the dual step, as the spec describes them *)

Section DualStep.

Variable EPSILON : float.
Variable G : Graph.











End DualStep.

(* ================================================================== *)
(** ** The choice of [Expand] *)

Section Choice.

Variable EPSILON : float.
Variable G : Graph.

(** [(index, p, q)] is the least edge index over the pairs of [pairs] that
    are adjacent and not blocked, with its end points; [(m, -1, -1)] when no
    pair is. *)
Definition least_tight (s : Matching) (pairs : list (Z * Z)) (acc : Z * Z * Z) : Prop :=
  let index := fst (fst acc) in
  let p := snd (fst acc) in
  let q := snd acc in
  (index = Gr.GetNumEdges G /\ p = -1 /\ q = -1 /\
   forall di dj, In (di, dj) pairs -> adjacent EPSILON G s di dj <> Some true) \/
  (In (p, q) pairs /\ adjacent EPSILON G s p q = Some true /\
   Gr.GetEdgeIndex G p q = index /\ 0 <= index < Gr.GetNumEdges G /\
   forall di dj, In (di, dj) pairs -> adjacent EPSILON G s di dj = Some true ->
                 index <= Gr.GetEdgeIndex G di dj).

End Choice.

(* ================================================================== *)
(** ** The sweep of [RetrieveMatching] *)

Section Sweep.

Variable EPSILON : float.
Variable G : Graph.

(** [active[i] and mate[i] != -1 and outer[i] == i], read with the short
    circuits of the source. *)
Definition wanted (s : Matching) (i : Z) : option bool :=
  match Vec.get (active s) i with
  | None => None
  | Some false => Some false
  | Some true =>
      match Vec.get (mate s) i with
      | None => None
      | Some mi =>
          if mi =? -1 then Some false
          else
            match Vec.get (outer s) i with
            | None => None
            | Some o => Some (o =? i)
            end
      end
  end.

(** [sweep fuel l s expanded s']: going through the indices [l] in order
    from state [s], calling [Expand(i, true)] for exactly those [i] for which
    [wanted] holds when their turn comes, ends in [s']; [expanded] lists the
    indices for which the call was made. *)
Inductive sweep (fuel : nat) : list Z -> Matching -> list Z -> Matching -> Prop :=
| sweep_done (s : Matching) : sweep fuel [] s [] s
| sweep_skip (i : Z) (l : list Z) (s s' : Matching) (expanded : list Z) :
    wanted s i = Some false ->
    sweep fuel l s expanded s' ->
    sweep fuel (i :: l) s expanded s'
| sweep_expand (i : Z) (l : list Z) (s s1 s' : Matching) (expanded : list Z) :
    wanted s i = Some true ->
    Expand EPSILON G fuel i true s = Ok (tt, s1) ->
    sweep fuel l s1 expanded s' ->
    sweep fuel (i :: l) s (i :: expanded) s'.

(** The mates of the two ends of every edge agree with each other. *)
Definition symmetric_on_edges (s : Matching) : Prop :=
  forall i u v, Gr.GetEdge G i = Some (u, v) ->
    (Vec.get (mate s) u = Some v <-> Vec.get (mate s) v = Some u).

End Sweep.

(* ================================================================== *)
(** ** Symmetry of the matching *)

Section Symmetry.

Variable G : Graph.

(** Symmetry at the level of the outer blossoms: when the outer blossom [x]
    of a vertex has a mate [mx], the outer blossom [y] of [mx] has a mate,
    and that mate lies in [x]. *)
Definition outer_symmetric (s : Matching) : Prop :=
  forall i x mx,
    0 <= i < Gr.GetNumVertices G ->
    Vec.get (outer s) i = Some x ->
    Vec.get (mate s) x = Some mx -> mx <> -1 ->
    exists y my,
      Vec.get (outer s) mx = Some y /\ Vec.get (mate s) y = Some my /\
      my <> -1 /\ Vec.get (outer s) my = Some x.

(** Symmetry entry by entry, as the spec states it, at index [v]. *)
Definition symmetric_at (s : Matching) (v : Z) : Prop :=
  forall u, Vec.get (mate s) v = Some u -> u <> -1 -> Vec.get (mate s) u = Some v.

End Symmetry.

(* ================================================================== *)
(** ** States of the example runs *)

(** The complete graphs of the spec's scenarios 6 and 3. *)
Definition G_triangle : Graph := mkGraph 3 [(0, 1); (1, 2); (0, 2)].

Definition G_K4 : Graph := mkGraph 4 [(0, 1); (0, 2); (0, 3); (1, 2); (1, 3); (2, 3)].

(** [G_pennant] with [cost_pennant]: the entry of the loop, the state in
    which the third [UpdateDualCosts] is called (the triangle is then an
    EVEN blossom, index 7), the state that it leaves, and the state after
    the [Heuristic] of the fourth iteration. *)
Definition pennant_entry : Matching :=
  exec (enter_loop eps10 G_pennant 20 cost_pennant) (Matching_new G_pennant).

Definition pennant_grown : Matching :=
  exec (iterations eps10 G_pennant 20 2 ;; Heuristic eps10 G_pennant ;;
        Grow eps10 G_pennant 20) pennant_entry.

Definition pennant_updated : Matching :=
  exec (UpdateDualCosts eps10 G_pennant 20) pennant_grown.

Definition pennant_matched : Matching :=
  exec (iterations eps10 G_pennant 20 3 ;; Heuristic eps10 G_pennant) pennant_entry.

(** [G_kite] with [cost_kite]: the state in which the primal-dual loop
    ends, where [RetrieveMatching] starts. *)
Definition kite_final : Matching :=
  exec (enter_loop eps10 G_kite 20 cost_kite ;; primal_dual eps10 G_kite 20 20)
       (Matching_new G_kite).

(** The state in which [RetrieveMatching] then calls [Expand(7, true)], the
    call [Expand(3, true)] being done. *)
Definition kite_expanded : Matching :=
  exec (Expand eps10 G_kite 20 3 true) kite_final.



(** *** Inputs with costs of the size of the tolerance *)

(** Ten vertices: the triangles [1, 2, 3] and [4, 5, 6], joined by the edges
    5 = [(2, 6)] and 6 = [(3, 4)]; the vertex [0] joined to [1]; the vertex
    [7] joined to [5] and to [8]; and the edge [(8, 9)]. *)
Definition G_loop : Graph :=
  mkGraph 10 [(1, 2); (2, 3); (1, 3); (5, 6); (8, 9); (2, 6); (3, 4); (0, 1);
              (4, 5); (6, 4); (7, 5); (7, 8)].

Definition cost_loop : list float :=
  [0; 0; 0; 0; 0; 1.5e-10; 3e-10; 5e-10; 1.5e-10; 1.5e-10; 5e-10; 9.5e-10]%float.

(** [G_loop] with one more edge, 12 = [(0, 7)]. *)
Definition G_overlap : Graph :=
  mkGraph 10 [(1, 2); (2, 3); (1, 3); (5, 6); (8, 9); (2, 6); (3, 4); (0, 1);
              (4, 5); (6, 4); (7, 5); (7, 8); (0, 7)].

Definition cost_overlap : list float :=
  [0; 0; 0; 0; 0; 1.5e-10; 3e-10; 5e-10; 1.5e-10; 1.5e-10; 5e-10; 9.5e-10; 9e-10]%float.

(** The same two triangles and the edges 5 and 6 between them; the vertex
    [0] joined to [3], [4], [1] and [7] (edges 7, 8, 9 and 13), and the path
    [7, 8, 9]. *)
Definition G_even : Graph :=
  mkGraph 10 [(1, 2); (2, 3); (1, 3); (5, 6); (8, 9); (2, 6); (3, 4); (0, 3);
              (0, 4); (0, 1); (4, 5); (6, 4); (7, 8); (0, 7)].

Definition cost_even : list float :=
  [0; 0; 0; 0; 0; 1.5e-10; 3e-10; 5e-10; 6.5e-10; 5e-10; 1.5e-10; 1.5e-10; 9.5e-10;
   1e-9]%float.

(** [G_loop]: the entry of the loop and the state after four iterations. *)
Definition loop_entry : Matching :=
  exec (enter_loop eps10 G_loop 40 cost_loop) (Matching_new G_loop).

Definition loop_stuck : Matching :=
  exec (iterations eps10 G_loop 40 4) loop_entry.

(** [G_overlap]: the entry of the loop; the state in which the third
    [UpdateDualCosts] is called, the state that it leaves and the state
    after the [Reset] that follows; the state in which the loop ends. *)
Definition overlap_entry : Matching :=
  exec (enter_loop eps10 G_overlap 40 cost_overlap) (Matching_new G_overlap).

Definition overlap_grown : Matching :=
  exec (iterations eps10 G_overlap 40 2 ;; Heuristic eps10 G_overlap ;;
        Grow eps10 G_overlap 40) overlap_entry.

Definition overlap_updated : Matching :=
  exec (UpdateDualCosts eps10 G_overlap 40) overlap_grown.

Definition overlap_reset : Matching :=
  exec (Reset eps10 G_overlap 40) overlap_updated.

Definition overlap_exit : Matching :=
  exec (primal_dual eps10 G_overlap 40 40) overlap_entry.

(** [G_even]: the entry of the loop and the state after the [Grow] of the
    fourth iteration. *)
Definition even_entry : Matching :=
  exec (enter_loop eps10 G_even 40 cost_even) (Matching_new G_even).

Definition even_grown : Matching :=
  exec (iterations eps10 G_even 40 3 ;; Heuristic eps10 G_even ;;
        Grow eps10 G_even 40) even_entry.

(** *** Perfect matchings *)

(** The number of edges, among those with an index in [l], that have the
    vertex [v] as an end point. *)
Definition covers (G : Graph) (l : list Z) (v : Z) : Z :=
  len (filter (fun i =>
         match Gr.GetEdge G i with
         | Some (a, b) => (a =? v) || (b =? v)
         | None => false
         end) l).

(** The edges with an index in [l] form a perfect matching of [G]: the
    indices are those of edges, and every vertex is an end point of exactly
    one of them. *)
Definition perfect_matchingb (G : Graph) (l : list Z) : bool :=
  forallb (fun i => (0 <=? i) && (i <? Gr.GetNumEdges G)) l &&
  forallb (fun v => covers G l v =? 1) (Vec.range 0 (Gr.GetNumVertices G)).

(** A decidable form of [outer_symmetric]. *)
Definition outer_symmetricb (G : Graph) (s : Matching) : bool :=
  forallb (fun i =>
    match Vec.get (outer s) i with
    | Some x =>
        match Vec.get (mate s) x with
        | Some mx =>
            (mx =? -1) ||
            match Vec.get (outer s) mx with
            | Some y =>
                match Vec.get (mate s) y with
                | Some my =>
                    negb (my =? -1) &&
                    match Vec.get (outer s) my with
                    | Some x' => x' =? x
                    | None => false
                    end
                | None => false
                end
            | None => false
            end
        | None => true
        end
    | None => true
    end) (Vec.range 0 (Gr.GetNumVertices G)).

(** A decidable form of [symmetric_on_edges]. *)
Definition symmetric_on_edgesb (G : Graph) (s : Matching) : bool :=
  forallb (fun e =>
    match Vec.get (mate s) (fst e), Vec.get (mate s) (snd e) with
    | Some a, Some b => Bool.eqb (a =? snd e) (b =? fst e)
    | _, _ => false
    end) (edges G).

(** The indices of the edges of [G] whose end points are mutual mates. *)
Definition mutual_mates (G : Graph) (s : Matching) : list Z :=
  filter (fun i =>
    match Gr.GetEdge G i with
    | Some (u, v) =>
        match Vec.get (mate s) u, Vec.get (mate s) v with
        | Some a, Some b => (a =? v) && (b =? u)
        | _, _ => false
        end
    | None => false
    end) (Vec.range 0 (Gr.GetNumEdges G)).

(* ================================================================== *)
(** ** Relations between the state before and after a computation *)

(** Every normal return of [c] relates the state before to the state
    after by [R]. *)
Definition preserves (R : Matching -> Matching -> Prop) {A : Type} (c : M A) : Prop :=
  forall s a s', c s = Ok (a, s') -> R s s'.

(** A relation that compares one component of the state. *)
Definition same_on {X : Type} (p : Matching -> X) (s s' : Matching) : Prop := p s = p s'.

(** A predicate that, once true, stays true. *)
Definition keeps (P : Matching -> Prop) (s s' : Matching) : Prop := P s -> P s'.

(** No state makes [c] throw. *)
Definition nothrow {A : Type} (c : M A) : Prop := forall s e, c s <> Throw e.

(** The components that only the top-level phases write. *)
Definition costs_and_flag (s : Matching) : list float * list float * bool :=
  (slack s, dual s, perfect s).

(** A slot that is inactive before is inactive after. *)
Definition stays_inactive (s s' : Matching) : Prop :=
  forall j, Vec.get (active s) j = Some false -> Vec.get (active s') j = Some false.

(* ================================================================== *)
(** ** Notions of the further properties *)

Unset Implicit Arguments.

(** [l'] is [l] with a front part moved to the back. *)
Definition rotation {A : Type} (l l' : list A) : Prop :=
  exists a b, l = a ++ b /\ l' = b ++ a.

(** The components that neither [Expand] nor [DestroyBlossom] writes: the
    [deep] lists, the tips, the labels and links of the forest, the duals and
    slacks, and the bookkeeping of [Grow]. *)
Definition outside_expansion (s : Matching)
  : list (list Z) * list Z * list Z * list Z * list Z * list float * list float * list Z
    * list Z * bool :=
  (deep s, tip s, type s, forest s, root s, dual s, slack s, visited s, forestList s,
   perfect s).

(** No slot becomes active and no slot becomes blocked. *)
Definition only_switches_off (s s' : Matching) : Prop :=
  (forall j, Vec.get (active s') j = Some true -> Vec.get (active s) j = Some true) /\
  (forall j, Vec.get (blocked s') j = Some true -> Vec.get (blocked s) j = Some true).

(** The duals are [dual0], and the indices of [P] whose dual is GREATER than
    [0] are blocked. *)
Definition kept_blocked (EPSILON : float) (dual0 : list float) (P : Z -> Prop) (s : Matching)
  : Prop :=
  dual s = dual0 /\
  forall i d, P i -> Vec.get dual0 i = Some d -> GREATER EPSILON d 0 = true ->
    Vec.get (blocked s) i = Some true.

(** Every active pseudo-vertex of [X] that is its own outer blossom is
    blocked, with a dual GREATER than [0]. *)
Definition outer_blossoms_blocked (EPSILON : float) (G : Graph) (X : Z -> Prop) (s : Matching)
  : Prop :=
  forall i, X i -> Gr.GetNumVertices G <= i ->
    Vec.get (active s) i = Some true -> Vec.get (outer s) i = Some i ->
    Vec.get (blocked s) i = Some true /\
    exists d, Vec.get (dual s) i = Some d /\ GREATER EPSILON d 0 = true.

(** Between [s] and [s'] nothing but [outer] was written, and no index but
    [x] was made its own outer blossom. *)
Definition redirected_to (x : Z) (s s' : Matching) : Prop :=
  active s' = active s /\ blocked s' = blocked s /\ dual s' = dual s /\
  forall i, Vec.get (outer s') i = Some i -> i = x \/ Vec.get (outer s) i = Some i.

(** The components that [Reset] does not write itself. *)
Definition outside_Reset (s : Matching)
  : list Z * list Z * list (list Z) * list (list Z) * list Z * list bool * list bool
    * list float * list float * list Z * bool :=
  (free s, outer s, deep s, shallow s, tip s, active s, blocked s, dual s, slack s,
   mate s, perfect s).

(** Vertex [x] is the first vertex of an outer blossom without mate. *)
Definition first_unmatched (s : Matching) (x : Z) : Prop :=
  unmatched s x /\ forall j, 0 <= j < x -> Vec.get (outer s) j <> Vec.get (outer s) x.

(** Only [mate] differs between [s] and [s'], an entry that is not [-1] is
    kept, and no entry becomes [-1]. *)
Definition only_adds_mates (s s' : Matching) : Prop :=
  s' = fput f_mate (mate s') s /\
  (forall o x, Vec.get (mate s) o = Some x -> x <> -1 -> Vec.get (mate s') o = Some x) /\
  (forall o, Vec.get (mate s') o = Some (-1) -> Vec.get (mate s) o = Some (-1)).

(** The vectors have their sizes, the free list holds indices of
    pseudo-vertices only, and every original vertex is as [Clear] made it:
    active, not blocked, alone in its [deep] list, without members, and its
    own tip. *)
Definition intact (G : Graph) (s : Matching) : Prop :=
  sized G s /\
  (forall x, In x (free s) -> Gr.GetNumVertices G <= x < 2 * Gr.GetNumVertices G) /\
  forall i, 0 <= i < Gr.GetNumVertices G ->
    Vec.get (active s) i = Some true /\ Vec.get (blocked s) i = Some false /\
    Vec.get (deep s) i = Some [i] /\ Vec.get (shallow s) i = Some [] /\
    Vec.get (tip s) i = Some i.

(** [path_up s tp x l]: [l] is the chain [x, outer[forest[x]], ...] that
    climbs the forest from [x] and stops before [tp]; it is empty when
    [x = tp]. *)
Inductive path_up (s : Matching) (tp : Z) : Z -> list Z -> Prop :=
| path_up_here : path_up s tp tp []
| path_up_step (x f p : Z) (l : list Z) :
    x <> tp ->
    Vec.get (forest s) x = Some f -> Vec.get (outer s) f = Some p ->
    path_up s tp p l -> path_up s tp x (x :: l).

(** [root_path s x l]: [l] is the chain [x, outer[forest[x]], ...] from [x]
    to the root of its tree, the first index whose [forest] entry is
    [-1]. *)
Inductive root_path (s : Matching) : Z -> list Z -> Prop :=
| root_path_root (x : Z) :
    Vec.get (forest s) x = Some (-1) -> root_path s x [x]
| root_path_step (x f p : Z) (l : list Z) :
    Vec.get (forest s) x = Some f -> f <> -1 -> Vec.get (outer s) f = Some p ->
    root_path s p l -> root_path s x (x :: l).

(** The components that [Blossom] does not write. *)
Definition outside_Blossom (s : Matching)
  : list bool * list float * list float * bool * list Z * list Z :=
  (blocked s, dual s, slack s, perfect s, forestList s, visited s).

(** The per-index components agree at [j]. *)
Definition same_slot (s s' : Matching) (j : Z) : Prop :=
  Vec.get (tip s') j = Vec.get (tip s) j /\
  Vec.get (shallow s') j = Vec.get (shallow s) j /\
  Vec.get (deep s') j = Vec.get (deep s) j /\
  Vec.get (active s') j = Vec.get (active s) j /\
  Vec.get (type s') j = Vec.get (type s) j /\
  Vec.get (forest s') j = Vec.get (forest s) j /\
  Vec.get (root s') j = Vec.get (root s) j /\
  Vec.get (mate s') j = Vec.get (mate s) j.

(** The triangle with [0] and [1] matched, after [Reset] and after [Grow]
    has extended the tree of the root [2] through [1] to [0]: the state in
    which [Grow] calls [Blossom(0, 2)]. *)
Definition triangle_forest : Matching :=
  exec (Clear G_triangle ;; wr f_mate 0 1 ;; wr f_mate 1 0 ;;
        Reset eps10 G_triangle 10 ;; Grow_extend 2 1) (Matching_new G_triangle).

(** The slacks and the duals. *)
Definition costs (s : Matching) : list float * list float := (slack s, dual s).

(** Every pseudo-vertex whose dual is GREATER than [0] is blocked. *)
Definition positive_dual_blocked (EPSILON : float) (G : Graph) (s : Matching) : Prop :=
  forall i d, Gr.GetNumVertices G <= i < 2 * Gr.GetNumVertices G ->
    Vec.get (dual s) i = Some d -> GREATER EPSILON d 0 = true ->
    Vec.get (blocked s) i = Some true.

(** The outcome [r] with [T] applied to the state that it returns. *)
Definition rmap {A : Type} (T : Matching -> Matching) (r : result (A * Matching))
  : result (A * Matching) :=
  match r with
  | Ok (a, s) => Ok (a, T s)
  | Throw e => Throw e
  | Undefined => Undefined
  | OutOfFuel => OutOfFuel
  end.

(** [c] neither reads nor writes what [T] changes: running [c] after [T] is
    running [c] and then applying [T]. *)
Definition independent_of (T : Matching -> Matching) {A : Type} (c : M A) : Prop :=
  forall s, c (T s) = rmap T (c s).

(** Running [c] after [T] is running [c] and then applying [T']. *)
Definition carries (T T' : Matching -> Matching) {A : Type} (c : M A) : Prop :=
  forall s, c (T s) = rmap T' (c s).

(** The bookkeeping of [Grow] replaced by given values. *)
Definition set_bookkeeping (V F : list Z) (s : Matching) : Matching :=
  fput f_visited V (set_forestList F s).

(* ================================================================== *)
(** * Properties *)

Unset Implicit Arguments.

(** ** Vectors *)

Lemma get_Some_range (A : Type) (v : list A) (i : Z) (x : A) :
  Vec.get v i = Some x -> 0 <= i < Z.of_nat (length v).
Proof.
  unfold Vec.get. destruct (Z.ltb_spec i 0); [discriminate|].
  intros H1. assert (Hn : (Z.to_nat i < length v)%nat).
  { apply nth_error_Some. congruence. }
  lia.
Qed.

Lemma get_in_range (A : Type) (v : list A) (i : Z) :
  0 <= i < Z.of_nat (length v) -> exists x, Vec.get v i = Some x.
Proof.
  intros H. unfold Vec.get. destruct (Z.ltb_spec i 0); [lia|].
  destruct (nth_error v (Z.to_nat i)) eqn:E; [eauto|].
  apply nth_error_None in E. lia.
Qed.

Lemma get_None_range (A : Type) (v : list A) (i : Z) :
  Vec.get v i = None -> i < 0 \/ Z.of_nat (length v) <= i.
Proof.
  intros H. destruct (Z_lt_dec i 0); [auto|].
  destruct (Z_le_dec (Z.of_nat (length v)) i); [auto|].
  destruct (@get_in_range A v i) as [x Hx]; [lia|congruence].
Qed.

Lemma length_upd (A : Type) (v : list A) (i : nat) (x : A) :
  length (Vec.upd v i x) = length v.
Proof.
  revert i. induction v as [|h t IH]; intros [|j]; simpl; auto.
Qed.

Lemma nth_error_upd (A : Type) (v : list A) (i j : nat) (x : A) :
  (i < length v)%nat ->
  nth_error (Vec.upd v i x) j = if Nat.eqb j i then Some x else nth_error v j.
Proof.
  revert i j. induction v as [|h t IH]; intros i j Hi; simpl in Hi; [lia|].
  destruct i as [|i]; destruct j as [|j]; simpl; auto.
  apply IH. lia.
Qed.

Lemma set_Some (A : Type) (v v' : list A) (i : Z) (x : A) :
  Vec.set v i x = Some v' ->
  0 <= i < Z.of_nat (length v) /\ length v' = length v /\
  forall j, Vec.get v' j = if j =? i then Some x else Vec.get v j.
Proof.
  unfold Vec.set. destruct (Z.leb_spec 0 i); simpl; [|discriminate].
  destruct (Z.ltb_spec i (Z.of_nat (length v))); [|discriminate].
  intros E. inversion E; subst v'; clear E.
  split; [lia|]. split; [apply length_upd|].
  intros j. unfold Vec.get. destruct (Z.ltb_spec j 0).
  - destruct (Z.eqb_spec j i); [lia|reflexivity].
  - rewrite nth_error_upd by lia.
    destruct (Z.eqb_spec j i).
    + subst. rewrite Nat.eqb_refl. reflexivity.
    + destruct (Nat.eqb_spec (Z.to_nat j) (Z.to_nat i)); [lia|reflexivity].
Qed.

Lemma set_in_range (A : Type) (v : list A) (i : Z) (x : A) :
  0 <= i < Z.of_nat (length v) -> exists v', Vec.set v i x = Some v'.
Proof.
  intros H. unfold Vec.set.
  destruct (Z.leb_spec 0 i); [|lia].
  destruct (Z.ltb_spec i (Z.of_nat (length v))); [|lia].
  simpl. eauto.
Qed.

Lemma length_make (A : Type) (k : Z) (x : A) :
  0 <= k -> Z.of_nat (length (Vec.make k x)) = k.
Proof. intros H. unfold Vec.make. rewrite repeat_length. lia. Qed.

Lemma get_make (A : Type) (k i : Z) (x : A) :
  0 <= i < k -> Vec.get (Vec.make k x) i = Some x.
Proof.
  intros H. destruct (@get_in_range A (Vec.make k x) i) as [y Hy].
  { rewrite length_make; lia. }
  rewrite Hy. f_equal.
  unfold Vec.get in Hy. destruct (i <? 0); [discriminate|].
  apply nth_error_In in Hy. unfold Vec.make in Hy.
  apply repeat_spec in Hy. exact Hy.
Qed.

Lemma in_range (lo hi i : Z) : In i (Vec.range lo hi) <-> lo <= i < hi.
Proof.
  unfold Vec.range. rewrite in_map_iff. split.
  - intros [k [Hk Hin]]. apply in_seq in Hin. lia.
  - intros H. exists (Z.to_nat (i - lo)). split; [lia|].
    apply in_seq. lia.
Qed.

Lemma range_nil (lo hi : Z) : hi <= lo -> Vec.range lo hi = [].
Proof.
  intros H. unfold Vec.range. replace (Z.to_nat (hi - lo)) with O by lia. reflexivity.
Qed.

Lemma range_cons (lo hi : Z) :
  lo < hi -> Vec.range lo hi = lo :: Vec.range (lo + 1) hi.
Proof.
  intros H. unfold Vec.range.
  replace (Z.to_nat (hi - lo)) with (S (Z.to_nat (hi - (lo + 1)))) by lia.
  simpl. f_equal; [lia|].
  rewrite <- seq_shift, map_map. apply map_ext. intros a. lia.
Qed.

Lemma range_snoc (lo hi : Z) :
  lo <= hi -> Vec.range lo (hi + 1) = Vec.range lo hi ++ [hi].
Proof.
  intros H. unfold Vec.range.
  replace (Z.to_nat (hi + 1 - lo)) with (Z.to_nat (hi - lo) + 1)%nat by lia.
  rewrite seq_app, map_app. simpl. f_equal. f_equal. lia.
Qed.

Lemma NoDup_range (lo hi : Z) : NoDup (Vec.range lo hi).
Proof.
  unfold Vec.range. apply Injective_map_NoDup; [|apply seq_NoDup].
  intros a b. lia.
Qed.

(** ** The monad *)

Lemma bind_Ok (A B : Type) (c : M A) (k : A -> M B) (s : Matching) (r : B * Matching) :
  bind c k s = Ok r -> exists a s1, c s = Ok (a, s1) /\ k a s1 = Ok r.
Proof.
  unfold bind. destruct (c s) as [[a s1]| | |]; try discriminate. eauto.
Qed.

Lemma bind_Throw (A B : Type) (c : M A) (k : A -> M B) (s : Matching) (e : error) :
  bind c k s = Throw e ->
  c s = Throw e \/ exists a s1, c s = Ok (a, s1) /\ k a s1 = Throw e.
Proof.
  unfold bind. destruct (c s) as [[a s1]|e0| |]; intros H; try discriminate.
  - right. eauto.
  - left. inversion H. reflexivity.
Qed.

Lemma bind_step (A B : Type) (c : M A) (k : A -> M B) (s s1 : Matching) (a : A) :
  c s = Ok (a, s1) -> bind c k s = k a s1.
Proof. unfold bind. intros ->. reflexivity. Qed.

Lemma ret_Ok (A : Type) (a b : A) (s s' : Matching) :
  ret a s = Ok (b, s') -> b = a /\ s' = s.
Proof. unfold ret. intros H. inversion H. auto. Qed.

Lemma gets_Ok (A : Type) (f : Matching -> A) (b : A) (s s' : Matching) :
  gets f s = Ok (b, s') -> b = f s /\ s' = s.
Proof. unfold gets. intros H. inversion H. auto. Qed.

Lemma modify_Ok (f : Matching -> Matching) (u : unit) (s s' : Matching) :
  modify f s = Ok (u, s') -> s' = f s.
Proof. unfold modify. intros H. inversion H. auto. Qed.

Lemma reads_Ok (A : Type) (f : Matching -> option A) (b : A) (s s' : Matching) :
  reads f s = Ok (b, s') -> f s = Some b /\ s' = s.
Proof. unfold reads. destruct (f s); intros H; inversion H. auto. Qed.

Lemma rd_Ok (A : Type) (f : field A) (i : Z) (b : A) (s s' : Matching) :
  rd f i s = Ok (b, s') -> Vec.get (fget f s) i = Some b /\ s' = s.
Proof. apply reads_Ok. Qed.

Lemma wr_Ok (A : Type) (f : field A) (i : Z) (x : A) (u : unit) (s s' : Matching) :
  wr f i x s = Ok (u, s') ->
  exists v, Vec.set (fget f s) i x = Some v /\ s' = fput f v s.
Proof.
  unfold wr. destruct (Vec.set (fget f s) i x); intros H; inversion H. eauto.
Qed.

Lemma assign_Ok (A : Type) (f : field A) (v : list A) (u : unit) (s s' : Matching) :
  assign f v s = Ok (u, s') -> s' = fput f v s.
Proof. apply modify_Ok. Qed.

(** Break a successful run into the runs of its parts. *)
Ltac minv H :=
  match type of H with
  | bind _ _ _ = Ok _ =>
      let a := fresh "a" in let s1 := fresh "s" in
      let H1 := fresh "R" in let H2 := fresh "R" in
      apply bind_Ok in H; destruct H as [a [s1 [H1 H2]]];
      minv H1; minv H2
  | ret _ _ = Ok _ =>
      let E1 := fresh "E" in let E2 := fresh "E" in
      apply ret_Ok in H; destruct H as [E1 E2]; try subst
  | gets _ _ = Ok _ =>
      let E1 := fresh "E" in let E2 := fresh "E" in
      apply gets_Ok in H; destruct H as [E1 E2]; try subst
  | modify _ _ = Ok _ => apply modify_Ok in H; try subst
  | assign _ _ _ = Ok _ => apply assign_Ok in H; try subst
  | rd _ _ _ = Ok _ =>
      let E2 := fresh "E" in
      apply rd_Ok in H; destruct H as [H E2]; try subst
  | reads _ _ = Ok _ =>
      let E2 := fresh "E" in
      apply reads_Ok in H; destruct H as [H E2]; try subst
  | wr _ _ _ _ = Ok _ =>
      let v := fresh "v" in let E2 := fresh "E" in
      apply wr_Ok in H; destruct H as [v [H E2]]; try subst
  | undefined _ = Ok _ => discriminate H
  | out_of_fuel _ = Ok _ => discriminate H
  | throw _ _ = Ok _ => discriminate H
  | _ => idtac
  end.

(** *** Relations between the state before and after *)

Section Preserves.

Variable R : Matching -> Matching -> Prop.
Hypothesis R_refl : forall s, R s s.
Hypothesis R_trans : forall s1 s2 s3, R s1 s2 -> R s2 s3 -> R s1 s3.

Lemma preserves_ret (A : Type) (a : A) : preserves R (ret a).
Proof. intros s b s' H. minv H. apply R_refl. Qed.

Lemma preserves_gets (A : Type) (f : Matching -> A) : preserves R (gets f).
Proof. intros s b s' H. minv H. apply R_refl. Qed.

Lemma preserves_reads (A : Type) (f : Matching -> option A) : preserves R (reads f).
Proof. intros s b s' H. minv H. apply R_refl. Qed.

Lemma preserves_rd (A : Type) (f : field A) (i : Z) : preserves R (rd f i).
Proof. apply preserves_reads. Qed.

Lemma preserves_undefined (A : Type) : preserves R (@undefined A).
Proof. intros s b s' H. discriminate. Qed.

Lemma preserves_out_of_fuel (A : Type) : preserves R (@out_of_fuel A).
Proof. intros s b s' H. discriminate. Qed.

Lemma preserves_throw (A : Type) (e : error) : preserves R (@throw A e).
Proof. intros s b s' H. discriminate. Qed.

Lemma preserves_modify (f : Matching -> Matching) :
  (forall s, R s (f s)) -> preserves R (modify f).
Proof. intros Hf s b s' H. minv H. apply Hf. Qed.

Lemma preserves_wr (A : Type) (f : field A) (i : Z) (x : A) :
  (forall s v, Vec.set (fget f s) i x = Some v -> R s (fput f v s)) ->
  preserves R (wr f i x).
Proof. intros Hf s b s' H. minv H. apply Hf. assumption. Qed.

Lemma preserves_bind (A B : Type) (c : M A) (k : A -> M B) :
  preserves R c -> (forall a, preserves R (k a)) -> preserves R (bind c k).
Proof.
  intros Hc Hk s b s' H. apply bind_Ok in H. destruct H as [a [s1 [H1 H2]]].
  eapply R_trans; [eapply Hc; eassumption|eapply Hk; eassumption].
Qed.

Lemma preserves_forM (A : Type) (l : list A) (body : A -> M unit) :
  (forall x, In x l -> preserves R (body x)) -> preserves R (forM l body).
Proof.
  induction l as [|x t IH]; intros Hb; simpl.
  - apply preserves_ret.
  - apply preserves_bind; [apply Hb; left; reflexivity|].
    intros _. apply IH. intros y Hy. apply Hb. right. assumption.
Qed.

Lemma preserves_foldM (A B : Type) (l : list B) (f : A -> B -> M A) (a : A) :
  (forall a x, preserves R (f a x)) -> preserves R (foldM l f a).
Proof.
  intros Hf. revert a. induction l as [|x t IH]; intros a; simpl.
  - apply preserves_ret.
  - apply preserves_bind; [apply Hf|]. intros a'. apply IH.
Qed.

End Preserves.

Lemma same_on_refl (X : Type) (p : Matching -> X) (s : Matching) : same_on p s s.
Proof. reflexivity. Qed.

Lemma same_on_trans (X : Type) (p : Matching -> X) (s1 s2 s3 : Matching) :
  same_on p s1 s2 -> same_on p s2 s3 -> same_on p s1 s3.
Proof. unfold same_on. congruence. Qed.

Lemma keeps_refl (P : Matching -> Prop) (s : Matching) : keeps P s s.
Proof. intros H. exact H. Qed.

Lemma keeps_trans (P : Matching -> Prop) (s1 s2 s3 : Matching) :
  keeps P s1 s2 -> keeps P s2 s3 -> keeps P s1 s3.
Proof. unfold keeps. auto. Qed.

Create HintDb pres.

(** The structural steps of a [preserves] proof; [side] closes what a write
    or a whole-state update leaves, [known] the calls of other methods. *)
Ltac pres_with rfl trn side known :=
  lazymatch goal with
  | |- preserves _ (bind _ _) =>
      apply (@preserves_bind _ trn); [pres_with rfl trn side known
                                  |intros; pres_with rfl trn side known]
  | |- preserves _ (ret _) => apply (@preserves_ret _ rfl)
  | |- preserves _ (gets _) => apply (@preserves_gets _ rfl)
  | |- preserves _ (reads _) => apply (@preserves_reads _ rfl)
  | |- preserves _ (rd _ _) => apply (@preserves_rd _ rfl)
  | |- preserves _ (wr _ _ _) => apply preserves_wr; intros; side
  | |- preserves _ (modify _) => apply preserves_modify; intros; side
  | |- preserves _ (assign _ _) => apply preserves_modify; intros; side
  | |- preserves _ (@undefined _) => apply preserves_undefined
  | |- preserves _ (@out_of_fuel _) => apply preserves_out_of_fuel
  | |- preserves _ (@throw _ _) => apply preserves_throw
  | |- preserves _ (forM _ _) =>
      apply (@preserves_forM _ rfl trn); intros; pres_with rfl trn side known
  | |- preserves _ (foldM _ _ _) =>
      apply (@preserves_foldM _ rfl trn); intros; pres_with rfl trn side known
  | |- preserves _ (if ?b then _ else _) =>
      destruct b; pres_with rfl trn side known
  | |- preserves _ (match ?x with _ => _ end) =>
      destruct x; pres_with rfl trn side known
  | |- _ => first [assumption | known | idtac]
  end.

(** ** No method but the public one throws *)

Lemma nothrow_ret (A : Type) (a : A) : nothrow (ret a).
Proof. intros s e H. discriminate. Qed.

Lemma nothrow_gets (A : Type) (f : Matching -> A) : nothrow (gets f).
Proof. intros s e H. discriminate. Qed.

Lemma nothrow_modify (f : Matching -> Matching) : nothrow (modify f).
Proof. intros s e H. discriminate. Qed.

Lemma nothrow_reads (A : Type) (f : Matching -> option A) : nothrow (reads f).
Proof. intros s e. unfold reads. destruct (f s); discriminate. Qed.

Lemma nothrow_wr (A : Type) (f : field A) (i : Z) (x : A) : nothrow (wr f i x).
Proof. intros s e. unfold wr. destruct (Vec.set (fget f s) i x); discriminate. Qed.

Lemma nothrow_undefined (A : Type) : nothrow (@undefined A).
Proof. intros s e H. discriminate. Qed.

Lemma nothrow_out_of_fuel (A : Type) : nothrow (@out_of_fuel A).
Proof. intros s e H. discriminate. Qed.

Lemma nothrow_bind (A B : Type) (c : M A) (k : A -> M B) :
  nothrow c -> (forall a, nothrow (k a)) -> nothrow (bind c k).
Proof.
  intros Hc Hk s e H. apply bind_Throw in H. destruct H as [H|[a [s1 [_ H]]]].
  - exact (Hc s e H).
  - exact (Hk a s1 e H).
Qed.

Lemma nothrow_forM (A : Type) (l : list A) (body : A -> M unit) :
  (forall x, nothrow (body x)) -> nothrow (forM l body).
Proof.
  intros Hb. induction l as [|x t IH]; simpl.
  - apply nothrow_ret.
  - apply nothrow_bind; [apply Hb|]. intros _. exact IH.
Qed.

Lemma nothrow_foldM (A B : Type) (l : list B) (f : A -> B -> M A) (a : A) :
  (forall a x, nothrow (f a x)) -> nothrow (foldM l f a).
Proof.
  intros Hf. revert a. induction l as [|x t IH]; intros a; simpl.
  - apply nothrow_ret.
  - apply nothrow_bind; [apply Hf|]. intros a'. apply IH.
Qed.

Ltac nothrow_with known :=
  lazymatch goal with
  | |- nothrow (bind _ _) =>
      apply nothrow_bind; [nothrow_with known|intros; nothrow_with known]
  | |- nothrow (ret _) => apply nothrow_ret
  | |- nothrow (gets _) => apply nothrow_gets
  | |- nothrow (reads _) => apply nothrow_reads
  | |- nothrow (rd _ _) => apply nothrow_reads
  | |- nothrow (wr _ _ _) => apply nothrow_wr
  | |- nothrow (modify _) => apply nothrow_modify
  | |- nothrow (assign _ _) => apply nothrow_modify
  | |- nothrow (@undefined _) => apply nothrow_undefined
  | |- nothrow (@out_of_fuel _) => apply nothrow_out_of_fuel
  | |- nothrow (forM _ _) => apply nothrow_forM; intros; nothrow_with known
  | |- nothrow (foldM _ _ _) => apply nothrow_foldM; intros; nothrow_with known
  | |- nothrow (if ?b then _ else _) => destruct b; nothrow_with known
  | |- nothrow (match ?x with _ => _ end) => destruct x; nothrow_with known
  | |- _ => first [assumption | known | idtac]
  end.

Section EngineFacts.

Variable EPSILON : float.
Variable G : Graph.

Local Abbreviation n := (Gr.GetNumVertices G).
Local Abbreviation m := (Gr.GetNumEdges G).

Lemma nothrow_DestroyBlossom (fuel : nat) (t : Z) :
  nothrow (DestroyBlossom EPSILON G fuel t).
Proof.
  revert t. induction fuel as [|fuel IH]; intros t; simpl.
  - apply nothrow_out_of_fuel.
  - unfold AddFreeBlossomIndex. nothrow_with ltac:(apply IH).
Qed.

Lemma nothrow_Expand_rotate (fuel : nat) (u p : Z) :
  nothrow (Expand_rotate fuel u p).
Proof.
  revert u p. induction fuel as [|fuel IH]; intros u p; simpl.
  - apply nothrow_out_of_fuel.
  - nothrow_with ltac:(apply IH).
Qed.

Lemma nothrow_Expand_pairs (l : list Z) : nothrow (Expand_pairs l).
Proof.
  assert (H : forall k l, (length l <= k)%nat -> nothrow (Expand_pairs l)).
  { clear l. induction k as [|k IH]; intros l Hl.
    - destruct l; [apply nothrow_ret|simpl in Hl; lia].
    - destruct l as [|a [|b r]]; simpl.
      + apply nothrow_ret.
      + apply nothrow_undefined.
      + nothrow_with ltac:(apply IH; simpl in Hl; lia). }
  apply (H (length l)). lia.
Qed.

Lemma nothrow_Expand (fuel : nat) (u : Z) (b : bool) :
  nothrow (Expand EPSILON G fuel u b).
Proof.
  revert u b. induction fuel as [|fuel IH]; intros u b; simpl.
  - apply nothrow_out_of_fuel.
  - unfold Expand_remate, release_members, AddFreeBlossomIndex.
    nothrow_with ltac:(first [apply IH|apply nothrow_Expand_rotate|apply nothrow_Expand_pairs]).
Qed.

Lemma nothrow_Augment_pair (fuel : nat) (p q : Z) :
  nothrow (Augment_pair EPSILON G fuel p q).
Proof. unfold Augment_pair. nothrow_with ltac:(apply nothrow_Expand). Qed.

Lemma nothrow_Augment_walk (fuel k : nat) (p fp : Z) :
  nothrow (Augment_walk EPSILON G fuel k p fp).
Proof.
  revert p fp. induction k as [|k IH]; intros p fp; simpl.
  - nothrow_with idtac.
  - nothrow_with ltac:(first [apply IH|apply nothrow_Augment_pair]).
Qed.

Lemma nothrow_Augment (fuel : nat) (u v : Z) : nothrow (Augment EPSILON G fuel u v).
Proof.
  unfold Augment.
  nothrow_with ltac:(first [apply nothrow_Augment_walk|apply nothrow_Augment_pair]).
Qed.

Lemma nothrow_Reset (fuel : nat) : nothrow (Reset EPSILON G fuel).
Proof.
  unfold Reset, Reset_roots. nothrow_with ltac:(apply nothrow_DestroyBlossom).
Qed.

Lemma nothrow_Blossom_mark (k : nat) (u_ : Z) (isInPath : list bool) :
  nothrow (Blossom_mark k u_ isInPath).
Proof.
  revert u_ isInPath. induction k as [|k IH]; intros u_ isInPath; simpl;
    nothrow_with ltac:(apply IH).
Qed.

Lemma nothrow_Blossom_tip (k : nat) (v_ : Z) (isInPath : list bool) :
  nothrow (Blossom_tip k v_ isInPath).
Proof.
  revert v_. induction k as [|k IH]; intros v_; simpl;
    nothrow_with ltac:(apply IH).
Qed.

Lemma nothrow_Blossom_circuit (k : nat) (u_ tp : Z) (circuit : list Z) :
  nothrow (Blossom_circuit k u_ tp circuit).
Proof.
  revert u_ circuit. induction k as [|k IH]; intros u_ circuit; simpl;
    nothrow_with ltac:(apply IH).
Qed.

Lemma nothrow_Blossom_tail (k : nat) (t v_ tp : Z) :
  nothrow (Blossom_tail k t v_ tp).
Proof.
  revert v_. induction k as [|k IH]; intros v_; simpl;
    nothrow_with ltac:(apply IH).
Qed.

Lemma nothrow_Blossom (fuel : nat) (u v : Z) : nothrow (Blossom G fuel u v).
Proof.
  unfold Blossom, GetFreeBlossomIndex, Blossom_absorb.
  nothrow_with ltac:(first [apply nothrow_Blossom_mark|apply nothrow_Blossom_tip
                           |apply nothrow_Blossom_circuit|apply nothrow_Blossom_tail]).
Qed.

Lemma nothrow_Grow_adj (fuel : nat) (u : Z) (adj : list Z) :
  nothrow (Grow_adj EPSILON G fuel u adj).
Proof.
  induction adj as [|v rest IH]; simpl.
  - apply nothrow_ret.
  - unfold IsEdgeBlocked2, Grow_extend.
    nothrow_with ltac:(first [apply IH|apply nothrow_Augment|apply nothrow_Reset
                             |apply nothrow_Blossom]).
Qed.

Lemma nothrow_Grow_deep (fuel : nat) (dw : list Z) :
  nothrow (Grow_deep EPSILON G fuel dw).
Proof.
  induction dw as [|u rest IH]; simpl.
  - apply nothrow_ret.
  - nothrow_with ltac:(first [apply IH|apply nothrow_Grow_adj]).
Qed.

Lemma nothrow_Grow_forest (fuel k : nat) : nothrow (Grow_forest EPSILON G fuel k).
Proof.
  induction k as [|k IH]; simpl;
    nothrow_with ltac:(first [apply IH|apply nothrow_Grow_deep]).
Qed.

Lemma nothrow_Grow (fuel : nat) : nothrow (Grow EPSILON G fuel).
Proof.
  unfold Grow, check_perfect.
  nothrow_with ltac:(first [apply nothrow_Reset|apply nothrow_Grow_forest]).
Qed.

Lemma nothrow_UpdateDualCosts (fuel : nat) : nothrow (UpdateDualCosts EPSILON G fuel).
Proof.
  unfold UpdateDualCosts, update_duals, update_slacks, update_blocked.
  nothrow_with ltac:(first [apply nothrow_DestroyBlossom|apply nothrow_Expand]).
Qed.

Lemma nothrow_Clear : nothrow (Clear G).
Proof.
  unfold Clear, ClearBlossomIndices, AddFreeBlossomIndex. nothrow_with idtac.
Qed.

Lemma nothrow_Heuristic : nothrow (Heuristic EPSILON G).
Proof.
  unfold Heuristic, Heuristic_degrees, Heuristic_visit, Heuristic_pick,
    IsEdgeBlocked, IsEdgeBlocked2.
  nothrow_with idtac.
Qed.

Lemma nothrow_PositiveCosts : nothrow (PositiveCosts EPSILON G).
Proof. unfold PositiveCosts. nothrow_with idtac. Qed.

Lemma nothrow_RetrieveMatching (fuel : nat) : nothrow (RetrieveMatching EPSILON G fuel).
Proof.
  unfold RetrieveMatching, expand_all. nothrow_with ltac:(apply nothrow_Expand).
Qed.

Lemma nothrow_SolveMaximumMatching (fuel : nat) :
  nothrow (SolveMaximumMatching EPSILON G fuel).
Proof.
  unfold SolveMaximumMatching.
  nothrow_with ltac:(first [apply nothrow_Clear|apply nothrow_Grow
                           |apply nothrow_RetrieveMatching]).
Qed.

Lemma nothrow_initialise (cost : list float) : nothrow (initialise EPSILON G cost).
Proof.
  unfold initialise.
  nothrow_with ltac:(first [apply nothrow_Clear|apply nothrow_PositiveCosts]).
Qed.

Lemma nothrow_iteration (fuel : nat) : nothrow (iteration EPSILON G fuel).
Proof.
  unfold iteration.
  nothrow_with ltac:(first [apply nothrow_Heuristic|apply nothrow_Grow
                           |apply nothrow_UpdateDualCosts|apply nothrow_Reset]).
Qed.

Lemma nothrow_primal_dual (fuel k : nat) : nothrow (primal_dual EPSILON G fuel k).
Proof.
  induction k as [|k IH]; simpl;
    nothrow_with ltac:(first [apply IH|apply nothrow_iteration]).
Qed.

(** ** Loops *)

Lemma forM_inv (A : Type) (I : list A -> Matching -> Prop) (body : A -> M unit)
  (l : list A) :
  (forall done x s s', In x l -> I done s -> body x s = Ok (tt, s') -> I (done ++ [x]) s') ->
  forall s s', I [] s -> forM l body s = Ok (tt, s') -> I l s'.
Proof.
  intros Hstep.
  assert (H : forall rest done s s', l = done ++ rest -> I done s ->
            forM rest body s = Ok (tt, s') -> I l s').
  { induction rest as [|x t IH]; intros done s s' El Hi Hr; simpl in Hr.
    - apply ret_Ok in Hr. destruct Hr as [_ Hr]. rewrite app_nil_r in El.
      subst. assumption.
    - apply bind_Ok in Hr. destruct Hr as [[] [s1 [H1 H2]]].
      apply (IH (done ++ [x]) s1 s'); auto.
      + rewrite <- app_assoc. exact El.
      + apply (Hstep done x s s1); auto. subst l. apply in_or_app. right. left. reflexivity. }
  intros s s' Hi Hr. apply (H l [] s s'); auto.
Qed.

Lemma fold_opt_inv (A B : Type) (I : list B -> A -> Prop) (f : A -> B -> option A)
  (l : list B) :
  (forall done x a a', In x l -> I done a -> f a x = Some a' -> I (done ++ [x]) a') ->
  forall a a', I [] a -> fold_opt f l a = Some a' -> I l a'.
Proof.
  intros Hstep.
  assert (H : forall rest done a a', l = done ++ rest -> I done a ->
            fold_opt f rest a = Some a' -> I l a').
  { induction rest as [|x t IH]; intros done a a' El Hi Hr; simpl in Hr.
    - inversion Hr; subst. rewrite app_nil_r. assumption.
    - destruct (f a x) as [a1|] eqn:E; [|discriminate].
      apply (IH (done ++ [x]) a1 a'); auto.
      + rewrite <- app_assoc. exact El.
      + apply (Hstep done x a a1); auto. subst l. apply in_or_app. right. left. reflexivity. }
  intros a a' Hi Hr. apply (H l [] a a'); auto.
Qed.

(** ** The perfect flag *)

Lemma check_perfect_spec (s s' : Matching) :
  check_perfect G s = Ok (tt, s') ->
  s' = set_perfect (perfect s') s /\
  (perfect s' = false <-> exists i, 0 <= i < n /\ unmatched s i).
Proof.
  unfold check_perfect. intros H. minv H.
  apply (forM_inv _ (fun done t =>
    t = set_perfect (perfect t) s /\
    (perfect t = false <-> exists i, In i done /\ unmatched s i))) in R0 as H0.
  - destruct H0 as [H1 H2]. split; [exact H1|].
    rewrite H2. split; intros [i [Hi Hu]]; exists i; split; auto; apply in_range; auto.
  - clear. intros done x t t' Hx [Ht Hd] Hb. minv Hb.
    assert (Eo : outer t = outer s) by (rewrite Ht; reflexivity).
    assert (Em : mate t = mate s) by (rewrite Ht; reflexivity).
    destruct (Z.eqb_spec a0 (-1)) as [E|E]; minv R2.
    + split; [simpl; rewrite Ht; reflexivity|]. simpl.
      split; [intros _|reflexivity].
      exists x. split; [apply in_or_app; right; left; reflexivity|].
      exists a. simpl in R1, R. rewrite <- Eo, <- Em. auto.
    + split; [exact Ht|]. rewrite Hd. split.
      * intros [i [Hi Hu]]. exists i. split; [apply in_or_app; left; exact Hi|exact Hu].
      * intros [i [Hi Hu]]. apply in_app_or in Hi. destruct Hi as [Hi|[Hi|[]]].
        -- exists i. auto.
        -- subst i. destruct Hu as [o [Ho Hm]]. simpl in R1, R.
           rewrite <- Eo in Ho. rewrite <- Em in Hm. congruence.
  - split; [reflexivity|]. simpl. split; [discriminate|]. intros [i [[] _]].
Qed.

(** *** What [Expand] and [DestroyBlossom] leave alone *)

Ltac frame p known :=
  pres_with (@same_on_refl _ p) (@same_on_trans _ p) ltac:(reflexivity) known.

Lemma frame_DestroyBlossom (fuel : nat) (t : Z) :
  preserves (same_on costs_and_flag) (DestroyBlossom EPSILON G fuel t).
Proof.
  revert t. induction fuel as [|fuel IH]; intros t; simpl.
  - apply preserves_out_of_fuel.
  - unfold AddFreeBlossomIndex. frame costs_and_flag ltac:(apply IH).
Qed.

Lemma frame_Expand_rotate (fuel : nat) (u p : Z) :
  preserves (same_on costs_and_flag) (Expand_rotate fuel u p).
Proof.
  revert u p. induction fuel as [|fuel IH]; intros u p; simpl.
  - apply preserves_out_of_fuel.
  - frame costs_and_flag ltac:(apply IH).
Qed.

Lemma frame_Expand_pairs (l : list Z) :
  preserves (same_on costs_and_flag) (Expand_pairs l).
Proof.
  assert (H : forall k l, (length l <= k)%nat ->
            preserves (same_on costs_and_flag) (Expand_pairs l)).
  { clear l. induction k as [|k IH]; intros l Hl.
    - destruct l; [apply (@preserves_ret _ (@same_on_refl _ costs_and_flag))|simpl in Hl; lia].
    - destruct l as [|a [|b r]]; simpl.
      + apply (@preserves_ret _ (@same_on_refl _ costs_and_flag)).
      + apply preserves_undefined.
      + frame costs_and_flag ltac:(apply IH; simpl in Hl; lia). }
  apply (H (length l)). lia.
Qed.

Lemma frame_Expand (fuel : nat) (u : Z) (b : bool) :
  preserves (same_on costs_and_flag) (Expand EPSILON G fuel u b).
Proof.
  revert u b. induction fuel as [|fuel IH]; intros u b; simpl.
  - apply preserves_out_of_fuel.
  - unfold Expand_remate, release_members, AddFreeBlossomIndex.
    frame costs_and_flag
      ltac:(first [apply IH|apply frame_Expand_rotate|apply frame_Expand_pairs]).
Qed.

Lemma frame_RetrieveMatching (fuel : nat) :
  preserves (same_on costs_and_flag) (RetrieveMatching EPSILON G fuel).
Proof.
  unfold RetrieveMatching, expand_all. frame costs_and_flag ltac:(apply frame_Expand).
Qed.

Lemma Grow_perfect (fuel : nat) (s s' : Matching) :
  Grow EPSILON G fuel s = Ok (tt, s') ->
  (perfect s' = false <-> exists i, 0 <= i < n /\ unmatched s' i).
Proof.
  unfold Grow. intros H.
  apply bind_Ok in H. destruct H as [[] [s1 [_ H]]].
  apply bind_Ok in H. destruct H as [[] [s2 [_ H]]].
  apply check_perfect_spec in H. destruct H as [E H]. rewrite H.
  assert (Eo : outer s' = outer s2) by (rewrite E; reflexivity).
  assert (Em : mate s' = mate s2) by (rewrite E; reflexivity).
  unfold unmatched. rewrite Eo, Em. reflexivity.
Qed.

(** ** C2: the only failure *)

Lemma SolveMinimum_throws (fuel : nat) (cost : list float) (s : Matching) (e : error) :
  SolveMinimumCostPerfectMatching EPSILON G fuel cost s = Throw e ->
  e = NoPerfectMatching /\
  exists matching s2, SolveMaximumMatching EPSILON G fuel s = Ok (matching, s2) /\
                      perfect s2 = false.
Proof.
  unfold SolveMinimumCostPerfectMatching. intros H.
  apply bind_Throw in H. destruct H as [H|[matching [s2 [H1 H2]]]].
  { exfalso. exact (nothrow_SolveMaximumMatching fuel s _ H). }
  apply bind_Throw in H2. destruct H2 as [H2|[p [s3 [H2 H3]]]]; [discriminate|].
  apply gets_Ok in H2. destruct H2 as [Ep Es]. subst s3 p.
  destruct (perfect s2) eqn:Hp; simpl in H3.
  - exfalso. revert H3.
    assert (Hn : nothrow (initialise EPSILON G cost ;; modify (set_perfect false) ;;
        primal_dual EPSILON G fuel fuel ;;
        matching <- RetrieveMatching EPSILON G fuel ;;
        obj <- reads (fun _ => objective cost matching) ;; ret (matching, obj))).
    { nothrow_with ltac:(first [apply nothrow_initialise|apply nothrow_primal_dual
                               |apply nothrow_RetrieveMatching]). }
    apply Hn.
  - unfold throw in H3. inversion H3. split; [reflexivity|].
    exists matching, s2. auto.
Qed.

(** C2.  For every object state, fuel and cost vector:
    [SolveMaximumMatching] never throws; [SolveMinimumCostPerfectMatching]
    throws [NoPerfectMatching] exactly when the preliminary pass ([Clear],
    [Grow]) ends with some vertex [i < n] whose outer blossom has no mate
    ([mate[outer[i]] = -1]) and its [RetrieveMatching] returns; [NoPerfectMatching]
    is the only exception, and a run that throws returns no pair. *)
Theorem no_perfect_matching_iff (fuel : nat) (cost : list float) (s : Matching) :
  (forall e, SolveMaximumMatching EPSILON G fuel s <> Throw e) /\
  (SolveMinimumCostPerfectMatching EPSILON G fuel cost s = Throw NoPerfectMatching <->
   exists s1 matching s2,
     maximum_pass G EPSILON fuel s = Ok (tt, s1) /\
     (exists i, 0 <= i < n /\ unmatched s1 i) /\
     RetrieveMatching EPSILON G fuel s1 = Ok (matching, s2)) /\
  (forall e, SolveMinimumCostPerfectMatching EPSILON G fuel cost s = Throw e ->
     e = NoPerfectMatching /\
     forall r, SolveMinimumCostPerfectMatching EPSILON G fuel cost s <> Ok r).
Proof.
  split; [intros e; apply nothrow_SolveMaximumMatching|].
  split.
  - split.
    + intros H. destruct (SolveMinimum_throws fuel cost s _ H) as [_ [matching [s2 [H1 Hp]]]].
      unfold SolveMaximumMatching in H1.
      apply bind_Ok in H1. destruct H1 as [[] [sa [Ha H1]]].
      apply bind_Ok in H1. destruct H1 as [[] [s1 [Hb H1]]].
      exists s1, matching, s2.
      split; [unfold maximum_pass; rewrite (@bind_step _ _ _ _ _ _ _ Ha); exact Hb|].
      split; [|exact H1].
      apply (Grow_perfect _ _ _ Hb).
      apply frame_RetrieveMatching in H1. unfold same_on, costs_and_flag in H1.
      assert (E3 : perfect s1 = perfect s2) by congruence. congruence.
    + intros [s1 [matching [s2 [H1 [Hu H2]]]]].
      unfold maximum_pass in H1. apply bind_Ok in H1. destruct H1 as [[] [sa [Ha Hb]]].
      assert (Hs : SolveMaximumMatching EPSILON G fuel s = Ok (matching, s2)).
      { unfold SolveMaximumMatching.
        rewrite (@bind_step _ _ _ _ _ _ _ Ha), (@bind_step _ _ _ _ _ _ _ Hb). exact H2. }
      unfold SolveMinimumCostPerfectMatching. rewrite (@bind_step _ _ _ _ _ _ _ Hs).
      assert (Hp : perfect s2 = false).
      { apply frame_RetrieveMatching in H2. unfold same_on, costs_and_flag in H2.
        assert (E3 : perfect s1 = perfect s2) by congruence.
        rewrite <- E3. apply (Grow_perfect _ _ _ Hb). exact Hu. }
      unfold bind, gets. rewrite Hp. reflexivity.
  - intros e H. split; [apply (SolveMinimum_throws fuel cost s e H)|]. intros r Hr. congruence.
Qed.

(** ** Runs that cannot go wrong *)

Lemma get_upd (A : Type) (v : list A) (i j : Z) (x : A) :
  0 <= i < len v ->
  Vec.get (Vec.upd v (Z.to_nat i) x) j = if j =? i then Some x else Vec.get v j.
Proof.
  intros H. destruct (@set_in_range A v i x H) as [v' Hv].
  pose proof (@set_Some _ _ _ _ _ Hv) as [_ [_ Hg]].
  unfold Vec.set in Hv. destruct ((0 <=? i) && (i <? Z.of_nat (length v))); [|discriminate].
  inversion Hv; subst. apply Hg.
Qed.

Lemma len_upd (A : Type) (v : list A) (i : nat) (x : A) : len (Vec.upd v i x) = len v.
Proof. unfold len. rewrite length_upd. reflexivity. Qed.

Lemma bind_ret (A B : Type) (a : A) (k : A -> M B) (s : Matching) :
  bind (ret a) k s = k a s.
Proof. reflexivity. Qed.

Lemma bind_modify (B : Type) (f : Matching -> Matching) (k : unit -> M B) (s : Matching) :
  bind (modify f) k s = k tt (f s).
Proof. reflexivity. Qed.

Lemma bind_gets (A B : Type) (f : Matching -> A) (k : A -> M B) (s : Matching) :
  bind (gets f) k s = k (f s) s.
Proof. reflexivity. Qed.

Lemma bind_wr (A B : Type) (f : field A) (i : Z) (x : A) (k : unit -> M B) (s : Matching) :
  0 <= i < len (fget f s) ->
  bind (wr f i x) k s = k tt (fput f (Vec.upd (fget f s) (Z.to_nat i) x) s).
Proof.
  intros H. unfold bind, wr, Vec.set. unfold len in H.
  destruct (Z.leb_spec 0 i); [|lia].
  destruct (Z.ltb_spec i (Z.of_nat (length (fget f s)))); [|lia].
  reflexivity.
Qed.

Lemma wr_run (A : Type) (f : field A) (i : Z) (x : A) (s : Matching) :
  0 <= i < len (fget f s) ->
  wr f i x s = Ok (tt, fput f (Vec.upd (fget f s) (Z.to_nat i) x) s).
Proof.
  intros H. unfold wr, Vec.set. unfold len in H.
  destruct (Z.leb_spec 0 i); [|lia].
  destruct (Z.ltb_spec i (Z.of_nat (length (fget f s)))); [|lia].
  reflexivity.
Qed.

Lemma bind_rd (A B : Type) (f : field A) (i : Z) (x : A) (k : A -> M B) (s : Matching) :
  Vec.get (fget f s) i = Some x -> bind (rd f i) k s = k x s.
Proof. intros H. unfold bind, rd, reads. rewrite H. reflexivity. Qed.


Lemma forM_total (A : Type) (I : list A -> Matching -> Prop) (body : A -> M unit)
  (l : list A) :
  (forall done x s, In x l -> I done s ->
     exists s', body x s = Ok (tt, s') /\ I (done ++ [x]) s') ->
  forall s, I [] s -> exists s', forM l body s = Ok (tt, s') /\ I l s'.
Proof.
  intros Hstep.
  assert (H : forall rest done s, l = done ++ rest -> I done s ->
            exists s', forM rest body s = Ok (tt, s') /\ I l s').
  { induction rest as [|x t IH]; intros done s El Hi; simpl.
    - exists s. split; [reflexivity|]. rewrite app_nil_r in El. subst. assumption.
    - destruct (Hstep done x s) as [s1 [H1 H2]]; auto.
      { subst l. apply in_or_app. right. left. reflexivity. }
      destruct (IH (done ++ [x]) s1) as [s' [H3 H4]]; auto.
      { rewrite <- app_assoc. exact El. }
      exists s'. split; [|exact H4].
      rewrite (@bind_step _ _ _ _ _ _ _ H1). exact H3. }
  intros s Hi. apply (H l [] s); auto.
Qed.

Lemma fold_opt_total (A B : Type) (I : list B -> A -> Prop) (f : A -> B -> option A)
  (l : list B) :
  (forall done x a, In x l -> I done a -> exists a', f a x = Some a' /\ I (done ++ [x]) a') ->
  forall a, I [] a -> exists a', fold_opt f l a = Some a' /\ I l a'.
Proof.
  intros Hstep.
  assert (H : forall rest done a, l = done ++ rest -> I done a ->
            exists a', fold_opt f rest a = Some a' /\ I l a').
  { induction rest as [|x t IH]; intros done a El Hi; simpl.
    - exists a. split; [reflexivity|]. rewrite app_nil_r in El. subst. assumption.
    - destruct (Hstep done x a) as [a1 [H1 H2]]; auto.
      { subst l. apply in_or_app. right. left. reflexivity. }
      rewrite H1. apply (IH (done ++ [x]) a1); auto.
      rewrite <- app_assoc. exact El. }
  intros a Hi. apply (H l [] a); auto.
Qed.

(** ** Clear *)

Lemma ClearBlossomIndices_run (s : Matching) :
  ClearBlossomIndices G s = Ok (tt, set_free (Vec.range n (2 * n)) s).
Proof.
  unfold ClearBlossomIndices. rewrite bind_modify.
  assert (H : forall l t, forM l AddFreeBlossomIndex t = Ok (tt, set_free (free t ++ l) t)).
  { induction l as [|x r IH]; intros t; simpl.
    - rewrite app_nil_r. destruct t; reflexivity.
    - unfold AddFreeBlossomIndex at 1. rewrite bind_modify. rewrite IH. simpl.
      rewrite <- app_assoc. reflexivity. }
  rewrite H. reflexivity.
Qed.

Lemma Clear_run (s : Matching) :
  sized G s ->
  exists s', Clear G s = Ok (tt, s') /\ sized G s' /\ cleared G s' /\
             slack s' = Vec.make m 0%float /\ perfect s' = perfect s.
Proof.
  intros Hs. unfold Clear.
  rewrite (@bind_step _ _ _ _ _ _ _ (ClearBlossomIndices_run s)).
  destruct (forM_total _ (fun done t =>
      sized G t /\ free t = Vec.range n (2 * n) /\ perfect t = perfect s /\
      forall j, In j done -> cleared_at G t j)
    (fun i => wr f_outer i i ;;
      wr f_deep i (if i <? n then [i] else []) ;;
      wr f_shallow i [] ;;
      wr f_active i (i <? n) ;;
      wr f_type i 0 ;;
      wr f_forest i (-1) ;;
      wr f_root i i ;;
      wr f_blocked i false ;;
      wr f_dual i 0%float ;;
      wr f_mate i (-1) ;;
      wr f_tip i i) (Vec.range 0 (2 * n))) with (s := set_free (Vec.range n (2 * n)) s)
    as [s1 [H1 [H2 [H3 [H4 H5]]]]].
  - intros done x t Hx [Hz [Hf [Hp Hc]]]. apply in_range in Hx.
    unfold sized in Hz.
    destruct Hz as [Z0 [Z1 [Z2 [Z3 [Z4 [Z5 [Z6 [Z7 [Z8 [Z9 [Z10 [Z11 Z12]]]]]]]]]]]].
    eexists. split.
    + repeat (rewrite bind_wr by (cbn; lia)). apply wr_run. cbn. lia.
    + cbn. unfold sized. cbn. rewrite !len_upd.
      split; [tauto|]. split; [exact Hf|]. split; [exact Hp|].
      intros j Hj. unfold cleared_at. cbn.
      rewrite !get_upd by lia.
      destruct (Z.eqb_spec j x) as [E|E].
      * subst j. tauto.
      * apply in_app_or in Hj. destruct Hj as [Hj|[Hj|[]]]; [|congruence].
        apply Hc. exact Hj.
  - split; [exact Hs|]. split; [reflexivity|]. split; [reflexivity|]. intros j [].
  - rewrite (@bind_step _ _ _ _ _ _ _ H1). unfold assign, modify.
    eexists. split; [reflexivity|].
    split; [exact H2|]. split; [|split; [reflexivity|exact H4]].
    split; [exact H3|]. intros i Hi. apply H5. apply in_range. exact Hi.
Qed.

(** ** Loops over an index range *)

Lemma range_split (done rest : list Z) (x lo hi : Z) :
  Vec.range lo hi = done ++ x :: rest ->
  done = Vec.range lo x /\ rest = Vec.range (x + 1) hi /\ lo <= x < hi.
Proof.
  revert lo. induction done as [|d done IH]; intros lo H; simpl in H.
  - destruct (Z_lt_dec lo hi) as [L|L].
    + rewrite range_cons in H by lia. inversion H; subst.
      rewrite range_nil by lia. repeat split; auto; lia.
    + rewrite range_nil in H by lia. discriminate.
  - destruct (Z_lt_dec lo hi) as [L|L].
    + rewrite range_cons in H by lia. inversion H; subst.
      destruct (IH _ H2) as [E1 [E2 E3]].
      rewrite (range_cons d x) by lia. rewrite <- E1. repeat split; auto; lia.
    + rewrite range_nil in H by lia. discriminate.
Qed.

Lemma forM_total_pre (A : Type) (I : list A -> Matching -> Prop) (body : A -> M unit)
  (l : list A) :
  (forall done x rest s, l = done ++ x :: rest -> I done s ->
     exists s', body x s = Ok (tt, s') /\ I (done ++ [x]) s') ->
  forall s, I [] s -> exists s', forM l body s = Ok (tt, s') /\ I l s'.
Proof.
  intros Hstep.
  assert (H : forall rest done s, l = done ++ rest -> I done s ->
            exists s', forM rest body s = Ok (tt, s') /\ I l s').
  { induction rest as [|x t IH]; intros done s El Hi; simpl.
    - exists s. split; [reflexivity|]. rewrite app_nil_r in El. subst. assumption.
    - destruct (Hstep done x t s) as [s1 [H1 H2]]; auto.
      destruct (IH (done ++ [x]) s1) as [s' [H3 H4]]; auto.
      { rewrite <- app_assoc. exact El. }
      exists s'. split; [|exact H4].
      rewrite (@bind_step _ _ _ _ _ _ _ H1). exact H3. }
  intros s Hi. apply (H l [] s); auto.
Qed.

Lemma forM_inv_pre (A : Type) (I : list A -> Matching -> Prop) (body : A -> M unit)
  (l : list A) :
  (forall done x rest s s', l = done ++ x :: rest -> I done s ->
     body x s = Ok (tt, s') -> I (done ++ [x]) s') ->
  forall s s', I [] s -> forM l body s = Ok (tt, s') -> I l s'.
Proof.
  intros Hstep.
  assert (H : forall rest done s s', l = done ++ rest -> I done s ->
            forM rest body s = Ok (tt, s') -> I l s').
  { induction rest as [|x t IH]; intros done s s' El Hi Hr; simpl in Hr.
    - apply ret_Ok in Hr. destruct Hr as [_ Hr]. rewrite app_nil_r in El.
      subst. assumption.
    - apply bind_Ok in Hr. destruct Hr as [[] [s1 [H1 H2]]].
      apply (IH (done ++ [x]) s1 s'); auto.
      + rewrite <- app_assoc. exact El.
      + apply (Hstep done x t s s1); auto. }
  intros s s' Hi Hr. apply (H l [] s s'); auto.
Qed.


(** ** The tolerance *)

(** Subtracting [0] changes no [double], so a comparison with [0] through
    [GREATER] compares the number itself with the tolerance. *)
Lemma sub_0_r (x : float) : (x - 0)%float = x.
Proof.
  apply Prim2SF_inj. rewrite sub_spec.
  change (Prim2SF 0) with (S754_zero false).
  unfold SF64sub, SFsub.
  destruct (Prim2SF x) as [[|]|[|]| |[|] mx ex]; reflexivity.
Qed.

Lemma GREATER_zero (d : float) : GREATER EPSILON d 0 = (EPSILON <? d)%float.
Proof. unfold GREATER. rewrite sub_0_r. reflexivity. Qed.


(** With a tolerance that is not negative, [0] is not GREATER than [0]. *)
Lemma GREATER_0_0 : (0 <=? EPSILON)%float = true -> GREATER EPSILON 0 0 = false.
Proof.
  rewrite GREATER_zero, leb_spec, ltb_spec.
  change (Prim2SF 0) with (S754_zero false).
  destruct (Prim2SF EPSILON) as [[|]|[|]| |[|] mx ex]; simpl;
    try reflexivity; discriminate.
Qed.

(** ** Scans of an index range *)



Lemma fold_opt_None (A B : Type) (f : A -> B -> option A) (l : list B) (x : B) :
  In x l -> (forall a, f a x = None) -> forall a, fold_opt f l a = None.
Proof.
  intros Hx Hf. induction l as [|y r IH]; intros a; [destruct Hx|].
  simpl. destruct Hx as [Hx|Hx].
  - subst y. rewrite Hf. reflexivity.
  - destruct (f a y); [apply IH; exact Hx|reflexivity].
Qed.

Lemma get_len_None (A : Type) (v : list A) : Vec.get v (len v) = None.
Proof.
  destruct (Vec.get v (len v)) eqn:E; [|reflexivity].
  apply get_Some_range in E. unfold len in E. lia.
Qed.


(** ** PositiveCosts *)

Lemma min_edge_short (s : Matching) :
  len (slack s) < m -> min_edge EPSILON G s = None.
Proof.
  intros H. unfold min_edge.
  apply (fold_opt_None _ _ _ _ (len (slack s))).
  - apply in_range. unfold len in *. lia.
  - intros a. unfold min_edge_step. rewrite get_len_None. reflexivity.
Qed.

Lemma PositiveCosts_short (s : Matching) :
  len (slack s) < m -> PositiveCosts EPSILON G s = Undefined.
Proof.
  intros H. unfold PositiveCosts, bind, reads. rewrite (min_edge_short s H). reflexivity.
Qed.





(** ** The sizes never change *)

Lemma sized_visited (s : Matching) :
  keeps (sized G) s (fput f_visited (Vec.make (2 * n) 0) s).
Proof.
  unfold keeps, sized. intros H.
  assert (L : len (Vec.make (2 * n) 0) = 2 * n) by (apply length_make; lia).
  cbn [fput f_visited visited outer deep shallow tip active type forest root blocked
       dual mate].
  rewrite L. tauto.
Qed.

Ltac sized_side :=
  try match goal with
      | H : Vec.set _ _ _ = Some _ |- _ =>
          apply set_Some in H; destruct H as [_ [H _]]
      end;
  unfold keeps, sized, len in *; simpl in *;
  try match goal with
      | H : length _ = length _ |- _ => rewrite H
      end;
  tauto.

Ltac sized_pres known :=
  pres_with (@keeps_refl (sized G)) (@keeps_trans (sized G))
    ltac:(first [apply sized_visited|solve [sized_side]]) known.

Lemma sized_DestroyBlossom (fuel : nat) (t : Z) :
  preserves (keeps (sized G)) (DestroyBlossom EPSILON G fuel t).
Proof.
  revert t. induction fuel as [|fuel IH]; intros t; simpl.
  - apply preserves_out_of_fuel.
  - unfold AddFreeBlossomIndex. sized_pres ltac:(apply IH).
Qed.

Lemma sized_Expand_rotate (fuel : nat) (u p : Z) :
  preserves (keeps (sized G)) (Expand_rotate fuel u p).
Proof.
  revert u p. induction fuel as [|fuel IH]; intros u p; simpl.
  - apply preserves_out_of_fuel.
  - sized_pres ltac:(apply IH).
Qed.

Lemma sized_Expand_pairs (l : list Z) : preserves (keeps (sized G)) (Expand_pairs l).
Proof.
  assert (H : forall k l, (length l <= k)%nat -> preserves (keeps (sized G)) (Expand_pairs l)).
  { clear l. induction k as [|k IH]; intros l Hl.
    - destruct l; [apply (@preserves_ret _ (@keeps_refl (sized G)))|simpl in Hl; lia].
    - destruct l as [|a [|b r]]; simpl.
      + apply (@preserves_ret _ (@keeps_refl (sized G))).
      + apply preserves_undefined.
      + sized_pres ltac:(apply IH; simpl in Hl; lia). }
  apply (H (length l)). lia.
Qed.

Lemma sized_Expand (fuel : nat) (u : Z) (b : bool) :
  preserves (keeps (sized G)) (Expand EPSILON G fuel u b).
Proof.
  revert u b. induction fuel as [|fuel IH]; intros u b; simpl.
  - apply preserves_out_of_fuel.
  - unfold Expand_remate, release_members, AddFreeBlossomIndex.
    sized_pres ltac:(first [apply IH|apply sized_Expand_rotate|apply sized_Expand_pairs]).
Qed.

Lemma sized_Augment_pair (fuel : nat) (p q : Z) :
  preserves (keeps (sized G)) (Augment_pair EPSILON G fuel p q).
Proof. unfold Augment_pair. sized_pres ltac:(apply sized_Expand). Qed.

Lemma sized_Augment_walk (fuel k : nat) (p fp : Z) :
  preserves (keeps (sized G)) (Augment_walk EPSILON G fuel k p fp).
Proof.
  revert p fp. induction k as [|k IH]; intros p fp; simpl.
  - sized_pres idtac.
  - sized_pres ltac:(first [apply IH|apply sized_Augment_pair]).
Qed.

Lemma sized_Augment (fuel : nat) (u v : Z) :
  preserves (keeps (sized G)) (Augment EPSILON G fuel u v).
Proof.
  unfold Augment.
  sized_pres ltac:(first [apply sized_Augment_walk|apply sized_Augment_pair]).
Qed.

Lemma sized_Reset (fuel : nat) : preserves (keeps (sized G)) (Reset EPSILON G fuel).
Proof.
  unfold Reset, Reset_roots.
  sized_pres ltac:(first [apply sized_DestroyBlossom|apply sized_visited]).
Qed.

Lemma sized_Blossom_mark (k : nat) (u_ : Z) (isInPath : list bool) :
  preserves (keeps (sized G)) (Blossom_mark k u_ isInPath).
Proof.
  revert u_ isInPath. induction k as [|k IH]; intros u_ isInPath; simpl;
    sized_pres ltac:(apply IH).
Qed.

Lemma sized_Blossom_tip (k : nat) (v_ : Z) (isInPath : list bool) :
  preserves (keeps (sized G)) (Blossom_tip k v_ isInPath).
Proof.
  revert v_. induction k as [|k IH]; intros v_; simpl; sized_pres ltac:(apply IH).
Qed.

Lemma sized_Blossom_circuit (k : nat) (u_ tp : Z) (circuit : list Z) :
  preserves (keeps (sized G)) (Blossom_circuit k u_ tp circuit).
Proof.
  revert u_ circuit. induction k as [|k IH]; intros u_ circuit; simpl;
    sized_pres ltac:(apply IH).
Qed.

Lemma sized_Blossom_tail (k : nat) (t v_ tp : Z) :
  preserves (keeps (sized G)) (Blossom_tail k t v_ tp).
Proof.
  revert v_. induction k as [|k IH]; intros v_; simpl; sized_pres ltac:(apply IH).
Qed.

Lemma sized_Blossom (fuel : nat) (u v : Z) :
  preserves (keeps (sized G)) (Blossom G fuel u v).
Proof.
  unfold Blossom, GetFreeBlossomIndex, Blossom_absorb.
  sized_pres ltac:(first [apply sized_Blossom_mark|apply sized_Blossom_tip
                         |apply sized_Blossom_circuit|apply sized_Blossom_tail]).
Qed.

Lemma sized_Grow_adj (fuel : nat) (u : Z) (adj : list Z) :
  preserves (keeps (sized G)) (Grow_adj EPSILON G fuel u adj).
Proof.
  induction adj as [|v rest IH]; simpl.
  - apply (@preserves_ret _ (@keeps_refl (sized G))).
  - unfold IsEdgeBlocked2, Grow_extend.
    sized_pres ltac:(first [apply IH|apply sized_Augment|apply sized_Reset
                           |apply sized_Blossom]).
Qed.

Lemma sized_Grow_deep (fuel : nat) (dw : list Z) :
  preserves (keeps (sized G)) (Grow_deep EPSILON G fuel dw).
Proof.
  induction dw as [|u rest IH]; simpl.
  - apply (@preserves_ret _ (@keeps_refl (sized G))).
  - sized_pres ltac:(first [apply IH|apply sized_Grow_adj]).
Qed.

Lemma sized_Grow_forest (fuel k : nat) :
  preserves (keeps (sized G)) (Grow_forest EPSILON G fuel k).
Proof.
  induction k as [|k IH]; simpl;
    sized_pres ltac:(first [apply IH|apply sized_Grow_deep]).
Qed.

Lemma sized_Grow (fuel : nat) : preserves (keeps (sized G)) (Grow EPSILON G fuel).
Proof.
  unfold Grow, check_perfect.
  sized_pres ltac:(first [apply sized_Reset|apply sized_Grow_forest]).
Qed.

Lemma sized_RetrieveMatching (fuel : nat) :
  preserves (keeps (sized G)) (RetrieveMatching EPSILON G fuel).
Proof.
  unfold RetrieveMatching, expand_all. sized_pres ltac:(apply sized_Expand).
Qed.

Lemma sized_SolveMaximumMatching (fuel : nat) :
  preserves (keeps (sized G)) (SolveMaximumMatching EPSILON G fuel).
Proof.
  unfold SolveMaximumMatching.
  apply (@preserves_bind _ (@keeps_trans (sized G))).
  - intros s a s' H Hs. destruct (Clear_run s Hs) as [s1 [H1 [H2 _]]]. congruence.
  - intros _. sized_pres ltac:(first [apply sized_Grow|apply sized_RetrieveMatching]).
Qed.


(** ** The state at the entry of the primal-dual loop *)



Lemma get_In (A : Type) (v : list A) (i : Z) (x : A) : Vec.get v i = Some x -> In x v.
Proof.
  unfold Vec.get. destruct (i <? 0); [discriminate|]. apply nth_error_In.
Qed.




(** ** C7: the state at the entry of the loop *)


(** ** C3: the dual step *)












(** ** C4: the edge that [Expand] chooses *)

Lemma index_from_range (u v : Z) (l : list (Z * Z)) (i : Z) :
  existsb (Gr.joins u v) l = true ->
  i <= Gr.index_from u v l i < i + Z.of_nat (length l).
Proof.
  revert i. induction l as [|e t IH]; intros i H; simpl in *; [discriminate|].
  destruct (Gr.joins u v e); [lia|]. simpl in H. specialize (IH (i + 1) H). lia.
Qed.

Lemma adjacent_index (s : Matching) (u v : Z) :
  adjacent EPSILON G s u v = Some true -> 0 <= Gr.GetEdgeIndex G u v < m.
Proof.
  unfold adjacent, Gr.AdjMat. intros H.
  destruct (Gr.inRange G u && Gr.inRange G v); [|discriminate].
  destruct (existsb (Gr.joins u v) (edges G)) eqn:E; [|discriminate].
  apply (index_from_range u v (edges G) 0) in E. unfold Gr.GetEdgeIndex, Gr.GetNumEdges. lia.
Qed.

Lemma least_tight_step (s : Matching) (pairs : list (Z * Z)) (acc : Z * Z * Z)
  (di dj : Z) (a : bool) :
  least_tight EPSILON G s pairs acc ->
  adjacent EPSILON G s di dj = Some a ->
  least_tight EPSILON G s (pairs ++ [(di, dj)])
    (if a && (Gr.GetEdgeIndex G di dj <? fst (fst acc))
     then (Gr.GetEdgeIndex G di dj, di, dj) else acc).
Proof.
  intros H Ha. destruct acc as [[index p] q]. unfold least_tight in *. simpl in *.
  assert (Hin : In (di, dj) (pairs ++ [(di, dj)])) by (apply in_or_app; right; left; reflexivity).
  destruct a; simpl.
  - pose proof (adjacent_index s di dj Ha) as Hr.
    destruct (Z.ltb_spec (Gr.GetEdgeIndex G di dj) index) as [L|L]; simpl.
    + right. split; [exact Hin|]. split; [exact Ha|]. split; [reflexivity|].
      split; [exact Hr|]. intros x y Hxy Hadj.
      apply in_app_or in Hxy. destruct Hxy as [Hxy|[Hxy|[]]].
      * destruct H as [[E1 [_ [_ H]]]|[_ [_ [_ [_ H]]]]].
        -- exfalso. exact (H x y Hxy Hadj).
        -- specialize (H x y Hxy Hadj). lia.
      * inversion Hxy; subst. lia.
    + destruct H as [[E1 _]|[H1 [H2 [H3 [H4 H5]]]]]; [lia|].
      right. split; [apply in_or_app; left; exact H1|].
      repeat (split; [assumption|]). intros x y Hxy Hadj.
      apply in_app_or in Hxy. destruct Hxy as [Hxy|[Hxy|[]]]; [auto|].
      inversion Hxy; subst. exact L.
  - destruct H as [[E1 [E2 [E3 H]]]|[H1 [H2 [H3 [H4 H5]]]]].
    + left. repeat (split; [assumption|]). intros x y Hxy.
      apply in_app_or in Hxy. destruct Hxy as [Hxy|[Hxy|[]]]; [auto|].
      inversion Hxy; subst. congruence.
    + right. split; [apply in_or_app; left; exact H1|].
      repeat (split; [assumption|]). intros x y Hxy Hadj.
      apply in_app_or in Hxy. destruct Hxy as [Hxy|[Hxy|[]]]; [auto|].
      inversion Hxy; subst. congruence.
Qed.

Lemma Expand_find_row_spec (s : Matching) (di : Z) (dv : list Z)
  (pairs : list (Z * Z)) (acc acc' : Z * Z * Z) :
  Expand_find_row EPSILON G s di dv acc = Some acc' ->
  least_tight EPSILON G s pairs acc ->
  least_tight EPSILON G s (pairs ++ map (pair di) dv) acc'.
Proof.
  revert pairs acc. induction dv as [|dj r IH]; intros pairs acc H Hl; simpl in *.
  - inversion H; subst. rewrite app_nil_r. exact Hl.
  - destruct (adjacent EPSILON G s di dj) as [a|] eqn:Ea; [|discriminate].
    pose proof (least_tight_step s pairs acc di dj a Hl Ea) as Hs.
    replace (pairs ++ (di, dj) :: map (pair di) r)
      with ((pairs ++ [(di, dj)]) ++ map (pair di) r)
      by (rewrite <- app_assoc; reflexivity).
    destruct (a && (Gr.GetEdgeIndex G di dj <? fst (fst acc))); eapply IH; eassumption.
Qed.

Lemma Expand_find_from_spec (s : Matching) (du dv : list Z)
  (pairs : list (Z * Z)) (acc acc' : Z * Z * Z) :
  Expand_find_from EPSILON G s du dv acc = Some acc' ->
  least_tight EPSILON G s pairs acc ->
  least_tight EPSILON G s (pairs ++ list_prod du dv) acc'.
Proof.
  revert pairs acc. induction du as [|di r IH]; intros pairs acc H Hl; simpl in *.
  - inversion H; subst. rewrite app_nil_r. exact Hl.
  - destruct (Expand_find_row EPSILON G s di dv acc) as [acc1|] eqn:E; [|discriminate].
    rewrite app_assoc. eapply IH; [exact H|].
    eapply Expand_find_row_spec; eassumption.
Qed.

Lemma Expand_find_spec (s : Matching) (u v : Z) (r : Z * Z * Z) :
  Expand_find EPSILON G s u v = Some r ->
  exists du dv, Vec.get (deep s) u = Some du /\ Vec.get (deep s) v = Some dv /\
                least_tight EPSILON G s (list_prod du dv) r.
Proof.
  unfold Expand_find. intros H.
  destruct (Vec.get (deep s) u) as [du|]; [|discriminate].
  destruct (Vec.get (deep s) v) as [dv|]; [|discriminate].
  exists du, dv. split; [reflexivity|]. split; [reflexivity|].
  apply (Expand_find_from_spec s du dv [] _ _ H).
  left. simpl. repeat split; auto.
Qed.

Lemma adjacent_true (s : Matching) (u v : Z) :
  adjacent EPSILON G s u v = Some true <->
  Gr.AdjMat G u v = Some true /\
  exists x, Vec.get (slack s) (Gr.GetEdgeIndex G u v) = Some x /\
            GREATER EPSILON x 0 = false.
Proof.
  unfold adjacent, edgeBlocked.
  destruct (Gr.AdjMat G u v) as [[|]|]; simpl.
  - destruct (Vec.get (slack s) (Gr.GetEdgeIndex G u v)) as [x|]; simpl.
    + destruct (GREATER EPSILON x 0) eqn:E; simpl.
      * split; [discriminate|].
        intros [_ [y [Hy Hle]]]. inversion Hy; subst. congruence.
      * split; [|reflexivity].
        intros _. split; [reflexivity|]. exists x. split; [reflexivity|exact E].
    + split; [discriminate|]. intros [_ [y [Hy _]]]. discriminate.
  - split; [discriminate|]. intros [H _]. discriminate.
  - split; [discriminate|]. intros [H _]. discriminate.
Qed.

(** *** The search does not depend on the side it starts from *)

Lemma joins_sym (u v : Z) (e : Z * Z) : Gr.joins u v e = Gr.joins v u e.
Proof. unfold Gr.joins. apply orb_comm. Qed.

Lemma index_from_sym (u v : Z) (l : list (Z * Z)) (i : Z) :
  Gr.index_from u v l i = Gr.index_from v u l i.
Proof.
  revert i. induction l as [|e t IH]; intros i; simpl; [reflexivity|].
  rewrite (joins_sym u v e), IH. reflexivity.
Qed.

Lemma existsb_joins_sym (u v : Z) (l : list (Z * Z)) :
  existsb (Gr.joins u v) l = existsb (Gr.joins v u) l.
Proof.
  induction l as [|e t IH]; simpl; [reflexivity|].
  rewrite (joins_sym u v e), IH. reflexivity.
Qed.

Lemma adjacent_sym (s : Matching) (u v : Z) :
  adjacent EPSILON G s u v = adjacent EPSILON G s v u.
Proof.
  unfold adjacent, Gr.AdjMat, Gr.GetEdgeIndex.
  rewrite (andb_comm (Gr.inRange G u)), (existsb_joins_sym u v), (index_from_sym u v).
  reflexivity.
Qed.

Lemma index_from_joins (u v : Z) (l : list (Z * Z)) (i : Z) :
  existsb (Gr.joins u v) l = true ->
  exists e, nth_error l (Z.to_nat (Gr.index_from u v l i - i)) = Some e /\
            Gr.joins u v e = true.
Proof.
  revert i. induction l as [|e t IH]; intros i H; simpl in *; [discriminate|].
  destruct (Gr.joins u v e) eqn:J.
  - exists e. rewrite Z.sub_diag. split; [reflexivity|exact J].
  - simpl in H. destruct (IH (i + 1) H) as [e' [N Je]].
    pose proof (index_from_range u v t (i + 1) H) as R.
    exists e'. split; [|exact Je].
    replace (Z.to_nat (Gr.index_from u v t (i + 1) - i))
      with (S (Z.to_nat (Gr.index_from u v t (i + 1) - (i + 1)))) by lia.
    exact N.
Qed.

Lemma adjacent_edge (s : Matching) (u v : Z) :
  adjacent EPSILON G s u v = Some true ->
  exists e, Gr.GetEdge G (Gr.GetEdgeIndex G u v) = Some e /\ Gr.joins u v e = true.
Proof.
  intros H. pose proof (adjacent_index s u v H) as R.
  unfold adjacent, Gr.AdjMat in H.
  destruct (Gr.inRange G u && Gr.inRange G v); [|discriminate].
  destruct (existsb (Gr.joins u v) (edges G)) eqn:E; [|discriminate].
  destruct (index_from_joins u v (edges G) 0 E) as [e [N J]].
  exists e. split; [|exact J].
  unfold Gr.GetEdge, Vec.get, Gr.GetEdgeIndex in *.
  destruct (Z.ltb_spec (Gr.index_from u v (edges G) 0) 0); [lia|].
  rewrite Z.sub_0_r in N. exact N.
Qed.

Lemma joins_same_edge (p q p' q' : Z) (e : Z * Z) :
  Gr.joins p q e = true -> Gr.joins p' q' e = true ->
  (p' = q /\ q' = p) \/ (p' = p /\ q' = q).
Proof.
  unfold Gr.joins. destruct e as [a b]. simpl.
  rewrite !orb_true_iff, !andb_true_iff, !Z.eqb_eq. lia.
Qed.

Lemma Expand_find_row_reads (s : Matching) (di : Z) (dv : list Z) (acc acc' : Z * Z * Z) :
  Expand_find_row EPSILON G s di dv acc = Some acc' ->
  forall dj, In dj dv -> adjacent EPSILON G s di dj <> None.
Proof.
  revert acc. induction dv as [|x r IH]; intros acc H dj Hj; [destruct Hj|].
  simpl in H. destruct (adjacent EPSILON G s di x) as [a|] eqn:Ea; [|discriminate].
  destruct Hj as [Hj|Hj]; [subst x; congruence|].
  destruct (a && (Gr.GetEdgeIndex G di x <? fst (fst acc))); eapply IH; eassumption.
Qed.

Lemma Expand_find_from_reads (s : Matching) (du dv : list Z) (acc acc' : Z * Z * Z) :
  Expand_find_from EPSILON G s du dv acc = Some acc' ->
  forall di dj, In di du -> In dj dv -> adjacent EPSILON G s di dj <> None.
Proof.
  revert acc. induction du as [|x r IH]; intros acc H di dj Hi Hj; [destruct Hi|].
  simpl in H. destruct (Expand_find_row EPSILON G s x dv acc) as [acc1|] eqn:E; [|discriminate].
  destruct Hi as [Hi|Hi].
  - subst x. eapply Expand_find_row_reads; eassumption.
  - eapply IH; eassumption.
Qed.

Lemma Expand_find_row_defined (s : Matching) (di : Z) (dv : list Z) (acc : Z * Z * Z) :
  (forall dj, In dj dv -> adjacent EPSILON G s di dj <> None) ->
  exists acc', Expand_find_row EPSILON G s di dv acc = Some acc'.
Proof.
  revert acc. induction dv as [|x r IH]; intros acc H; simpl.
  - eexists. reflexivity.
  - destruct (adjacent EPSILON G s di x) as [a|] eqn:Ea.
    + destruct (a && (Gr.GetEdgeIndex G di x <? fst (fst acc)));
        apply IH; intros dj Hj; apply H; right; exact Hj.
    + exfalso. apply (H x); [left; reflexivity|exact Ea].
Qed.

Lemma Expand_find_from_defined (s : Matching) (du dv : list Z) (acc : Z * Z * Z) :
  (forall di dj, In di du -> In dj dv -> adjacent EPSILON G s di dj <> None) ->
  exists acc', Expand_find_from EPSILON G s du dv acc = Some acc'.
Proof.
  revert acc. induction du as [|x r IH]; intros acc H; simpl.
  - eexists. reflexivity.
  - destruct (Expand_find_row_defined s x dv acc) as [acc1 E].
    { intros dj Hj. apply H; [left; reflexivity|exact Hj]. }
    rewrite E. apply IH. intros di dj Hi Hj. apply H; [right; exact Hi|exact Hj].
Qed.

(** The search from [v] towards [u] finds the edge that the search from [u]
    towards [v] finds. *)
Lemma Expand_find_agree (s : Matching) (u v : Z) (du dv : list Z) (index p q : Z) :
  Vec.get (deep s) u = Some du -> Vec.get (deep s) v = Some dv ->
  Expand_find EPSILON G s u v = Some (index, p, q) ->
  exists p' q',
    Expand_find EPSILON G s v u = Some (index, p', q') /\
    ((p' = q /\ q' = p) \/ (p' = p /\ q' = q)) /\
    ((forall x, In x du -> In x dv -> False) -> p' = q /\ q' = p).
Proof.
  intros Hdu Hdv H.
  destruct (Expand_find_spec s u v _ H) as [du' [dv' [Hdu' [Hdv' L]]]].
  rewrite Hdu in Hdu'. inversion Hdu'; subst du'. clear Hdu'.
  rewrite Hdv in Hdv'. inversion Hdv'; subst dv'. clear Hdv'.
  assert (D : exists r, Expand_find EPSILON G s v u = Some r).
  { unfold Expand_find in *. rewrite Hdu, Hdv in *.
    apply Expand_find_from_defined. intros di dj Hi Hj. rewrite adjacent_sym.
    eapply Expand_find_from_reads; eassumption. }
  destruct D as [[[index' p'] q'] H'].
  destruct (Expand_find_spec s v u _ H') as [dv' [du' [Hdv' [Hdu' L']]]].
  rewrite Hdu in Hdu'. inversion Hdu'; subst du'. clear Hdu'.
  rewrite Hdv in Hdv'. inversion Hdv'; subst dv'. clear Hdv'.
  unfold least_tight in L, L'. simpl in L, L'.
  destruct L as [[E1 [E2 [E3 N]]]|[I1 [A1 [Gx [R1 M1]]]]];
    destruct L' as [[E1' [E2' [E3' N']]]|[I1' [A1' [Gx' [R1' M1']]]]].
  - subst. exists (-1), (-1). split; [exact H'|]. split; [left; split; reflexivity|].
    intros _. split; reflexivity.
  - exfalso. apply in_prod_iff in I1'. destruct I1' as [P1 P2].
    apply (N q' p'); [apply in_prod; assumption|]. rewrite adjacent_sym. exact A1'.
  - exfalso. apply in_prod_iff in I1. destruct I1 as [P1 P2].
    apply (N' q p); [apply in_prod; assumption|]. rewrite adjacent_sym. exact A1.
  - apply in_prod_iff in I1. destruct I1 as [P1 P2].
    apply in_prod_iff in I1'. destruct I1' as [P1' P2'].
    assert (Le1 : index <= index').
    { rewrite <- Gx'. unfold Gr.GetEdgeIndex. rewrite index_from_sym.
      apply (M1 q' p'); [apply in_prod; assumption|]. rewrite adjacent_sym. exact A1'. }
    assert (Le2 : index' <= index).
    { rewrite <- Gx. unfold Gr.GetEdgeIndex. rewrite index_from_sym.
      apply (M1' q p); [apply in_prod; assumption|]. rewrite adjacent_sym. exact A1. }
    assert (Ei : index' = index) by lia.
    destruct (adjacent_edge s p q A1) as [e [Ge Je]].
    destruct (adjacent_edge s p' q' A1') as [e' [Ge' Je']].
    rewrite Gx in Ge. rewrite Gx', Ei, Ge in Ge'. inversion Ge'; subst e'.
    rewrite Ei in H'.
    pose proof (joins_same_edge p q p' q' e Je Je') as S.
    exists p', q'. split; [exact H'|]. split; [exact S|].
    intros Dis. destruct S as [S|[S1 S2]]; [exact S|].
    exfalso. subst p'. apply (Dis p); assumption.
Qed.

(** [Expand] writes neither a [deep] list nor a slack, which is all that the
    search reads. *)
Lemma searched_Expand_rotate (fuel : nat) (u p : Z) :
  preserves (same_on (fun s => (deep s, slack s))) (Expand_rotate fuel u p).
Proof.
  revert u p. induction fuel as [|fuel IH]; intros u p; simpl.
  - apply preserves_out_of_fuel.
  - frame (fun s : Matching => (deep s, slack s)) ltac:(apply IH).
Qed.

Lemma searched_Expand_pairs (l : list Z) :
  preserves (same_on (fun s => (deep s, slack s))) (Expand_pairs l).
Proof.
  assert (H : forall k l, (length l <= k)%nat ->
            preserves (same_on (fun s => (deep s, slack s))) (Expand_pairs l)).
  { clear l. induction k as [|k IH]; intros l Hl.
    - destruct l; [|simpl in Hl; lia].
      apply (@preserves_ret _ (@same_on_refl _ (fun s : Matching => (deep s, slack s)))).
    - destruct l as [|a [|b r]]; simpl.
      + apply (@preserves_ret _ (@same_on_refl _ (fun s : Matching => (deep s, slack s)))).
      + apply preserves_undefined.
      + frame (fun s : Matching => (deep s, slack s)) ltac:(apply IH; simpl in Hl; lia). }
  apply (H (length l)). lia.
Qed.

Lemma searched_Expand (fuel : nat) (u : Z) (b : bool) :
  preserves (same_on (fun s => (deep s, slack s))) (Expand EPSILON G fuel u b).
Proof.
  revert u b. induction fuel as [|fuel IH]; intros u b; simpl.
  - apply preserves_out_of_fuel.
  - unfold Expand_remate, release_members, AddFreeBlossomIndex.
    frame (fun s : Matching => (deep s, slack s))
      ltac:(first [apply IH|apply searched_Expand_rotate|apply searched_Expand_pairs]).
Qed.

Lemma Expand_find_row_same (s s' : Matching) (di : Z) (dv : list Z) (acc : Z * Z * Z) :
  slack s' = slack s ->
  Expand_find_row EPSILON G s' di dv acc = Expand_find_row EPSILON G s di dv acc.
Proof.
  intros E. revert acc. induction dv as [|dj r IH]; intros acc; simpl; [reflexivity|].
  unfold adjacent, edgeBlocked. rewrite E.
  destruct (Gr.AdjMat G di dj) as [[|]|]; try reflexivity.
  - destruct (option_map negb (option_map (fun x => GREATER EPSILON x 0)
                (Vec.get (slack s) (Gr.GetEdgeIndex G di dj)))) as [a|]; [|reflexivity].
    destruct (a && (Gr.GetEdgeIndex G di dj <? fst (fst acc))); apply IH.
  - simpl. apply IH.
Qed.

Lemma Expand_find_same (s s' : Matching) (u v : Z) :
  deep s' = deep s -> slack s' = slack s ->
  Expand_find EPSILON G s' u v = Expand_find EPSILON G s u v.
Proof.
  intros Ed Es. unfold Expand_find. rewrite Ed.
  destruct (Vec.get (deep s) u) as [du|]; [|reflexivity].
  destruct (Vec.get (deep s) v) as [dv|]; [|reflexivity].
  generalize (m, -1, -1). induction du as [|di r IH]; intros acc; simpl; [reflexivity|].
  rewrite (Expand_find_row_same s s' di dv acc Es).
  destruct (Expand_find_row EPSILON G s di dv acc); [apply IH|reflexivity].
Qed.

(** C4 (amended).  Every call [Expand(u)] that returns, with
    [v = outer[mate[u]]], has chosen the pair [(p, q)] of least edge index
    among the pairs of [deep[u] x deep[v]] that are adjacent in [G] through
    an edge that is not blocked ([GREATER(slack, 0)] false); when there is no
    such pair, [p = q = -1]; an adjacent pair whose edge is blocked is not a
    candidate, whatever its index.  The call first writes [mate[u] = q] and
    [mate[v] = p] and nothing else.  For an original vertex [u], and for a
    blocked [u] without [expandBlocked], that is all it does; otherwise the
    rest of the call, the rotation that brings the member holding [p] to
    the front, the re-mating and the expansion of the members, runs from
    that state.  The choice depends on the edge index only: before and
    after the call, the search from [v] towards [u] finds the edge of the
    same index, and, when [deep[u]] and [deep[v]] share no vertex, the same
    pair with its ends exchanged, so that two blossoms expanded
    symmetrically agree on the crossing edge. *)
Theorem Expand_choice (fuel : nat) (u : Z) (b : bool) (s s' : Matching) :
  Expand EPSILON G fuel u b s = Ok (tt, s') ->
  exists mu v du dv index p q s1,
    Vec.get (mate s) u = Some mu /\ Vec.get (outer s) mu = Some v /\
    Vec.get (deep s) u = Some du /\ Vec.get (deep s) v = Some dv /\
    Expand_find EPSILON G s u v = Some (index, p, q) /\
    ((index = m /\ p = -1 /\ q = -1 /\
      forall di dj, In di du -> In dj dv -> adjacent EPSILON G s di dj <> Some true) \/
     (In p du /\ In q dv /\ adjacent EPSILON G s p q = Some true /\
      Gr.GetEdgeIndex G p q = index /\ 0 <= index < m /\
      forall di dj, In di du -> In dj dv -> adjacent EPSILON G s di dj = Some true ->
                    index <= Gr.GetEdgeIndex G di dj)) /\
    (forall di dj, adjacent EPSILON G s di dj = Some true <->
       Gr.AdjMat G di dj = Some true /\
       exists x, Vec.get (slack s) (Gr.GetEdgeIndex G di dj) = Some x /\
                 GREATER EPSILON x 0 = false) /\
    (wr f_mate u q ;; wr f_mate v p) s = Ok (tt, s1) /\
    s1 = fput f_mate (mate s1) s /\
    Vec.get (mate s1) v = Some p /\
    (u <> v -> Vec.get (mate s1) u = Some q) /\
    (forall j, j <> u -> j <> v -> Vec.get (mate s1) j = Vec.get (mate s) j) /\
    (u < n \/ (Vec.get (blocked s) u = Some true /\ b = false) -> s' = s1) /\
    (n <= u -> Vec.get (blocked s) u = Some false \/ b = true ->
     (Expand_rotate (Nat.pred fuel) u p ;;
      Expand_remate u ;;
      sh <- rd f_shallow u ;;
      release_members sh ;;
      wr f_active u false ;;
      AddFreeBlossomIndex u ;;
      forM sh (fun x => Expand EPSILON G (Nat.pred fuel) x b)) s1 = Ok (tt, s')) /\
    exists p' q',
      Expand_find EPSILON G s v u = Some (index, p', q') /\
      Expand_find EPSILON G s' v u = Some (index, p', q') /\
      ((p' = q /\ q' = p) \/ (p' = p /\ q' = q)) /\
      ((forall x, In x du -> In x dv -> False) -> p' = q /\ q' = p).
Proof.
  intros H0. pose proof H0 as H.
  destruct fuel as [|fuel]; simpl in H; [discriminate|].
  apply bind_Ok in H. destruct H as [mu [t [Hmu H]]].
  apply rd_Ok in Hmu. destruct Hmu as [Hmu E]. subst t.
  apply bind_Ok in H. destruct H as [v [t [Hv H]]].
  apply rd_Ok in Hv. destruct Hv as [Hv E]. subst t.
  apply bind_Ok in H. destruct H as [[[index p] q] [t [Hr H]]].
  apply reads_Ok in Hr. destruct Hr as [Hr E]. subst t.
  apply bind_Ok in H. destruct H as [[] [t1 [Hw1 H]]].
  pose proof Hw1 as W1.
  apply wr_Ok in Hw1. destruct Hw1 as [w1 [Hw1 E]]. subst t1.
  apply bind_Ok in H. destruct H as [[] [t2 [Hw2 H]]].
  pose proof Hw2 as W2.
  apply wr_Ok in Hw2. destruct Hw2 as [w2 [Hw2 E]]. subst t2.
  simpl in Hmu, Hv, Hw1, Hw2, H.
  destruct (Expand_find_spec s u v _ Hr) as [du [dv [Hdu [Hdv Hl]]]].
  exists mu, v, du, dv, index, p, q, (fput f_mate w2 s).
  repeat (split; [assumption|]).
  split.
  { unfold least_tight in Hl. simpl in Hl.
    destruct Hl as [[E1 [E2 [E3 Hl]]]|[H1 [H2 [H3 [H4 H5]]]]].
    - left. repeat (split; [assumption|]). intros di dj Hi Hj.
      apply Hl. apply in_prod; assumption.
    - right. apply in_prod_iff in H1. destruct H1 as [P1 P2].
      repeat (split; [assumption|]). intros di dj Hi Hj.
      apply H5. apply in_prod; assumption. }
  split; [intros di dj; apply adjacent_true|].
  apply set_Some in Hw1. destruct Hw1 as [_ [_ G1]].
  apply set_Some in Hw2. destruct Hw2 as [_ [_ G2]].
  split.
  { rewrite (@bind_step _ _ _ _ _ _ _ W1). simpl in W2. exact W2. }
  split; [reflexivity|].
  split; [simpl; rewrite G2, Z.eqb_refl; reflexivity|].
  split.
  { intros Ne. simpl. rewrite G2, G1.
    destruct (Z.eqb_spec u v); [contradiction|]. rewrite Z.eqb_refl. reflexivity. }
  split.
  { intros j Nu Nv. simpl. rewrite G2, G1.
    destruct (Z.eqb_spec j v); [contradiction|].
    destruct (Z.eqb_spec j u); [contradiction|]. reflexivity. }
  split.
  { intros Hu. destruct Hu as [Hu|[Hb Eb]].
    - destruct (Z.ltb_spec u n); [|lia].
      rewrite bind_ret in H. apply ret_Ok in H. destruct H as [_ H]. exact H.
    - subst b. destruct (Z.ltb_spec u n).
      + rewrite bind_ret in H. apply ret_Ok in H. destruct H as [_ H]. exact H.
      + apply bind_Ok in H. destruct H as [stop [t [Hs H]]].
        apply bind_Ok in Hs. destruct Hs as [bl [t' [Hbl Hs]]].
        apply rd_Ok in Hbl. destruct Hbl as [Hbl E]. subst t'. simpl in Hbl.
        rewrite Hb in Hbl. inversion Hbl; subst bl.
        apply ret_Ok in Hs. destruct Hs as [Hs E]. subst t stop. simpl in H.
        apply ret_Ok in H. destruct H as [_ H]. exact H. }
  split.
  { intros Hu Hb. simpl. destruct (Z.ltb_spec u n); [lia|].
    apply bind_Ok in H. destruct H as [stop [t [Hs H]]].
    apply bind_Ok in Hs. destruct Hs as [bl [t' [Hbl Hs]]].
    apply rd_Ok in Hbl. destruct Hbl as [Hbl E]. subst t'. simpl in Hbl.
    apply ret_Ok in Hs. destruct Hs as [Hs E]. subst t.
    assert (St : bl && negb b = false).
    { destruct Hb as [Hb|Hb].
      - rewrite Hb in Hbl. inversion Hbl; subst bl. reflexivity.
      - subst b. apply andb_false_r. }
    subst stop. rewrite St in H. exact H. }
  destruct (Expand_find_agree s u v du dv index p q Hdu Hdv Hr) as [p' [q' [A1 [A2 A3]]]].
  exists p', q'. split; [exact A1|]. split; [|split; [exact A2|exact A3]].
  apply searched_Expand in H0. unfold same_on in H0. inversion H0 as [[Ed Es]].
  rewrite <- A1. apply Expand_find_same; congruence.
Qed.

(** ** The sweep and the list of [RetrieveMatching] *)

Lemma fold_opt_inv_pre (A B : Type) (I : list B -> A -> Prop) (f : A -> B -> option A)
  (l : list B) :
  (forall done x rest a a', l = done ++ x :: rest -> I done a -> f a x = Some a' ->
     I (done ++ [x]) a') ->
  forall a a', I [] a -> fold_opt f l a = Some a' -> I l a'.
Proof.
  intros Hstep.
  assert (H : forall rest done a a', l = done ++ rest -> I done a ->
            fold_opt f rest a = Some a' -> I l a').
  { induction rest as [|x t IH]; intros done a a' El Hi Hr; simpl in Hr.
    - inversion Hr; subst. rewrite app_nil_r. assumption.
    - destruct (f a x) as [a1|] eqn:E; [|discriminate].
      apply (IH (done ++ [x]) a1 a'); auto.
      + rewrite <- app_assoc. exact El.
      + apply (Hstep done x t a a1); auto. }
  intros a a' Hi Hr. apply (H l [] a a'); auto.
Qed.

Lemma stays_inactive_refl (s : Matching) : stays_inactive s s.
Proof. intros j H. exact H. Qed.

Lemma stays_inactive_trans (s1 s2 s3 : Matching) :
  stays_inactive s1 s2 -> stays_inactive s2 s3 -> stays_inactive s1 s3.
Proof. unfold stays_inactive. auto. Qed.

Ltac inactive_side :=
  first
    [ solve [intros j Hj; exact Hj]
    | match goal with
      | H : Vec.set _ _ false = Some _ |- _ =>
          apply set_Some in H; destruct H as [_ [_ H]];
          intros j Hj; simpl in *; rewrite H; destruct (j =? _); [reflexivity|exact Hj]
      end ].

Ltac inactive_pres known :=
  pres_with stays_inactive_refl stays_inactive_trans ltac:(inactive_side) known.

Lemma inactive_Expand_rotate (fuel : nat) (u p : Z) :
  preserves stays_inactive (Expand_rotate fuel u p).
Proof.
  revert u p. induction fuel as [|fuel IH]; intros u p; simpl.
  - apply preserves_out_of_fuel.
  - inactive_pres ltac:(apply IH).
Qed.

Lemma inactive_Expand_pairs (l : list Z) : preserves stays_inactive (Expand_pairs l).
Proof.
  assert (H : forall k l, (length l <= k)%nat -> preserves stays_inactive (Expand_pairs l)).
  { clear l. induction k as [|k IH]; intros l Hl.
    - destruct l; [apply (@preserves_ret _ stays_inactive_refl)|simpl in Hl; lia].
    - destruct l as [|a [|b r]]; simpl.
      + apply (@preserves_ret _ stays_inactive_refl).
      + apply preserves_undefined.
      + inactive_pres ltac:(apply IH; simpl in Hl; lia). }
  apply (H (length l)). lia.
Qed.

Lemma inactive_Expand (fuel : nat) (u : Z) (b : bool) :
  preserves stays_inactive (Expand EPSILON G fuel u b).
Proof.
  revert u b. induction fuel as [|fuel IH]; intros u b; simpl.
  - apply preserves_out_of_fuel.
  - unfold Expand_remate, release_members, AddFreeBlossomIndex.
    inactive_pres
      ltac:(first [apply IH|apply inactive_Expand_rotate|apply inactive_Expand_pairs]).
Qed.

Lemma Expand_deactivates (fuel : nat) (i : Z) (s s1 : Matching) :
  Expand EPSILON G fuel i true s = Ok (tt, s1) -> n <= i ->
  Vec.get (active s1) i = Some false.
Proof.
  destruct fuel as [|fuel]; simpl; [discriminate|]. intros H Hi.
  apply bind_Ok in H. destruct H as [mu [t [_ H]]].
  apply bind_Ok in H. destruct H as [v [t0 [_ H]]].
  apply bind_Ok in H. destruct H as [r [t1 [_ H]]].
  apply bind_Ok in H. destruct H as [[] [t2 [_ H]]].
  apply bind_Ok in H. destruct H as [[] [t3 [_ H]]].
  apply bind_Ok in H. destruct H as [stop [t4 [Hstop H]]].
  destruct (Z.ltb_spec i n); [lia|].
  apply bind_Ok in Hstop. destruct Hstop as [bl [t5 [_ Hstop]]].
  apply ret_Ok in Hstop. destruct Hstop as [Hstop _].
  rewrite andb_false_r in Hstop. subst stop.
  apply bind_Ok in H. destruct H as [[] [t6 [_ H]]].
  apply bind_Ok in H. destruct H as [[] [t7 [_ H]]].
  apply bind_Ok in H. destruct H as [sh [t8 [_ H]]].
  apply bind_Ok in H. destruct H as [[] [t9 [_ H]]].
  apply bind_Ok in H. destruct H as [[] [t10 [Hw H]]].
  apply bind_Ok in H. destruct H as [[] [t11 [Hf H]]].
  apply wr_Ok in Hw. destruct Hw as [w [Hw E]]. subst t10.
  apply set_Some in Hw. destruct Hw as [_ [_ Hw]].
  unfold AddFreeBlossomIndex in Hf. apply modify_Ok in Hf. subst t11.
  assert (P : preserves stays_inactive
                (forM sh (fun s0 => Expand EPSILON G fuel s0 true))).
  { apply (@preserves_forM _ stays_inactive_refl stays_inactive_trans).
    intros x _. apply inactive_Expand. }
  apply P in H. apply H. simpl. rewrite Hw, Z.eqb_refl. reflexivity.
Qed.

Lemma expand_all_step (fuel : nat) (i : Z) (t : Matching) :
  (a <- rd f_active i ;;
   if a : bool then
     mi <- rd f_mate i ;;
     if negb (mi =? -1) then
       o <- rd f_outer i ;;
       if o =? i then Expand EPSILON G fuel i true else ret tt
     else ret tt
   else ret tt) t =
  match wanted t i with
  | None => Undefined
  | Some false => Ok (tt, t)
  | Some true => Expand EPSILON G fuel i true t
  end.
Proof.
  unfold wanted, bind, rd, reads. simpl.
  destruct (Vec.get (active t) i) as [[|]|]; try reflexivity.
  destruct (Vec.get (mate t) i) as [mi|]; try reflexivity.
  destruct (mi =? -1); simpl; try reflexivity.
  destruct (Vec.get (outer t) i) as [o|]; try reflexivity.
  destruct (o =? i); reflexivity.
Qed.

Lemma expand_all_sweep (fuel : nat) (s s' : Matching) :
  expand_all EPSILON G fuel s = Ok (tt, s') ->
  exists expanded, sweep EPSILON G fuel (Vec.range 0 (2 * n)) s expanded s'.
Proof.
  unfold expand_all. generalize (Vec.range 0 (2 * n)). intros l. revert s.
  induction l as [|i l IH]; intros s H; simpl in H.
  - apply ret_Ok in H. destruct H as [_ H]. subst. exists []. constructor.
  - apply bind_Ok in H. destruct H as [[] [s1 [H1 H2]]].
    rewrite expand_all_step in H1.
    destruct (IH s1 H2) as [ex Hex].
    destruct (wanted s i) as [[|]|] eqn:W; [| |discriminate].
    + exists (i :: ex). eapply sweep_expand; eassumption.
    + inversion H1; subst. exists ex. apply sweep_skip; assumption.
Qed.

Lemma sweep_stays_inactive (fuel : nat) (l expanded : list Z) (s s' : Matching) :
  sweep EPSILON G fuel l s expanded s' -> stays_inactive s s'.
Proof.
  induction 1.
  - apply stays_inactive_refl.
  - assumption.
  - eapply stays_inactive_trans; [|eassumption].
    eapply inactive_Expand; eassumption.
Qed.

Lemma sweep_inactive (fuel : nat) (l expanded : list Z) (s s' : Matching) :
  sweep EPSILON G fuel l s expanded s' ->
  forall i, In i expanded -> n <= i -> Vec.get (active s') i = Some false.
Proof.
  induction 1; intros j Hj Hn.
  - destruct Hj.
  - auto.
  - destruct Hj as [Hj|Hj]; [|auto]. subst j.
    eapply sweep_stays_inactive; [eassumption|].
    eapply Expand_deactivates; eassumption.
Qed.

Lemma collect_spec (s : Matching) (matching : list Z) :
  collect G s = Some matching ->
  (forall i, In i matching <->
     0 <= i < m /\ exists u v, Gr.GetEdge G i = Some (u, v) /\ Vec.get (mate s) u = Some v) /\
  StronglySorted Z.lt matching.
Proof.
  unfold collect. intros H.
  apply (fold_opt_inv_pre _ _ (fun done l =>
    (forall i, In i l <->
       In i done /\ exists u v, Gr.GetEdge G i = Some (u, v) /\ Vec.get (mate s) u = Some v) /\
    StronglySorted Z.lt l)) in H.
  - destruct H as [H1 H2]. split; [|exact H2]. intros i. rewrite H1, in_range. reflexivity.
  - clear H matching. intros done x rest l l' El [H1 H2] Hs.
    apply range_split in El. destruct El as [Ed [_ Hx]].
    unfold collect_step in Hs.
    destruct (Gr.GetEdge G x) as [[u v]|] eqn:Eg; [|discriminate].
    destruct (Vec.get (mate s) u) as [mu|] eqn:Em; [|discriminate].
    inversion Hs; subst l'; clear Hs.
    destruct (Z.eqb_spec mu v) as [E|E].
    + subst mu. split.
      * intros i. rewrite in_app_iff, H1, in_app_iff. simpl. split.
        -- intros [[Hi Hu]|[Hi|[]]]; [split; auto|].
           subst i. split; [auto|]. exists u, v. auto.
        -- intros [[Hi|[Hi|[]]] Hu]; [left; auto|]. right. left. exact Hi.
      * assert (Lt : Forall (fun j => j < x) l).
        { apply Forall_forall. intros j Hj. apply H1 in Hj. destruct Hj as [Hj _].
          rewrite Ed in Hj. apply in_range in Hj. lia. }
        clear H1. induction H2 as [|a l Hs IH Hf]; simpl.
        -- constructor; constructor.
        -- inversion Lt; subst. constructor; [apply IH; assumption|].
           apply Forall_app. split; [assumption|]. constructor; [assumption|constructor].
    + split; [|exact H2]. intros i. rewrite H1, in_app_iff. simpl. split.
      * intros [Hi Hu]. split; auto.
      * intros [[Hi|[Hi|[]]] Hu]; [auto|]. subst i.
        destruct Hu as [u' [v' [Eu Ev]]]. rewrite Eg in Eu. inversion Eu; subst.
        rewrite Em in Ev. inversion Ev. contradiction.
  - split; [|constructor]. intros i. simpl. split; [intros []|intros [[] _]].
Qed.

(** X24.  A call of [RetrieveMatching] that returns has first gone
    through the indices [0 .. 2n-1] in order and called [Expand(i, true)]
    for exactly those [i] that were active, mated and outer when their turn
    came; every pseudo-vertex [i >= n] so expanded is inactive at the end;
    nothing else changes the state.  It returns, in increasing order,
    exactly the indices of the edges [(u, v)] of [G] with [mate[u] = v] in
    the state after the sweep, [u] being the first end point of the edge:
    [mate[v]] is not tested.  When [mate] is symmetric on the edges of [G],
    these are exactly the edges whose end points are mutual mates. *)
Theorem RetrieveMatching_returns (fuel : nat) (s s' : Matching) (matching : list Z) :
  RetrieveMatching EPSILON G fuel s = Ok (matching, s') ->
  (exists expanded,
     sweep EPSILON G fuel (Vec.range 0 (2 * n)) s expanded s' /\
     forall i, In i expanded -> n <= i -> Vec.get (active s') i = Some false) /\
  (forall i, In i matching <->
     0 <= i < m /\
     exists u v, Gr.GetEdge G i = Some (u, v) /\ Vec.get (mate s') u = Some v) /\
  StronglySorted Z.lt matching /\
  (symmetric_on_edges G s' ->
   forall i, In i matching <->
     0 <= i < m /\
     exists u v, Gr.GetEdge G i = Some (u, v) /\
                 Vec.get (mate s') u = Some v /\ Vec.get (mate s') v = Some u).
Proof.
  unfold RetrieveMatching. intros H.
  apply bind_Ok in H. destruct H as [[] [s1 [H1 H2]]].
  apply reads_Ok in H2. destruct H2 as [H2 E]. subst s1.
  destruct (expand_all_sweep fuel s s' H1) as [ex Hex].
  destruct (collect_spec s' matching H2) as [C1 C2].
  split.
  { exists ex. split; [exact Hex|]. apply (sweep_inactive fuel _ _ _ _ Hex). }
  split; [exact C1|]. split; [exact C2|].
  intros Hsym i. rewrite C1. split.
  - intros [Hi [u [v [Hg Hm]]]]. split; [exact Hi|]. exists u, v.
    split; [exact Hg|]. split; [exact Hm|]. apply (Hsym i u v Hg). exact Hm.
  - intros [Hi [u [v [Hg [Hm _]]]]]. split; [exact Hi|]. exists u, v. auto.
Qed.

(** ** C10: the shift of the costs *)

Lemma vec_ext (A : Type) (v w : list A) :
  (forall i, Vec.get v i = Vec.get w i) -> v = w.
Proof.
  intros H. apply nth_error_ext. intros k. specialize (H (Z.of_nat k)).
  unfold Vec.get in H. destruct (Z.ltb_spec (Z.of_nat k) 0); [lia|].
  rewrite Nat2Z.id in H. exact H.
Qed.




(** ** C8: the loop has no bound *)

Lemma primal_dual_exit (fuel k : nat) (s r : Matching) :
  primal_dual EPSILON G fuel k s = Ok (tt, r) -> perfect r = true.
Proof.
  revert s. induction k as [|k IH]; intros s H; simpl in H;
    rewrite bind_gets in H; destruct (perfect s) eqn:Hp.
  - apply ret_Ok in H. destruct H as [_ H]. subst. exact Hp.
  - discriminate.
  - apply ret_Ok in H. destruct H as [_ H]. subst. exact Hp.
  - apply bind_Ok in H. destruct H as [[] [s1 [_ H]]]. apply (IH s1 H).
Qed.

Lemma primal_dual_next (fuel k : nat) (s s1 : Matching) :
  perfect s = false -> iteration EPSILON G fuel s = Ok (tt, s1) ->
  primal_dual EPSILON G fuel (S k) s = primal_dual EPSILON G fuel k s1.
Proof.
  intros Hp Hi. simpl. rewrite bind_gets, Hp.
  rewrite (@bind_step _ _ _ _ _ _ _ Hi). reflexivity.
Qed.

Lemma primal_dual_stuck (fuel k : nat) (s : Matching) :
  iteration EPSILON G fuel s = Ok (tt, s) -> perfect s = false ->
  primal_dual EPSILON G fuel k s = OutOfFuel.
Proof.
  intros Hi Hp. induction k as [|k IH]; simpl; rewrite bind_gets, Hp.
  - reflexivity.
  - rewrite (@bind_step _ _ _ _ _ _ _ Hi). exact IH.
Qed.

(** C8 (amended).  The primal-dual loop has no iteration bound and the
    operation has no [NumericalFailure] outcome.  The loop returns only in a
    state where [perfect] holds; while [perfect] is false every iteration
    that returns is followed by the next one, whatever their number; the
    loop throws nothing, and the only exception of
    [SolveMinimumCostPerfectMatching] is [NoPerfectMatching].  From a state
    with [perfect = false] that an iteration maps to itself the loop never
    returns. *)
Theorem loop_has_no_bound (fuel : nat) (cost : list float) (s : Matching) :
  (forall k r, primal_dual EPSILON G fuel k s = Ok (tt, r) -> perfect r = true) /\
  (forall k s1, perfect s = false -> iteration EPSILON G fuel s = Ok (tt, s1) ->
     primal_dual EPSILON G fuel (S k) s = primal_dual EPSILON G fuel k s1) /\
  (forall k e, primal_dual EPSILON G fuel k s <> Throw e) /\
  SolveMinimumCostPerfectMatching EPSILON G fuel cost s <> Throw NumericalFailure /\
  (iteration EPSILON G fuel s = Ok (tt, s) -> perfect s = false ->
   forall k, primal_dual EPSILON G fuel k s = OutOfFuel).
Proof.
  split; [intros k r; apply primal_dual_exit|].
  split.
  { intros k s1 Hp Hi. simpl. rewrite bind_gets, Hp.
    rewrite (@bind_step _ _ _ _ _ _ _ Hi). reflexivity. }
  split; [intros k e; apply nothrow_primal_dual|].
  split.
  { intros H. destruct (SolveMinimum_throws fuel cost s _ H) as [E _]. discriminate. }
  intros Hi Hp k. apply primal_dual_stuck; assumption.
Qed.

(** ** Symmetry of the matching at the level of outer blossoms *)

Lemma same_state_trans (s1 s2 s3 : Matching) : s1 = s2 -> s2 = s3 -> s1 = s3.
Proof. congruence. Qed.

Ltac readonly known :=
  pres_with (@eq_refl Matching) same_state_trans ltac:(idtac) known.

Lemma Heuristic_degrees_readonly : preserves eq (Heuristic_degrees EPSILON G).
Proof. unfold Heuristic_degrees, IsEdgeBlocked. readonly idtac. Qed.

Lemma Heuristic_pick_readonly (degree : list Z) (u : Z) (adj : list Z) :
  preserves eq (Heuristic_pick EPSILON G degree u adj).
Proof. unfold Heuristic_pick, IsEdgeBlocked2. readonly idtac. Qed.

Lemma foldM_result (A B : Type) (I : A -> Prop) (f : A -> B -> M A) (l : list B)
  (s : Matching) :
  (forall a x a' s', I a -> f a x s = Ok (a', s') -> s' = s /\ I a') ->
  forall a a' s', I a -> foldM l f a s = Ok (a', s') -> s' = s /\ I a'.
Proof.
  intros Hf. induction l as [|x r IH]; intros a a' s' Ha H; simpl in H.
  - apply ret_Ok in H. destruct H as [H1 H2]. subst. auto.
  - apply bind_Ok in H. destruct H as [a1 [s1 [H1 H2]]].
    destruct (Hf a x a1 s1 Ha H1) as [E Ha1]. subst s1. apply (IH a1 a' s' Ha1 H2).
Qed.

(** What [Heuristic] selects for [u]: nothing, or a vertex of another outer
    blossom that has no mate. *)
Lemma Heuristic_pick_spec (degree : list Z) (u : Z) (adj : list Z) (s s' : Matching)
  (mn : Z) :
  Heuristic_pick EPSILON G degree u adj s = Ok (mn, s') ->
  s' = s /\
  (mn = -1 \/
   exists ou om, Vec.get (outer s) u = Some ou /\ Vec.get (outer s) mn = Some om /\
                 ou <> om /\ Vec.get (mate s) om = Some (-1)).
Proof.
  unfold Heuristic_pick. intros H.
  apply (foldM_result _ _ (fun mn => mn = -1 \/
     exists ou om, Vec.get (outer s) u = Some ou /\ Vec.get (outer s) mn = Some om /\
                   ou <> om /\ Vec.get (mate s) om = Some (-1))) in H.
  - exact H.
  - clear H mn s'. intros a v a' s' Ha H.
    apply bind_Ok in H. destruct H as [b [t [Hb H]]].
    unfold IsEdgeBlocked2 in Hb.
    apply reads_Ok in Hb. destruct Hb as [_ E]. subst t.
    destruct b.
    { apply ret_Ok in H. destruct H as [H1 H2]. subst. auto. }
    apply bind_Ok in H. destruct H as [ou [t [Hou H]]].
    apply rd_Ok in Hou. destruct Hou as [Hou E]. subst t.
    apply bind_Ok in H. destruct H as [ov [t [Hov H]]].
    apply rd_Ok in Hov. destruct Hov as [Hov E]. subst t.
    simpl in Hou, Hov.
    destruct (Z.eqb_spec ou ov) as [Eq|Eq].
    { apply ret_Ok in H. destruct H as [H1 H2]. subst. auto. }
    apply bind_Ok in H. destruct H as [mv [t [Hmv H]]].
    apply rd_Ok in Hmv. destruct Hmv as [Hmv E]. subst t. simpl in Hmv.
    assert (New : mv = -1 -> exists ou om,
              Vec.get (outer s) u = Some ou /\ Vec.get (outer s) v = Some om /\
              ou <> om /\ Vec.get (mate s) om = Some (-1)).
    { intros E. subst mv. exists ou, ov. auto. }
    destruct (Z.eqb_spec mv (-1)) as [Em|Em]; simpl in H.
    + destruct (a =? -1).
      * apply ret_Ok in H. destruct H as [H1 H2]. subst a' s'. auto.
      * apply bind_Ok in H. destruct H as [dv [t [Hdv H]]].
        apply reads_Ok in Hdv. destruct Hdv as [_ E]. subst t.
        apply bind_Ok in H. destruct H as [dm [t [Hdm H]]].
        apply reads_Ok in Hdm. destruct Hdm as [_ E]. subst t.
        destruct (dv <? dm); apply ret_Ok in H; destruct H as [H1 H2]; subst a' s'; auto.
    + apply ret_Ok in H. destruct H as [H1 H2]. subst. auto.
  - left. reflexivity.
Qed.

Lemma Heuristic_visit_symmetric (degree : list Z) (u : Z) (s s' : Matching) :
  Heuristic_visit EPSILON G degree u s = Ok (tt, s') ->
  outer_symmetric G s -> outer_symmetric G s' /\ outer s' = outer s.
Proof.
  unfold Heuristic_visit. intros H Hsym.
  apply bind_Ok in H. destruct H as [ou [t [Hou H]]].
  apply rd_Ok in Hou. destruct Hou as [Hou E]. subst t.
  apply bind_Ok in H. destruct H as [mo [t [Hmo H]]].
  apply rd_Ok in Hmo. destruct Hmo as [Hmo E]. subst t.
  simpl in Hou, Hmo.
  destruct (Z.eqb_spec mo (-1)) as [Emo|Emo];
    [|apply ret_Ok in H; destruct H as [_ H]; subst s'; auto].
  subst mo.
  apply bind_Ok in H. destruct H as [adj [t [Hadj H]]].
  apply reads_Ok in Hadj. destruct Hadj as [_ E]. subst t.
  apply bind_Ok in H. destruct H as [mn [t [Hmn H]]].
  apply Heuristic_pick_spec in Hmn. destruct Hmn as [E Hmn]. subst t.
  destruct (Z.eqb_spec mn (-1)) as [Emn|Emn]; simpl in H;
    [apply ret_Ok in H; destruct H as [_ H]; subst s'; auto|].
  destruct Hmn as [Hmn|[ou2 [om [Hou2 [Hom [Hne Hmom]]]]]]; [contradiction|].
  rewrite Hou in Hou2. inversion Hou2; subst ou2; clear Hou2.
  apply bind_Ok in H. destruct H as [ou' [t [Hou' H]]].
  apply rd_Ok in Hou'. destruct Hou' as [Hou' E]. subst t.
  simpl in Hou'. rewrite Hou in Hou'. inversion Hou'; subst ou'; clear Hou'.
  apply bind_Ok in H. destruct H as [[] [t1 [Hw1 H]]].
  apply wr_Ok in Hw1. destruct Hw1 as [w1 [Hw1 E]]. subst t1.
  apply bind_Ok in H. destruct H as [om' [t [Hom' H]]].
  apply rd_Ok in Hom'. destruct Hom' as [Hom' E]. subst t.
  simpl in Hom'. rewrite Hom in Hom'. inversion Hom'; subst om'; clear Hom'.
  apply wr_Ok in H. destruct H as [w2 [Hw2 E]]. subst s'.
  simpl in Hw1, Hw2. simpl.
  apply set_Some in Hw1. destruct Hw1 as [_ [_ G1]].
  apply set_Some in Hw2. destruct Hw2 as [_ [_ G2]].
  assert (Mate : forall x, Vec.get w2 x =
            if x =? om then Some u else if x =? ou then Some mn else Vec.get (mate s) x).
  { intros x. rewrite G2, G1. reflexivity. }
  assert (Hu : u <> -1).
  { apply get_Some_range in Hou. lia. }
  split; [|reflexivity].
  intros i x mx Hi Hx Hmx Hnz. simpl in Hx, Hmx |- *. rewrite Mate in Hmx.
  destruct (Z.eqb_spec x om) as [Ex|Ex].
  - inversion Hmx; subst mx x. exists ou, mn.
    split; [exact Hou|]. split; [|split; [exact Emn|exact Hom]].
    rewrite Mate. destruct (Z.eqb_spec ou om); [contradiction|].
    rewrite Z.eqb_refl. reflexivity.
  - destruct (Z.eqb_spec x ou) as [Ey|Ey].
    + inversion Hmx; subst mx x. exists om, u.
      split; [exact Hom|]. split; [|split; [exact Hu|exact Hou]].
      rewrite Mate, Z.eqb_refl. reflexivity.
    + destruct (Hsym i x mx Hi Hx Hmx Hnz) as [y [my [Hy [Hmy [Hmz Hoy]]]]].
      exists y, my. split; [exact Hy|]. split; [|split; [exact Hmz|exact Hoy]].
      rewrite Mate.
      destruct (Z.eqb_spec y om) as [E1|E1]; [subst y; congruence|].
      destruct (Z.eqb_spec y ou) as [E2|E2]; [subst y; congruence|].
      exact Hmy.
Qed.

(** X25.  [Heuristic] keeps the matching symmetric at the level of the outer
    blossoms: when every mated outer blossom [x] of a vertex has a mate in an
    outer blossom [y] that is mated with a vertex of [x], a call of
    [Heuristic] that returns leaves [outer] as it is and leaves a state with
    the same property (it mates the outer blossoms of two vertices with each
    other, writing into [mate] of each blossom a vertex that lies in the
    other). *)
Theorem Heuristic_keeps_outer_symmetry (s s' : Matching) :
  outer_symmetric G s -> Heuristic EPSILON G s = Ok (tt, s') ->
  outer_symmetric G s' /\ outer s' = outer s.
Proof.
  unfold Heuristic. intros Hsym H.
  apply bind_Ok in H. destruct H as [degree [t [Hd H]]].
  apply Heuristic_degrees_readonly in Hd. subst t.
  apply bind_Ok in H. destruct H as [B [t [HB H]]].
  apply reads_Ok in HB. destruct HB as [_ E]. subst t.
  apply (forM_inv _ (fun _ t => outer_symmetric G t /\ outer t = outer s)) in H.
  - exact H.
  - intros done x t t' _ [H1 H2] Hv.
    apply Heuristic_visit_symmetric in Hv; [|exact H1].
    destruct Hv as [V1 V2]. split; [exact V1|congruence].
  - auto.
Qed.

End EngineFacts.

(* ================================================================== *)
(** * The properties on concrete runs *)

Lemma symmetric_on_edgesb_true (G : Graph) (s : Matching) :
  symmetric_on_edgesb G s = true -> symmetric_on_edges G s.
Proof.
  unfold symmetric_on_edgesb, symmetric_on_edges. intros H i u v Hg.
  rewrite forallb_forall in H. specialize (H (u, v) (get_In _ _ _ _ Hg)). simpl in H.
  destruct (Vec.get (mate s) u) as [a|]; [|discriminate].
  destruct (Vec.get (mate s) v) as [b|]; [|discriminate].
  apply Bool.eqb_prop in H.
  split; intros E; inversion E; subst.
  - rewrite Z.eqb_refl in H. symmetry in H. apply Z.eqb_eq in H. congruence.
  - rewrite Z.eqb_refl in H. apply Z.eqb_eq in H. congruence.
Qed.

Lemma outer_symmetricb_true (G : Graph) (s : Matching) :
  outer_symmetricb G s = true -> outer_symmetric G s.
Proof.
  unfold outer_symmetricb, outer_symmetric. intros H i x mx Hi Hx Hm Hne.
  rewrite forallb_forall in H. specialize (H i). rewrite Hx, Hm in H.
  assert (Hin : In i (Vec.range 0 (Gr.GetNumVertices G))) by (apply in_range; lia).
  specialize (H Hin).
  apply Bool.orb_true_iff in H. destruct H as [H|H]; [apply Z.eqb_eq in H; contradiction|].
  destruct (Vec.get (outer s) mx) as [y|] eqn:Ey; [|discriminate H].
  destruct (Vec.get (mate s) y) as [my|] eqn:Emy; [|discriminate H].
  apply Bool.andb_true_iff in H. destruct H as [H1 H2].
  destruct (Vec.get (outer s) my) as [x'|] eqn:Ex'; [|discriminate H2].
  apply Z.eqb_eq in H2. subst x'.
  exists y, my. split; [reflexivity|]. split; [exact Emy|]. split; [|exact Ex'].
  intros E. subst my. discriminate H1.
Qed.

(** The scenarios 3 and 6 of the spec. *)
Example K4_objective :
  value (SolveMinimumCostPerfectMatching eps10 G_K4 20 [1; 2; 3; 4; 5; 6]%float)
    (Matching_new G_K4) = Some ([2; 3], 7%float).
Proof. vm_compute. reflexivity. Qed.

Example triangle_throws :
  SolveMinimumCostPerfectMatching eps10 G_triangle 20 [1; 1; 1]%float (Matching_new G_triangle)
  = Throw NoPerfectMatching.
Proof. vm_compute. reflexivity. Qed.

(** ** C2 on runs *)

Lemma no_perfect_matching_iff_witness :
  SolveMinimumCostPerfectMatching eps10 G_triangle 20 [1; 1; 1]%float (Matching_new G_triangle)
    = Throw NoPerfectMatching /\
  exists s1 matching s2,
    maximum_pass G_triangle eps10 20 (Matching_new G_triangle) = Ok (tt, s1) /\
    (exists i, 0 <= i < 3 /\ unmatched s1 i) /\
    RetrieveMatching eps10 G_triangle 20 s1 = Ok (matching, s2).
Proof.
  assert (H : SolveMinimumCostPerfectMatching eps10 G_triangle 20 [1; 1; 1]%float
                (Matching_new G_triangle) = Throw NoPerfectMatching)
    by (vm_compute; reflexivity).
  split; [exact H|].
  destruct (no_perfect_matching_iff eps10 G_triangle 20 [1; 1; 1]%float
              (Matching_new G_triangle)) as [_ [T _]].
  apply T. exact H.
Defined.

(** ** C3 on runs *)



(** ** C4 on runs *)

(** C4, counterexample.  On [G_kite] with [cost_kite] the loop ends with the
    triangle [0, 1, 2] contracted into the blocked blossom [7], mated with
    vertex [3].  [RetrieveMatching] skips [0], [1], [2] and calls
    [Expand(3, true)], for which [v = outer[mate[3]] = 7].  Vertex [3] is
    adjacent in [G] to [0] by edge 0 and to [1] by edge 2, both in
    [deep[7]]; edge 0 is blocked (slack 4), and the call chooses
    [(p, q) = (3, 1)], edge 2, not the edge of least index. *)
Lemma Expand_skips_blocked_edge :
  value (SolveMinimumCostPerfectMatching eps10 G_kite 20 cost_kite) (Matching_new G_kite)
    = Some ([2; 3], 8%float) /\
  map (wanted kite_final) [0; 1; 2; 3] = [Some false; Some false; Some false; Some true] /\
  Vec.get (mate kite_final) 3 = Some 1 /\ Vec.get (outer kite_final) 1 = Some 7 /\
  Vec.get (deep kite_final) 3 = Some [3] /\ Vec.get (deep kite_final) 7 = Some [2; 1; 0] /\
  Gr.AdjMat G_kite 3 0 = Some true /\ Gr.GetEdgeIndex G_kite 3 0 = 0 /\
  Gr.AdjMat G_kite 3 1 = Some true /\ Gr.GetEdgeIndex G_kite 3 1 = 2 /\
  Vec.get (slack kite_final) 0 = Some 4%float /\
  Expand_find eps10 G_kite kite_final 3 7 = Some (2, 3, 1).
Proof. vm_compute. repeat split. Qed.

Lemma Expand_choice_witness :
  exists s',
    Expand eps10 G_kite 20 7 true kite_expanded = Ok (tt, s') /\
    Vec.get (blocked kite_expanded) 7 = Some true /\
    Expand_find eps10 G_kite kite_expanded 7 3 = Some (2, 1, 3) /\
    Expand_find eps10 G_kite kite_expanded 3 7 = Some (2, 3, 1) /\
    Expand_find eps10 G_kite s' 3 7 = Some (2, 3, 1) /\
    adjacent eps10 G_kite kite_expanded 1 3 = Some true /\
    (forall di dj, In di [2; 1; 0] -> In dj [3] ->
       adjacent eps10 G_kite kite_expanded di dj = Some true ->
       2 <= Gr.GetEdgeIndex G_kite di dj) /\
    (Expand_rotate 19 7 1 ;;
     Expand_remate 7 ;;
     sh <- rd f_shallow 7 ;;
     release_members sh ;;
     wr f_active 7 false ;;
     AddFreeBlossomIndex 7 ;;
     forM sh (fun x => Expand eps10 G_kite 19 x true))
      (fput f_mate [1; 0; -1; 1; -1; -1; -1; 3] kite_expanded) = Ok (tt, s') /\
    mate s' = [2; 3; 0; 1; -1; -1; -1; 3].
Proof.
  exists (exec (Expand eps10 G_kite 20 7 true) kite_expanded).
  assert (H : Expand eps10 G_kite 20 7 true kite_expanded =
              Ok (tt, exec (Expand eps10 G_kite 20 7 true) kite_expanded))
    by (vm_compute; reflexivity).
  split; [exact H|].
  destruct (Expand_choice eps10 G_kite 20 7 true kite_expanded _ H)
    as (mu & v & du & dv & index & p & q & s1 & Hmu & Hv & Hdu & Hdv & Hf & Hl & _ &
        Hw & _ & _ & _ & _ & _ & Hb & p' & q' & Hf1 & Hf2 & _ & Hd).
  assert (Emu : mu = 3) by (vm_compute in Hmu; congruence). subst mu.
  assert (Ev : v = 3) by (vm_compute in Hv; congruence). subst v.
  assert (Edu : du = [2; 1; 0]) by (vm_compute in Hdu; congruence). subst du.
  assert (Edv : dv = [3]) by (vm_compute in Hdv; congruence). subst dv.
  assert (Ef : (index, p, q) = (2, 1, 3)) by (vm_compute in Hf; congruence).
  inversion Ef; subst index p q.
  assert (Ep : p' = 3 /\ q' = 1).
  { apply Hd. intros x [E|[E|[E|[]]]] [E'|[]]; subst; discriminate. }
  destruct Ep; subst p' q'.
  assert (Es1 : s1 = fput f_mate [1; 0; -1; 1; -1; -1; -1; 3] kite_expanded).
  { vm_compute in Hw. inversion Hw. reflexivity. }
  subst s1.
  split; [vm_compute; reflexivity|].
  split; [exact Hf|]. split; [exact Hf1|]. split; [exact Hf2|].
  destruct Hl as [[E _]|[_ [_ [Ha [_ [_ Hmin]]]]]]; [vm_compute in E; discriminate E|].
  split; [exact Ha|]. split; [exact Hmin|].
  split; [apply Hb; [vm_compute; discriminate|right; reflexivity]|].
  vm_compute. reflexivity.
Defined.

(** ** Symmetry of [mate] on runs *)

(** While a blossom is mated, [mate] is not symmetric entry by entry, and is
    not meant to be: [mate] of a blossom holds a vertex of the other
    blossom.  On [G_pennant] with [cost_pennant] the third iteration
    contracts the triangle [0, 1, 3] into the blossom [7], which becomes
    blocked, and the [Heuristic] of the fourth iteration mates the outer
    vertex [2] with that blossom through the edge [(1, 2)].  At this stable
    point [mate[2] = 1] while [mate[1] = 3], and [mate[7] = 2] while
    [mate[2] = 1]; the outer blossoms [2] and [7] are mated with each other.
    The run goes through this state and returns the matching of cost 5. *)
Lemma mate_is_not_an_involution :
  value (SolveMinimumCostPerfectMatching eps10 G_pennant 20 cost_pennant)
    (Matching_new G_pennant) = Some ([2; 3], 5%float) /\
  map (fun k => perfect (exec (iterations eps10 G_pennant 20 k) pennant_entry))
    [0; 1; 2; 3]%nat = [false; false; false; false] /\
  Heuristic eps10 G_pennant (exec (iterations eps10 G_pennant 20 3) pennant_entry)
    = Ok (tt, pennant_matched) /\
  outer pennant_matched = [7; 7; 2; 7; 4; 5; 6; 7] /\
  active pennant_matched = [true; true; true; true; false; false; false; true] /\
  mate pennant_matched = [-1; 3; 1; 1; -1; -1; -1; 2] /\
  ~ symmetric_at pennant_matched 2 /\
  ~ symmetric_at pennant_matched 7 /\
  outer_symmetricb G_pennant pennant_matched = true.
Proof.
  split; [vm_compute; reflexivity|].
  split; [vm_compute; reflexivity|].
  split; [vm_compute; reflexivity|].
  split; [vm_compute; reflexivity|].
  split; [vm_compute; reflexivity|].
  split; [vm_compute; reflexivity|].
  split; [|split; [|vm_compute; reflexivity]].
  - intros H. specialize (H 1). vm_compute in H.
    assert (F : Some 3 = Some 2) by (apply H; [reflexivity|discriminate]). discriminate.
  - intros H. specialize (H 2). vm_compute in H.
    assert (F : Some 1 = Some 7) by (apply H; [reflexivity|discriminate]). discriminate.
Qed.

Lemma Heuristic_keeps_outer_symmetry_witness :
  Heuristic eps10 G_pennant (exec (iterations eps10 G_pennant 20 3) pennant_entry)
    = Ok (tt, pennant_matched) /\
  outer_symmetric G_pennant (exec (iterations eps10 G_pennant 20 3) pennant_entry) /\
  outer_symmetric G_pennant pennant_matched /\
  outer pennant_matched = outer (exec (iterations eps10 G_pennant 20 3) pennant_entry).
Proof.
  assert (Hh : Heuristic eps10 G_pennant
                 (exec (iterations eps10 G_pennant 20 3) pennant_entry)
               = Ok (tt, pennant_matched)) by (vm_compute; reflexivity).
  assert (Hb : outer_symmetric G_pennant
                 (exec (iterations eps10 G_pennant 20 3) pennant_entry))
    by (apply outer_symmetricb_true; vm_compute; reflexivity).
  split; [exact Hh|]. split; [exact Hb|].
  exact (Heuristic_keeps_outer_symmetry eps10 G_pennant _ pennant_matched Hb Hh).
Defined.

(** ** C5 on runs *)

(** C5 (failing run).  On [G_overlap] with [cost_overlap] and
    [EPSILON = 1e-10], the input of the run of C1, the [Reset] of the third
    iteration returns a state in which no pseudo-vertex is active and every
    vertex is its own outer blossom, so that the symmetry of the claim is
    the entry-wise law, and that law fails: [mate[4] = 3] while
    [mate[3] = 1], and [mate[2] = 6] while [mate[6] = 5]; the vertices [3]
    and [6] are the mates of two vertices each.  The loop goes on from this
    stable point, and the state in which the public operation returns has
    [mate[1] = 3] while [mate[3] = 4], and [mate[2] = 6] while
    [mate[6] = 5]. *)
Theorem Reset_leaves_mate_asymmetric :
  enter_loop eps10 G_overlap 40 cost_overlap (Matching_new G_overlap)
    = Ok (tt, overlap_entry) /\
  map (fun k => perfect (exec (iterations eps10 G_overlap 40 k) overlap_entry))
    [0; 1; 2; 3]%nat = [false; false; false; false] /\
  iterations eps10 G_overlap 40 3 overlap_entry = Ok (tt, overlap_reset) /\
  Reset eps10 G_overlap 40 overlap_updated = Ok (tt, overlap_reset) /\
  firstn 10 (outer overlap_reset) = [0; 1; 2; 3; 4; 5; 6; 7; 8; 9] /\
  filter (fun i => match Vec.get (active overlap_reset) i with
                   | Some true => true
                   | _ => false
                   end) (Vec.range 0 20) = [0; 1; 2; 3; 4; 5; 6; 7; 8; 9] /\
  firstn 10 (mate overlap_reset) = [-1; 3; 6; 1; 3; 6; 5; -1; 9; 8] /\
  ~ symmetric_at overlap_reset 4 /\
  ~ symmetric_at overlap_reset 2 /\
  outer_symmetricb G_overlap overlap_reset = false /\
  SolveMinimumCostPerfectMatching eps10 G_overlap 40 cost_overlap (Matching_new G_overlap)
    = Ok (([2; 3; 4; 5; 6; 12], 1.3500000000000001e-09%float),
          exec (SolveMinimumCostPerfectMatching eps10 G_overlap 40 cost_overlap)
               (Matching_new G_overlap)) /\
  firstn 10 (mate (exec (SolveMinimumCostPerfectMatching eps10 G_overlap 40 cost_overlap)
                        (Matching_new G_overlap)))
    = [7; 3; 6; 4; 3; 6; 5; 0; 9; 8] /\
  ~ symmetric_at (exec (SolveMinimumCostPerfectMatching eps10 G_overlap 40 cost_overlap)
                       (Matching_new G_overlap)) 1 /\
  ~ symmetric_at (exec (SolveMinimumCostPerfectMatching eps10 G_overlap 40 cost_overlap)
                       (Matching_new G_overlap)) 2.
Proof.
  split; [vm_compute; reflexivity|]. split; [vm_compute; reflexivity|].
  split; [vm_compute; reflexivity|]. split; [vm_compute; reflexivity|].
  split; [vm_compute; reflexivity|]. split; [vm_compute; reflexivity|].
  split; [vm_compute; reflexivity|].
  split.
  { intros H. specialize (H 3). vm_compute in H.
    assert (F : Some 1 = Some 4) by (apply H; [reflexivity|discriminate]). discriminate. }
  split.
  { intros H. specialize (H 6). vm_compute in H.
    assert (F : Some 5 = Some 2) by (apply H; [reflexivity|discriminate]). discriminate. }
  split; [vm_compute; reflexivity|]. split; [vm_compute; reflexivity|].
  split; [vm_compute; reflexivity|].
  split.
  { intros H. specialize (H 3). vm_compute in H.
    assert (F : Some 4 = Some 1) by (apply H; [reflexivity|discriminate]). discriminate. }
  intros H. specialize (H 6). vm_compute in H.
  assert (F : Some 5 = Some 2) by (apply H; [reflexivity|discriminate]). discriminate.
Qed.

(** ** C7 on runs *)



(** ** C8 on runs *)

(** C8, counterexample.  On [G_loop] with [cost_loop] and
    [EPSILON = 1e-10], a graph with a perfect matching, the call passes the
    check and enters the loop.  The third iteration leaves [mate]
    inconsistent (as in the run of C1); after the fourth, the vertices [0]
    and [7] are still unmatched, no candidate of the dual step is
    initialized (the step is [0]) and a further iteration, [Heuristic; Grow;
    UpdateDualCosts; Reset], returns the state it started from.  The loop
    [while (not perfect)] therefore never ends: whatever number of
    iterations is allowed, the model runs out of it, and no error is raised. *)
Lemma SolveMinimum_never_returns :
  value (SolveMaximumMatching eps10 G_loop 40) (Matching_new G_loop)
    = Some [1; 4; 7; 9; 10] /\
  perfect_matchingb G_loop [1; 4; 7; 9; 10] = true /\
  enter_loop eps10 G_loop 40 cost_loop (Matching_new G_loop) = Ok (tt, loop_entry) /\
  iterations eps10 G_loop 40 4 loop_entry = Ok (tt, loop_stuck) /\
  map (fun k => perfect (exec (iterations eps10 G_loop 40 k) loop_entry))
    [0; 1; 2; 3; 4]%nat = [false; false; false; false; false] /\
  firstn 10 (mate loop_stuck) = [-1; 3; 6; 1; 3; 6; 5; -1; 9; 8] /\
  option_map (fun c => (inite1 c, inite2 c, inite3 c)) (scan eps10 G_loop
    (exec (Heuristic eps10 G_loop ;; Grow eps10 G_loop 40) loop_stuck))
    = Some (false, false, false) /\
  iteration eps10 G_loop 40 loop_stuck = Ok (tt, loop_stuck) /\
  (forall k, (enter_loop eps10 G_loop 40 cost_loop ;; primal_dual eps10 G_loop 40 k)
               (Matching_new G_loop) = OutOfFuel) /\
  SolveMinimumCostPerfectMatching eps10 G_loop 40 cost_loop (Matching_new G_loop)
    = OutOfFuel.
Proof.
  assert (He : enter_loop eps10 G_loop 40 cost_loop (Matching_new G_loop)
               = Ok (tt, loop_entry)) by (vm_compute; reflexivity).
  assert (Hs : iteration eps10 G_loop 40 loop_stuck = Ok (tt, loop_stuck))
    by (vm_compute; reflexivity).
  assert (Hp : perfect loop_stuck = false) by (vm_compute; reflexivity).
  split; [vm_compute; reflexivity|]. split; [vm_compute; reflexivity|].
  split; [exact He|]. split; [vm_compute; reflexivity|].
  split; [vm_compute; reflexivity|]. split; [vm_compute; reflexivity|].
  split; [vm_compute; reflexivity|]. split; [exact Hs|].
  split; [|vm_compute; reflexivity].
  intros k. rewrite (@bind_step _ _ _ _ _ _ _ He).
  assert (P0 : perfect loop_entry = false) by (vm_compute; reflexivity).
  assert (I0 : iteration eps10 G_loop 40 loop_entry
               = Ok (tt, exec (iterations eps10 G_loop 40 1) loop_entry))
    by (vm_compute; reflexivity).
  assert (P1 : perfect (exec (iterations eps10 G_loop 40 1) loop_entry) = false)
    by (vm_compute; reflexivity).
  assert (I1 : iteration eps10 G_loop 40 (exec (iterations eps10 G_loop 40 1) loop_entry)
               = Ok (tt, exec (iterations eps10 G_loop 40 2) loop_entry))
    by (vm_compute; reflexivity).
  assert (P2 : perfect (exec (iterations eps10 G_loop 40 2) loop_entry) = false)
    by (vm_compute; reflexivity).
  assert (I2 : iteration eps10 G_loop 40 (exec (iterations eps10 G_loop 40 2) loop_entry)
               = Ok (tt, exec (iterations eps10 G_loop 40 3) loop_entry))
    by (vm_compute; reflexivity).
  assert (P3 : perfect (exec (iterations eps10 G_loop 40 3) loop_entry) = false)
    by (vm_compute; reflexivity).
  assert (I3 : iteration eps10 G_loop 40 (exec (iterations eps10 G_loop 40 3) loop_entry)
               = Ok (tt, loop_stuck))
    by (vm_compute; reflexivity).
  destruct k as [|[|[|[|k]]]];
    [vm_compute; reflexivity | vm_compute; reflexivity | vm_compute; reflexivity
    | vm_compute; reflexivity | ].
  etransitivity; [apply (primal_dual_next eps10 G_loop 40 _ _ _ P0 I0)|].
  etransitivity; [apply (primal_dual_next eps10 G_loop 40 _ _ _ P1 I1)|].
  etransitivity; [apply (primal_dual_next eps10 G_loop 40 _ _ _ P2 I2)|].
  etransitivity; [apply (primal_dual_next eps10 G_loop 40 _ _ _ P3 I3)|].
  apply (primal_dual_stuck eps10 G_loop 40 k loop_stuck Hs Hp).
Qed.

(** ** C9 on runs *)

Lemma RetrieveMatching_returns_witness :
  exists s',
    RetrieveMatching eps10 G_kite 20 kite_final = Ok ([2; 3], s') /\
    (exists expanded,
       sweep eps10 G_kite 20 (Vec.range 0 8) kite_final expanded s' /\
       forall i, In i expanded -> 4 <= i -> Vec.get (active s') i = Some false) /\
    (forall i, In i [2; 3] <->
       0 <= i < 5 /\
       exists u v, Gr.GetEdge G_kite i = Some (u, v) /\
                   Vec.get (mate s') u = Some v /\ Vec.get (mate s') v = Some u) /\
    mate s' = [2; 3; 0; 1; -1; -1; -1; 3].
Proof.
  exists (exec (RetrieveMatching eps10 G_kite 20) kite_final).
  assert (H : RetrieveMatching eps10 G_kite 20 kite_final =
              Ok ([2; 3], exec (RetrieveMatching eps10 G_kite 20) kite_final))
    by (vm_compute; reflexivity).
  destruct (RetrieveMatching_returns eps10 G_kite 20 kite_final _ _ H)
    as (H1 & _ & _ & H4).
  split; [exact H|]. split; [exact H1|]. split.
  - apply H4. apply symmetric_on_edgesb_true. vm_compute. reflexivity.
  - vm_compute. reflexivity.
Defined.

(** C9 (failing run).  On [G_overlap] with [cost_overlap] and
    [EPSILON = 1e-10], the input of the run of C1, the loop ends in the
    state [overlap_exit] with [perfect = true] and no active pseudo-vertex.
    [RetrieveMatching] calls [Expand(i, true)] for [i = 0 .. 9] and returns
    the edges 2, 3, 4, 5, 6 and 12, while the edges whose end points are
    mutual mates in the state it leaves are 3, 4, 6 and 12 only: the edges
    2 = [(1, 3)] and 5 = [(2, 6)] are returned on [mate[1] = 3] and
    [mate[2] = 6], which is all that the code tests, while [mate[3] = 4] and
    [mate[6] = 5]. *)
Theorem RetrieveMatching_tests_one_side :
  SolveMinimumCostPerfectMatching eps10 G_overlap 40 cost_overlap
    (Matching_new G_overlap) =
    (matching <- RetrieveMatching eps10 G_overlap 40 ;;
     obj <- reads (fun _ => objective cost_overlap matching) ;;
     ret (matching, obj)) overlap_exit /\
  perfect overlap_exit = true /\
  filter (fun i => match Vec.get (active overlap_exit) i with
                   | Some true => true
                   | _ => false
                   end) (Vec.range 10 20) = [] /\
  RetrieveMatching eps10 G_overlap 40 overlap_exit =
    Ok ([2; 3; 4; 5; 6; 12], exec (RetrieveMatching eps10 G_overlap 40) overlap_exit) /\
  mutual_mates G_overlap (exec (RetrieveMatching eps10 G_overlap 40) overlap_exit)
    = [3; 4; 6; 12] /\
  firstn 10 (mate (exec (RetrieveMatching eps10 G_overlap 40) overlap_exit))
    = [7; 3; 6; 4; 3; 6; 5; 0; 9; 8] /\
  Gr.GetEdge G_overlap 2 = Some (1, 3) /\ Gr.GetEdge G_overlap 5 = Some (2, 6) /\
  symmetric_on_edgesb G_overlap (exec (RetrieveMatching eps10 G_overlap 40) overlap_exit)
    = false.
Proof. vm_compute. repeat split. Qed.

(** ** C10 on runs *)



(** ** C1 on runs *)

(** C1 (failing run).  [SolveMinimumCostPerfectMatching] can return a list
    that is not a matching.  [G_overlap] has a perfect matching, which the
    preliminary pass finds.  With [cost_overlap] and [EPSILON = 1e-10] the
    third [Grow] ends with the blocked blossom 19 = [3, 1, 2], of dual
    [1.5e-10], labelled ODD and mated through the edge 6 = [(3, 4)] to
    its child in the forest, the new EVEN blossom 18 = [4, 6, 5].
    [UpdateDualCosts] takes the step [7.5e-11].  The dual of 19 falls to
    [7.5e-11], which is not [GREATER] than [0]: 19 is unblocked and
    expanded, and [Expand] mates 19 and 18 anew through the edge of least
    index between them, 5 = [(2, 6)]: [mate[2] = 6], [mate[18] = 2].  The
    dual of 18 rises to [7.5e-11] only, so 18 is not blocked, and
    [Reset] destroys it without touching the mates of its members:
    [mate[6] = 5] and [mate[4] = 3] stay, while [mate[3] = 1].  In the next
    iteration [Heuristic] mates [0] and [7]; no [mate] is [-1] any more, the
    loop ends, and the call returns the edges 2 = [(1, 3)], 3 = [(5, 6)],
    4 = [(8, 9)], 5 = [(2, 6)], 6 = [(3, 4)], 12 = [(0, 7)]: six edges on ten
    vertices, with [3] and [6] on two of them each. *)
Theorem SolveMinimum_returns_overlapping_edges :
  value (SolveMaximumMatching eps10 G_overlap 40) (Matching_new G_overlap)
    = Some [1; 4; 7; 9; 10] /\
  perfect_matchingb G_overlap [1; 4; 7; 9; 10] = true /\
  enter_loop eps10 G_overlap 40 cost_overlap (Matching_new G_overlap)
    = Ok (tt, overlap_entry) /\
  (iterations eps10 G_overlap 40 2 ;; Heuristic eps10 G_overlap ;;
   Grow eps10 G_overlap 40) overlap_entry = Ok (tt, overlap_grown) /\
  (Vec.get (shallow overlap_grown) 19 = Some [3; 1; 2] /\
   Vec.get (blocked overlap_grown) 19 = Some true /\
   Vec.get (type overlap_grown) 19 = Some ODD /\
   Vec.get (mate overlap_grown) 19 = Some 4 /\
   Vec.get (dual overlap_grown) 19 = Some 1.5e-10%float) /\
  (Vec.get (shallow overlap_grown) 18 = Some [4; 6; 5] /\
   Vec.get (blocked overlap_grown) 18 = Some false /\
   Vec.get (type overlap_grown) 18 = Some EVEN /\
   Vec.get (mate overlap_grown) 18 = Some 3 /\
   Vec.get (dual overlap_grown) 18 = Some 0%float) /\
  option_map (step_size eps10) (scan eps10 G_overlap overlap_grown)
    = Some 7.5e-11%float /\
  UpdateDualCosts eps10 G_overlap 40 overlap_grown = Ok (tt, overlap_updated) /\
  (Vec.get (active overlap_updated) 19 = Some false /\
   Vec.get (active overlap_updated) 18 = Some true /\
   Vec.get (blocked overlap_updated) 18 = Some false /\
   Vec.get (dual overlap_updated) 18 = Some 7.5e-11%float /\
   GREATER eps10 7.5e-11 0 = false /\
   Vec.get (mate overlap_updated) 18 = Some 2 /\
   firstn 10 (mate overlap_updated) = [-1; 3; 6; 1; 3; 6; 5; -1; 9; 8]) /\
  Reset eps10 G_overlap 40 overlap_updated = Ok (tt, overlap_reset) /\
  (Vec.get (active overlap_reset) 18 = Some false /\
   firstn 10 (mate overlap_reset) = [-1; 3; 6; 1; 3; 6; 5; -1; 9; 8]) /\
  iterations eps10 G_overlap 40 3 overlap_entry = Ok (tt, overlap_reset) /\
  value (SolveMinimumCostPerfectMatching eps10 G_overlap 40 cost_overlap)
    (Matching_new G_overlap) = Some ([2; 3; 4; 5; 6; 12], 1.3500000000000001e-09%float) /\
  map (Gr.GetEdge G_overlap) [2; 3; 4; 5; 6; 12]
    = [Some (1, 3); Some (5, 6); Some (8, 9); Some (2, 6); Some (3, 4); Some (0, 7)] /\
  covers G_overlap [2; 3; 4; 5; 6; 12] 3 = 2 /\
  covers G_overlap [2; 3; 4; 5; 6; 12] 6 = 2 /\
  perfect_matchingb G_overlap [2; 3; 4; 5; 6; 12] = false /\
  firstn 10 (mate (exec (SolveMinimumCostPerfectMatching eps10 G_overlap 40 cost_overlap)
                        (Matching_new G_overlap)))
    = [7; 3; 6; 4; 3; 6; 5; 0; 9; 8].
Proof.
  split; [vm_compute; reflexivity|]. split; [vm_compute; reflexivity|].
  split; [vm_compute; reflexivity|]. split; [vm_compute; reflexivity|].
  split; [vm_compute; repeat split|]. split; [vm_compute; repeat split|].
  split; [vm_compute; reflexivity|]. split; [vm_compute; reflexivity|].
  split; [vm_compute; repeat split|]. split; [vm_compute; reflexivity|].
  split; [vm_compute; repeat split|]. split; [vm_compute; reflexivity|].
  split; [vm_compute; reflexivity|].
  vm_compute. repeat split.
Qed.

(** ** C6 on runs *)

(** C6 (failing run).  [Blossom] can build a pseudo-vertex with a circuit of
    even length.  [G_even] has a perfect matching.  With [cost_even] and
    [EPSILON = 1e-10] the third iteration leaves [mate] inconsistent as in
    the run of C1: [mate[4] = 3] while [mate[3] = 1] and [mate[1] = 3].  In
    the [Grow] of the fourth iteration the root [0] reaches [3] (which
    becomes ODD, and its mate [1] EVEN with [forest[1] = 3]) and then [4]
    (which becomes ODD, and its mate [3] is relabelled EVEN with
    [forest[3] = 4]); the edge [(0, 1)] then joins two EVEN vertices of one
    tree, and [Blossom(0, 1)] collects the circuit [0, 1, 3, 4].  When this
    [Grow] returns, the pseudo-vertex 18 is active with
    [shallow[18] = [0, 1, 3, 4]], of length 4, inside the active
    pseudo-vertex 19 = [18, 6, 5].  The loop goes on; the call itself ends
    in undefined behaviour, when [Expand] pairs up the members of 18. *)
Theorem Grow_builds_even_blossom :
  value (SolveMaximumMatching eps10 G_even 40) (Matching_new G_even)
    = Some [0; 3; 4; 6; 13] /\
  perfect_matchingb G_even [0; 3; 4; 6; 13] = true /\
  enter_loop eps10 G_even 40 cost_even (Matching_new G_even) = Ok (tt, even_entry) /\
  map (fun k => perfect (exec (iterations eps10 G_even 40 k) even_entry))
    [0; 1; 2; 3]%nat = [false; false; false; false] /\
  firstn 10 (mate (exec (iterations eps10 G_even 40 3) even_entry))
    = [-1; 3; 6; 1; 3; 6; 5; -1; 9; 8] /\
  (iterations eps10 G_even 40 3 ;; Heuristic eps10 G_even ;; Grow eps10 G_even 40)
    even_entry = Ok (tt, even_grown) /\
  Vec.get (active even_grown) 18 = Some true /\
  Vec.get (shallow even_grown) 18 = Some [0; 1; 3; 4] /\
  Vec.get (deep even_grown) 18 = Some [0; 1; 3; 4] /\
  Vec.get (outer even_grown) 18 = Some 19 /\
  Vec.get (active even_grown) 19 = Some true /\
  Vec.get (shallow even_grown) 19 = Some [18; 6; 5] /\
  Z.even (len [0; 1; 3; 4]) = true /\
  SolveMinimumCostPerfectMatching eps10 G_even 40 cost_even (Matching_new G_even)
    = Undefined.
Proof. vm_compute. repeat split. Qed.

(* ================================================================== *)
(** * Further properties of the engine *)

(** X2.  On an object whose vectors have the sizes that the constructor
    gives them, [Clear] always returns, and it leaves every index [i < 2n]
    with [outer[i] = i], [deep[i] = [i]] for a vertex and empty for a
    pseudo-vertex, [shallow[i]] empty, [active[i]] exactly for the vertices,
    [type[i] = 0], [forest[i] = -1], [root[i] = i], [blocked[i] = false],
    [dual[i] = 0], [mate[i] = -1] and [tip[i] = i]; the free list is
    [n .. 2n-1], every slack is [0], and [perfect] is not touched. *)
Theorem Clear_resets (G : Graph) (s : Matching) :
  sized G s ->
  exists s', Clear G s = Ok (tt, s') /\ sized G s' /\ cleared G s' /\
             slack s' = Vec.make (Gr.GetNumEdges G) 0%float /\ perfect s' = perfect s.
Proof. apply Clear_run. Qed.

Lemma Clear_resets_witness :
  exists s', Clear G_kite kite_final = Ok (tt, s') /\ cleared G_kite s' /\
             slack s' = [0; 0; 0; 0; 0]%float /\ perfect s' = true.
Proof.
  assert (Hs : sized G_kite kite_final) by (vm_compute; repeat split; discriminate).
  destruct (Clear_resets G_kite kite_final Hs) as (s' & H1 & _ & H3 & H4 & H5).
  exists s'. split; [exact H1|]. split; [exact H3|]. split; [exact H4|].
  rewrite H5. vm_compute. reflexivity.
Defined.

(** X3.  No private method throws: the only [throw] of the class is the one
    of [SolveMinimumCostPerfectMatching] after the preliminary pass. *)
Theorem phases_never_throw (EPSILON : float) (G : Graph) (fuel : nat) (s : Matching)
  (e : error) :
  Clear G s <> Throw e /\
  Heuristic EPSILON G s <> Throw e /\
  Grow EPSILON G fuel s <> Throw e /\
  UpdateDualCosts EPSILON G fuel s <> Throw e /\
  Reset EPSILON G fuel s <> Throw e /\
  PositiveCosts EPSILON G s <> Throw e /\
  RetrieveMatching EPSILON G fuel s <> Throw e /\
  SolveMaximumMatching EPSILON G fuel s <> Throw e.
Proof.
  split; [apply nothrow_Clear|]. split; [apply nothrow_Heuristic|].
  split; [apply nothrow_Grow|]. split; [apply nothrow_UpdateDualCosts|].
  split; [apply nothrow_Reset|]. split; [apply nothrow_PositiveCosts|].
  split; [apply nothrow_RetrieveMatching|]. apply nothrow_SolveMaximumMatching.
Qed.

(** X5.  The vectors of the object keep the size [2n] that the constructor
    gives them through every method that returns. *)
Theorem sizes_are_kept (EPSILON : float) (G : Graph) (fuel : nat) (s s' : Matching) :
  sized G s ->
  (Grow EPSILON G fuel s = Ok (tt, s') -> sized G s') /\
  (Reset EPSILON G fuel s = Ok (tt, s') -> sized G s') /\
  (forall u b, Expand EPSILON G fuel u b s = Ok (tt, s') -> sized G s') /\
  (forall u v, Augment EPSILON G fuel u v s = Ok (tt, s') -> sized G s') /\
  (forall u v t, Blossom G fuel u v s = Ok (t, s') -> sized G s') /\
  (forall t, DestroyBlossom EPSILON G fuel t s = Ok (tt, s') -> sized G s') /\
  (forall l, RetrieveMatching EPSILON G fuel s = Ok (l, s') -> sized G s') /\
  (forall l, SolveMaximumMatching EPSILON G fuel s = Ok (l, s') -> sized G s').
Proof.
  intros Hs.
  split; [intros H; exact (sized_Grow EPSILON G fuel _ _ _ H Hs)|].
  split; [intros H; exact (sized_Reset EPSILON G fuel _ _ _ H Hs)|].
  split; [intros u b H; exact (sized_Expand EPSILON G fuel u b _ _ _ H Hs)|].
  split; [intros u v H; exact (sized_Augment EPSILON G fuel u v _ _ _ H Hs)|].
  split; [intros u v t H; exact (sized_Blossom G fuel u v _ _ _ H Hs)|].
  split; [intros t H; exact (sized_DestroyBlossom EPSILON G fuel t _ _ _ H Hs)|].
  split; [intros l H; exact (sized_RetrieveMatching EPSILON G fuel _ _ _ H Hs)|].
  intros l H; exact (sized_SolveMaximumMatching EPSILON G fuel _ _ _ H Hs).
Qed.

Lemma sizes_are_kept_witness :
  sized G_pennant pennant_entry /\ sized G_pennant pennant_grown.
Proof.
  assert (Hs : sized G_pennant
                 (exec (iterations eps10 G_pennant 20 2 ;; Heuristic eps10 G_pennant)
                       pennant_entry)) by (vm_compute; repeat split; discriminate).
  split; [vm_compute; repeat split; discriminate|].
  apply (proj1 (sizes_are_kept eps10 G_pennant 20 _ pennant_grown Hs)).
  vm_compute. reflexivity.
Defined.

Section Basics.

Variable EPSILON : float.
Variable G : Graph.

Local Abbreviation n := (Gr.GetNumVertices G).
Local Abbreviation m := (Gr.GetNumEdges G).

(** ** The free list *)

Lemma rev_snoc (A : Type) (l : list A) (x : A) : rev (l ++ [x]) = x :: rev l.
Proof. rewrite rev_app_distr. reflexivity. Qed.

Lemma set_free_free (s : Matching) : set_free (free s) s = s.
Proof. destruct s; reflexivity. Qed.

Lemma GetFreeBlossomIndex_Ok (s s' : Matching) (t : Z) :
  GetFreeBlossomIndex s = Ok (t, s') ->
  free s = free s' ++ [t] /\ s' = set_free (free s') s.
Proof.
  unfold GetFreeBlossomIndex. rewrite bind_gets.
  destruct (rev (free s)) as [|i r] eqn:E; [discriminate|].
  rewrite bind_modify. intros H. apply ret_Ok in H. destruct H as [E1 E2]. subst i s'.
  simpl. split; [|reflexivity].
  rewrite <- (rev_involutive (free s)), E. reflexivity.
Qed.

Lemma GetFreeBlossomIndex_run (s : Matching) (fr : list Z) (t : Z) :
  free s = fr ++ [t] -> GetFreeBlossomIndex s = Ok (t, set_free fr s).
Proof.
  intros H. unfold GetFreeBlossomIndex. rewrite bind_gets, H, rev_snoc.
  rewrite bind_modify, rev_involutive. reflexivity.
Qed.

(** X6.  The free list of blossom indices is a stack: the index that
    [AddFreeBlossomIndex] appends is the one that the next
    [GetFreeBlossomIndex] returns, and the pair leaves the object as it was;
    [GetFreeBlossomIndex] returns the last index of the list and removes it,
    and is undefined behaviour on an empty list; after [ClearBlossomIndices]
    the list is [n .. 2n-1], so that with [n > 0] the largest index [2n-1]
    is handed out first. *)
Theorem free_list_is_a_stack (i : Z) (s : Matching) :
  (AddFreeBlossomIndex i ;; GetFreeBlossomIndex) s = Ok (i, s) /\
  (free s = [] -> GetFreeBlossomIndex s = Undefined) /\
  (forall t s', GetFreeBlossomIndex s = Ok (t, s') ->
     free s = free s' ++ [t] /\ s' = set_free (free s') s) /\
  ClearBlossomIndices G s = Ok (tt, set_free (Vec.range n (2 * n)) s) /\
  (0 < n -> (ClearBlossomIndices G ;; GetFreeBlossomIndex) s
            = Ok (2 * n - 1, set_free (Vec.range n (2 * n - 1)) s)).
Proof.
  split.
  { unfold AddFreeBlossomIndex. rewrite bind_modify.
    rewrite (GetFreeBlossomIndex_run _ (free s) i) by reflexivity.
    destruct s; reflexivity. }
  split.
  { intros H. unfold GetFreeBlossomIndex. rewrite bind_gets, H. reflexivity. }
  split; [intros t s'; apply GetFreeBlossomIndex_Ok|].
  split; [apply (ClearBlossomIndices_run G)|].
  intros Hn. rewrite (@bind_step _ _ _ _ _ _ _ (ClearBlossomIndices_run G s)).
  rewrite (GetFreeBlossomIndex_run _ (Vec.range n (2 * n - 1)) (2 * n - 1)).
  - reflexivity.
  - unfold set_free; cbn [free]. replace (2 * n) with (2 * n - 1 + 1) at 1 by lia.
    apply range_snoc. lia.
Qed.

(** ** The failure does not look at the costs *)

(** X7.  Whether [SolveMinimumCostPerfectMatching] throws does not depend on
    the costs: if it throws for one cost vector, then from the same object
    it throws [NoPerfectMatching] for every other cost vector, whatever its
    length and its entries. *)
Theorem failure_ignores_costs (fuel : nat) (cost cost' : list float) (s : Matching)
  (e : error) :
  SolveMinimumCostPerfectMatching EPSILON G fuel cost s = Throw e ->
  SolveMinimumCostPerfectMatching EPSILON G fuel cost' s = Throw NoPerfectMatching.
Proof.
  intros H. apply SolveMinimum_throws in H. destruct H as [_ [l [s2 [H Hp]]]].
  unfold SolveMinimumCostPerfectMatching.
  rewrite (@bind_step _ _ _ _ _ _ _ H). rewrite bind_gets, Hp. reflexivity.
Qed.

(** ** [PositiveCosts] *)


(** X9.  [slack = cost] copies the cost vector whatever its length, and
    [PositiveCosts] then reads [m] entries of it: when the graph has a
    perfect matching and the cost vector has fewer than [m] entries,
    [SolveMinimumCostPerfectMatching] is undefined behaviour. *)
Theorem short_cost_vector_is_undefined (fuel : nat) (cost : list float) (s s1 : Matching)
  (matching : list Z) :
  sized G s ->
  SolveMaximumMatching EPSILON G fuel s = Ok (matching, s1) ->
  perfect s1 = true ->
  len cost < m ->
  SolveMinimumCostPerfectMatching EPSILON G fuel cost s = Undefined.
Proof.
  intros Hs H Hp Hc. unfold SolveMinimumCostPerfectMatching.
  rewrite (@bind_step _ _ _ _ _ _ _ H). rewrite bind_gets, Hp.
  pose proof (sized_SolveMaximumMatching EPSILON G fuel _ _ _ H Hs) as Hs1.
  destruct (Clear_run G s1 Hs1) as [s2 [R2 _]].
  assert (I : initialise EPSILON G cost s1 = Undefined).
  { unfold initialise. rewrite (@bind_step _ _ _ _ _ _ _ R2).
    unfold assign. rewrite bind_modify. apply PositiveCosts_short. exact Hc. }
  cbn [negb]. unfold bind at 1. rewrite I. reflexivity.
Qed.

End Basics.

(** *** On runs *)

Lemma failure_ignores_costs_witness :
  SolveMinimumCostPerfectMatching eps10 G_triangle 20 [] (Matching_new G_triangle)
    = Throw NoPerfectMatching.
Proof.
  apply (failure_ignores_costs eps10 G_triangle 20 [1; 2; 3]%float [] (Matching_new G_triangle)
           NoPerfectMatching).
  vm_compute. reflexivity.
Defined.

Lemma short_cost_vector_is_undefined_witness :
  SolveMinimumCostPerfectMatching eps10 G_edge 20 [] (Matching_new G_edge) = Undefined.
Proof.
  apply (short_cost_vector_is_undefined eps10 G_edge 20 [] (Matching_new G_edge)
           (exec (SolveMaximumMatching eps10 G_edge 20) (Matching_new G_edge)) [0]).
  - vm_compute. repeat split; discriminate.
  - vm_compute. reflexivity.
  - vm_compute. reflexivity.
  - vm_compute. reflexivity.
Defined.

Section Expansion.

Variable EPSILON : float.
Variable G : Graph.

Local Abbreviation n := (Gr.GetNumVertices G).
Local Abbreviation m := (Gr.GetNumEdges G).

(** ** The rotation of [Expand] *)

Lemma rotation_refl (A : Type) (l : list A) : rotation l l.
Proof. exists [], l. split; [reflexivity|]. rewrite app_nil_r. reflexivity. Qed.

Lemma rotation_step (A : Type) (l : list A) (x : A) (r : list A) :
  rotation l (x :: r) -> rotation l (r ++ [x]).
Proof.
  intros [a [b [E1 E2]]]. destruct b as [|y b].
  - simpl in E2. subst a. rewrite app_nil_r in E1. subst l.
    exists [x], r. split; reflexivity.
  - simpl in E2. injection E2 as Ey Er. subst y r.
    exists (a ++ [x]), b. split.
    + rewrite <- app_assoc. exact E1.
    + rewrite app_assoc. reflexivity.
Qed.

Lemma rotation_length (A : Type) (l l' : list A) : rotation l l' -> length l' = length l.
Proof. intros [a [b [E1 E2]]]. subst. rewrite !length_app. lia. Qed.

Lemma rotation_In (A : Type) (l l' : list A) (x : A) : rotation l l' -> In x l' -> In x l.
Proof.
  intros [a [b [E1 E2]]] H. subst. apply in_app_or in H. apply in_or_app. tauto.
Qed.

Lemma existsb_eqb (p : Z) (l : list Z) : existsb (Z.eqb p) l = true <-> In p l.
Proof.
  rewrite existsb_exists. split.
  - intros [x [Hx E]]. apply Z.eqb_eq in E. subst. exact Hx.
  - intros H. exists p. split; [exact H|apply Z.eqb_refl].
Qed.

Lemma Expand_rotate_Ok (fuel : nat) (u p : Z) (sh0 : list Z) (s s' : Matching) :
  Expand_rotate fuel u p s = Ok (tt, s') ->
  forall sh, Vec.get (shallow s) u = Some sh -> rotation sh0 sh ->
  exists sh',
    Vec.get (shallow s') u = Some sh' /\ rotation sh0 sh' /\
    s' = fput f_shallow (shallow s') s /\
    (forall j, j <> u -> Vec.get (shallow s') j = Vec.get (shallow s) j) /\
    match sh' with
    | [] => True
    | si :: rest =>
        rest = [] \/ exists dsi, Vec.get (deep s) si = Some dsi /\ In p dsi
    end.
Proof.
  revert s. induction fuel as [|fuel IH]; intros s H sh Hsh Hrot; simpl in H;
    [discriminate|].
  rewrite (bind_rd _ _ f_shallow u sh) in H by exact Hsh.
  destruct sh as [|si rest].
  { apply ret_Ok in H. destruct H as [_ H]. subst s'. exists [].
    split; [exact Hsh|]. split; [exact Hrot|].
    split; [destruct s; reflexivity|]. split; [reflexivity|exact I]. }
  apply bind_Ok in H. destruct H as [dsi [t [Hd H]]].
  apply rd_Ok in Hd. destruct Hd as [Hd E]. subst t. simpl in Hd.
  destruct (existsb (Z.eqb p) dsi) eqn:Ex.
  { apply ret_Ok in H. destruct H as [_ H]. subst s'. exists (si :: rest).
    split; [exact Hsh|]. split; [exact Hrot|].
    split; [destruct s; reflexivity|]. split; [reflexivity|].
    right. exists dsi. split; [exact Hd|]. apply existsb_eqb. exact Ex. }
  apply bind_Ok in H. destruct H as [[] [s1 [Hw H]]].
  apply wr_Ok in Hw. destruct Hw as [v [Hv E1]]. simpl in Hv.
  apply set_Some in Hv. destruct Hv as [_ [_ Hg]].
  assert (G1 : Vec.get (shallow s1) u = Some (rest ++ [si])).
  { subst s1. simpl. rewrite Hg, Z.eqb_refl. reflexivity. }
  assert (F1 : forall j, j <> u -> Vec.get (shallow s1) j = Vec.get (shallow s) j).
  { intros j Hj. subst s1. simpl. rewrite Hg.
    destruct (Z.eqb_spec j u); [contradiction|reflexivity]. }
  assert (D1 : deep s1 = deep s) by (subst s1; reflexivity).
  destruct rest as [|r0 rest].
  { apply ret_Ok in H. destruct H as [_ H]. subst s'. exists [si].
    split; [exact G1|]. split; [exact Hrot|].
    split; [subst s1; reflexivity|]. split; [exact F1|]. left. reflexivity. }
  destruct (IH s1 H _ G1 (rotation_step _ _ _ _ Hrot)) as [sh' [A1 [A2 [A3 [A4 A5]]]]].
  exists sh'. split; [exact A1|]. split; [exact A2|].
  split; [rewrite A3; subst s1; reflexivity|].
  split; [intros j Hj; rewrite A4 by exact Hj; apply F1; exact Hj|].
  rewrite D1 in A5. exact A5.
Qed.

Lemma Expand_rotate_hangs (fuel : nat) (u p : Z) (s : Matching) (sh : list Z) :
  Vec.get (shallow s) u = Some sh ->
  (2 <= length sh)%nat ->
  (forall si, In si sh -> exists dsi, Vec.get (deep s) si = Some dsi /\ ~ In p dsi) ->
  Expand_rotate fuel u p s = OutOfFuel.
Proof.
  revert s sh. induction fuel as [|fuel IH]; intros s sh Hsh Hl Hm; simpl; [reflexivity|].
  rewrite (bind_rd _ _ f_shallow u sh) by exact Hsh.
  destruct sh as [|si [|r0 rest]]; [simpl in Hl; lia|simpl in Hl; lia|].
  destruct (Hm si (or_introl eq_refl)) as [dsi [Hd Hn]].
  rewrite (bind_rd _ _ f_deep si dsi) by exact Hd.
  assert (Ex : existsb (Z.eqb p) dsi = false).
  { destruct (existsb (Z.eqb p) dsi) eqn:E; [|reflexivity].
    apply existsb_eqb in E. contradiction. }
  rewrite Ex.
  assert (Hu : 0 <= u < len (fget f_shallow s)).
  { apply get_Some_range in Hsh. exact Hsh. }
  rewrite bind_wr by exact Hu.
  apply (IH _ ((r0 :: rest) ++ [si])).
  - simpl fget. cbn [shallow fput f_shallow]. rewrite get_upd by exact Hu.
    rewrite Z.eqb_refl. reflexivity.
  - rewrite length_app. simpl. lia.
  - intros x Hx. cbn [deep fput f_shallow]. apply Hm.
    apply in_app_or in Hx. destruct Hx as [Hx|[Hx|[]]].
    + right. exact Hx.
    + left. exact Hx.
Qed.

(** X10.  The loop of [Expand] that looks for the new tip only rotates
    [shallow[u]]: when it returns, [shallow[u]] is the old list with a front
    part moved to the back, nothing else in the object has changed, and the
    member now in front holds [p] in its [deep] list unless the blossom has
    a single member.  With two members or more, none of which holds [p], the
    loop never ends. *)
Theorem Expand_rotate_spec (u p : Z) (s : Matching) (sh : list Z) :
  Vec.get (shallow s) u = Some sh ->
  (forall fuel s', Expand_rotate fuel u p s = Ok (tt, s') ->
     exists sh',
       Vec.get (shallow s') u = Some sh' /\ rotation sh sh' /\
       s' = fput f_shallow (shallow s') s /\
       (forall j, j <> u -> Vec.get (shallow s') j = Vec.get (shallow s) j) /\
       match sh' with
       | [] => True
       | si :: rest =>
           rest = [] \/ exists dsi, Vec.get (deep s) si = Some dsi /\ In p dsi
       end) /\
  ((2 <= length sh)%nat ->
   (forall si, In si sh -> exists dsi, Vec.get (deep s) si = Some dsi /\ ~ In p dsi) ->
   forall fuel, Expand_rotate fuel u p s = OutOfFuel).
Proof.
  intros Hsh. split.
  - intros fuel s' H. apply (Expand_rotate_Ok fuel u p sh s s' H sh Hsh).
    apply rotation_refl.
  - intros Hl Hm fuel. apply (Expand_rotate_hangs fuel u p s sh Hsh Hl Hm).
Qed.

(** ** The re-mating of [Expand] *)

Lemma wr_cases (A : Type) (f : field A) (i : Z) (x : A) (s : Matching) :
  wr f i x s = Undefined \/ exists s', wr f i x s = Ok (tt, s').
Proof.
  unfold wr. destruct (Vec.set (fget f s) i x); [right; eauto|left; reflexivity].
Qed.

Lemma rd_cases (A : Type) (f : field A) (i : Z) (s : Matching) :
  rd f i s = Undefined \/ exists x, rd f i s = Ok (x, s).
Proof.
  unfold rd, reads. destruct (Vec.get (fget f s) i); [right; eauto|left; reflexivity].
Qed.

Lemma Expand_pairs_odd (l : list Z) (s : Matching) :
  Nat.odd (length l) = true -> Expand_pairs l s = Undefined.
Proof.
  assert (H : forall k l s, (length l <= k)%nat -> Nat.odd (length l) = true ->
            Expand_pairs l s = Undefined).
  { clear l s. induction k as [|k IH]; intros l s Hk Ho.
    - destruct l; [discriminate Ho|simpl in Hk; lia].
    - destruct l as [|a [|b r]]; [discriminate Ho|reflexivity|].
      cbn [Expand_pairs]. unfold bind.
      destruct (wr_cases _ f_mate a b s) as [E|[s1 E]]; rewrite E; [reflexivity|].
      destruct (wr_cases _ f_mate b a s1) as [E1|[s2 E1]]; rewrite E1; [reflexivity|].
      apply IH; [simpl in Hk; lia|]. exact Ho. }
  apply (H (length l)). lia.
Qed.

Lemma Expand_pairs_Ok (l : list Z) (s s' : Matching) :
  Expand_pairs l s = Ok (tt, s') ->
  Nat.even (length l) = true /\
  s' = fput f_mate (mate s') s /\
  (forall x, ~ In x l -> Vec.get (mate s') x = Vec.get (mate s) x) /\
  (NoDup l -> forall k a b, nth_error l (2 * k) = Some a ->
     nth_error l (2 * k + 1) = Some b ->
     Vec.get (mate s') a = Some b /\ Vec.get (mate s') b = Some a).
Proof.
  assert (H : forall k l s, (length l <= k)%nat -> Expand_pairs l s = Ok (tt, s') ->
    Nat.even (length l) = true /\
    s' = fput f_mate (mate s') s /\
    (forall x, ~ In x l -> Vec.get (mate s') x = Vec.get (mate s) x) /\
    (NoDup l -> forall k a b, nth_error l (2 * k) = Some a ->
       nth_error l (2 * k + 1) = Some b ->
       Vec.get (mate s') a = Some b /\ Vec.get (mate s') b = Some a)).
  { clear l s. induction k as [|k IH]; intros l s Hk H.
    - destruct l; [|simpl in Hk; lia]. apply ret_Ok in H. destruct H as [_ H]. subst s'.
      split; [reflexivity|]. split; [destruct s; reflexivity|].
      split; [reflexivity|]. intros _ j a b Ha. destruct (2 * j)%nat; discriminate Ha.
    - destruct l as [|a [|b r]].
      + apply ret_Ok in H. destruct H as [_ H]. subst s'.
        split; [reflexivity|]. split; [destruct s; reflexivity|].
        split; [reflexivity|]. intros _ j a b Ha. destruct (2 * j)%nat; discriminate Ha.
      + discriminate H.
      + cbn [Expand_pairs] in H.
        apply bind_Ok in H. destruct H as [[] [s1 [W1 H]]].
        apply bind_Ok in H. destruct H as [[] [s2 [W2 H]]].
        apply wr_Ok in W1. destruct W1 as [v1 [V1 E1]]. subst s1.
        apply wr_Ok in W2. destruct W2 as [v2 [V2 E2]]. subst s2. simpl in V1, V2.
        apply set_Some in V1. destruct V1 as [_ [_ G1]].
        apply set_Some in V2. destruct V2 as [_ [_ G2]].
        apply IH in H; [|simpl in Hk; lia].
        destruct H as [A1 [A2 [A3 A4]]]. simpl in A2, A3.
        split; [exact A1|]. split; [exact A2|].
        split.
        { intros x Hx. rewrite A3 by (intros C; apply Hx; right; right; exact C).
          rewrite G2, G1.
          destruct (Z.eqb_spec x b); [exfalso; apply Hx; right; left; congruence|].
          destruct (Z.eqb_spec x a); [exfalso; apply Hx; left; congruence|reflexivity]. }
        intros Hnd j a' b' Ha Hb.
        inversion Hnd as [|? ? Na Hnd1]; subst.
        inversion Hnd1 as [|? ? Nb Hnd2]; subst.
        destruct j as [|j].
        * simpl in Ha, Hb. injection Ha as Ha. injection Hb as Hb. subst a' b'.
          rewrite !A3 by assumption || (intros C; apply Na; right; exact C).
          rewrite !G2, !G1, !Z.eqb_refl.
          destruct (Z.eqb_spec a b) as [E|E];
            [exfalso; apply Na; left; congruence|].
          split; reflexivity.
        * replace (2 * S j)%nat with (S (S (2 * j))) in Ha by lia.
          replace (2 * S j + 1)%nat with (S (S (2 * j + 1))) in Hb by lia.
          simpl in Ha, Hb. apply (A4 Hnd2 j); assumption. }
  apply (H (length l)). lia.
Qed.

Lemma Expand_remate_even (u : Z) (s : Matching) (sh : list Z) :
  Vec.get (shallow s) u = Some sh -> Nat.even (length sh) = true ->
  Expand_remate u s = Undefined.
Proof.
  intros Hsh He. unfold Expand_remate.
  rewrite (bind_rd _ _ f_shallow u sh) by exact Hsh.
  destruct sh as [|s0 r]; [reflexivity|].
  unfold bind.
  destruct (rd_cases _ f_mate u s) as [E|[mu E]]; rewrite E; [reflexivity|].
  destruct (wr_cases _ f_mate s0 mu s) as [E1|[s1 E1]]; rewrite E1; [reflexivity|].
  apply Expand_pairs_odd. simpl length in He. rewrite Nat.even_succ in He. exact He.
Qed.

Lemma Expand_remate_Ok (u : Z) (s s' : Matching) :
  Expand_remate u s = Ok (tt, s') ->
  exists s0 r mu,
    Vec.get (shallow s) u = Some (s0 :: r) /\ Vec.get (mate s) u = Some mu /\
    Nat.odd (length (s0 :: r)) = true /\
    s' = fput f_mate (mate s') s /\
    (forall x, ~ In x (s0 :: r) -> Vec.get (mate s') x = Vec.get (mate s) x) /\
    (NoDup (s0 :: r) ->
     Vec.get (mate s') s0 = Some mu /\
     forall k a b, nth_error r (2 * k) = Some a -> nth_error r (2 * k + 1) = Some b ->
       Vec.get (mate s') a = Some b /\ Vec.get (mate s') b = Some a).
Proof.
  unfold Expand_remate. intros H.
  apply bind_Ok in H. destruct H as [sh [t [Hsh H]]].
  apply rd_Ok in Hsh. destruct Hsh as [Hsh E]. subst t. simpl in Hsh.
  destruct sh as [|s0 r]; [discriminate H|].
  apply bind_Ok in H. destruct H as [mu [t [Hmu H]]].
  apply rd_Ok in Hmu. destruct Hmu as [Hmu E]. subst t. simpl in Hmu.
  apply bind_Ok in H. destruct H as [[] [s1 [W H]]].
  apply wr_Ok in W. destruct W as [v [V E]]. subst s1. simpl in V.
  apply set_Some in V. destruct V as [_ [_ Gv]].
  apply Expand_pairs_Ok in H. destruct H as [A1 [A2 [A3 A4]]]. simpl in A2, A3.
  exists s0, r, mu. split; [exact Hsh|]. split; [exact Hmu|].
  split; [simpl length; rewrite Nat.odd_succ; exact A1|].
  split; [exact A2|].
  split.
  { intros x Hx. rewrite A3 by (intros C; apply Hx; right; exact C).
    rewrite Gv. destruct (Z.eqb_spec x s0); [exfalso; apply Hx; left; congruence|].
    reflexivity. }
  intros Hnd. inversion Hnd as [|? ? N0 Hnd1]; subst.
  split.
  - rewrite A3 by exact N0. rewrite Gv, Z.eqb_refl. reflexivity.
  - apply A4. exact Hnd1.
Qed.

(** X11.  The re-mating of [Expand] gives the first member of [shallow[u]]
    the mate of [u] and pairs the members that follow two by two, each with
    its neighbour in the list; it writes nothing but [mate], and only at the
    members.  It can return only when the number of members is odd: with an
    even number (none included) it is undefined behaviour. *)
Theorem Expand_remate_spec (u : Z) (s : Matching) (sh : list Z) :
  Vec.get (shallow s) u = Some sh ->
  (Nat.even (length sh) = true -> Expand_remate u s = Undefined) /\
  (forall s', Expand_remate u s = Ok (tt, s') ->
     exists s0 r mu,
       sh = s0 :: r /\ Vec.get (mate s) u = Some mu /\ Nat.odd (length sh) = true /\
       s' = fput f_mate (mate s') s /\
       (forall x, ~ In x sh -> Vec.get (mate s') x = Vec.get (mate s) x) /\
       (NoDup sh ->
        Vec.get (mate s') s0 = Some mu /\
        forall k a b, nth_error r (2 * k) = Some a -> nth_error r (2 * k + 1) = Some b ->
          Vec.get (mate s') a = Some b /\ Vec.get (mate s') b = Some a)).
Proof.
  intros Hsh. split; [apply Expand_remate_even; exact Hsh|].
  intros s' H. apply Expand_remate_Ok in H.
  destruct H as [s0 [r [mu [H1 H2]]]].
  rewrite Hsh in H1. injection H1 as H1. subst sh.
  exists s0, r, mu. split; [reflexivity|]. exact H2.
Qed.

(** ** What [Expand] and [DestroyBlossom] write *)

Ltac frame p known :=
  pres_with (@same_on_refl _ p) (@same_on_trans _ p) ltac:(reflexivity) known.

Lemma outside_DestroyBlossom (fuel : nat) (t : Z) :
  preserves (same_on (fun s => (outside_expansion s, shallow s)))
    (DestroyBlossom EPSILON G fuel t).
Proof.
  revert t. induction fuel as [|fuel IH]; intros t; simpl.
  - apply preserves_out_of_fuel.
  - unfold AddFreeBlossomIndex.
    frame (fun s => (outside_expansion s, shallow s)) ltac:(apply IH).
Qed.

Lemma outside_Expand_rotate (fuel : nat) (u p : Z) :
  preserves (same_on (fun s => (outside_expansion s, blocked s)))
    (Expand_rotate fuel u p).
Proof.
  revert u p. induction fuel as [|fuel IH]; intros u p; simpl.
  - apply preserves_out_of_fuel.
  - frame (fun s => (outside_expansion s, blocked s)) ltac:(apply IH).
Qed.

Lemma outside_Expand_pairs (l : list Z) :
  preserves (same_on (fun s => (outside_expansion s, blocked s))) (Expand_pairs l).
Proof.
  intros s a s' H. destruct a. apply Expand_pairs_Ok in H. destruct H as [_ [H _]].
  rewrite H. reflexivity.
Qed.

Lemma outside_Expand (fuel : nat) (u : Z) (b : bool) :
  preserves (same_on (fun s => (outside_expansion s, blocked s)))
    (Expand EPSILON G fuel u b).
Proof.
  revert u b. induction fuel as [|fuel IH]; intros u b; simpl.
  - apply preserves_out_of_fuel.
  - unfold Expand_remate, release_members, AddFreeBlossomIndex.
    frame (fun s => (outside_expansion s, blocked s))
      ltac:(first [apply IH|apply outside_Expand_rotate|apply outside_Expand_pairs]).
Qed.

(** *** [DestroyBlossom] *)

Lemma DestroyBlossom_vertex (fuel : nat) (t : Z) (s : Matching) :
  t < n -> DestroyBlossom EPSILON G (S fuel) t s = Ok (tt, s).
Proof.
  intros H. simpl. destruct (Z.ltb_spec t n); [|lia]. reflexivity.
Qed.

Lemma DestroyBlossom_blocked (fuel : nat) (t : Z) (s : Matching) (d : float) :
  n <= t -> Vec.get (blocked s) t = Some true -> Vec.get (dual s) t = Some d ->
  GREATER EPSILON d 0 = true ->
  DestroyBlossom EPSILON G (S fuel) t s = Ok (tt, s).
Proof.
  intros H Hb Hd Hg. simpl. destruct (Z.ltb_spec t n); [lia|].
  unfold bind at 1. unfold bind at 1.
  unfold rd at 1, reads. simpl fget. rewrite Hb.
  unfold bind at 1. unfold rd at 1, reads. simpl fget. rewrite Hd.
  unfold ret at 1. rewrite Hg. reflexivity.
Qed.

Lemma DestroyBlossom_stop (t : Z) (s s1 : Matching) (stop : bool) :
  (if t <? n then ret true
   else b <- rd f_blocked t ;;
        if b then d <- rd f_dual t ;; ret (GREATER EPSILON d 0)
        else ret false) s = Ok (stop, s1) ->
  s1 = s /\
  (stop = true <->
   t < n \/ (Vec.get (blocked s) t = Some true /\
             exists d, Vec.get (dual s) t = Some d /\ GREATER EPSILON d 0 = true)).
Proof.
  intros H. destruct (Z.ltb_spec t n) as [L|L].
  - apply ret_Ok in H. destruct H as [E1 E2]. subst. split; [reflexivity|].
    split; [intros _; left; exact L|reflexivity].
  - apply bind_Ok in H. destruct H as [b [t1 [Hb H]]].
    apply rd_Ok in Hb. destruct Hb as [Hb E]. subst t1. simpl in Hb.
    destruct b.
    + apply bind_Ok in H. destruct H as [d [t1 [Hd H]]].
      apply rd_Ok in Hd. destruct Hd as [Hd E]. subst t1. simpl in Hd.
      apply ret_Ok in H. destruct H as [E1 E2]. subst. split; [reflexivity|].
      split.
      * intros E. right. split; [exact Hb|]. exists d. split; [exact Hd|exact E].
      * intros [C|[_ [d' [Hd' E]]]]; [lia|]. rewrite Hd in Hd'. injection Hd' as Hd'.
        subst d'. exact E.
    + apply ret_Ok in H. destruct H as [E1 E2]. subst. split; [reflexivity|].
      split; [discriminate|].
      intros [C|[C _]]; [lia|]. rewrite Hb in C. discriminate C.
Qed.

Lemma DestroyBlossom_proceeds (fuel : nat) (t : Z) (s s' : Matching) :
  DestroyBlossom EPSILON G fuel t s = Ok (tt, s') ->
  n <= t ->
  (Vec.get (blocked s) t = Some false \/
   exists d, Vec.get (dual s) t = Some d /\ GREATER EPSILON d 0 = false) ->
  Vec.get (active s') t = Some false /\ Vec.get (blocked s') t = Some false /\
  Vec.get (mate s') t = Some (-1) /\ exists fr, free s' = fr ++ [t].
Proof.
  destruct fuel as [|fuel]; simpl; [discriminate|]. intros H Ht Hc.
  apply bind_Ok in H. destruct H as [stop [s1 [Hs H]]].
  apply DestroyBlossom_stop in Hs. destruct Hs as [E Hs]. subst s1.
  destruct stop.
  { exfalso. destruct (proj1 Hs eq_refl) as [C|[Hb [d [Hd Hg]]]]; [lia|].
    destruct Hc as [Hc|[d' [Hd' Hg']]]; [congruence|].
    rewrite Hd in Hd'. injection Hd' as Hd'. subst d'. congruence. }
  apply bind_Ok in H. destruct H as [sh [t1 [_ H]]].
  apply bind_Ok in H. destruct H as [[] [s2 [_ H]]].
  apply bind_Ok in H. destruct H as [[] [s3 [W3 H]]].
  apply bind_Ok in H. destruct H as [[] [s4 [W4 H]]].
  apply bind_Ok in H. destruct H as [[] [s5 [W5 H]]].
  apply wr_Ok in W3. destruct W3 as [v3 [V3 E3]].
  apply wr_Ok in W4. destruct W4 as [v4 [V4 E4]].
  unfold AddFreeBlossomIndex in W5. apply modify_Ok in W5.
  apply wr_Ok in H. destruct H as [v6 [V6 E6]].
  apply set_Some in V3. destruct V3 as [_ [_ G3]].
  apply set_Some in V4. destruct V4 as [_ [_ G4]].
  apply set_Some in V6. destruct V6 as [_ [_ G6]].
  subst s' s5 s4 s3. simpl.
  split; [rewrite G3, Z.eqb_refl; reflexivity|].
  split; [rewrite G4, Z.eqb_refl; reflexivity|].
  split; [rewrite G6, Z.eqb_refl; reflexivity|].
  eexists. reflexivity.
Qed.

(** X12.  [DestroyBlossom(t)] does nothing for an original vertex and for
    a blocked pseudo-vertex whose dual is GREATER than [0].  Otherwise, when
    it returns, [t] is inactive and not blocked, [mate[t] = -1], and [t] is
    the last entry of the free list.  In every case it leaves the [deep] and
    [shallow] lists, the tips, the labels, the forest, the duals and the
    slacks as they were. *)
Theorem DestroyBlossom_effect (t : Z) (s : Matching) :
  (forall fuel, t < n -> DestroyBlossom EPSILON G (S fuel) t s = Ok (tt, s)) /\
  (forall fuel d, n <= t -> Vec.get (blocked s) t = Some true ->
     Vec.get (dual s) t = Some d -> GREATER EPSILON d 0 = true ->
     DestroyBlossom EPSILON G (S fuel) t s = Ok (tt, s)) /\
  (forall fuel s', DestroyBlossom EPSILON G fuel t s = Ok (tt, s') ->
     n <= t ->
     (Vec.get (blocked s) t = Some false \/
      exists d, Vec.get (dual s) t = Some d /\ GREATER EPSILON d 0 = false) ->
     Vec.get (active s') t = Some false /\ Vec.get (blocked s') t = Some false /\
     Vec.get (mate s') t = Some (-1) /\ exists fr, free s' = fr ++ [t]) /\
  (forall fuel s', DestroyBlossom EPSILON G fuel t s = Ok (tt, s') ->
     outside_expansion s' = outside_expansion s /\ shallow s' = shallow s).
Proof.
  split; [intros fuel; apply DestroyBlossom_vertex|].
  split; [intros fuel d; apply DestroyBlossom_blocked|].
  split; [intros fuel s'; apply DestroyBlossom_proceeds|].
  intros fuel s' H. apply outside_DestroyBlossom in H. unfold same_on in H.
  split; [exact (eq_sym (f_equal fst H))|exact (eq_sym (f_equal snd H))].
Qed.

(** *** [Expand] *)

Lemma Expand_unmated (fuel : nat) (u : Z) (b : bool) (s : Matching) :
  Vec.get (mate s) u = Some (-1) -> Expand EPSILON G (S fuel) u b s = Undefined.
Proof.
  intros H. simpl. rewrite (bind_rd _ _ f_mate u (-1)) by exact H. reflexivity.
Qed.

(** The part of [Expand] before the test of [u]. *)
Lemma Expand_head (fuel : nat) (u : Z) (b : bool) (s s' : Matching) :
  Expand EPSILON G (S fuel) u b s = Ok (tt, s') ->
  exists mu v r w1 w2,
    Vec.get (mate s) u = Some mu /\ Vec.get (outer s) mu = Some v /\
    Expand_find EPSILON G s u v = Some r /\
    Vec.set (mate s) u (snd r) = Some w1 /\ Vec.set w1 v (snd (fst r)) = Some w2 /\
    (stop <- (if u <? n then ret true
              else bl <- rd f_blocked u ;; ret (bl && negb b)) ;;
     if stop : bool then ret tt
     else
       Expand_rotate fuel u (snd (fst r)) ;;
       Expand_remate u ;;
       sh <- rd f_shallow u ;;
       release_members sh ;;
       wr f_active u false ;;
       AddFreeBlossomIndex u ;;
       forM sh (fun x => Expand EPSILON G fuel x b)) (fput f_mate w2 s) = Ok (tt, s').
Proof.
  simpl. intros H.
  apply bind_Ok in H. destruct H as [mu [t [Hmu H]]].
  apply rd_Ok in Hmu. destruct Hmu as [Hmu E]. subst t.
  apply bind_Ok in H. destruct H as [v [t [Hv H]]].
  apply rd_Ok in Hv. destruct Hv as [Hv E]. subst t.
  apply bind_Ok in H. destruct H as [r [t [Hr H]]].
  apply reads_Ok in Hr. destruct Hr as [Hr E]. subst t.
  apply bind_Ok in H. destruct H as [[] [t1 [Hw1 H]]].
  apply wr_Ok in Hw1. destruct Hw1 as [w1 [Hw1 E]]. subst t1.
  apply bind_Ok in H. destruct H as [[] [t2 [Hw2 H]]].
  apply wr_Ok in Hw2. destruct Hw2 as [w2 [Hw2 E]]. subst t2.
  simpl in Hmu, Hv, Hw1, Hw2.
  exists mu, v, r, w1, w2. repeat (split; [assumption|]).
  exact H.
Qed.

Lemma Expand_blocked (fuel : nat) (u : Z) (s s' : Matching) :
  Expand EPSILON G fuel u false s = Ok (tt, s') ->
  Vec.get (blocked s) u = Some true ->
  s' = fput f_mate (mate s') s /\
  forall mu v, Vec.get (mate s) u = Some mu -> Vec.get (outer s) mu = Some v ->
    forall j, j <> u -> j <> v -> Vec.get (mate s') j = Vec.get (mate s) j.
Proof.
  destruct fuel as [|fuel]; [discriminate|]. intros H Hb.
  apply Expand_head in H.
  destruct H as [mu [v [r [w1 [w2 [Hmu [Hv [Hr [W1 [W2 H]]]]]]]]]].
  assert (E : s' = fput f_mate w2 s).
  { destruct (Z.ltb_spec u n).
    - rewrite bind_ret in H. apply ret_Ok in H. destruct H as [_ H]. congruence.
    - rewrite (bind_step _ _ _ _ _ (fput f_mate w2 s) true) in H.
      + apply ret_Ok in H. destruct H as [_ H]. congruence.
      + rewrite (bind_rd _ _ f_blocked u true) by exact Hb. reflexivity. }
  subst s'. split; [reflexivity|].
  intros mu' v' Hmu' Hv' j Hu Hj. simpl.
  rewrite Hmu in Hmu'. injection Hmu' as Hmu'. subst mu'.
  rewrite Hv in Hv'. injection Hv' as Hv'. subst v'.
  apply set_Some in W1. destruct W1 as [_ [_ G1]].
  apply set_Some in W2. destruct W2 as [_ [_ G2]].
  rewrite G2, G1.
  destruct (Z.eqb_spec j v); [contradiction|].
  destruct (Z.eqb_spec j u); [contradiction|reflexivity].
Qed.

Lemma Expand_even (fuel : nat) (u : Z) (b : bool) (s s' : Matching) (sh : list Z) :
  n <= u -> Vec.get (shallow s) u = Some sh -> Nat.even (length sh) = true ->
  Vec.get (blocked s) u = Some false \/ b = true ->
  Expand EPSILON G fuel u b s <> Ok (tt, s').
Proof.
  intros Hu Hsh He Hb H. destruct fuel as [|fuel]; [discriminate|].
  apply Expand_head in H.
  destruct H as [mu [v [r [w1 [w2 [Hmu [Hv [Hr [W1 [W2 H]]]]]]]]]].
  destruct (Z.ltb_spec u n); [lia|].
  apply bind_Ok in H. destruct H as [stop [t [Hs H]]].
  apply bind_Ok in Hs. destruct Hs as [bl [t1 [Hbl Hs]]].
  apply rd_Ok in Hbl. destruct Hbl as [Hbl E]. subst t1. simpl in Hbl.
  apply ret_Ok in Hs. destruct Hs as [Hs E]. subst t.
  assert (S0 : bl && negb b = false).
  { destruct Hb as [Hb|Hb].
    - simpl in Hb. rewrite Hb in Hbl. injection Hbl as Hbl. subst bl. reflexivity.
    - subst b. apply andb_false_r. }
  subst stop. rewrite S0 in H.
  apply bind_Ok in H. destruct H as [[] [t1 [Hrot H]]].
  apply bind_Ok in H. destruct H as [[] [t2 [Hrem _]]].
  destruct (Expand_rotate_Ok _ _ _ sh _ _ Hrot sh Hsh (rotation_refl _ sh))
    as [sh' [A1 [A2 _]]].
  rewrite (Expand_remate_even u t1 sh' A1) in Hrem; [discriminate Hrem|].
  rewrite (rotation_length _ _ _ A2). exact He.
Qed.

(** X13.  Edge cases of [Expand(u)].  When [u] has no mate
    ([mate[u] = -1]) the call reads [outer[-1]], undefined behaviour.  On a
    blocked [u], without [expandBlocked], the call writes [mate[u]] and
    [mate[outer[mate[u]]]] and nothing else.  A pseudo-vertex that the call
    does open and that has an even number of members makes the call fail at
    the re-mating: it never returns.  No call writes a [deep] list, a tip, a
    label, the forest, a dual, a slack or the flag [blocked]. *)
Theorem Expand_edge_cases (fuel : nat) (u : Z) (b : bool) (s : Matching) :
  (Vec.get (mate s) u = Some (-1) -> Expand EPSILON G (S fuel) u b s = Undefined) /\
  (forall s', Expand EPSILON G fuel u false s = Ok (tt, s') ->
     Vec.get (blocked s) u = Some true ->
     s' = fput f_mate (mate s') s /\
     forall mu v, Vec.get (mate s) u = Some mu -> Vec.get (outer s) mu = Some v ->
       forall j, j <> u -> j <> v -> Vec.get (mate s') j = Vec.get (mate s) j) /\
  (forall sh s', n <= u -> Vec.get (shallow s) u = Some sh ->
     Nat.even (length sh) = true ->
     Vec.get (blocked s) u = Some false \/ b = true ->
     Expand EPSILON G fuel u b s <> Ok (tt, s')) /\
  (forall s', Expand EPSILON G fuel u b s = Ok (tt, s') ->
     outside_expansion s' = outside_expansion s /\ blocked s' = blocked s).
Proof.
  split; [apply Expand_unmated|].
  split; [intros s'; apply Expand_blocked|].
  split; [intros sh s' H1 H2 H3 H4; exact (Expand_even fuel u b s s' sh H1 H2 H3 H4)|].
  intros s' H. apply outside_Expand in H. unfold same_on in H.
  split; [exact (eq_sym (f_equal fst H))|exact (eq_sym (f_equal snd H))].
Qed.

End Expansion.

(** *** On runs *)

Lemma Expand_rotate_spec_witness :
  (exists sh', Vec.get (shallow (exec (Expand_rotate 5 7 3) pennant_updated)) 7 = Some sh' /\
               rotation [0; 3; 1] sh') /\
  Expand_rotate 9 7 2 pennant_updated = OutOfFuel.
Proof.
  assert (Hsh : Vec.get (shallow pennant_updated) 7 = Some [0; 3; 1])
    by (vm_compute; reflexivity).
  destruct (Expand_rotate_spec 7 3 pennant_updated [0; 3; 1] Hsh) as [A _].
  destruct (Expand_rotate_spec 7 2 pennant_updated [0; 3; 1] Hsh) as [_ B].
  split.
  - assert (H : Expand_rotate 5 7 3 pennant_updated
                = Ok (tt, exec (Expand_rotate 5 7 3) pennant_updated))
      by (vm_compute; reflexivity).
    destruct (A 5%nat _ H) as [sh' [H1 [H2 _]]]. exists sh'. split; assumption.
  - apply B; [simpl; lia|].
    intros si [E|[E|[E|[]]]]; subst si; eexists;
      (split; [vm_compute; reflexivity|]); intros [C|[]]; discriminate C.
Defined.

Lemma Expand_remate_spec_witness :
  Expand_remate 18 even_grown = Undefined /\
  Vec.get (mate (exec (Expand_remate 7) pennant_matched)) 0 = Some 2 /\
  Vec.get (mate (exec (Expand_remate 7) pennant_matched)) 3 = Some 1 /\
  Vec.get (mate (exec (Expand_remate 7) pennant_matched)) 1 = Some 3.
Proof.
  split.
  - apply (proj1 (Expand_remate_spec 18 even_grown [0; 1; 3; 4] ltac:(vm_compute; reflexivity))).
    reflexivity.
  - assert (Hsh : Vec.get (shallow pennant_matched) 7 = Some [0; 3; 1])
      by (vm_compute; reflexivity).
    assert (H : Expand_remate 7 pennant_matched
                = Ok (tt, exec (Expand_remate 7) pennant_matched))
      by (vm_compute; reflexivity).
    destruct (proj2 (Expand_remate_spec 7 pennant_matched [0; 3; 1] Hsh) _ H)
      as [s0 [r [mu [E1 [E2 [_ [_ [_ N]]]]]]]].
    injection E1 as E0 Er. subst s0 r.
    assert (Emu : mu = 2) by (vm_compute in E2; congruence). subst mu.
    assert (ND : NoDup [0; 3; 1]) by (repeat constructor; simpl; intuition discriminate).
    destruct (N ND) as [T P]. split; [exact T|].
    exact (P 0%nat 3 1 eq_refl eq_refl).
Defined.

(** ** What the dual update blocks *)

Section Blocking.

Variable EPSILON : float.
Variable G : Graph.

Local Abbreviation n := (Gr.GetNumVertices G).
Local Abbreviation m := (Gr.GetNumEdges G).

Lemma only_switches_off_refl (s : Matching) : only_switches_off s s.
Proof. split; intros j H; exact H. Qed.

Lemma only_switches_off_trans (s1 s2 s3 : Matching) :
  only_switches_off s1 s2 -> only_switches_off s2 s3 -> only_switches_off s1 s3.
Proof. unfold only_switches_off. intros [A1 B1] [A2 B2]. split; auto. Qed.

Ltac off_side :=
  try match goal with
      | H : Vec.set _ _ _ = Some _ |- _ => apply set_Some in H; destruct H as [_ [_ H]]
      end;
  split; intros j Hj; simpl in *;
  try (match goal with H : forall j, Vec.get _ j = _ |- _ => rewrite H in Hj end;
       destruct (j =? _); [discriminate Hj|]);
  exact Hj.

Ltac off_pres known :=
  pres_with only_switches_off_refl only_switches_off_trans ltac:(off_side) known.

Lemma off_DestroyBlossom (fuel : nat) (t : Z) :
  preserves only_switches_off (DestroyBlossom EPSILON G fuel t).
Proof.
  revert t. induction fuel as [|fuel IH]; intros t; simpl.
  - apply preserves_out_of_fuel.
  - unfold AddFreeBlossomIndex. off_pres ltac:(apply IH).
Qed.

Lemma off_Expand_rotate (fuel : nat) (u p : Z) :
  preserves only_switches_off (Expand_rotate fuel u p).
Proof.
  revert u p. induction fuel as [|fuel IH]; intros u p; simpl.
  - apply preserves_out_of_fuel.
  - off_pres ltac:(apply IH).
Qed.

Lemma off_Expand_pairs (l : list Z) : preserves only_switches_off (Expand_pairs l).
Proof.
  intros s a s' H. destruct a. apply Expand_pairs_Ok in H. destruct H as [_ [H _]].
  rewrite H. split; intros j Hj; exact Hj.
Qed.

Lemma off_Expand (fuel : nat) (u : Z) (b : bool) :
  preserves only_switches_off (Expand EPSILON G fuel u b).
Proof.
  revert u b. induction fuel as [|fuel IH]; intros u b; simpl.
  - apply preserves_out_of_fuel.
  - unfold Expand_remate, release_members, AddFreeBlossomIndex.
    off_pres ltac:(first [apply IH|apply off_Expand_rotate|apply off_Expand_pairs]).
Qed.

(** [DestroyBlossom] stops at a blocked pseudo-vertex whose dual is GREATER
    than [0], so it never unblocks one. *)
Lemma DestroyBlossom_keeps_blocked (dual0 : list float) (P : Z -> Prop) (fuel : nat) (t : Z) :
  preserves (keeps (kept_blocked EPSILON dual0 P)) (DestroyBlossom EPSILON G fuel t).
Proof.
  revert t. induction fuel as [|fuel IH]; intros t; simpl.
  - apply preserves_out_of_fuel.
  - intros s a s' H K. destruct a.
    apply bind_Ok in H. destruct H as [stop [s1 [Hs H]]].
    apply (DestroyBlossom_stop EPSILON G) in Hs. destruct Hs as [E Hs]. subst s1.
    destruct stop.
    { apply ret_Ok in H. destruct H as [_ H]. subst s'. exact K. }
    assert (Ht : forall d, P t -> Vec.get dual0 t = Some d ->
                 GREATER EPSILON d 0 = true -> False).
    { intros d Pt Hd Hg. destruct K as [K1 K2].
      assert (C : false = true); [|discriminate C].
      apply Hs. right. split; [apply (K2 t d); assumption|].
      exists d. rewrite K1. split; assumption. }
    apply bind_Ok in H. destruct H as [sh [t1 [Hsh H]]].
    apply rd_Ok in Hsh. destruct Hsh as [_ E]. subst t1.
    apply bind_Ok in H. destruct H as [[] [s2 [Hloop H]]].
    assert (K2 : kept_blocked EPSILON dual0 P s2).
    { revert Hloop K.
      assert (Pl : preserves (keeps (kept_blocked EPSILON dual0 P))
                (forM sh (fun s0 =>
                   wr f_outer s0 s0 ;;
                   ds <- rd f_deep s0 ;;
                   forM ds (fun j => wr f_outer j s0) ;;
                   DestroyBlossom EPSILON G fuel s0))).
      { pres_with (@keeps_refl (kept_blocked EPSILON dual0 P))
                  (@keeps_trans (kept_blocked EPSILON dual0 P))
                  ltac:(intros K0; exact K0) ltac:(apply IH). }
      intros Hloop K. exact (Pl _ _ _ Hloop K). }
    apply bind_Ok in H. destruct H as [[] [s3 [W3 H]]].
    apply bind_Ok in H. destruct H as [[] [s4 [W4 H]]].
    apply bind_Ok in H. destruct H as [[] [s5 [W5 H]]].
    apply wr_Ok in W3. destruct W3 as [v3 [V3 E3]].
    apply wr_Ok in W4. destruct W4 as [v4 [V4 E4]].
    unfold AddFreeBlossomIndex in W5. apply modify_Ok in W5.
    apply wr_Ok in H. destruct H as [v6 [V6 E6]].
    subst s' s5 s4 s3. simpl in V4.
    apply set_Some in V4. destruct V4 as [_ [_ G4]].
    destruct K2 as [D2 B2]. split; [exact D2|].
    intros i d Pi Hd Hg. simpl. rewrite G4.
    destruct (Z.eqb_spec i t) as [E|E].
    + subst i. exfalso. exact (Ht d Pi Hd Hg).
    + apply (B2 i d); assumption.
Qed.

Lemma update_blocked_spec (fuel : nat) (s s' : Matching) :
  update_blocked EPSILON G fuel s = Ok (tt, s') ->
  dual s' = dual s /\
  forall i, n <= i < 2 * n ->
    (forall d, Vec.get (dual s) i = Some d -> GREATER EPSILON d 0 = true ->
       Vec.get (blocked s') i = Some true) /\
    (Vec.get (active s') i = Some true -> Vec.get (blocked s') i = Some true ->
       exists d, Vec.get (dual s) i = Some d /\ GREATER EPSILON d 0 = true).
Proof.
  unfold update_blocked. intros H.
  apply (forM_inv_pre _ (fun done t =>
      kept_blocked EPSILON (dual s) (fun i => In i done) t /\
      forall i, In i done ->
        Vec.get (active t) i = Some true -> Vec.get (blocked t) i = Some true ->
        exists d, Vec.get (dual s) i = Some d /\ GREATER EPSILON d 0 = true)) in H.
  - destruct H as [[D A] B]. split; [exact D|].
    intros i Hi. apply in_range in Hi. split.
    + intros d Hd Hg. apply (A i d); assumption.
    + apply B. exact Hi.
  - clear H s'. intros done x rest t t' El [[D A] B] H.
    assert (Nx : ~ In x done).
    { pose proof (NoDup_range n (2 * n)) as ND. rewrite El in ND.
      apply NoDup_remove_2 in ND. intros C. apply ND. apply in_or_app. left. exact C. }
    apply bind_Ok in H. destruct H as [d [t1 [Hd H]]].
    apply rd_Ok in Hd. destruct Hd as [Hd E]. subst t1. simpl in Hd. rewrite D in Hd.
    destruct (GREATER EPSILON d 0) eqn:Hg.
    { apply wr_Ok in H. destruct H as [v [V E]]. subst t'. simpl in V.
      apply set_Some in V. destruct V as [_ [_ Gv]].
      split; [split; [exact D|]|].
      - intros i d' Hi Hd' Hg'. simpl. rewrite Gv.
        destruct (Z.eqb_spec i x); [reflexivity|].
        apply in_app_or in Hi. destruct Hi as [Hi|[Hi|[]]]; [|congruence].
        apply (A i d'); assumption.
      - intros i Hi. simpl. rewrite Gv.
        apply in_app_or in Hi. destruct Hi as [Hi|[Hi|[]]].
        + destruct (Z.eqb_spec i x); [subst i; contradiction|]. apply B. exact Hi.
        + subst i. intros _ _. exists d. split; assumption. }
    assert (Ax : forall t0, kept_blocked EPSILON (dual s) (fun i => In i done) t0 ->
                 kept_blocked EPSILON (dual s) (fun i => In i (done ++ [x])) t0).
    { intros t0 [D0 A0]. split; [exact D0|]. intros i d' Hi Hd' Hg'.
      apply in_app_or in Hi. destruct Hi as [Hi|[Hi|[]]].
      - apply (A0 i d'); assumption.
      - subst i. rewrite Hd in Hd'. injection Hd' as Hd'. subst d'. congruence. }
    apply bind_Ok in H. destruct H as [a [t1 [Ha H]]].
    apply rd_Ok in Ha. destruct Ha as [Ha E]. subst t1. simpl in Ha.
    destruct a.
    2:{ apply ret_Ok in H. destruct H as [_ H]. subst t'.
        split; [apply Ax; split; assumption|].
        intros i Hi. apply in_app_or in Hi. destruct Hi as [Hi|[Hi|[]]].
        - apply B. exact Hi.
        - subst i. rewrite Ha. discriminate. }
    apply bind_Ok in H. destruct H as [b [t1 [Hb H]]].
    apply rd_Ok in Hb. destruct Hb as [Hb E]. subst t1. simpl in Hb.
    destruct b.
    2:{ apply ret_Ok in H. destruct H as [_ H]. subst t'.
        split; [apply Ax; split; assumption|].
        intros i Hi. apply in_app_or in Hi. destruct Hi as [Hi|[Hi|[]]].
        - apply B. exact Hi.
        - subst i. rewrite Hb. discriminate. }
    apply bind_Ok in H. destruct H as [mi [t1 [Hmi H]]].
    apply rd_Ok in Hmi. destruct Hmi as [Hmi E]. subst t1. simpl in Hmi.
    assert (Hx : n <= x).
    { assert (Hin : In x (Vec.range n (2 * n)))
        by (rewrite El; apply in_or_app; right; left; reflexivity).
      apply in_range in Hin. lia. }
    destruct (mi =? -1).
    + pose proof (DestroyBlossom_keeps_blocked (dual s) (fun i => In i done) fuel x
                    _ _ _ H (conj D A)) as K'.
      pose proof (off_DestroyBlossom fuel x _ _ _ H) as [O1 O2].
      assert (Px : Vec.get (active t') x = Some false).
      { apply (DestroyBlossom_proceeds EPSILON G fuel x t t' H Hx).
        right. exists d. rewrite D. split; assumption. }
      split; [apply Ax; exact K'|].
      intros i Hi Hact Hbl. apply in_app_or in Hi. destruct Hi as [Hi|[Hi|[]]].
      * apply (B i Hi); [apply O1|apply O2]; assumption.
      * subst i. rewrite Px in Hact. discriminate Hact.
    + apply bind_Ok in H. destruct H as [[] [t1 [W H]]].
      apply wr_Ok in W. destruct W as [v [V E]]. subst t1. simpl in V.
      apply set_Some in V. destruct V as [_ [_ Gv]].
      pose proof (outside_Expand EPSILON G fuel x false _ _ _ H) as Fr.
      unfold same_on in Fr. pose proof (f_equal snd Fr) as Fb.
      pose proof (f_equal fst Fr) as Fo. unfold outside_expansion in Fo.
      simpl in Fb, Fo.
      assert (Fd : dual t' = dual t) by (inversion Fo; congruence).
      pose proof (off_Expand fuel x false _ _ _ H) as [O1 _]. simpl in O1.
      split; [split; [congruence|]|].
      * intros i d' Hi Hd' Hg'. rewrite <- Fb, Gv.
        apply in_app_or in Hi. destruct Hi as [Hi|[Hi|[]]].
        -- destruct (Z.eqb_spec i x); [subst i; contradiction|]. apply (A i d'); assumption.
        -- subst i. rewrite Hd in Hd'. injection Hd' as Hd'. subst d'. congruence.
      * intros i Hi Hact Hbl. rewrite <- Fb, Gv in Hbl.
        apply in_app_or in Hi. destruct Hi as [Hi|[Hi|[]]].
        -- destruct (Z.eqb_spec i x); [discriminate Hbl|].
           apply (B i Hi); [apply O1; exact Hact|exact Hbl].
        -- subst i. rewrite Z.eqb_refl in Hbl. discriminate Hbl.
  - split; [split; [reflexivity|]|]; intros i; intros; contradiction.
Qed.

Lemma blocked_iff_positive_dual_aux (fuel : nat) (s s' : Matching) :
  UpdateDualCosts EPSILON G fuel s = Ok (tt, s') ->
  forall i, n <= i < 2 * n ->
    (forall d, Vec.get (dual s') i = Some d -> GREATER EPSILON d 0 = true ->
       Vec.get (blocked s') i = Some true) /\
    (Vec.get (active s') i = Some true -> Vec.get (blocked s') i = Some true ->
       exists d, Vec.get (dual s') i = Some d /\ GREATER EPSILON d 0 = true).
Proof.
  unfold UpdateDualCosts. intros H.
  apply bind_Ok in H. destruct H as [c [t [_ H]]].
  apply bind_Ok in H. destruct H as [[] [s1 [_ H]]].
  apply bind_Ok in H. destruct H as [[] [s2 [_ H]]].
  apply update_blocked_spec in H. destruct H as [D H]. rewrite D. exact H.
Qed.

(** X14.  When [UpdateDualCosts] returns, every pseudo-vertex whose dual
    is GREATER than [0] is blocked, and every pseudo-vertex that is active
    and blocked has a dual GREATER than [0]: a blocked blossom whose dual
    has fallen to the tolerance or below has been destroyed or expanded. *)
Theorem blocked_iff_positive_dual (fuel : nat) (s s' : Matching) :
  UpdateDualCosts EPSILON G fuel s = Ok (tt, s') ->
  forall i, n <= i < 2 * n ->
    (forall d, Vec.get (dual s') i = Some d -> GREATER EPSILON d 0 = true ->
       Vec.get (blocked s') i = Some true) /\
    (Vec.get (active s') i = Some true -> Vec.get (blocked s') i = Some true ->
       exists d, Vec.get (dual s') i = Some d /\ GREATER EPSILON d 0 = true).
Proof.
  unfold UpdateDualCosts. intros H.
  apply bind_Ok in H. destruct H as [c [t [_ H]]].
  apply bind_Ok in H. destruct H as [[] [s1 [_ H]]].
  apply bind_Ok in H. destruct H as [[] [s2 [_ H]]].
  apply update_blocked_spec in H. destruct H as [D H]. rewrite D. exact H.
Qed.

End Blocking.

(** *** On runs *)

Lemma blocked_iff_positive_dual_witness :
  Vec.get (blocked pennant_updated) 7 = Some true.
Proof.
  assert (H : UpdateDualCosts eps10 G_pennant 20 pennant_grown = Ok (tt, pennant_updated))
    by (vm_compute; reflexivity).
  assert (R : Gr.GetNumVertices G_pennant <= 7 < 2 * Gr.GetNumVertices G_pennant)
    by (vm_compute; split; [discriminate|reflexivity]).
  destruct (Vec.get (dual pennant_updated) 7) as [d|] eqn:E;
    [|vm_compute in E; discriminate E].
  apply (proj1 (blocked_iff_positive_dual eps10 G_pennant 20 _ _ H 7 R) d E).
  vm_compute in E. injection E as E. subst d. vm_compute. reflexivity.
Defined.

(** ** [Reset] *)

Section Resetting.

Variable EPSILON : float.
Variable G : Graph.

Local Abbreviation n := (Gr.GetNumVertices G).
Local Abbreviation m := (Gr.GetNumEdges G).

Ltac frame p known :=
  pres_with (@same_on_refl _ p) (@same_on_trans _ p) ltac:(reflexivity) known.

Lemma preserves_weaken (R R' : Matching -> Matching -> Prop) (A : Type) (c : M A) :
  (forall s s', R s s' -> R' s s') -> preserves R c -> preserves R' c.
Proof. intros H P s a s' E. apply H. exact (P s a s' E). Qed.

(** *** [DestroyBlossom] dissolves what it opens *)

Lemma redirected_to_refl (x : Z) (s : Matching) : redirected_to x s s.
Proof. repeat (split; [reflexivity|]). intros i H. right. exact H. Qed.

Lemma redirected_to_trans (x : Z) (s1 s2 s3 : Matching) :
  redirected_to x s1 s2 -> redirected_to x s2 s3 -> redirected_to x s1 s3.
Proof.
  intros [A1 [B1 [C1 D1]]] [A2 [B2 [C2 D2]]].
  split; [congruence|]. split; [congruence|]. split; [congruence|].
  intros i H. destruct (D2 i H) as [E|E]; [left; exact E|apply D1; exact E].
Qed.

Lemma redirected_to_wr (x j : Z) (s : Matching) (v : list Z) :
  Vec.set (outer s) j x = Some v -> redirected_to x s (fput f_outer v s).
Proof.
  intros H. apply set_Some in H. destruct H as [_ [_ Hg]].
  repeat (split; [reflexivity|]). intros i Hi. simpl in Hi. rewrite Hg in Hi.
  destruct (Z.eqb_spec i j); [left; congruence|right; exact Hi].
Qed.

Lemma outer_blossoms_blocked_weaken (X Y : Z -> Prop) (s : Matching) :
  (forall i, Y i -> X i) ->
  outer_blossoms_blocked EPSILON G X s -> outer_blossoms_blocked EPSILON G Y s.
Proof. intros H K i Yi. apply K. apply H. exact Yi. Qed.

Lemma outer_blossoms_blocked_redirected (X : Z -> Prop) (x : Z) (s s' : Matching) :
  redirected_to x s s' -> outer_blossoms_blocked EPSILON G X s ->
  outer_blossoms_blocked EPSILON G (fun i => X i /\ i <> x) s'.
Proof.
  intros [A [B [C D]]] K i [Xi Ne] Hn Ha Ho. rewrite A in Ha. rewrite B, C.
  destruct (D i Ho) as [E|E]; [contradiction|]. apply K; assumption.
Qed.

Lemma DestroyBlossom_dissolves (fuel : nat) (X : Z -> Prop) (t : Z) (s s' : Matching) :
  DestroyBlossom EPSILON G fuel t s = Ok (tt, s') ->
  outer_blossoms_blocked EPSILON G X s ->
  outer_blossoms_blocked EPSILON G (fun i => X i \/ i = t) s'.
Proof.
  revert X t s s'. induction fuel as [|fuel IH]; intros X t s s' H K; simpl in H;
    [discriminate|].
  apply bind_Ok in H. destruct H as [stop [s1 [Hs H]]].
  apply (DestroyBlossom_stop EPSILON G) in Hs. destruct Hs as [E Hs]. subst s1.
  destruct stop.
  { apply ret_Ok in H. destruct H as [_ H]. subst s'.
    intros i [Xi|Ei] Hn Ha Ho; [apply K; assumption|]. subst i.
    destruct (proj1 Hs eq_refl) as [C|[Hb Hd]]; [lia|]. split; assumption. }
  apply bind_Ok in H. destruct H as [sh [t1 [Hsh H]]].
  apply rd_Ok in Hsh. destruct Hsh as [_ E]. subst t1.
  apply bind_Ok in H. destruct H as [[] [s2 [Hloop H]]].
  assert (K2 : outer_blossoms_blocked EPSILON G X s2).
  { apply (forM_inv _ (fun _ st => outer_blossoms_blocked EPSILON G X st)) in Hloop.
    - exact Hloop.
    - clear - IH. intros _ x st st' _ Kst Hb.
      apply bind_Ok in Hb. destruct Hb as [[] [st1 [W Hb]]].
      apply wr_Ok in W. destruct W as [v [V E]]. subst st1. simpl in V.
      apply redirected_to_wr in V.
      apply bind_Ok in Hb. destruct Hb as [ds [st2 [Hds Hb]]].
      apply rd_Ok in Hds. destruct Hds as [_ E]. subst st2.
      apply bind_Ok in Hb. destruct Hb as [[] [st2 [Hf Hb]]].
      assert (R2 : redirected_to x (fput f_outer v st) st2).
      { revert Hf. apply (@preserves_forM _ (redirected_to_refl x) (redirected_to_trans x)).
        intros j _ s0 a s0' W. apply wr_Ok in W. destruct W as [v0 [V0 E]]. subst s0'.
        apply redirected_to_wr in V0. exact V0. }
      pose proof (redirected_to_trans _ _ _ _ V R2) as R.
      pose proof (outer_blossoms_blocked_redirected X x _ _ R Kst) as K1.
      apply (IH _ _ _ _ Hb) in K1.
      revert K1. apply outer_blossoms_blocked_weaken.
      intros i Xi. destruct (Z.eq_dec i x); [right; assumption|left; split; assumption].
    - exact K. }
  apply bind_Ok in H. destruct H as [[] [s3 [W3 H]]].
  apply bind_Ok in H. destruct H as [[] [s4 [W4 H]]].
  apply bind_Ok in H. destruct H as [[] [s5 [W5 H]]].
  apply wr_Ok in W3. destruct W3 as [v3 [V3 E3]].
  apply wr_Ok in W4. destruct W4 as [v4 [V4 E4]].
  unfold AddFreeBlossomIndex in W5. apply modify_Ok in W5.
  apply wr_Ok in H. destruct H as [v6 [V6 E6]].
  subst s' s5 s4 s3. simpl in V3, V4.
  apply set_Some in V3. destruct V3 as [_ [_ G3]].
  apply set_Some in V4. destruct V4 as [_ [_ G4]].
  intros i Xi Hn Ha Ho. simpl in Ha, Ho. simpl. rewrite G3 in Ha. rewrite G4.
  destruct (Z.eqb_spec i t) as [E|E]; [discriminate Ha|].
  destruct Xi as [Xi|Xi]; [|contradiction].
  apply K2; assumption.
Qed.

(** *** The first loop of [Reset] *)

Lemma outside_Reset_DestroyBlossom (fuel : nat) (t : Z) :
  preserves (same_on (fun s => (deep s, shallow s, tip s, dual s, slack s, perfect s)))
    (DestroyBlossom EPSILON G fuel t).
Proof.
  refine (preserves_weaken _ _ _ _ _ (outside_DestroyBlossom EPSILON G fuel t)).
  intros s s' H. unfold same_on, outside_expansion in *. inversion H. congruence.
Qed.

Lemma Reset_frame (fuel : nat) :
  preserves (same_on (fun s => (deep s, shallow s, tip s, dual s, slack s, perfect s)))
    (Reset EPSILON G fuel).
Proof.
  unfold Reset, Reset_roots.
  frame (fun s => (deep s, shallow s, tip s, dual s, slack s, perfect s))
    ltac:(apply outside_Reset_DestroyBlossom).
Qed.

Lemma Reset_sweep (fuel : nat) (s s' : Matching) :
  forM (Vec.range 0 (2 * n)) (fun i =>
    wr f_forest i (-1) ;;
    wr f_root i i ;;
    if i >=? n then
      a <- rd f_active i ;;
      if a : bool then
        o <- rd f_outer i ;;
        if o =? i then DestroyBlossom EPSILON G fuel i else ret tt
      else ret tt
    else ret tt) s = Ok (tt, s') ->
  (forall i, 0 <= i < 2 * n ->
     Vec.get (forest s') i = Some (-1) /\ Vec.get (root s') i = Some i) /\
  outer_blossoms_blocked EPSILON G (fun i => 0 <= i < 2 * n) s'.
Proof.
  intros H.
  apply (forM_inv_pre _ (fun done t =>
      (forall i, In i done ->
         Vec.get (forest t) i = Some (-1) /\ Vec.get (root t) i = Some i) /\
      outer_blossoms_blocked EPSILON G (fun i => In i done) t)) in H.
  - destruct H as [A B]. split.
    + intros i Hi. apply A. apply in_range. exact Hi.
    + revert B. apply outer_blossoms_blocked_weaken. intros i Hi. apply in_range. exact Hi.
  - clear H s'. intros done x rest t t' El [A B] H.
    assert (Nx : ~ In x done).
    { pose proof (NoDup_range 0 (2 * n)) as ND. rewrite El in ND.
      apply NoDup_remove_2 in ND. intros C. apply ND. apply in_or_app. left. exact C. }
    apply bind_Ok in H. destruct H as [[] [t1 [W1 H]]].
    apply wr_Ok in W1. destruct W1 as [v1 [V1 E]]. subst t1. simpl in V1.
    apply set_Some in V1. destruct V1 as [_ [_ G1]].
    apply bind_Ok in H. destruct H as [[] [t2 [W2 H]]].
    apply wr_Ok in W2. destruct W2 as [v2 [V2 E]]. subst t2. simpl in V2.
    apply set_Some in V2. destruct V2 as [_ [_ G2]].
    set (t2 := fput f_root v2 (fput f_forest v1 t)) in *.
    assert (A2 : forall i, In i (done ++ [x]) ->
              Vec.get (forest t2) i = Some (-1) /\ Vec.get (root t2) i = Some i).
    { intros i Hi. subst t2. simpl. rewrite G1, G2.
      apply in_app_or in Hi. destruct Hi as [Hi|[Hi|[]]].
      - destruct (Z.eqb_spec i x); [subst i; contradiction|]. apply A. exact Hi.
      - subst i. rewrite Z.eqb_refl. split; reflexivity. }
    assert (B2 : outer_blossoms_blocked EPSILON G (fun i => In i done) t2).
    { intros i Hi Hn Ha Ho. apply (B i); assumption. }
    assert (Stay : t' = t2 ->
              (Vec.get (active t2) x = Some true -> Vec.get (outer t2) x = Some x ->
               n <= x -> False) ->
              (forall i, In i (done ++ [x]) ->
                 Vec.get (forest t') i = Some (-1) /\ Vec.get (root t') i = Some i) /\
              outer_blossoms_blocked EPSILON G (fun i => In i (done ++ [x])) t').
    { intros E Hx. subst t'. split; [exact A2|].
      intros i Hi Hn Ha Ho. apply in_app_or in Hi. destruct Hi as [Hi|[Hi|[]]].
      - apply B2; assumption.
      - subst i. exfalso. apply Hx; assumption. }
    destruct (Z.geb_spec x n) as [L|L].
    2:{ apply ret_Ok in H. destruct H as [_ H]. apply Stay; [congruence|]. intros. lia. }
    apply bind_Ok in H. destruct H as [a [t3 [Ha H]]].
    apply rd_Ok in Ha. destruct Ha as [Ha E]. subst t3. cbn [fget f_active] in Ha.
    destruct a.
    2:{ apply ret_Ok in H. destruct H as [_ H]. apply Stay; [congruence|].
        intros C. rewrite Ha in C. discriminate C. }
    apply bind_Ok in H. destruct H as [o [t3 [Ho H]]].
    apply rd_Ok in Ho. destruct Ho as [Ho E]. subst t3. cbn [fget f_outer] in Ho.
    destruct (Z.eqb_spec o x) as [Eo|Eo].
    2:{ apply ret_Ok in H. destruct H as [_ H]. apply Stay; [congruence|].
        intros _ C. rewrite Ho in C. congruence. }
    split.
    + pose proof (outside_DestroyBlossom EPSILON G fuel x _ _ _ H) as Fr.
      unfold same_on in Fr. apply (f_equal fst) in Fr. unfold outside_expansion in Fr.
      simpl fst in Fr. inversion Fr as [[F1 F2 F3 F4 F5 F6 F7 F8 F9 F10]].
      rewrite <- F4, <- F5. exact A2.
    + apply (DestroyBlossom_dissolves fuel _ x _ _ H) in B2.
      revert B2. apply outer_blossoms_blocked_weaken.
      intros i Hi. apply in_app_or in Hi. destruct Hi as [Hi|[Hi|[]]]; [left|right]; auto.
  - split; [intros i []|intros i []].
Qed.

(** *** The second loop of [Reset] *)

Lemma sorted_snoc (l : list Z) (x : Z) :
  StronglySorted Z.lt l -> (forall y, In y l -> y < x) -> StronglySorted Z.lt (l ++ [x]).
Proof.
  induction l as [|a l IH]; intros Hs Hx; simpl.
  - constructor; [constructor|constructor].
  - inversion Hs as [|? ? Hs1 Ha]; subst. constructor.
    + apply IH; [exact Hs1|]. intros y Hy. apply Hx. right. exact Hy.
    + apply Forall_app. split; [exact Ha|]. constructor; [|constructor].
      apply Hx. left. reflexivity.
Qed.

Lemma Reset_roots_spec (t0 s' : Matching) :
  Reset_roots G t0 = Ok (tt, s') ->
  (forall o v, Vec.get (visited t0) o = Some v -> v = 0) ->
  forestList t0 = [] ->
  outside_Reset s' = outside_Reset t0 /\ forest s' = forest t0 /\ root s' = root t0 /\
  (forall i, 0 <= i < n ->
     exists o mo, Vec.get (outer t0) i = Some o /\ Vec.get (mate t0) o = Some mo /\
       Vec.get (type s') o = Some (if mo =? -1 then EVEN else UNLABELED) /\
       (mo = -1 -> Vec.get (visited s') o = Some 1)) /\
  (forall x, In x (forestList s') <-> 0 <= x < n /\ first_unmatched t0 x) /\
  StronglySorted Z.lt (forestList s').
Proof.
  unfold Reset_roots. intros H Hv0 Hf0.
  apply (forM_inv_pre _ (fun done t =>
      (outside_Reset t = outside_Reset t0 /\ forest t = forest t0 /\ root t = root t0) /\
      (forall i, In i done ->
         exists o mo, Vec.get (outer t0) i = Some o /\ Vec.get (mate t0) o = Some mo /\
           Vec.get (type t) o = Some (if mo =? -1 then EVEN else UNLABELED) /\
           (mo = -1 -> Vec.get (visited t) o = Some 1)) /\
      (forall o v, Vec.get (visited t) o = Some v ->
         (v = 1 /\ exists i, In i done /\ Vec.get (outer t0) i = Some o /\
                             Vec.get (mate t0) o = Some (-1)) \/
         (v = 0 /\ forall i, In i done -> Vec.get (outer t0) i = Some o ->
                             Vec.get (mate t0) o = Some (-1) -> False)) /\
      (forall x, In x (forestList t) <->
         In x done /\ unmatched t0 x /\
         forall j, In j done -> j < x -> Vec.get (outer t0) j <> Vec.get (outer t0) x) /\
      StronglySorted Z.lt (forestList t))) in H.
  - destruct H as [[F1 [F2 F3]] [T [_ [L S]]]].
    split; [exact F1|]. split; [exact F2|]. split; [exact F3|].
    split; [intros i Hi; apply T; apply in_range; exact Hi|].
    split; [|exact S].
    intros x. rewrite L. rewrite in_range. unfold first_unmatched. split.
    + intros [A [B C]]. split; [exact A|]. split; [exact B|].
      intros j Hj. apply C; [apply in_range|]; lia.
    + intros [A [B C]]. split; [exact A|]. split; [exact B|].
      intros j Hj Hl. apply in_range in Hj. apply C. lia.
  - clear H s'. intros done x rest t t' El [[F1 [F2 F3]] [T [V [L S]]]] H.
    destruct (range_split _ _ _ _ _ El) as [Ed [_ Hx]].
    assert (Dlt : forall j, In j done <-> 0 <= j < x).
    { intros j. rewrite Ed. apply in_range. }
    assert (Eo : outer t = outer t0).
    { unfold outside_Reset in F1. inversion F1. reflexivity. }
    assert (Em : mate t = mate t0).
    { unfold outside_Reset in F1. inversion F1. reflexivity. }
    apply bind_Ok in H. destruct H as [o [t1 [Ho H]]].
    apply rd_Ok in Ho. destruct Ho as [Ho E]. subst t1. simpl in Ho. rewrite Eo in Ho.
    apply bind_Ok in H. destruct H as [mo [t1 [Hmo H]]].
    apply rd_Ok in Hmo. destruct Hmo as [Hmo E]. subst t1. simpl in Hmo. rewrite Em in Hmo.
    destruct (Z.eqb_spec mo (-1)) as [E1|E1].
    + subst mo.
      apply bind_Ok in H. destruct H as [[] [t1 [W1 H]]].
      apply wr_Ok in W1. destruct W1 as [v1 [V1 E]]. subst t1. simpl in V1.
      apply set_Some in V1. destruct V1 as [_ [_ G1]].
      apply bind_Ok in H. destruct H as [vis [t2 [Hvis H]]].
      apply rd_Ok in Hvis. destruct Hvis as [Hvis E]. subst t2. simpl in Hvis.
      apply bind_Ok in H. destruct H as [[] [t2 [Happ H]]].
      apply wr_Ok in H. destruct H as [v3 [V3 E]]. subst t'. simpl.
      apply set_Some in V3. destruct V3 as [_ [_ G3]].
      assert (Efl : forestList t2 = if vis =? 0 then forestList t ++ [x] else forestList t).
      { destruct (vis =? 0).
        - apply modify_Ok in Happ. subst t2. reflexivity.
        - apply ret_Ok in Happ. destruct Happ as [_ Happ]. subst t2. reflexivity. }
      assert (Eoth : outside_Reset t2 = outside_Reset t /\ forest t2 = forest t /\
                     root t2 = root t /\ visited t2 = visited t /\ type t2 = v1).
      { destruct (vis =? 0).
        - apply modify_Ok in Happ. subst t2. repeat split; reflexivity.
        - apply ret_Ok in Happ. destruct Happ as [_ Happ]. subst t2.
          repeat split; reflexivity. }
      destruct Eoth as [O1 [O2 [O3 [O4 O5]]]]. simpl in G3. rewrite O4 in G3.
      rewrite O5.
      assert (Evis : vis = 0 <->
                forall j, In j done -> Vec.get (outer t0) j <> Vec.get (outer t0) x).
      { destruct (V o vis Hvis) as [[Ev [i [Hi [Hoi _]]]]|[Ev Hno]].
        - split; [lia|]. intros C. exfalso. apply (C i Hi). congruence.
        - split; [|intros _; exact Ev]. intros _ j Hj C. rewrite Ho in C.
          exact (Hno j Hj C Hmo). }
      split; [|split; [|split; [|split]]].
      * unfold outside_Reset in *. simpl. split; [|split]; congruence.
      * intros i Hi. apply in_app_or in Hi. destruct Hi as [Hi|[Hi|[]]].
        -- destruct (T i Hi) as [oi [mi [A1 [A2 [A3 A4]]]]].
           exists oi, mi. split; [exact A1|]. split; [exact A2|].
           rewrite G1, G3. destruct (Z.eqb_spec oi o) as [E|E].
           ++ subst oi. rewrite Hmo in A2. injection A2 as A2. subst mi.
              split; reflexivity.
           ++ split; assumption.
        -- subst i. exists o, (-1). split; [exact Ho|]. split; [exact Hmo|].
           rewrite G1, G3, Z.eqb_refl. split; reflexivity.
      * intros o' v Hv. rewrite G3 in Hv.
        destruct (Z.eqb_spec o' o) as [E|E].
        -- subst o'. injection Hv as Hv. subst v. left. split; [reflexivity|].
           exists x. split; [apply in_or_app; right; left; reflexivity|].
           split; assumption.
        -- destruct (V o' v Hv) as [[Ev [i [Hi Hr]]]|[Ev Hno]].
           ++ left. split; [exact Ev|]. exists i.
              split; [apply in_or_app; left; exact Hi|exact Hr].
           ++ right. split; [exact Ev|]. intros i Hi Hoi Hmi.
              apply in_app_or in Hi. destruct Hi as [Hi|[Hi|[]]].
              ** exact (Hno i Hi Hoi Hmi).
              ** subst i. congruence.
      * intros y. rewrite Efl. split.
        -- intros Hy.
           assert (Hy' : In y (forestList t) \/ (vis = 0 /\ y = x)).
           { destruct (Z.eqb_spec vis 0); [|left; exact Hy].
             apply in_app_or in Hy. destruct Hy as [Hy|[Hy|[]]]; [left|right]; auto. }
           destruct Hy' as [Hy'|[Ev Ey]].
           ++ apply L in Hy'. destruct Hy' as [A1 [A2 A3]].
              split; [apply in_or_app; left; exact A1|]. split; [exact A2|].
              intros j Hj Hl. apply A3; [|exact Hl]. apply Dlt in A1.
              apply in_app_or in Hj. destruct Hj as [Hj|[Hj|[]]]; [exact Hj|lia].
           ++ subst y. split; [apply in_or_app; right; left; reflexivity|].
              split; [exists o; split; assumption|].
              intros j Hj Hl. apply (proj1 Evis Ev).
              apply in_app_or in Hj. destruct Hj as [Hj|[Hj|[]]]; [exact Hj|lia].
        -- intros [A1 [A2 A3]]. apply in_app_or in A1. destruct A1 as [A1|[A1|[]]].
           ++ assert (Hy : In y (forestList t)).
              { apply L. split; [exact A1|]. split; [exact A2|].
                intros j Hj Hl. apply A3; [apply in_or_app; left; exact Hj|exact Hl]. }
              destruct (vis =? 0); [apply in_or_app; left; exact Hy|exact Hy].
           ++ subst y.
              assert (Ev : vis = 0).
              { apply Evis. intros j Hj. apply A3; [apply in_or_app; left; exact Hj|].
                apply Dlt in Hj. lia. }
              subst vis. simpl. apply in_or_app. right. left. reflexivity.
      * rewrite Efl. destruct (vis =? 0); [|exact S].
        apply sorted_snoc; [exact S|]. intros y Hy. apply L in Hy.
        destruct Hy as [Hy _]. apply Dlt in Hy. lia.
    + apply wr_Ok in H. destruct H as [v1 [V1 E]]. subst t'. simpl in V1. simpl.
      apply set_Some in V1. destruct V1 as [_ [_ G1]].
      assert (Nm : (mo =? -1) = false) by (apply Z.eqb_neq; exact E1).
      split; [|split; [|split; [|split]]].
      * unfold outside_Reset in *. simpl. split; [|split]; congruence.
      * intros i Hi. apply in_app_or in Hi. destruct Hi as [Hi|[Hi|[]]].
        -- destruct (T i Hi) as [oi [mi [A1 [A2 [A3 A4]]]]].
           exists oi, mi. split; [exact A1|]. split; [exact A2|].
           rewrite G1. destruct (Z.eqb_spec oi o) as [E|E].
           ++ subst oi. rewrite Hmo in A2. injection A2 as A2. subst mi.
              rewrite Nm. split; [reflexivity|]. intros C. contradiction.
           ++ split; assumption.
        -- subst i. exists o, mo. split; [exact Ho|]. split; [exact Hmo|].
           rewrite G1, Z.eqb_refl, Nm. split; [reflexivity|]. intros C. contradiction.
      * intros o' v Hv.
        destruct (V o' v Hv) as [[Ev [i [Hi Hr]]]|[Ev Hno]].
        -- left. split; [exact Ev|]. exists i.
           split; [apply in_or_app; left; exact Hi|exact Hr].
        -- right. split; [exact Ev|]. intros i Hi Hoi Hmi.
           apply in_app_or in Hi. destruct Hi as [Hi|[Hi|[]]].
           ++ exact (Hno i Hi Hoi Hmi).
           ++ subst i. rewrite Ho in Hoi. injection Hoi as Hoi. subst o'.
              rewrite Hmo in Hmi. congruence.
      * intros y. split.
        -- intros Hy. apply L in Hy. destruct Hy as [A1 [A2 A3]].
           split; [apply in_or_app; left; exact A1|]. split; [exact A2|].
           intros j Hj Hl. apply A3; [|exact Hl]. apply Dlt in A1.
              apply in_app_or in Hj. destruct Hj as [Hj|[Hj|[]]]; [exact Hj|lia].
        -- intros [A1 [A2 A3]]. apply in_app_or in A1. destruct A1 as [A1|[A1|[]]].
           ++ apply L. split; [exact A1|]. split; [exact A2|].
              intros j Hj Hl. apply A3; [apply in_or_app; left; exact Hj|exact Hl].
           ++ subst y. exfalso. destruct A2 as [o' [Ho' Hm']].
              rewrite Ho in Ho'. injection Ho' as Ho'. subst o'. congruence.
      * exact S.
  - split; [repeat split; reflexivity|].
    split; [intros i []|].
    split.
    { intros o v Hv. right. split; [exact (Hv0 o v Hv)|]. intros i []. }
    split; [|rewrite Hf0; constructor].
    intros x. rewrite Hf0. split; [intros []|intros [[] _]].
Qed.

(** *** [Reset] as a whole *)

Lemma Reset_parts (fuel : nat) (s s' : Matching) :
  Reset EPSILON G fuel s = Ok (tt, s') ->
  exists s1,
    (forall i, 0 <= i < 2 * n ->
       Vec.get (forest s1) i = Some (-1) /\ Vec.get (root s1) i = Some i) /\
    outer_blossoms_blocked EPSILON G (fun i => 0 <= i < 2 * n) s1 /\
    Reset_roots G (set_forestList [] (fput f_visited (Vec.make (2 * n) 0) s1))
      = Ok (tt, s').
Proof.
  unfold Reset. intros H.
  apply bind_Ok in H. destruct H as [[] [s1 [H1 H]]].
  apply Reset_sweep in H1. destruct H1 as [A B].
  unfold assign in H. rewrite !bind_modify in H.
  exists s1. split; [exact A|]. split; [exact B|exact H].
Qed.

Lemma make_zero (k o v : Z) : Vec.get (Vec.make k 0) o = Some v -> v = 0.
Proof.
  unfold Vec.get, Vec.make. destruct (o <? 0); [discriminate|].
  intros H. apply nth_error_In in H. apply repeat_spec in H. exact H.
Qed.

Lemma first_unmatched_same (s s' : Matching) (x : Z) :
  outer s' = outer s -> mate s' = mate s -> first_unmatched s x -> first_unmatched s' x.
Proof.
  unfold first_unmatched, unmatched. intros Eo Em. rewrite Eo, Em. tauto.
Qed.

(** X15.  When [Reset] returns, every index [i < 2n] has [forest[i] = -1]
    and [root[i] = i]; the outer blossom of every vertex is labelled EVEN
    when it has no mate and UNLABELED otherwise, and is marked visited in
    the first case; and [forestList] lists, in increasing order and once
    each, the vertices that are the first vertex of an outer blossom
    without mate. *)
Theorem Reset_rebuilds_forest (fuel : nat) (s s' : Matching) :
  Reset EPSILON G fuel s = Ok (tt, s') ->
  (forall i, 0 <= i < 2 * n ->
     Vec.get (forest s') i = Some (-1) /\ Vec.get (root s') i = Some i) /\
  (forall i, 0 <= i < n ->
     exists o mo, Vec.get (outer s') i = Some o /\ Vec.get (mate s') o = Some mo /\
       Vec.get (type s') o = Some (if mo =? -1 then EVEN else UNLABELED) /\
       (mo = -1 -> Vec.get (visited s') o = Some 1)) /\
  (forall x, In x (forestList s') <-> 0 <= x < n /\ first_unmatched s' x) /\
  StronglySorted Z.lt (forestList s').
Proof.
  intros H. apply Reset_parts in H. destruct H as [s1 [A [_ H]]].
  apply Reset_roots_spec in H.
  - destruct H as [F1 [F2 [F3 [T [L S]]]]].
    assert (Eo : outer s' = outer s1) by (unfold outside_Reset in F1; inversion F1; reflexivity).
    assert (Em : mate s' = mate s1) by (unfold outside_Reset in F1; inversion F1; reflexivity).
    simpl in F2, F3, T, L.
    split; [rewrite F2, F3; exact A|].
    split; [rewrite Eo, Em; exact T|].
    split; [|exact S].
    intros x. rewrite L. split; intros [B C]; (split; [exact B|]);
      revert C; apply first_unmatched_same; simpl; congruence.
  - simpl. apply make_zero.
  - reflexivity.
Qed.

Lemma off_Reset (fuel : nat) : preserves only_switches_off (Reset EPSILON G fuel).
Proof.
  unfold Reset, Reset_roots.
  pres_with only_switches_off_refl only_switches_off_trans
    ltac:(split; intros j Hj; exact Hj) ltac:(apply off_DestroyBlossom).
Qed.

(** X16.  [Reset] dissolves every outer blossom that is not protected by its
    dual: when it returns, a pseudo-vertex that is active and is its own
    outer blossom is blocked and has a dual GREATER than [0].  [Reset]
    activates and blocks nothing, and it leaves the [deep] and [shallow]
    lists, the tips, the duals, the slacks and the flag [perfect] as they
    were. *)
Theorem Reset_dissolves_unblocked_blossoms (fuel : nat) (s s' : Matching) :
  Reset EPSILON G fuel s = Ok (tt, s') ->
  (forall i, n <= i < 2 * n ->
     Vec.get (active s') i = Some true -> Vec.get (outer s') i = Some i ->
     Vec.get (blocked s') i = Some true /\
     exists d, Vec.get (dual s') i = Some d /\ GREATER EPSILON d 0 = true) /\
  only_switches_off s s' /\
  deep s' = deep s /\ shallow s' = shallow s /\ tip s' = tip s /\
  dual s' = dual s /\ slack s' = slack s /\ perfect s' = perfect s.
Proof.
  intros H.
  pose proof (off_Reset fuel _ _ _ H) as Off.
  pose proof (Reset_frame fuel _ _ _ H) as Fr. unfold same_on in Fr.
  split.
  - apply Reset_parts in H. destruct H as [s1 [_ [B H]]].
    apply Reset_roots_spec in H; [|simpl; apply make_zero|reflexivity].
    destruct H as [F1 _]. unfold outside_Reset in F1. simpl in F1.
    inversion F1 as [[E1 E2 E3 E4 E5 E6 E7 E8 E9 E10 E11]].
    intros i Hi Ha Ho. rewrite E6 in Ha. rewrite E2 in Ho. rewrite E7, E8.
    apply B; [lia|lia|exact Ha|exact Ho].
  - split; [exact Off|]. inversion Fr. repeat split; reflexivity.
Qed.

End Resetting.

(** *** On runs *)

Lemma Reset_rebuilds_forest_witness :
  Vec.get (forest (exec (Reset eps10 G_pennant 20) pennant_updated)) 1 = Some (-1) /\
  Vec.get (root (exec (Reset eps10 G_pennant 20) pennant_updated)) 1 = Some 1 /\
  StronglySorted Z.lt (forestList (exec (Reset eps10 G_pennant 20) pennant_updated)).
Proof.
  assert (H : Reset eps10 G_pennant 20 pennant_updated
              = Ok (tt, exec (Reset eps10 G_pennant 20) pennant_updated))
    by (vm_compute; reflexivity).
  destruct (Reset_rebuilds_forest eps10 G_pennant 20 _ _ H) as [A [_ [_ D]]].
  assert (R : 0 <= 1 < 2 * Gr.GetNumVertices G_pennant)
    by (vm_compute; split; [discriminate|reflexivity]).
  destruct (A 1 R) as [A1 A2].
  split; [exact A1|]. split; [exact A2|exact D].
Defined.

Lemma Reset_dissolves_unblocked_blossoms_witness :
  Vec.get (blocked (exec (Reset eps10 G_pennant 20) pennant_updated)) 7 = Some true /\
  dual (exec (Reset eps10 G_pennant 20) pennant_updated) = dual pennant_updated.
Proof.
  assert (H : Reset eps10 G_pennant 20 pennant_updated
              = Ok (tt, exec (Reset eps10 G_pennant 20) pennant_updated))
    by (vm_compute; reflexivity).
  destruct (Reset_dissolves_unblocked_blossoms eps10 G_pennant 20 _ _ H)
    as [A [_ [_ [_ [_ [D _]]]]]].
  assert (R : Gr.GetNumVertices G_pennant <= 7 < 2 * Gr.GetNumVertices G_pennant)
    by (vm_compute; split; [discriminate|reflexivity]).
  split; [|exact D].
  apply (A 7 R); vm_compute; reflexivity.
Defined.

(** ** [Heuristic] *)

Section Greedy.

Variable EPSILON : float.
Variable G : Graph.

Local Abbreviation n := (Gr.GetNumVertices G).
Local Abbreviation m := (Gr.GetNumEdges G).

(** *** The heap hands out every vertex *)

Lemma drain_Insert (k i : Z) (h : BinaryHeap.t) (u : Z) :
  In u (BinaryHeap.drain (BinaryHeap.Insert k i h)) <-> u = i \/ In u (BinaryHeap.drain h).
Proof.
  unfold BinaryHeap.drain. induction h as [|[k0 i0] r IH]; simpl.
  - split; [intros [H|[]]; left; congruence|intros [H|[]]; left; congruence].
  - destruct (k <? k0); simpl.
    + split; [intros [H|H]; [left; congruence|right; exact H]
             |intros [H|H]; [left; congruence|right; exact H]].
    + rewrite IH. split.
      * intros [H|[H|H]]; [right; left; exact H|left; exact H|right; right; exact H].
      * intros [H|[H|H]]; [right; left; exact H|left; exact H|right; right; exact H].
Qed.

Lemma Heuristic_heap_drain (degree : list Z) (B : BinaryHeap.t) :
  Heuristic_heap G degree = Some B ->
  forall u, In u (BinaryHeap.drain B) <-> 0 <= u < n.
Proof.
  unfold Heuristic_heap. intros H u. rewrite <- in_range.
  assert (K : forall l B0 B1,
    fold_opt (fun B i => match Vec.get degree i with
                         | Some d => Some (BinaryHeap.Insert d i B)
                         | None => None
                         end) l B0 = Some B1 ->
    (In u (BinaryHeap.drain B1) <-> In u (BinaryHeap.drain B0) \/ In u l)).
  { induction l as [|x r IH]; intros B0 B1 E; simpl in E.
    - injection E as E. subst B1. simpl. tauto.
    - destruct (Vec.get degree x) as [d|]; [|discriminate E].
      rewrite (IH _ _ E), drain_Insert. simpl. split.
      + intros [[A|A]|A]; [right; left; congruence|left; exact A|right; right; exact A].
      + intros [A|[A|A]]; [left; right; exact A|left; left; congruence|right; exact A]. }
  rewrite (K _ _ _ H). simpl. tauto.
Qed.

(** *** A visit that matches nothing had nothing to match *)

Lemma Heuristic_pick_none (degree : list Z) (u : Z) (adj : list Z) (mn0 : Z)
  (s s' : Matching) :
  foldM adj (fun mn v =>
    b <- IsEdgeBlocked2 EPSILON G u v ;;
    if b : bool then ret mn
    else
      ou <- rd f_outer u ;;
      ov <- rd f_outer v ;;
      if ou =? ov then ret mn
      else
        mv <- rd f_mate ov ;;
        if negb (mv =? -1) then ret mn
        else if mn =? -1 then ret v
        else
          dv <- reads (fun _ => Vec.get degree v) ;;
          dm <- reads (fun _ => Vec.get degree mn) ;;
          if dv <? dm then ret v else ret mn) mn0 s = Ok (-1, s') ->
  mn0 = -1 /\
  forall v, In v adj ->
    edgeBlocked EPSILON s (Gr.GetEdgeIndex G u v) = Some false ->
    Vec.get (outer s) u <> Vec.get (outer s) v ->
    ~ unmatched s v.
Proof.
  revert mn0. induction adj as [|v r IH]; intros mn0 H; simpl in H.
  - apply ret_Ok in H. destruct H as [H _]. split; [lia|]. intros v [].
  - apply bind_Ok in H. destruct H as [a1 [s1 [H1 H]]].
    assert (E : s1 = s /\
      (a1 = -1 -> mn0 = -1 /\
         (edgeBlocked EPSILON s (Gr.GetEdgeIndex G u v) = Some false ->
          Vec.get (outer s) u <> Vec.get (outer s) v -> ~ unmatched s v))).
    { clear H IH.
      apply bind_Ok in H1. destruct H1 as [b [t [Hb H1]]].
      unfold IsEdgeBlocked2 in Hb. apply reads_Ok in Hb. destruct Hb as [Hb E]. subst t.
      destruct b.
      { apply ret_Ok in H1. destruct H1 as [E1 E2]. subst. split; [reflexivity|].
        intros E. split; [exact E|]. intros C. rewrite Hb in C. discriminate C. }
      apply bind_Ok in H1. destruct H1 as [ou [t [Hou H1]]].
      apply rd_Ok in Hou. destruct Hou as [Hou E]. subst t.
      apply bind_Ok in H1. destruct H1 as [ov [t [Hov H1]]].
      apply rd_Ok in Hov. destruct Hov as [Hov E]. subst t. simpl in Hou, Hov.
      destruct (Z.eqb_spec ou ov) as [Eo|Eo].
      { apply ret_Ok in H1. destruct H1 as [E1 E2]. subst. split; [reflexivity|].
        intros E. split; [exact E|]. intros _ C. exfalso. apply C. congruence. }
      apply bind_Ok in H1. destruct H1 as [mv [t [Hmv H1]]].
      apply rd_Ok in Hmv. destruct Hmv as [Hmv E]. subst t. simpl in Hmv.
      destruct (Z.eqb_spec mv (-1)) as [Em|Em]; simpl in H1.
      2:{ apply ret_Ok in H1. destruct H1 as [E1 E2]. subst. split; [reflexivity|].
          intros E. split; [exact E|]. intros _ _ [o [Ho Hm]].
          rewrite Hov in Ho. injection Ho as Ho. subst o. congruence. }
      assert (Hv : v <> -1).
      { apply get_Some_range in Hov. lia. }
      destruct (Z.eqb_spec mn0 (-1)) as [E0|E0].
      { apply ret_Ok in H1. destruct H1 as [E1 E2]. subst. split; [reflexivity|].
        intros C. contradiction. }
      apply bind_Ok in H1. destruct H1 as [dv [t [Hdv H1]]].
      apply reads_Ok in Hdv. destruct Hdv as [_ E]. subst t.
      apply bind_Ok in H1. destruct H1 as [dm [t [Hdm H1]]].
      apply reads_Ok in Hdm. destruct Hdm as [_ E]. subst t.
      destruct (dv <? dm); apply ret_Ok in H1; destruct H1 as [E1 E2]; subst;
        (split; [reflexivity|]); intros C; contradiction. }
    destruct E as [E1 E2]. subst s1.
    destruct (IH _ H) as [Ea Hr]. destruct (E2 Ea) as [E0 Hv].
    split; [exact E0|]. intros w [Hw|Hw]; [subst w; exact Hv|apply Hr; exact Hw].
Qed.

(** *** One visit *)

Lemma only_adds_mates_refl (s : Matching) : only_adds_mates s s.
Proof. split; [destruct s; reflexivity|]. split; auto. Qed.

Lemma only_adds_mates_trans (s1 s2 s3 : Matching) :
  only_adds_mates s1 s2 -> only_adds_mates s2 s3 -> only_adds_mates s1 s3.
Proof.
  intros [A1 [B1 C1]] [A2 [B2 C2]]. split; [rewrite A2, A1; reflexivity|].
  split; [intros o x H Hx; apply B2; [apply B1; assumption|exact Hx]|].
  intros o H. apply C1. apply C2. exact H.
Qed.

Lemma Heuristic_visit_spec (degree : list Z) (u : Z) (s s' : Matching) :
  0 <= u ->
  Heuristic_visit EPSILON G degree u s = Ok (tt, s') ->
  only_adds_mates s s' /\
  forall adj v, Gr.AdjList G u = Some adj -> In v adj ->
    edgeBlocked EPSILON s (Gr.GetEdgeIndex G u v) = Some false ->
    Vec.get (outer s) u <> Vec.get (outer s) v ->
    ~ (unmatched s' u /\ unmatched s' v).
Proof.
  unfold Heuristic_visit. intros Hu H.
  apply bind_Ok in H. destruct H as [ou [t [Hou H]]].
  apply rd_Ok in Hou. destruct Hou as [Hou E]. subst t.
  apply bind_Ok in H. destruct H as [mo [t [Hmo H]]].
  apply rd_Ok in Hmo. destruct Hmo as [Hmo E]. subst t.
  simpl in Hou, Hmo.
  destruct (Z.eqb_spec mo (-1)) as [Emo|Emo].
  2:{ apply ret_Ok in H. destruct H as [_ H]. subst s'.
      split; [apply only_adds_mates_refl|].
      intros adj v _ _ _ _ [[o [Ho Hm]] _].
      rewrite Hou in Ho. injection Ho as Ho. subst o. congruence. }
  subst mo.
  apply bind_Ok in H. destruct H as [adj [t [Hadj H]]].
  apply reads_Ok in Hadj. destruct Hadj as [Hadj E]. subst t.
  apply bind_Ok in H. destruct H as [mn [t [Hpick H]]].
  pose proof (Heuristic_pick_spec EPSILON G degree u adj s t mn Hpick) as [E Hsel].
  subst t.
  destruct (Z.eqb_spec mn (-1)) as [Emn|Emn]; simpl in H.
  { apply ret_Ok in H. destruct H as [_ H]. subst s' mn.
    split; [apply only_adds_mates_refl|].
    unfold Heuristic_pick in Hpick. apply Heuristic_pick_none in Hpick.
    destruct Hpick as [_ Hnone].
    intros adj' v Ha Hv Hb Ho [_ Huv]. rewrite Hadj in Ha. injection Ha as Ha. subst adj'.
    exact (Hnone v Hv Hb Ho Huv). }
  destruct Hsel as [Hsel|[ou' [om [Hou' [Hom [Hne Hfree]]]]]]; [contradiction|].
  rewrite Hou in Hou'. injection Hou' as Hou'. subst ou'.
  apply bind_Ok in H. destruct H as [ou2 [t [Hou2 H]]].
  apply rd_Ok in Hou2. destruct Hou2 as [Hou2 E]. subst t. simpl in Hou2.
  rewrite Hou in Hou2. injection Hou2 as Hou2. subst ou2.
  apply bind_Ok in H. destruct H as [[] [t1 [W1 H]]].
  apply wr_Ok in W1. destruct W1 as [v1 [V1 E]]. subst t1. simpl in V1.
  apply set_Some in V1. destruct V1 as [_ [_ G1]].
  apply bind_Ok in H. destruct H as [om2 [t [Hom2 H]]].
  apply rd_Ok in Hom2. destruct Hom2 as [Hom2 E]. subst t. simpl in Hom2.
  rewrite Hom in Hom2. injection Hom2 as Hom2. subst om2.
  apply wr_Ok in H. destruct H as [v2 [V2 E]]. subst s'. simpl in V2.
  apply set_Some in V2. destruct V2 as [_ [_ G2]].
  assert (Gm : forall o, Vec.get v2 o =
             if o =? om then Some u else if o =? ou then Some mn else Vec.get (mate s) o).
  { intros o. rewrite G2, G1. reflexivity. }
  split.
  - split; [reflexivity|]. simpl. split.
    + intros o x Ho Hx. rewrite Gm.
      destruct (Z.eqb_spec o om); [subst o; congruence|].
      destruct (Z.eqb_spec o ou); [subst o; congruence|exact Ho].
    + intros o Ho. rewrite Gm in Ho.
      destruct (Z.eqb_spec o om); [injection Ho as Ho; lia|].
      destruct (Z.eqb_spec o ou); [congruence|exact Ho].
  - intros adj' v _ _ _ _ [[o [Ho Hm]] _]. simpl in Ho, Hm.
    rewrite Hou in Ho. injection Ho as Ho. subst o. rewrite Gm in Hm.
    destruct (Z.eqb_spec ou om); [contradiction|].
    rewrite Z.eqb_refl in Hm. congruence.
Qed.

Lemma unmatched_back (s s' : Matching) (x : Z) :
  only_adds_mates s s' -> unmatched s' x -> unmatched s x.
Proof.
  intros [A [_ C]] [o [Ho Hm]]. exists o. split.
  - rewrite A in Ho. exact Ho.
  - apply C. exact Hm.
Qed.

(** X17.  [Heuristic] writes nothing but [mate], keeps every mate that is
    set and resets none.  When it returns the matching cannot be extended
    by one edge: no vertex [u] has a neighbour [v] in another outer blossom,
    joined by an edge that is not blocked, such that the outer blossoms of
    both are without mate. *)
Theorem Heuristic_is_maximal (s s' : Matching) :
  Heuristic EPSILON G s = Ok (tt, s') ->
  s' = fput f_mate (mate s') s /\
  (forall o x, Vec.get (mate s) o = Some x -> x <> -1 -> Vec.get (mate s') o = Some x) /\
  (forall o, Vec.get (mate s') o = Some (-1) -> Vec.get (mate s) o = Some (-1)) /\
  forall u adj v, 0 <= u < n -> Gr.AdjList G u = Some adj -> In v adj ->
    edgeBlocked EPSILON s' (Gr.GetEdgeIndex G u v) = Some false ->
    Vec.get (outer s') u <> Vec.get (outer s') v ->
    ~ (unmatched s' u /\ unmatched s' v).
Proof.
  unfold Heuristic. intros H.
  apply bind_Ok in H. destruct H as [degree [t [Hd H]]].
  apply (Heuristic_degrees_readonly EPSILON G) in Hd. subst t.
  apply bind_Ok in H. destruct H as [B [t [HB H]]].
  apply reads_Ok in HB. destruct HB as [HB E]. subst t.
  pose proof (Heuristic_heap_drain degree B HB) as Hdrain.
  apply (forM_inv _ (fun done t =>
      only_adds_mates s t /\
      forall u adj v, In u done -> Gr.AdjList G u = Some adj -> In v adj ->
        edgeBlocked EPSILON s (Gr.GetEdgeIndex G u v) = Some false ->
        Vec.get (outer s) u <> Vec.get (outer s) v ->
        ~ (unmatched t u /\ unmatched t v))) in H.
  - destruct H as [[A [B1 C]] Hmax].
    split; [exact A|]. split; [exact B1|]. split; [exact C|].
    intros u adj v Hu Ha Hv Hb Ho. rewrite A in Hb, Ho. simpl in Hb, Ho.
    apply (Hmax u adj v); try assumption. apply Hdrain. exact Hu.
  - clear H s'. intros done x t t' Hx [Hadd Hmax] H.
    apply Hdrain in Hx.
    apply Heuristic_visit_spec in H; [|lia]. destruct H as [Hadd' Hnew].
    split; [exact (only_adds_mates_trans _ _ _ Hadd Hadd')|].
    intros u adj v Hu Ha Hv Hb Ho [U1 U2].
    assert (Et : t = fput f_mate (mate t) s) by (destruct Hadd as [A _]; exact A).
    apply in_app_or in Hu. destruct Hu as [Hu|[Hu|[]]].
    + apply (Hmax u adj v Hu Ha Hv Hb Ho).
      split; apply (unmatched_back _ _ _ Hadd'); assumption.
    + subst u. apply (Hnew adj v Ha Hv).
      * rewrite Et. exact Hb.
      * rewrite Et. exact Ho.
      * split; assumption.
  - split; [apply only_adds_mates_refl|]. intros u adj v [].
Qed.

End Greedy.

(** *** On runs *)

Lemma Heuristic_is_maximal_witness :
  ~ (unmatched pennant_matched 2 /\ unmatched pennant_matched 1).
Proof.
  assert (H : Heuristic eps10 G_pennant (exec (Reset eps10 G_pennant 20) pennant_updated)
              = Ok (tt, pennant_matched)) by (vm_compute; reflexivity).
  destruct (Heuristic_is_maximal eps10 G_pennant _ _ H) as [_ [_ [_ A]]].
  apply (A 2 [1] 1).
  - vm_compute. split; [discriminate|reflexivity].
  - vm_compute. reflexivity.
  - left. reflexivity.
  - vm_compute. reflexivity.
  - vm_compute. discriminate.
Defined.

(** ** The original vertices are never blossoms *)

Section Intact.

Variable EPSILON : float.
Variable G : Graph.

Local Abbreviation n := (Gr.GetNumVertices G).
Local Abbreviation m := (Gr.GetNumEdges G).

Ltac sized_side :=
  try match goal with
      | H : Vec.set _ _ _ = Some _ |- _ =>
          apply set_Some in H; destruct H as [_ [H _]]
      end;
  unfold keeps, sized, len in *; simpl in *;
  try match goal with
      | H : length _ = length _ |- _ => rewrite H
      end;
  tauto.

Ltac state_simpl :=
  cbn [fget fput f_outer f_deep f_shallow f_tip f_active f_type f_forest f_root
       f_blocked f_dual f_slack f_mate f_visited set_free set_perfect set_forestList
       free outer deep shallow tip active type forest root blocked dual slack mate
       perfect forestList visited] in *.

Ltac free_side Hf :=
  let x := fresh "x" in let Hx := fresh "Hx" in
  intros x Hx; state_simpl; apply in_app_or in Hx;
  destruct Hx as [Hx|[Hx|[]]]; [apply Hf; exact Hx|subst x; lia].

(** A write keeps [intact] when it goes to a component that [intact] does
    not read, or to the slot of a pseudo-vertex. *)
Ltac intact_side :=
  repeat match goal with
         | H : In _ (Vec.range _ _) |- _ => apply in_range in H
         end;
  match goal with
  | |- keeps (intact G) ?s ?s' =>
      let Hk := fresh "Hk" in
      assert (Hk : keeps (sized G) s s')
        by (first [apply sized_visited|solve [sized_side]]);
      try match goal with
          | H : Vec.set _ _ _ = Some _ |- _ =>
              apply set_Some in H; destruct H as [_ [_ H]]
          end;
      let Hs := fresh "Hs" in let Hf := fresh "Hf" in let Hv := fresh "Hv" in
      intros [Hs [Hf Hv]];
      split; [exact (Hk Hs)|];
      split;
      [ first [exact Hf|free_side Hf]
      | let i := fresh "i" in let Hi := fresh "Hi" in
        intros i Hi; specialize (Hv i Hi); state_simpl;
        repeat match goal with
               | H : forall j, Vec.get _ j = _ |- _ => rewrite H
               end;
        try match goal with
            | |- context [?a =? ?b] => destruct (Z.eqb_spec a b); [lia|]
            end;
        exact Hv ]
  end.

Ltac intact_pres known :=
  pres_with (@keeps_refl (intact G)) (@keeps_trans (intact G)) ltac:(intact_side) known.

Lemma intact_DestroyBlossom (fuel : nat) (t : Z) :
  preserves (keeps (intact G)) (DestroyBlossom EPSILON G fuel t).
Proof.
  revert t. induction fuel as [|fuel IH]; intros t; simpl.
  - apply preserves_out_of_fuel.
  - intros s a s' H K. destruct a.
    apply bind_Ok in H. destruct H as [stop [s1 [Hs H]]].
    destruct (Z.ltb_spec t n) as [L|L].
    { apply ret_Ok in Hs. destruct Hs as [E1 E2]. subst stop s1.
      apply ret_Ok in H. destruct H as [_ H]. subst s'. exact K. }
    apply bind_Ok in Hs. destruct Hs as [b [t1 [Hb Hs]]].
    apply rd_Ok in Hb. destruct Hb as [Hb E]. subst t1.
    assert (U : t < 2 * n).
    { apply get_Some_range in Hb. destruct K as [Ks _]. unfold sized, len in Ks.
      state_simpl. lia. }
    assert (E : s1 = s).
    { destruct b; [|apply ret_Ok in Hs; destruct Hs as [_ Hs]; congruence].
      apply bind_Ok in Hs. destruct Hs as [d [t1 [Hd Hs]]].
      apply rd_Ok in Hd. destruct Hd as [_ E]. subst t1.
      apply ret_Ok in Hs. destruct Hs as [_ Hs]. congruence. }
    subst s1. clear Hs Hb.
    destruct stop.
    { apply ret_Ok in H. destruct H as [_ H]. subst s'. exact K. }
    revert H K.
    match goal with
    | |- ?c s = Ok (tt, s') -> _ =>
        assert (P : preserves (keeps (intact G)) c);
          [|intros H K; exact (P _ _ _ H K)]
    end.
    unfold AddFreeBlossomIndex. intact_pres ltac:(apply IH).
Qed.

Lemma intact_Expand_rotate (fuel : nat) (u p : Z) :
  n <= u -> preserves (keeps (intact G)) (Expand_rotate fuel u p).
Proof.
  intros Hu. revert p. induction fuel as [|fuel IH]; intros p; simpl.
  - apply preserves_out_of_fuel.
  - intact_pres ltac:(apply IH).
Qed.

Lemma intact_Expand_pairs (l : list Z) : preserves (keeps (intact G)) (Expand_pairs l).
Proof.
  assert (H : forall k l, (length l <= k)%nat -> preserves (keeps (intact G)) (Expand_pairs l)).
  { clear l. induction k as [|k IH]; intros l Hl.
    - destruct l; [apply (@preserves_ret _ (@keeps_refl (intact G)))|simpl in Hl; lia].
    - destruct l as [|a [|b r]]; simpl.
      + apply (@preserves_ret _ (@keeps_refl (intact G))).
      + apply preserves_undefined.
      + intact_pres ltac:(apply IH; simpl in Hl; lia). }
  apply (H (length l)). lia.
Qed.

Lemma intact_Expand (fuel : nat) (u : Z) (b : bool) :
  preserves (keeps (intact G)) (Expand EPSILON G fuel u b).
Proof.
  revert u b. induction fuel as [|fuel IH]; intros u b; simpl.
  - apply preserves_out_of_fuel.
  - intros s a s' H K. destruct a.
    apply bind_Ok in H. destruct H as [mu [t [Hmu H]]].
    apply rd_Ok in Hmu. destruct Hmu as [_ E]. subst t.
    apply bind_Ok in H. destruct H as [v [t [Hv H]]].
    apply rd_Ok in Hv. destruct Hv as [_ E]. subst t.
    apply bind_Ok in H. destruct H as [r [t [Hr H]]].
    apply reads_Ok in Hr. destruct Hr as [_ E]. subst t.
    apply bind_Ok in H. destruct H as [[] [t1 [W1 H]]].
    assert (K1 : intact G t1).
    { revert K. apply wr_Ok in W1. destruct W1 as [w1 [V1 E]]. subst t1.
      change (keeps (intact G) s (fput f_mate w1 s)). intact_side. }
    clear W1 K.
    apply bind_Ok in H. destruct H as [[] [t2 [W2 H]]].
    assert (K2 : intact G t2).
    { revert K1. apply wr_Ok in W2. destruct W2 as [w2 [V2 E]]. subst t2.
      change (keeps (intact G) t1 (fput f_mate w2 t1)). intact_side. }
    clear W2 K1.
    apply bind_Ok in H. destruct H as [stop [t3 [Hs H]]].
    destruct (Z.ltb_spec u n) as [L|L].
    { apply ret_Ok in Hs. destruct Hs as [E1 E2]. subst stop t3.
      apply ret_Ok in H. destruct H as [_ H]. subst s'. exact K2. }
    apply bind_Ok in Hs. destruct Hs as [bl [t4 [Hb Hs]]].
    apply rd_Ok in Hb. destruct Hb as [Hb E]. subst t4.
    apply ret_Ok in Hs. destruct Hs as [E1 E2]. subst t3.
    assert (U : u < 2 * n).
    { apply get_Some_range in Hb. destruct K2 as [Ks _]. unfold sized, len in Ks.
      state_simpl. lia. }
    clear Hb. destruct stop.
    { apply ret_Ok in H. destruct H as [_ H]. subst s'. exact K2. }
    revert H K2.
    match goal with
    | |- ?c t2 = Ok (tt, s') -> _ =>
        assert (P : preserves (keeps (intact G)) c);
          [|intros H K; exact (P _ _ _ H K)]
    end.
    unfold Expand_remate, release_members, AddFreeBlossomIndex.
    intact_pres ltac:(first [apply IH|apply intact_Expand_rotate; exact L
                            |apply intact_Expand_pairs]).
Qed.

Lemma intact_Augment_pair (fuel : nat) (p q : Z) :
  preserves (keeps (intact G)) (Augment_pair EPSILON G fuel p q).
Proof. unfold Augment_pair. intact_pres ltac:(apply intact_Expand). Qed.

Lemma intact_Augment_walk (fuel k : nat) (p fp : Z) :
  preserves (keeps (intact G)) (Augment_walk EPSILON G fuel k p fp).
Proof.
  revert p fp. induction k as [|k IH]; intros p fp; simpl;
    intact_pres ltac:(first [apply IH|apply intact_Augment_pair]).
Qed.

Lemma intact_Augment (fuel : nat) (u v : Z) :
  preserves (keeps (intact G)) (Augment EPSILON G fuel u v).
Proof.
  unfold Augment.
  intact_pres ltac:(first [apply intact_Augment_pair|apply intact_Augment_walk]).
Qed.

Lemma intact_Reset (fuel : nat) : preserves (keeps (intact G)) (Reset EPSILON G fuel).
Proof.
  unfold Reset, Reset_roots. intact_pres ltac:(apply intact_DestroyBlossom).
Qed.

Lemma intact_Blossom_mark (k : nat) (u_ : Z) (isInPath : list bool) :
  preserves (keeps (intact G)) (Blossom_mark k u_ isInPath).
Proof.
  revert u_ isInPath. induction k as [|k IH]; intros u_ isInPath; simpl;
    intact_pres ltac:(apply IH).
Qed.

Lemma intact_Blossom_tip (k : nat) (v_ : Z) (isInPath : list bool) :
  preserves (keeps (intact G)) (Blossom_tip k v_ isInPath).
Proof.
  revert v_. induction k as [|k IH]; intros v_; simpl; intact_pres ltac:(apply IH).
Qed.

Lemma intact_Blossom_circuit (k : nat) (u_ tp : Z) (circuit : list Z) :
  preserves (keeps (intact G)) (Blossom_circuit k u_ tp circuit).
Proof.
  revert u_ circuit. induction k as [|k IH]; intros u_ circuit; simpl;
    intact_pres ltac:(apply IH).
Qed.

Lemma intact_Blossom_tail (k : nat) (t v_ tp : Z) :
  n <= t -> preserves (keeps (intact G)) (Blossom_tail k t v_ tp).
Proof.
  intros Ht. revert v_. induction k as [|k IH]; intros v_; simpl;
    intact_pres ltac:(apply IH).
Qed.

Lemma intact_Blossom_absorb (t : Z) (sh : list Z) :
  n <= t -> preserves (keeps (intact G)) (Blossom_absorb t sh).
Proof. intros Ht. unfold Blossom_absorb. intact_pres idtac. Qed.

Lemma intact_Blossom (fuel : nat) (u v : Z) :
  preserves (keeps (intact G)) (Blossom G fuel u v).
Proof.
  unfold Blossom. intros s a s' H K.
  apply bind_Ok in H. destruct H as [t [s1 [Hf H]]].
  apply GetFreeBlossomIndex_Ok in Hf. destruct Hf as [Ef Es].
  assert (Ht : n <= t < 2 * n).
  { destruct K as [_ [Kf _]]. apply Kf. rewrite Ef. apply in_or_app. right. left.
    reflexivity. }
  assert (K1 : intact G s1).
  { destruct K as [Ks [Kf Kv]]. rewrite Es. split; [exact Ks|]. split; [|exact Kv].
    intros x Hx. apply Kf. rewrite Ef. apply in_or_app. left. exact Hx. }
  clear K Ef Es. destruct Ht as [L U].
  revert H K1.
  match goal with
  | |- ?c s1 = Ok (a, s') -> _ =>
      assert (P : preserves (keeps (intact G)) c);
        [|intros H K; exact (P _ _ _ H K)]
  end.
  intact_pres ltac:(first [apply intact_Blossom_mark|apply intact_Blossom_tip
                          |apply intact_Blossom_circuit
                          |apply intact_Blossom_tail; exact L
                          |apply intact_Blossom_absorb; exact L]).
Qed.

Lemma intact_Grow_adj (fuel : nat) (u : Z) (adj : list Z) :
  preserves (keeps (intact G)) (Grow_adj EPSILON G fuel u adj).
Proof.
  induction adj as [|v rest IH]; simpl.
  - apply (@preserves_ret _ (@keeps_refl (intact G))).
  - unfold IsEdgeBlocked2, Grow_extend.
    intact_pres ltac:(first [apply IH|apply intact_Augment|apply intact_Reset
                            |apply intact_Blossom]).
Qed.

Lemma intact_Grow_deep (fuel : nat) (dw : list Z) :
  preserves (keeps (intact G)) (Grow_deep EPSILON G fuel dw).
Proof.
  induction dw as [|u rest IH]; simpl.
  - apply (@preserves_ret _ (@keeps_refl (intact G))).
  - intact_pres ltac:(first [apply IH|apply intact_Grow_adj]).
Qed.

Lemma intact_Grow_forest (fuel k : nat) :
  preserves (keeps (intact G)) (Grow_forest EPSILON G fuel k).
Proof.
  induction k as [|k IH]; simpl;
    intact_pres ltac:(first [apply IH|apply intact_Grow_deep]).
Qed.

Lemma intact_Grow (fuel : nat) : preserves (keeps (intact G)) (Grow EPSILON G fuel).
Proof.
  unfold Grow, check_perfect.
  intact_pres ltac:(first [apply intact_Reset|apply intact_Grow_forest]).
Qed.

Lemma intact_UpdateDualCosts (fuel : nat) :
  preserves (keeps (intact G)) (UpdateDualCosts EPSILON G fuel).
Proof.
  unfold UpdateDualCosts, update_duals, update_slacks, update_blocked.
  intact_pres ltac:(first [apply intact_DestroyBlossom|apply intact_Expand]).
Qed.

Lemma intact_Heuristic : preserves (keeps (intact G)) (Heuristic EPSILON G).
Proof.
  unfold Heuristic, Heuristic_degrees, Heuristic_visit, Heuristic_pick, IsEdgeBlocked,
    IsEdgeBlocked2.
  intact_pres idtac.
Qed.

Lemma intact_RetrieveMatching (fuel : nat) :
  preserves (keeps (intact G)) (RetrieveMatching EPSILON G fuel).
Proof. unfold RetrieveMatching, expand_all. intact_pres ltac:(apply intact_Expand). Qed.

Lemma intact_PositiveCosts : preserves (keeps (intact G)) (PositiveCosts EPSILON G).
Proof. unfold PositiveCosts. intact_pres idtac. Qed.

Lemma intact_iteration (fuel : nat) :
  preserves (keeps (intact G)) (iteration EPSILON G fuel).
Proof.
  unfold iteration.
  intact_pres ltac:(first [apply intact_Heuristic|apply intact_Grow
                          |apply intact_UpdateDualCosts|apply intact_Reset]).
Qed.

Lemma intact_primal_dual (fuel k : nat) :
  preserves (keeps (intact G)) (primal_dual EPSILON G fuel k).
Proof.
  induction k as [|k IH]; simpl;
    intact_pres ltac:(first [apply IH|apply intact_iteration]).
Qed.

Lemma cleared_intact (s : Matching) : sized G s -> cleared G s -> intact G s.
Proof.
  intros Hs [Hf Hc]. split; [exact Hs|]. split.
  - intros x Hx. rewrite Hf in Hx. apply in_range in Hx. exact Hx.
  - intros i Hi. destruct (Hc i) as [_ [C2 [C3 [C4 [_ [_ [_ [C8 [_ [_ C11]]]]]]]]]]; [lia|].
    destruct (Z.ltb_spec i n); [|lia]. repeat split; assumption.
Qed.

Lemma intact_Clear (s s' : Matching) :
  sized G s -> Clear G s = Ok (tt, s') -> intact G s'.
Proof.
  intros Hs H. destruct (Clear_run G s Hs) as [s1 [H1 [H2 [H3 _]]]].
  rewrite H in H1. injection H1 as H1. subst s1. apply cleared_intact; assumption.
Qed.

Lemma intact_SolveMaximumMatching (fuel : nat) (s s' : Matching) (l : list Z) :
  sized G s -> SolveMaximumMatching EPSILON G fuel s = Ok (l, s') -> intact G s'.
Proof.
  unfold SolveMaximumMatching. intros Hs H.
  apply bind_Ok in H. destruct H as [[] [s1 [H1 H]]].
  apply (intact_Clear _ _ Hs) in H1.
  apply bind_Ok in H. destruct H as [[] [s2 [H2 H]]].
  apply (intact_Grow fuel _ _ _ H2) in H1.
  exact (intact_RetrieveMatching fuel _ _ _ H H1).
Qed.

Lemma intact_SolveMinimum (fuel : nat) (cost : list float) (s s' : Matching)
  (r : list Z * float) :
  sized G s -> SolveMinimumCostPerfectMatching EPSILON G fuel cost s = Ok (r, s') ->
  intact G s'.
Proof.
  unfold SolveMinimumCostPerfectMatching. intros Hs H.
  apply bind_Ok in H. destruct H as [l [s1 [H1 H]]].
  apply (intact_SolveMaximumMatching _ _ _ _ Hs) in H1.
  apply bind_Ok in H. destruct H as [p [t [Hp H]]].
  apply gets_Ok in Hp. destruct Hp as [_ E]. subst t.
  destruct (negb p); [discriminate H|].
  unfold initialise in H.
  apply bind_Ok in H. destruct H as [[] [s2 [H2 H]]].
  apply bind_Ok in H2. destruct H2 as [[] [s3 [H3 H2]]].
  apply intact_Clear in H3; [|destruct H1 as [H1 _]; exact H1].
  revert H2 H H3.
  match goal with
  | |- ?c s3 = Ok (tt, s2) -> ?d s2 = Ok (r, s') -> _ =>
      assert (P : preserves (keeps (intact G)) c);
        [|assert (P' : preserves (keeps (intact G)) d);
          [|intros H2 H H3; exact (P' _ _ _ H (P _ _ _ H2 H3))]]
  end.
  - intact_pres ltac:(apply intact_PositiveCosts).
  - intact_pres ltac:(first [apply intact_primal_dual|apply intact_RetrieveMatching]).
Qed.

(** X18.  The original vertices are never touched as blossoms: from the
    state that [Clear] builds, through every method and to the end of a
    call of [SolveMinimumCostPerfectMatching] that returns, every vertex
    [i < n] stays active and not blocked with [deep[i] = [i]], [shallow[i]]
    empty and [tip[i] = i], the free list holds only indices of
    pseudo-vertices ([n <= x < 2n]), and the vectors keep their sizes. *)
Theorem vertices_stay_intact (fuel : nat) (s s' : Matching) :
  (sized G s -> Clear G s = Ok (tt, s') -> intact G s') /\
  (intact G s ->
   (Heuristic EPSILON G s = Ok (tt, s') -> intact G s') /\
   (Grow EPSILON G fuel s = Ok (tt, s') -> intact G s') /\
   (UpdateDualCosts EPSILON G fuel s = Ok (tt, s') -> intact G s') /\
   (Reset EPSILON G fuel s = Ok (tt, s') -> intact G s') /\
   (forall l, RetrieveMatching EPSILON G fuel s = Ok (l, s') -> intact G s') /\
   (forall u b, Expand EPSILON G fuel u b s = Ok (tt, s') -> intact G s') /\
   (forall u v, Augment EPSILON G fuel u v s = Ok (tt, s') -> intact G s') /\
   (forall u v t, Blossom G fuel u v s = Ok (t, s') -> intact G s') /\
   (forall t, DestroyBlossom EPSILON G fuel t s = Ok (tt, s') -> intact G s')) /\
  (sized G s ->
   (forall l, SolveMaximumMatching EPSILON G fuel s = Ok (l, s') -> intact G s') /\
   (forall cost r, SolveMinimumCostPerfectMatching EPSILON G fuel cost s = Ok (r, s') ->
      intact G s')).
Proof.
  split; [apply intact_Clear|]. split.
  - intros K.
    split; [intros H; exact (intact_Heuristic _ _ _ H K)|].
    split; [intros H; exact (intact_Grow fuel _ _ _ H K)|].
    split; [intros H; exact (intact_UpdateDualCosts fuel _ _ _ H K)|].
    split; [intros H; exact (intact_Reset fuel _ _ _ H K)|].
    split; [intros l H; exact (intact_RetrieveMatching fuel _ _ _ H K)|].
    split; [intros u b H; exact (intact_Expand fuel u b _ _ _ H K)|].
    split; [intros u v H; exact (intact_Augment fuel u v _ _ _ H K)|].
    split; [intros u v t H; exact (intact_Blossom fuel u v _ _ _ H K)|].
    intros t H; exact (intact_DestroyBlossom fuel t _ _ _ H K).
  - intros Hs. split.
    + intros l H. exact (intact_SolveMaximumMatching fuel _ _ _ Hs H).
    + intros cost r H. exact (intact_SolveMinimum fuel cost _ _ _ Hs H).
Qed.

End Intact.

(** ** [Blossom] *)

Section Contraction.

Variable G : Graph.

Local Abbreviation n := (Gr.GetNumVertices G).

Lemma same_state_trans' (s1 s2 s3 : Matching) : s1 = s2 -> s2 = s3 -> s1 = s3.
Proof. congruence. Qed.

Ltac state_simpl :=
  cbn [fget fput f_outer f_deep f_shallow f_tip f_active f_type f_forest f_root
       f_blocked f_dual f_slack f_mate f_visited set_free set_perfect set_forestList
       free outer deep shallow tip active type forest root blocked dual slack mate
       perfect forestList visited] in *.

Ltac readonly known :=
  pres_with (@eq_refl Matching) same_state_trans' ltac:(idtac) known.

Lemma Blossom_mark_readonly (k : nat) (u_ : Z) (isInPath : list bool) :
  preserves eq (Blossom_mark k u_ isInPath).
Proof.
  revert u_ isInPath. induction k as [|k IH]; intros u_ isInPath; simpl;
    readonly ltac:(apply IH).
Qed.

Lemma Blossom_tip_readonly (k : nat) (v_ : Z) (isInPath : list bool) :
  preserves eq (Blossom_tip k v_ isInPath).
Proof.
  revert v_. induction k as [|k IH]; intros v_; simpl; readonly ltac:(apply IH).
Qed.

Lemma path_up_same (s s' : Matching) (tp x : Z) (l : list Z) :
  forest s' = forest s -> outer s' = outer s -> path_up s tp x l -> path_up s' tp x l.
Proof.
  intros Ef Eo H. induction H as [|x f p l Hx Hf Ho _ IH]; [constructor|].
  apply (path_up_step s' tp x f p l Hx); [rewrite Ef; exact Hf|rewrite Eo; exact Ho|exact IH].
Qed.

Lemma Blossom_circuit_spec (k : nat) (u_ tp : Z) (circuit c : list Z) (s s' : Matching) :
  Blossom_circuit k u_ tp circuit s = Ok (c, s') ->
  s' = s /\
  exists l, path_up s tp u_ l /\
    c = match l with
        | [] => circuit
        | _ :: l' => tp :: rev l' ++ circuit
        end.
Proof.
  revert u_ circuit. induction k as [|k IH]; intros u_ circuit H; simpl in H.
  - destruct (Z.eqb_spec u_ tp) as [E|E]; [|discriminate H].
    apply ret_Ok in H. destruct H as [E1 E2]. subst. split; [reflexivity|].
    exists []. split; [constructor|reflexivity].
  - destruct (Z.eqb_spec u_ tp) as [E|E].
    + apply ret_Ok in H. destruct H as [E1 E2]. subst. split; [reflexivity|].
      exists []. split; [constructor|reflexivity].
    + apply bind_Ok in H. destruct H as [f [t [Hf H]]].
      apply rd_Ok in Hf. destruct Hf as [Hf E1]. subst t. simpl in Hf.
      apply bind_Ok in H. destruct H as [u' [t [Hu H]]].
      apply rd_Ok in Hu. destruct Hu as [Hu E1]. subst t. simpl in Hu.
      apply IH in H. destruct H as [Es [l [Hp Hc]]]. split; [exact Es|].
      exists (u_ :: l). split; [exact (path_up_step s tp u_ f u' l E Hf Hu Hp)|].
      subst c. inversion Hp as [E1 E2|x f0 p l0 Hx Hf0 Ho0 Hp0 E1 E2]; subst.
      * reflexivity.
      * simpl. rewrite <- app_assoc. reflexivity.
Qed.

Lemma Blossom_tail_spec (k : nat) (t v_ tp : Z) (s s' : Matching) (sh : list Z) :
  Blossom_tail k t v_ tp s = Ok (tt, s') ->
  Vec.get (shallow s) t = Some sh ->
  exists l, path_up s tp v_ l /\
    Vec.get (shallow s') t = Some (sh ++ l) /\
    s' = fput f_shallow (shallow s') s /\
    forall j, j <> t -> Vec.get (shallow s') j = Vec.get (shallow s) j.
Proof.
  revert v_ s sh. induction k as [|k IH]; intros v_ s sh H Hsh; simpl in H.
  - destruct (Z.eqb_spec v_ tp) as [E|E]; [|discriminate H].
    apply ret_Ok in H. destruct H as [_ H]. subst. exists [].
    split; [constructor|]. rewrite app_nil_r. split; [exact Hsh|].
    split; [match goal with |- ?x = _ => destruct x; reflexivity end|reflexivity].
  - destruct (Z.eqb_spec v_ tp) as [E|E].
    + apply ret_Ok in H. destruct H as [_ H]. subst. exists [].
      split; [constructor|]. rewrite app_nil_r. split; [exact Hsh|].
      split; [match goal with |- ?x = _ => destruct x; reflexivity end|reflexivity].
    + apply bind_Ok in H. destruct H as [sh0 [t0 [Hs0 H]]].
      apply rd_Ok in Hs0. destruct Hs0 as [Hs0 E1]. subst t0. simpl in Hs0.
      rewrite Hsh in Hs0. injection Hs0 as Hs0. subst sh0.
      apply bind_Ok in H. destruct H as [[] [s1 [W H]]].
      apply wr_Ok in W. destruct W as [w [V E1]]. subst s1. simpl in V.
      apply set_Some in V. destruct V as [_ [_ Gw]].
      apply bind_Ok in H. destruct H as [f [t0 [Hf H]]].
      apply rd_Ok in Hf. destruct Hf as [Hf E1]. subst t0. simpl in Hf.
      apply bind_Ok in H. destruct H as [v' [t0 [Hv H]]].
      apply rd_Ok in Hv. destruct Hv as [Hv E1]. subst t0. simpl in Hv.
      apply (IH _ _ (sh ++ [v_])) in H.
      2:{ simpl. rewrite Gw, Z.eqb_refl. reflexivity. }
      destruct H as [l [Hp [A1 [A2 A3]]]].
      exists (v_ :: l). split.
      { apply (path_up_step s tp v_ f v' l E Hf Hv).
        revert Hp. apply path_up_same; reflexivity. }
      split; [rewrite A1, <- app_assoc; reflexivity|].
      split; [rewrite A2; reflexivity|].
      intros j Hj. rewrite A3 by exact Hj. simpl. rewrite Gw.
      destruct (Z.eqb_spec j t); [contradiction|reflexivity].
Qed.

Lemma circuit_shape (s : Matching) (tp ou : Z) (l : list Z) :
  path_up s tp ou l ->
  match l with
  | [] => [ou]
  | _ :: l' => tp :: rev l' ++ [ou]
  end = tp :: rev l.
Proof.
  intros H. inversion H; subst; reflexivity.
Qed.

(** *** The loop that fills [deep[t]] *)

Lemma absorb_inner (t u_ : Z) (du dt : list Z) (s s' : Matching) :
  forM du (fun j =>
    dt <- rd f_deep t ;;
    wr f_deep t (dt ++ [j]) ;;
    wr f_outer j t) s = Ok (tt, s') ->
  Vec.get (deep s) t = Some dt ->
  s' = fput f_outer (outer s') (fput f_deep (deep s') s) /\
  (forall j, j <> t -> Vec.get (deep s') j = Vec.get (deep s) j) /\
  (forall j, Vec.get (outer s') j = Some t \/ Vec.get (outer s') j = Vec.get (outer s) j) /\
  Vec.get (deep s') t = Some (dt ++ du) /\
  (forall j, In j du -> Vec.get (outer s') j = Some t).
Proof.
  revert s dt. induction du as [|x r IH]; intros s dt H Hd; simpl in H.
  - apply ret_Ok in H. destruct H as [_ H]. subst s'.
    split; [destruct s; reflexivity|]. split; [reflexivity|].
    split; [right; reflexivity|]. rewrite app_nil_r. split; [exact Hd|intros j []].
  - apply bind_Ok in H. destruct H as [[] [s1 [Hb H]]].
    apply bind_Ok in Hb. destruct Hb as [dt0 [t0 [Hdt Hb]]].
    apply rd_Ok in Hdt. destruct Hdt as [Hdt E]. subst t0. simpl in Hdt.
    rewrite Hd in Hdt. injection Hdt as Hdt. subst dt0.
    apply bind_Ok in Hb. destruct Hb as [[] [s0 [W1 W2]]].
    apply wr_Ok in W1. destruct W1 as [w1 [V1 E]]. subst s0. simpl in V1.
    apply wr_Ok in W2. destruct W2 as [w2 [V2 E]]. subst s1. simpl in V2.
    apply set_Some in V1. destruct V1 as [_ [_ G1]].
    apply set_Some in V2. destruct V2 as [_ [_ G2]].
    apply (IH _ (dt ++ [x])) in H.
    2:{ simpl. rewrite G1, Z.eqb_refl. reflexivity. }
    destruct H as [A1 [A2 [A3 [A4 A5]]]]. simpl in A1, A2, A3.
    split; [rewrite A1; reflexivity|].
    split.
    { intros j Hj. rewrite A2 by exact Hj. rewrite G1.
      destruct (Z.eqb_spec j t); [contradiction|reflexivity]. }
    split.
    { intros j. destruct (A3 j) as [C|C]; [left; exact C|]. rewrite C, G2.
      destruct (Z.eqb_spec j x); [left; reflexivity|right; reflexivity]. }
    split; [rewrite A4, <- app_assoc; reflexivity|].
    intros j [Hj|Hj]; [|apply A5; exact Hj]. subst j.
    destruct (A3 x) as [C|C]; [exact C|]. rewrite C, G2, Z.eqb_refl. reflexivity.
Qed.

Lemma Forall2_deep_same (s s' : Matching) (t : Z) (l : list Z) (ds : list (list Z)) :
  (forall j, j <> t -> Vec.get (deep s') j = Vec.get (deep s) j) ->
  ~ In t l ->
  Forall2 (fun x d => Vec.get (deep s') x = Some d) l ds ->
  Forall2 (fun x d => Vec.get (deep s) x = Some d) l ds.
Proof.
  intros E Hn H. induction H as [|x d l ds Hx _ IH]; [constructor|].
  constructor.
  - rewrite <- E; [exact Hx|]. intros C. apply Hn. left. congruence.
  - apply IH. intros C. apply Hn. right. exact C.
Qed.

Lemma Blossom_absorb_spec (t : Z) (sh dt : list Z) (s s' : Matching) :
  Blossom_absorb t sh s = Ok (tt, s') ->
  Vec.get (deep s) t = Some dt ->
  s' = fput f_outer (outer s') (fput f_deep (deep s') s) /\
  (forall j, j <> t -> Vec.get (deep s') j = Vec.get (deep s) j) /\
  (forall j, Vec.get (outer s') j = Some t \/ Vec.get (outer s') j = Vec.get (outer s) j) /\
  (forall x, In x sh -> Vec.get (outer s') x = Some t) /\
  (~ In t sh ->
   exists ds, Forall2 (fun x d => Vec.get (deep s) x = Some d) sh ds /\
     Vec.get (deep s') t = Some (dt ++ concat ds) /\
     forall j, In j (concat ds) -> Vec.get (outer s') j = Some t).
Proof.
  unfold Blossom_absorb. revert s dt. induction sh as [|x r IH]; intros s dt H Hd; simpl in H.
  - apply ret_Ok in H. destruct H as [_ H]. subst s'.
    split; [destruct s; reflexivity|]. split; [reflexivity|].
    split; [right; reflexivity|]. split; [intros x []|].
    intros _. exists []. split; [constructor|]. simpl. rewrite app_nil_r.
    split; [exact Hd|intros j []].
  - apply bind_Ok in H. destruct H as [[] [s1 [Hb H]]].
    apply bind_Ok in Hb. destruct Hb as [[] [s0 [W Hb]]].
    apply wr_Ok in W. destruct W as [w [V E]]. subst s0. simpl in V.
    apply set_Some in V. destruct V as [_ [_ Gw]].
    apply bind_Ok in Hb. destruct Hb as [du [t0 [Hdu Hb]]].
    apply rd_Ok in Hdu. destruct Hdu as [Hdu E]. subst t0. simpl in Hdu.
    apply (absorb_inner t x du dt) in Hb; [|exact Hd].
    destruct Hb as [B1 [B2 [B3 [B4 B5]]]]. simpl in B1, B2, B3.
    apply (IH _ (dt ++ du)) in H; [|exact B4].
    destruct H as [A1 [A2 [A3 [A4 A5]]]].
    assert (Mono : forall j, Vec.get (outer s1) j = Some t -> Vec.get (outer s') j = Some t).
    { intros j Hj. destruct (A3 j) as [C|C]; [exact C|congruence]. }
    split; [rewrite A1, B1; reflexivity|].
    split; [intros j Hj; rewrite A2, B2 by exact Hj; reflexivity|].
    split.
    { intros j. destruct (A3 j) as [C|C]; [left; exact C|]. rewrite C.
      destruct (B3 j) as [D|D]; [left; exact D|]. rewrite D, Gw.
      destruct (Z.eqb_spec j x); [left; reflexivity|right; reflexivity]. }
    split.
    { intros y [Hy|Hy]; [|apply A4; exact Hy]. subst y. apply Mono.
      destruct (B3 x) as [D|D]; [exact D|]. rewrite D, Gw, Z.eqb_refl. reflexivity. }
    intros Hn.
    assert (Hx : x <> t) by (intros C; apply Hn; left; exact C).
    assert (Hr : ~ In t r) by (intros C; apply Hn; right; exact C).
    destruct (A5 Hr) as [ds [F [Dt Ho]]].
    exists (du :: ds). split.
    { constructor; [exact Hdu|]. exact (Forall2_deep_same _ _ t _ _ B2 Hr F). }
    split; [rewrite Dt; simpl; rewrite <- app_assoc; reflexivity|].
    intros j Hj. simpl in Hj. apply in_app_or in Hj. destruct Hj as [Hj|Hj].
    + apply Mono. apply B5. exact Hj.
    + apply Ho. exact Hj.
Qed.

(** *** [Blossom] as a whole *)

Lemma Blossom_spec (fuel : nat) (u v t : Z) (s s' : Matching) :
  Blossom G fuel u v s = Ok (t, s') ->
  exists tp ou ov lu lv isInPath,
    free s = free s' ++ [t] /\
    Vec.get (outer s) u = Some ou /\ Vec.get (outer s) v = Some ov /\
    Blossom_mark fuel u (Vec.make (2 * n) false) (set_free (free s') s)
      = Ok (isInPath, set_free (free s') s) /\
    Blossom_tip fuel ov isInPath (set_free (free s') s)
      = Ok (tp, set_free (free s') s) /\
    path_up s tp ou lu /\ path_up s tp ov lv /\
    Vec.get (tip s') t = Some tp /\
    Vec.get (shallow s') t = Some (tp :: rev lu ++ lv) /\
    Vec.get (active s') t = Some true /\
    Vec.get (type s') t = Some EVEN /\
    Vec.get (outer s') t = Some t /\
    Vec.get (forest s') t = Vec.get (forest s) tp /\
    Vec.get (root s') t = Vec.get (root s) tp /\
    Vec.get (mate s') t = Vec.get (mate s) tp /\
    (forall x, In x (tp :: rev lu ++ lv) -> Vec.get (outer s') x = Some t) /\
    (forall j, Vec.get (outer s') j = Some t \/ Vec.get (outer s') j = Vec.get (outer s) j) /\
    (~ In t (tp :: rev lu ++ lv) ->
     exists ds,
       Forall2 (fun x d => Vec.get (deep s) x = Some d) (tp :: rev lu ++ lv) ds /\
       Vec.get (deep s') t = Some (concat ds) /\
       forall j, In j (concat ds) -> Vec.get (outer s') j = Some t) /\
    outside_Blossom s' = outside_Blossom s /\
    (forall j, j <> t -> same_slot s s' j).
Proof.
  unfold Blossom. intros H.
  apply bind_Ok in H. destruct H as [t0 [s1 [Hf H]]].
  apply GetFreeBlossomIndex_Ok in Hf. destruct Hf as [Ef Es].
  apply bind_Ok in H. destruct H as [isInPath [x1 [Hmark H]]].
  pose proof (Blossom_mark_readonly _ _ _ _ _ _ Hmark) as E. subst x1.
  apply bind_Ok in H. destruct H as [ov [x1 [Hov H]]].
  apply rd_Ok in Hov. destruct Hov as [Hov E]. subst x1.
  apply bind_Ok in H. destruct H as [tp [x1 [Htip H]]].
  pose proof (Blossom_tip_readonly _ _ _ _ _ _ Htip) as E. subst x1.
  apply bind_Ok in H. destruct H as [[] [s2 [W H]]].
  apply wr_Ok in W. destruct W as [w2 [V2 E]]. subst s2.
  apply set_Some in V2. destruct V2 as [_ [_ G2]].
  apply bind_Ok in H. destruct H as [ou [x1 [Hou H]]].
  apply rd_Ok in Hou. destruct Hou as [Hou E]. subst x1.
  apply bind_Ok in H. destruct H as [c [x1 [Hc H]]].
  apply Blossom_circuit_spec in Hc. destruct Hc as [E [lu [Pu Ec]]]. subst x1.
  rewrite (circuit_shape _ _ _ _ Pu) in Ec. subst c.
  apply bind_Ok in H. destruct H as [[] [s3 [W H]]].
  apply wr_Ok in W. destruct W as [w3 [V3 E]]. subst s3.
  apply set_Some in V3. destruct V3 as [_ [_ G3]].
  apply bind_Ok in H. destruct H as [[] [s4 [W H]]].
  apply wr_Ok in W. destruct W as [w4 [V4 E]]. subst s4.
  apply set_Some in V4. destruct V4 as [_ [_ G4]].
  apply bind_Ok in H. destruct H as [[] [s5 [W H]]].
  apply wr_Ok in W. destruct W as [w5 [V5 E]]. subst s5.
  apply set_Some in V5. destruct V5 as [_ [_ G5]].
  apply bind_Ok in H. destruct H as [ov' [x1 [Hov' H]]].
  apply rd_Ok in Hov'. destruct Hov' as [Hov' E]. subst x1.
  state_simpl.
  rewrite Hov in Hov'. injection Hov' as Hov'. subst ov'.
  apply bind_Ok in H. destruct H as [[] [s6 [Htail H]]].
  apply (Blossom_tail_spec _ _ _ _ _ _ (tp :: rev lu)) in Htail.
  2:{ simpl. rewrite G5, Z.eqb_refl. reflexivity. }
  destruct Htail as [lv [Pv [T1 [T2 T3]]]]. simpl in T2, T3.
  apply bind_Ok in H. destruct H as [sh [x1 [Hsh H]]].
  apply rd_Ok in Hsh. destruct Hsh as [Hsh E]. subst x1. simpl in Hsh.
  rewrite T1 in Hsh. injection Hsh as Hsh. subst sh.
  apply bind_Ok in H. destruct H as [[] [s7 [Habs H]]].
  apply (Blossom_absorb_spec _ _ []) in Habs.
  2:{ rewrite T2. simpl. rewrite G4, Z.eqb_refl. reflexivity. }
  destruct Habs as [A1 [A2 [A3 [A4 A5]]]].
  apply bind_Ok in H. destruct H as [ft [x1 [Hft H]]].
  apply rd_Ok in Hft. destruct Hft as [Hft E]. subst x1.
  apply bind_Ok in H. destruct H as [[] [s8 [W H]]].
  apply wr_Ok in W. destruct W as [w8 [V8 E]]. subst s8.
  apply set_Some in V8. destruct V8 as [_ [_ G8]].
  apply bind_Ok in H. destruct H as [[] [s9 [W H]]].
  apply wr_Ok in W. destruct W as [w9 [V9 E]]. subst s9.
  apply set_Some in V9. destruct V9 as [_ [_ G9]].
  apply bind_Ok in H. destruct H as [rt [x1 [Hrt H]]].
  apply rd_Ok in Hrt. destruct Hrt as [Hrt E]. subst x1.
  apply bind_Ok in H. destruct H as [[] [s10 [W H]]].
  apply wr_Ok in W. destruct W as [w10 [V10 E]]. subst s10.
  apply set_Some in V10. destruct V10 as [_ [_ G10]].
  apply bind_Ok in H. destruct H as [[] [s11 [W H]]].
  apply wr_Ok in W. destruct W as [w11 [V11 E]]. subst s11.
  apply set_Some in V11. destruct V11 as [_ [_ G11]].
  apply bind_Ok in H. destruct H as [[] [s12 [W H]]].
  apply wr_Ok in W. destruct W as [w12 [V12 E]]. subst s12.
  apply set_Some in V12. destruct V12 as [_ [_ G12]].
  apply bind_Ok in H. destruct H as [mt [x1 [Hmt H]]].
  apply rd_Ok in Hmt. destruct Hmt as [Hmt E]. subst x1.
  apply bind_Ok in H. destruct H as [[] [s13 [W H]]].
  apply wr_Ok in W. destruct W as [w13 [V13 E]]. subst s13.
  apply set_Some in V13. destruct V13 as [_ [_ G13]].
  apply ret_Ok in H. destruct H as [Et H]. subst t0 s'.
  rewrite A1 in *. rewrite T2 in *. rewrite Es in *.
  state_simpl.
  exists tp, ou, ov, lu, lv, isInPath.
  split; [exact Ef|]. split; [exact Hou|]. split; [exact Hov|].
  split; [exact Hmark|]. split; [exact Htip|].
  split; [revert Pu; apply path_up_same; reflexivity|].
  split; [revert Pv; apply path_up_same; reflexivity|].
  split; [rewrite G2, Z.eqb_refl; reflexivity|].
  split; [exact T1|].
  split; [rewrite G11, Z.eqb_refl; reflexivity|].
  split; [rewrite G9, Z.eqb_refl; reflexivity|].
  split; [rewrite G12, Z.eqb_refl; reflexivity|].
  split; [rewrite G8, Z.eqb_refl; symmetry; exact Hft|].
  split; [rewrite G10, Z.eqb_refl; symmetry; exact Hrt|].
  split; [rewrite G13, Z.eqb_refl; symmetry; exact Hmt|].
  split.
  { intros x Hx. rewrite G12. destruct (Z.eqb_spec x t); [congruence|].
    apply A4. exact Hx. }
  split.
  { intros j. rewrite G12. destruct (Z.eqb_spec j t); [left; congruence|]. apply A3. }
  split.
  { intros Hn. destruct (A5 Hn) as [ds [F [Dt Ho]]]. exists ds. split.
    - clear - F G4 Hn.
      assert (K : forall l ds, ~ In t l ->
                Forall2 (fun x d => Vec.get w4 x = Some d) l ds ->
                Forall2 (fun x d => Vec.get (deep s) x = Some d) l ds).
      { intros l ds0 Hl H. induction H as [|x d l ds0 Hx _ IH]; [constructor|].
        constructor.
        - rewrite G4 in Hx. destruct (Z.eqb_spec x t); [|exact Hx].
          exfalso. apply Hl. left. congruence.
        - apply IH. intros C. apply Hl. right. exact C. }
      apply K; assumption.
    - split; [exact Dt|]. intros j Hj. rewrite G12.
      destruct (Z.eqb_spec j t); [congruence|]. apply Ho. exact Hj. }
  split; [reflexivity|].
  intros j Hj. unfold same_slot. state_simpl.
  rewrite G2, (T3 j Hj), G5, G3, (A2 j Hj), G4, G11, G9, G8, G10, G13.
  destruct (Z.eqb_spec j t); [contradiction|]. repeat split; reflexivity.
Qed.

(** X19.  [Blossom(u, v)] takes the last free index [t] and returns it.
    With [tp] the tip that it finds, the members of [t] are [tp], then the
    forest path from [tp] down to [outer[u]], then the forest path from
    [outer[v]] up to the blossom below [tp].  The new blossom is active and
    EVEN, it is its own outer blossom and takes the forest parent, the root
    and the mate of its tip; every member has [outer = t], and no other
    [outer] entry changes but to [t].  When [t] is not one of the members,
    [deep[t]] is the concatenation of the [deep] lists of the members, in
    their order, and every vertex in it has [outer = t].  Nothing else
    changes: not the other slots, not [blocked], the duals or the slacks. *)
Theorem Blossom_contracts_circuit (fuel : nat) (u v t : Z) (s s' : Matching) :
  Blossom G fuel u v s = Ok (t, s') ->
  exists tp ou ov lu lv,
    free s = free s' ++ [t] /\
    Vec.get (outer s) u = Some ou /\ Vec.get (outer s) v = Some ov /\
    path_up s tp ou lu /\ path_up s tp ov lv /\
    Vec.get (tip s') t = Some tp /\
    Vec.get (shallow s') t = Some (tp :: rev lu ++ lv) /\
    Vec.get (active s') t = Some true /\
    Vec.get (type s') t = Some EVEN /\
    Vec.get (outer s') t = Some t /\
    Vec.get (forest s') t = Vec.get (forest s) tp /\
    Vec.get (root s') t = Vec.get (root s) tp /\
    Vec.get (mate s') t = Vec.get (mate s) tp /\
    (forall x, In x (tp :: rev lu ++ lv) -> Vec.get (outer s') x = Some t) /\
    (forall j, Vec.get (outer s') j = Some t \/ Vec.get (outer s') j = Vec.get (outer s) j) /\
    (~ In t (tp :: rev lu ++ lv) ->
     exists ds,
       Forall2 (fun x d => Vec.get (deep s) x = Some d) (tp :: rev lu ++ lv) ds /\
       Vec.get (deep s') t = Some (concat ds) /\
       forall j, In j (concat ds) -> Vec.get (outer s') j = Some t) /\
    outside_Blossom s' = outside_Blossom s /\
    (forall j, j <> t -> same_slot s s' j).
Proof.
  intros H. apply Blossom_spec in H.
  destruct H as [tp [ou [ov [lu [lv [isInPath [H1 [H2 [H3 [_ [_ H]]]]]]]]]]].
  exists tp, ou, ov, lu, lv. split; [exact H1|]. split; [exact H2|]. split; [exact H3|].
  exact H.
Qed.

(** *** The members are distinct *)

Lemma get_minus_one (A : Type) (v : list A) : Vec.get v (-1) = None.
Proof. reflexivity. Qed.

Lemma path_up_unique (s : Matching) (tp x : Z) (l1 l2 : list Z) :
  path_up s tp x l1 -> path_up s tp x l2 -> l1 = l2.
Proof.
  intros H. revert l2. induction H as [|x f p l Hx Hf Ho _ IH]; intros l2 H2.
  - inversion H2; subst; [reflexivity|contradiction].
  - inversion H2 as [|x' f' p' l' Hx' Hf' Ho' Hp']; subst; [contradiction|].
    rewrite Hf in Hf'. injection Hf' as Hf'. subst f'.
    rewrite Ho in Ho'. injection Ho' as Ho'. subst p'.
    f_equal. apply IH. exact Hp'.
Qed.

Lemma root_path_unique (s : Matching) (x : Z) (l1 l2 : list Z) :
  root_path s x l1 -> root_path s x l2 -> l1 = l2.
Proof.
  intros H. revert l2. induction H as [x Hf|x f p l Hf Hn Ho _ IH]; intros l2 H2.
  - inversion H2 as [x' Hf'|x' f' p' l' Hf' Hn' Ho' Hp']; subst; [reflexivity|].
    rewrite Hf in Hf'. injection Hf' as Hf'. congruence.
  - inversion H2 as [x' Hf'|x' f' p' l' Hf' Hn' Ho' Hp']; subst.
    + rewrite Hf in Hf'. injection Hf' as Hf'. congruence.
    + rewrite Hf in Hf'. injection Hf' as Hf'. subst f'.
      rewrite Ho in Ho'. injection Ho' as Ho'. subst p'.
      f_equal. apply IH. exact Hp'.
Qed.

Lemma path_up_suffix (s : Matching) (tp x y : Z) (l : list Z) :
  path_up s tp x l -> In y l ->
  exists l', path_up s tp y l' /\ (length l' <= length l)%nat.
Proof.
  intros H. induction H as [|x f p l Hx Hf Ho Hp IH]; intros Hy; [destruct Hy|].
  destruct Hy as [Hy|Hy].
  - subst y. exists (x :: l). split; [exact (path_up_step s tp x f p l Hx Hf Ho Hp)|lia].
  - destruct (IH Hy) as [l' [P L]]. exists l'. split; [exact P|simpl; lia].
Qed.

Lemma path_up_NoDup (s : Matching) (tp x : Z) (l : list Z) :
  path_up s tp x l -> NoDup l.
Proof.
  intros H. induction H as [|x f p l Hx Hf Ho Hp IH]; [constructor|].
  constructor; [|exact IH]. intros C.
  destruct (path_up_suffix _ _ _ _ _ Hp C) as [l' [P L]].
  pose proof (path_up_unique _ _ _ _ _ P (path_up_step s tp x f p l Hx Hf Ho Hp)) as E.
  subst l'. simpl in L. lia.
Qed.

Lemma root_path_suffix (s : Matching) (x y : Z) (l : list Z) :
  root_path s x l -> In y l ->
  exists l', root_path s y l' /\ (length l' <= length l)%nat.
Proof.
  intros H. induction H as [x Hf|x f p l Hf Hn Ho Hp IH]; intros Hy.
  - destruct Hy as [Hy|[]]. subst y. exists [x]. split; [constructor; exact Hf|lia].
  - destruct Hy as [Hy|Hy].
    + subst y. exists (x :: l).
      split; [exact (root_path_step s x f p l Hf Hn Ho Hp)|lia].
    + destruct (IH Hy) as [l' [P L]]. exists l'. split; [exact P|simpl; lia].
Qed.

Lemma root_path_NoDup (s : Matching) (x : Z) (l : list Z) : root_path s x l -> NoDup l.
Proof.
  intros H. induction H as [x Hf|x f p l Hf Hn Ho Hp IH].
  - constructor; [intros []|constructor].
  - constructor; [|exact IH]. intros C.
    destruct (root_path_suffix _ _ _ _ Hp C) as [l' [P L]].
    pose proof (root_path_unique _ _ _ _ P (root_path_step s x f p l Hf Hn Ho Hp)) as E.
    subst l'. simpl in L. lia.
Qed.

Lemma root_path_same (s s' : Matching) (x : Z) (l : list Z) :
  forest s' = forest s -> outer s' = outer s -> root_path s x l -> root_path s' x l.
Proof.
  intros Ef Eo H. induction H as [x Hf|x f p l Hf Hn Ho _ IH].
  - constructor. rewrite Ef. exact Hf.
  - apply (root_path_step s' x f p l); [rewrite Ef; exact Hf|exact Hn
                                       |rewrite Eo; exact Ho|exact IH].
Qed.

(** The chain to the root passes through the tip. *)
Lemma path_up_prefix (s : Matching) (tp x : Z) (lu l : list Z) :
  path_up s tp x lu -> root_path s x l ->
  exists l', l = lu ++ l' /\ root_path s tp l'.
Proof.
  intros H. revert l. induction H as [|x f p lu Hx Hf Ho _ IH]; intros l Hr.
  - exists l. split; [reflexivity|exact Hr].
  - inversion Hr as [x' Hf'|x' f' p' l0 Hf' Hn' Ho' Hp']; subst.
    + rewrite Hf in Hf'. injection Hf' as Hf'. subst f.
      rewrite get_minus_one in Ho. discriminate Ho.
    + rewrite Hf in Hf'. injection Hf' as Hf'. subst f'.
      rewrite Ho in Ho'. injection Ho' as Ho'. subst p'.
      destruct (IH _ Hp') as [l' [E R]]. exists l'. split; [rewrite E; reflexivity|exact R].
Qed.

Lemma root_path_head (s : Matching) (x : Z) (l : list Z) : root_path s x l -> In x l.
Proof. intros H. inversion H; subst; left; reflexivity. Qed.

(** [Blossom_mark] marks the chain from [outer[u_]] to the root, and
    nothing else. *)
Lemma Blossom_mark_spec (k : nat) (u_ : Z) (isInPath r : list bool) (s s' : Matching) :
  Blossom_mark k u_ isInPath s = Ok (r, s') -> u_ <> -1 ->
  exists o l, Vec.get (outer s) u_ = Some o /\ root_path s o l /\
    (forall x, In x l -> Vec.get r x = Some true) /\
    (forall x, Vec.get isInPath x = Some true -> Vec.get r x = Some true) /\
    (forall x, Vec.get r x = Some true -> In x l \/ Vec.get isInPath x = Some true).
Proof.
  revert u_ isInPath. induction k as [|k IH]; intros u_ isInPath H Hu; simpl in H.
  - destruct (Z.eqb_spec u_ (-1)); [contradiction|discriminate H].
  - destruct (Z.eqb_spec u_ (-1)); [contradiction|].
    apply bind_Ok in H. destruct H as [o [t [Ho H]]].
    apply rd_Ok in Ho. destruct Ho as [Ho E]. subst t. simpl in Ho.
    destruct (Vec.set isInPath o true) as [isIn'|] eqn:Eset; [|discriminate H].
    apply set_Some in Eset. destruct Eset as [_ [_ Gs]].
    apply bind_Ok in H. destruct H as [u' [t [Hf H]]].
    apply rd_Ok in Hf. destruct Hf as [Hf E]. subst t. simpl in Hf.
    destruct (Z.eq_dec u' (-1)) as [E1|E1].
    + subst u'. destruct k; simpl in H; apply ret_Ok in H; destruct H as [E2 _]; subst r;
        (exists o, [o]; split; [exact Ho|]; split; [constructor; exact Hf|];
         split; [intros x [Hx|[]]; subst x; rewrite Gs, Z.eqb_refl; reflexivity|];
         split; [intros x Hx; rewrite Gs; destruct (x =? o); [reflexivity|exact Hx]|];
         intros x Hx; rewrite Gs in Hx; destruct (Z.eqb_spec x o);
           [left; left; congruence|right; exact Hx]).
    + destruct (IH _ _ H E1) as [p [l [Hp [Hr [A1 [A2 A3]]]]]].
      exists o, (o :: l). split; [exact Ho|].
      split; [exact (root_path_step s o u' p l Hf E1 Hp Hr)|].
      split.
      { intros x [Hx|Hx]; [|apply A1; exact Hx]. subst x. apply A2.
        rewrite Gs, Z.eqb_refl. reflexivity. }
      split.
      { intros x Hx. apply A2. rewrite Gs. destruct (x =? o); [reflexivity|exact Hx]. }
      intros x Hx. destruct (A3 x Hx) as [C|C]; [left; right; exact C|].
      rewrite Gs in C. destruct (Z.eqb_spec x o); [left; left; congruence|right; exact C].
Qed.

(** [Blossom_tip] climbs from [v_] to the first marked index. *)
Lemma Blossom_tip_spec (k : nat) (v_ tp : Z) (isInPath : list bool) (s s' : Matching) :
  Blossom_tip k v_ isInPath s = Ok (tp, s') ->
  Vec.get isInPath tp = Some true /\
  exists l, path_up s tp v_ l /\ forall x, In x l -> Vec.get isInPath x = Some false.
Proof.
  revert v_. induction k as [|k IH]; intros v_ H; simpl in H.
  - destruct (Vec.get isInPath v_) as [[|]|] eqn:E; try discriminate H.
    apply ret_Ok in H. destruct H as [E1 _]. subst v_.
    split; [exact E|]. exists []. split; [constructor|intros x []].
  - destruct (Vec.get isInPath v_) as [[|]|] eqn:E; try discriminate H.
    + apply ret_Ok in H. destruct H as [E1 _]. subst v_.
      split; [exact E|]. exists []. split; [constructor|intros x []].
    + apply bind_Ok in H. destruct H as [f [t [Hf H]]].
      apply rd_Ok in Hf. destruct Hf as [Hf E1]. subst t. simpl in Hf.
      apply bind_Ok in H. destruct H as [v' [t [Hv H]]].
      apply rd_Ok in Hv. destruct Hv as [Hv E1]. subst t. simpl in Hv.
      destruct (IH _ H) as [Ht [l [P A]]]. split; [exact Ht|].
      exists (v_ :: l). split.
      * apply (path_up_step s tp v_ f v' l); [congruence|exact Hf|exact Hv|exact P].
      * intros x [Hx|Hx]; [subst x; exact E|apply A; exact Hx].
Qed.

Lemma make_false (k x : Z) : Vec.get (Vec.make k false) x <> Some true.
Proof.
  unfold Vec.get, Vec.make. destruct (x <? 0); [discriminate|].
  intros H. apply nth_error_In in H. apply repeat_spec in H. discriminate H.
Qed.

(** X20.  The members of the blossom that [Blossom(u, v)] creates are
    pairwise distinct, and its tip is the first common ancestor of the two
    ends: with [lr] the chain from [outer[u]] to the root of its tree, the
    tip lies on [lr], the members from the tip down to [outer[u]] lie on
    [lr], and none of the members on the side of [v] does. *)
Theorem Blossom_members_are_distinct (fuel : nat) (u v t : Z) (s s' : Matching) :
  Blossom G fuel u v s = Ok (t, s') ->
  exists tp ou ov lu lv lr,
    Vec.get (outer s) u = Some ou /\ Vec.get (outer s) v = Some ov /\
    Vec.get (tip s') t = Some tp /\
    Vec.get (shallow s') t = Some (tp :: rev lu ++ lv) /\
    NoDup (tp :: rev lu ++ lv) /\
    path_up s tp ou lu /\ path_up s tp ov lv /\ root_path s ou lr /\
    In tp lr /\ (forall x, In x lu -> In x lr) /\ (forall x, In x lv -> ~ In x lr).
Proof.
  intros H. apply Blossom_spec in H.
  destruct H as [tp [ou [ov [lu [lv [isInPath
    [_ [Hou [Hov [Hmark [Htip [Pu [Pv [Ht [Hsh _]]]]]]]]]]]]]]].
  assert (Hu : u <> -1).
  { apply get_Some_range in Hou. lia. }
  apply Blossom_mark_spec in Hmark; [|exact Hu].
  destruct Hmark as [o [lr [Ho [Hr [M1 [_ M3]]]]]]. state_simpl.
  rewrite Hou in Ho. injection Ho as Ho. subst o.
  apply (root_path_same _ s) in Hr; [|reflexivity|reflexivity].
  apply Blossom_tip_spec in Htip. destruct Htip as [Mt [lv' [Pv' Hun]]].
  apply (path_up_same _ s) in Pv'; [|reflexivity|reflexivity].
  pose proof (path_up_unique _ _ _ _ _ Pv Pv') as E. subst lv'.
  destruct (path_up_prefix _ _ _ _ _ Pu Hr) as [l' [El Rt]].
  pose proof (root_path_NoDup _ _ _ Hr) as ND. rewrite El in ND.
  assert (Itp : In tp lr).
  { rewrite El. apply in_or_app. right. exact (root_path_head _ _ _ Rt). }
  assert (Ilu : forall x, In x lu -> In x lr).
  { intros x Hx. rewrite El. apply in_or_app. left. exact Hx. }
  assert (Ilv : forall x, In x lv -> ~ In x lr).
  { intros x Hx C. apply M1 in C. rewrite (Hun x Hx) in C. discriminate C. }
  exists tp, ou, ov, lu, lv, lr.
  split; [exact Hou|]. split; [exact Hov|]. split; [exact Ht|]. split; [exact Hsh|].
  split.
  { constructor.
    - intros C. apply in_app_or in C. destruct C as [C|C].
      + apply in_rev in C.
        assert (El' : exists l2, l' = tp :: l2).
        { inversion Rt; subst; eexists; reflexivity. }
        destruct El' as [l2 El']. rewrite El' in ND.
        apply NoDup_remove_2 in ND. apply ND. apply in_or_app. left. exact C.
      + exact (Ilv tp C Itp).
    - apply NoDup_app.
      + apply NoDup_rev. exact (NoDup_app_remove_r _ _ ND).
      + exact (path_up_NoDup _ _ _ _ Pv).
      + intros x Hx C. apply in_rev in Hx. exact (Ilv x C (Ilu x Hx)). }
  split; [exact Pu|]. split; [exact Pv|]. split; [exact Hr|].
  split; [exact Itp|]. split; [exact Ilu|exact Ilv].
Qed.

End Contraction.

(** *** On runs *)

Lemma Blossom_contracts_circuit_witness :
  exists tp lu lv,
    Vec.get (shallow (exec (Blossom G_triangle 10 0 2) triangle_forest)) 5
      = Some (tp :: rev lu ++ lv) /\
    Vec.get (tip (exec (Blossom G_triangle 10 0 2) triangle_forest)) 5 = Some tp /\
    Vec.get (mate (exec (Blossom G_triangle 10 0 2) triangle_forest)) 5
      = Vec.get (mate triangle_forest) tp.
Proof.
  assert (H : Blossom G_triangle 10 0 2 triangle_forest
              = Ok (5, exec (Blossom G_triangle 10 0 2) triangle_forest))
    by (vm_compute; reflexivity).
  destruct (Blossom_contracts_circuit G_triangle 10 0 2 5 _ _ H)
    as [tp [ou [ov [lu [lv [_ [_ [_ [_ [_ [A [B [_ [_ [_ [_ [_ [C _]]]]]]]]]]]]]]]]]].
  exists tp, lu, lv. split; [exact B|]. split; [exact A|exact C].
Defined.

Lemma Blossom_members_are_distinct_witness :
  exists l, Vec.get (shallow (exec (Blossom G_triangle 10 0 2) triangle_forest)) 5 = Some l /\
            NoDup l.
Proof.
  assert (H : Blossom G_triangle 10 0 2 triangle_forest
              = Ok (5, exec (Blossom G_triangle 10 0 2) triangle_forest))
    by (vm_compute; reflexivity).
  destruct (Blossom_members_are_distinct G_triangle 10 0 2 5 _ _ H)
    as [tp [ou [ov [lu [lv [lr [_ [_ [_ [A [B _]]]]]]]]]]].
  exists (tp :: rev lu ++ lv). split; [exact A|exact B].
Defined.

(** ** Who writes the costs *)

Section Costs.

Variable EPSILON : float.
Variable G : Graph.

Local Abbreviation n := (Gr.GetNumVertices G).
Local Abbreviation m := (Gr.GetNumEdges G).

Ltac frame p known :=
  pres_with (@same_on_refl _ p) (@same_on_trans _ p) ltac:(reflexivity) known.

Lemma costs_of_flag (A : Type) (c : M A) :
  preserves (same_on costs_and_flag) c -> preserves (same_on costs) c.
Proof.
  intros H s a s' E. specialize (H s a s' E). unfold same_on, costs_and_flag, costs in *.
  congruence.
Qed.

Lemma costs_DestroyBlossom (fuel : nat) (t : Z) :
  preserves (same_on costs) (DestroyBlossom EPSILON G fuel t).
Proof. apply costs_of_flag. apply frame_DestroyBlossom. Qed.

Lemma costs_Expand (fuel : nat) (u : Z) (b : bool) :
  preserves (same_on costs) (Expand EPSILON G fuel u b).
Proof. apply costs_of_flag. apply frame_Expand. Qed.

Lemma costs_RetrieveMatching (fuel : nat) :
  preserves (same_on costs) (RetrieveMatching EPSILON G fuel).
Proof. apply costs_of_flag. apply frame_RetrieveMatching. Qed.

Lemma costs_Augment_pair (fuel : nat) (p q : Z) :
  preserves (same_on costs) (Augment_pair EPSILON G fuel p q).
Proof. unfold Augment_pair. frame costs ltac:(apply costs_Expand). Qed.

Lemma costs_Augment_walk (fuel k : nat) (p fp : Z) :
  preserves (same_on costs) (Augment_walk EPSILON G fuel k p fp).
Proof.
  revert p fp. induction k as [|k IH]; intros p fp; simpl;
    frame costs ltac:(first [apply IH|apply costs_Augment_pair]).
Qed.

Lemma costs_Augment (fuel : nat) (u v : Z) :
  preserves (same_on costs) (Augment EPSILON G fuel u v).
Proof.
  unfold Augment.
  frame costs ltac:(first [apply costs_Augment_pair|apply costs_Augment_walk]).
Qed.

Lemma costs_Reset (fuel : nat) : preserves (same_on costs) (Reset EPSILON G fuel).
Proof. unfold Reset, Reset_roots. frame costs ltac:(apply costs_DestroyBlossom). Qed.

Lemma costs_Blossom_mark (k : nat) (u_ : Z) (isInPath : list bool) :
  preserves (same_on costs) (Blossom_mark k u_ isInPath).
Proof.
  revert u_ isInPath. induction k as [|k IH]; intros u_ isInPath; simpl;
    frame costs ltac:(apply IH).
Qed.

Lemma costs_Blossom_tip (k : nat) (v_ : Z) (isInPath : list bool) :
  preserves (same_on costs) (Blossom_tip k v_ isInPath).
Proof.
  revert v_. induction k as [|k IH]; intros v_; simpl; frame costs ltac:(apply IH).
Qed.

Lemma costs_Blossom_circuit (k : nat) (u_ tp : Z) (circuit : list Z) :
  preserves (same_on costs) (Blossom_circuit k u_ tp circuit).
Proof.
  revert u_ circuit. induction k as [|k IH]; intros u_ circuit; simpl;
    frame costs ltac:(apply IH).
Qed.

Lemma costs_Blossom_tail (k : nat) (t v_ tp : Z) :
  preserves (same_on costs) (Blossom_tail k t v_ tp).
Proof.
  revert v_. induction k as [|k IH]; intros v_; simpl; frame costs ltac:(apply IH).
Qed.

Lemma costs_Blossom (fuel : nat) (u v : Z) :
  preserves (same_on costs) (Blossom G fuel u v).
Proof.
  unfold Blossom, GetFreeBlossomIndex, Blossom_absorb.
  frame costs ltac:(first [apply costs_Blossom_mark|apply costs_Blossom_tip
                          |apply costs_Blossom_circuit|apply costs_Blossom_tail]).
Qed.

Lemma costs_Grow_adj (fuel : nat) (u : Z) (adj : list Z) :
  preserves (same_on costs) (Grow_adj EPSILON G fuel u adj).
Proof.
  induction adj as [|v rest IH]; simpl.
  - apply (@preserves_ret _ (@same_on_refl _ costs)).
  - unfold IsEdgeBlocked2, Grow_extend.
    frame costs ltac:(first [apply IH|apply costs_Augment|apply costs_Reset
                            |apply costs_Blossom]).
Qed.

Lemma costs_Grow_deep (fuel : nat) (dw : list Z) :
  preserves (same_on costs) (Grow_deep EPSILON G fuel dw).
Proof.
  induction dw as [|u rest IH]; simpl.
  - apply (@preserves_ret _ (@same_on_refl _ costs)).
  - frame costs ltac:(first [apply IH|apply costs_Grow_adj]).
Qed.

Lemma costs_Grow_forest (fuel k : nat) :
  preserves (same_on costs) (Grow_forest EPSILON G fuel k).
Proof.
  induction k as [|k IH]; simpl;
    frame costs ltac:(first [apply IH|apply costs_Grow_deep]).
Qed.

Lemma costs_Grow (fuel : nat) : preserves (same_on costs) (Grow EPSILON G fuel).
Proof.
  unfold Grow, check_perfect.
  frame costs ltac:(first [apply costs_Reset|apply costs_Grow_forest]).
Qed.

Lemma costs_Heuristic : preserves (same_on costs) (Heuristic EPSILON G).
Proof.
  unfold Heuristic, Heuristic_degrees, Heuristic_visit, Heuristic_pick, IsEdgeBlocked,
    IsEdgeBlocked2.
  frame costs idtac.
Qed.

Lemma costs_eq (s s' : Matching) :
  same_on costs s s' -> slack s' = slack s /\ dual s' = dual s.
Proof. unfold same_on, costs. intros H. inversion H. split; reflexivity. Qed.

(** X21.  Only [Clear], the copy [slack = cost], [PositiveCosts] and
    [UpdateDualCosts] write a slack or a dual: [Heuristic], [Grow], [Reset],
    [Augment], [Blossom], [Expand], [DestroyBlossom] and [RetrieveMatching]
    leave both vectors as they are.  So [SolveMaximumMatching], which calls
    none of the former but [Clear], returns with every slack and every dual
    equal to [0]. *)
Theorem only_the_dual_update_moves_costs (fuel : nat) (s s' : Matching) :
  (Heuristic EPSILON G s = Ok (tt, s') -> slack s' = slack s /\ dual s' = dual s) /\
  (Grow EPSILON G fuel s = Ok (tt, s') -> slack s' = slack s /\ dual s' = dual s) /\
  (Reset EPSILON G fuel s = Ok (tt, s') -> slack s' = slack s /\ dual s' = dual s) /\
  (forall u v, Augment EPSILON G fuel u v s = Ok (tt, s') ->
     slack s' = slack s /\ dual s' = dual s) /\
  (forall u v t, Blossom G fuel u v s = Ok (t, s') ->
     slack s' = slack s /\ dual s' = dual s) /\
  (forall u b, Expand EPSILON G fuel u b s = Ok (tt, s') ->
     slack s' = slack s /\ dual s' = dual s) /\
  (forall t, DestroyBlossom EPSILON G fuel t s = Ok (tt, s') ->
     slack s' = slack s /\ dual s' = dual s) /\
  (forall l, RetrieveMatching EPSILON G fuel s = Ok (l, s') ->
     slack s' = slack s /\ dual s' = dual s) /\
  (sized G s -> forall l, SolveMaximumMatching EPSILON G fuel s = Ok (l, s') ->
     slack s' = Vec.make m 0%float /\
     forall i, 0 <= i < 2 * n -> Vec.get (dual s') i = Some 0%float).
Proof.
  split; [intros H; apply costs_eq; exact (costs_Heuristic _ _ _ H)|].
  split; [intros H; apply costs_eq; exact (costs_Grow fuel _ _ _ H)|].
  split; [intros H; apply costs_eq; exact (costs_Reset fuel _ _ _ H)|].
  split; [intros u v H; apply costs_eq; exact (costs_Augment fuel u v _ _ _ H)|].
  split; [intros u v t H; apply costs_eq; exact (costs_Blossom fuel u v _ _ _ H)|].
  split; [intros u b H; apply costs_eq; exact (costs_Expand fuel u b _ _ _ H)|].
  split; [intros t H; apply costs_eq; exact (costs_DestroyBlossom fuel t _ _ _ H)|].
  split; [intros l H; apply costs_eq; exact (costs_RetrieveMatching fuel _ _ _ H)|].
  intros Hs l H. unfold SolveMaximumMatching in H.
  destruct (Clear_run G s Hs) as [c [Hc [_ [[_ Cl] [Sl _]]]]].
  rewrite (@bind_step _ _ _ _ _ _ _ Hc) in H.
  apply bind_Ok in H. destruct H as [[] [g [Hg H]]].
  apply costs_Grow in Hg. apply costs_eq in Hg. destruct Hg as [G1 G2].
  apply costs_RetrieveMatching in H. apply costs_eq in H. destruct H as [R1 R2].
  split; [congruence|].
  intros i Hi. rewrite R2, G2. destruct (Cl i Hi) as [_ [_ [_ [_ [_ [_ [_ [_ [D _]]]]]]]]].
  exact D.
Qed.

(** *** What [Grow] leaves *)

Lemma Grow_forest_empties (fuel k : nat) (s s' : Matching) :
  Grow_forest EPSILON G fuel k s = Ok (tt, s') -> forestList s' = [].
Proof.
  revert s. induction k as [|k IH]; intros s H; simpl in H.
  - rewrite bind_gets in H. destruct (forestList s) eqn:E; [|discriminate H].
    apply ret_Ok in H. destruct H as [_ H]. subst s'. exact E.
  - rewrite bind_gets in H. destruct (forestList s) as [|x rest] eqn:E.
    + apply ret_Ok in H. destruct H as [_ H]. subst s'. exact E.
    + apply bind_Ok in H. destruct H as [w [t [_ H]]].
      apply bind_Ok in H. destruct H as [[] [t1 [_ H]]].
      apply bind_Ok in H. destruct H as [dw [t2 [_ H]]].
      apply bind_Ok in H. destruct H as [[] [t3 [_ H]]].
      exact (IH _ H).
Qed.

Lemma check_perfect_keeps_forestList :
  preserves (same_on forestList) (check_perfect G).
Proof. unfold check_perfect. frame forestList idtac. Qed.

(** X4.  When [Grow] returns, no root is left to be processed
    ([forestList] is empty), and the flag [perfect] is false exactly when
    some vertex [i < n] lies in an outer blossom without mate
    ([mate[outer[i]] = -1]). *)
Theorem Grow_decides_perfect (fuel : nat) (s s' : Matching) :
  Grow EPSILON G fuel s = Ok (tt, s') ->
  forestList s' = [] /\
  (perfect s' = false <-> exists i, 0 <= i < n /\ unmatched s' i).
Proof.
  intros H. split; [|exact (Grow_perfect EPSILON G fuel s s' H)].
  unfold Grow in H.
  apply bind_Ok in H. destruct H as [[] [s1 [_ H]]].
  apply bind_Ok in H. destruct H as [[] [s2 [H2 H]]].
  apply Grow_forest_empties in H2.
  apply check_perfect_keeps_forestList in H. unfold same_on in H. congruence.
Qed.

End Costs.

(** *** On runs *)

Lemma Grow_decides_perfect_witness :
  perfect pennant_grown = false /\
  exists i, 0 <= i < 4 /\ unmatched pennant_grown i.
Proof.
  assert (H : Grow eps10 G_pennant 20
                (exec (iterations eps10 G_pennant 20 2 ;; Heuristic eps10 G_pennant)
                      pennant_entry) = Ok (tt, pennant_grown))
    by (vm_compute; reflexivity).
  assert (P : perfect pennant_grown = false) by (vm_compute; reflexivity).
  split; [exact P|].
  apply (proj1 (proj2 (Grow_decides_perfect eps10 G_pennant 20 _ _ H)) P).
Defined.

(** ** Positive duals are blocked *)

Section PositiveDuals.

Variable EPSILON : float.
Variable G : Graph.

Local Abbreviation n := (Gr.GetNumVertices G).
Local Abbreviation m := (Gr.GetNumEdges G).

Variable dual0 : list float.
Variable P : Z -> Prop.

Local Abbreviation inv := (kept_blocked EPSILON dual0 P).

Ltac inv_pres known :=
  pres_with (@keeps_refl inv) (@keeps_trans inv) ltac:(intros K0; exact K0) known.

Lemma inv_DestroyBlossom (fuel : nat) (t : Z) :
  preserves (keeps inv) (DestroyBlossom EPSILON G fuel t).
Proof. apply DestroyBlossom_keeps_blocked. Qed.

Lemma inv_Expand_rotate (fuel : nat) (u p : Z) :
  preserves (keeps inv) (Expand_rotate fuel u p).
Proof.
  revert u p. induction fuel as [|fuel IH]; intros u p; simpl.
  - apply preserves_out_of_fuel.
  - inv_pres ltac:(apply IH).
Qed.

Lemma inv_Expand_pairs (l : list Z) : preserves (keeps inv) (Expand_pairs l).
Proof.
  assert (H : forall k l, (length l <= k)%nat -> preserves (keeps inv) (Expand_pairs l)).
  { clear l. induction k as [|k IH]; intros l Hl.
    - destruct l; [apply (@preserves_ret _ (@keeps_refl inv))|simpl in Hl; lia].
    - destruct l as [|a [|b r]]; simpl.
      + apply (@preserves_ret _ (@keeps_refl inv)).
      + apply preserves_undefined.
      + inv_pres ltac:(apply IH; simpl in Hl; lia). }
  apply (H (length l)). lia.
Qed.

Lemma inv_Expand (fuel : nat) (u : Z) (b : bool) :
  preserves (keeps inv) (Expand EPSILON G fuel u b).
Proof.
  revert u b. induction fuel as [|fuel IH]; intros u b; simpl.
  - apply preserves_out_of_fuel.
  - unfold Expand_remate, release_members, AddFreeBlossomIndex.
    inv_pres ltac:(first [apply IH|apply inv_Expand_rotate|apply inv_Expand_pairs]).
Qed.

Lemma inv_Augment_pair (fuel : nat) (p q : Z) :
  preserves (keeps inv) (Augment_pair EPSILON G fuel p q).
Proof. unfold Augment_pair. inv_pres ltac:(apply inv_Expand). Qed.

Lemma inv_Augment_walk (fuel k : nat) (p fp : Z) :
  preserves (keeps inv) (Augment_walk EPSILON G fuel k p fp).
Proof.
  revert p fp. induction k as [|k IH]; intros p fp; simpl;
    inv_pres ltac:(first [apply IH|apply inv_Augment_pair]).
Qed.

Lemma inv_Augment (fuel : nat) (u v : Z) :
  preserves (keeps inv) (Augment EPSILON G fuel u v).
Proof.
  unfold Augment. inv_pres ltac:(first [apply inv_Augment_pair|apply inv_Augment_walk]).
Qed.

Lemma inv_Reset (fuel : nat) : preserves (keeps inv) (Reset EPSILON G fuel).
Proof. unfold Reset, Reset_roots. inv_pres ltac:(apply inv_DestroyBlossom). Qed.

Lemma inv_Blossom_mark (k : nat) (u_ : Z) (isInPath : list bool) :
  preserves (keeps inv) (Blossom_mark k u_ isInPath).
Proof.
  revert u_ isInPath. induction k as [|k IH]; intros u_ isInPath; simpl;
    inv_pres ltac:(apply IH).
Qed.

Lemma inv_Blossom_tip (k : nat) (v_ : Z) (isInPath : list bool) :
  preserves (keeps inv) (Blossom_tip k v_ isInPath).
Proof.
  revert v_. induction k as [|k IH]; intros v_; simpl; inv_pres ltac:(apply IH).
Qed.

Lemma inv_Blossom_circuit (k : nat) (u_ tp : Z) (circuit : list Z) :
  preserves (keeps inv) (Blossom_circuit k u_ tp circuit).
Proof.
  revert u_ circuit. induction k as [|k IH]; intros u_ circuit; simpl;
    inv_pres ltac:(apply IH).
Qed.

Lemma inv_Blossom_tail (k : nat) (t v_ tp : Z) :
  preserves (keeps inv) (Blossom_tail k t v_ tp).
Proof.
  revert v_. induction k as [|k IH]; intros v_; simpl; inv_pres ltac:(apply IH).
Qed.

Lemma inv_Blossom (fuel : nat) (u v : Z) : preserves (keeps inv) (Blossom G fuel u v).
Proof.
  unfold Blossom, GetFreeBlossomIndex, Blossom_absorb.
  inv_pres ltac:(first [apply inv_Blossom_mark|apply inv_Blossom_tip
                       |apply inv_Blossom_circuit|apply inv_Blossom_tail]).
Qed.

Lemma inv_Grow_adj (fuel : nat) (u : Z) (adj : list Z) :
  preserves (keeps inv) (Grow_adj EPSILON G fuel u adj).
Proof.
  induction adj as [|v rest IH]; simpl.
  - apply (@preserves_ret _ (@keeps_refl inv)).
  - unfold IsEdgeBlocked2, Grow_extend.
    inv_pres ltac:(first [apply IH|apply inv_Augment|apply inv_Reset|apply inv_Blossom]).
Qed.

Lemma inv_Grow_deep (fuel : nat) (dw : list Z) :
  preserves (keeps inv) (Grow_deep EPSILON G fuel dw).
Proof.
  induction dw as [|u rest IH]; simpl.
  - apply (@preserves_ret _ (@keeps_refl inv)).
  - inv_pres ltac:(first [apply IH|apply inv_Grow_adj]).
Qed.

Lemma inv_Grow_forest (fuel k : nat) :
  preserves (keeps inv) (Grow_forest EPSILON G fuel k).
Proof.
  induction k as [|k IH]; simpl; inv_pres ltac:(first [apply IH|apply inv_Grow_deep]).
Qed.

Lemma inv_Grow (fuel : nat) : preserves (keeps inv) (Grow EPSILON G fuel).
Proof.
  unfold Grow, check_perfect.
  inv_pres ltac:(first [apply inv_Reset|apply inv_Grow_forest]).
Qed.

Lemma inv_Heuristic : preserves (keeps inv) (Heuristic EPSILON G).
Proof.
  unfold Heuristic, Heuristic_degrees, Heuristic_visit, Heuristic_pick, IsEdgeBlocked,
    IsEdgeBlocked2.
  inv_pres idtac.
Qed.

Lemma inv_RetrieveMatching (fuel : nat) :
  preserves (keeps inv) (RetrieveMatching EPSILON G fuel).
Proof. unfold RetrieveMatching, expand_all. inv_pres ltac:(apply inv_Expand). Qed.

End PositiveDuals.

Section PositiveDualsInvariant.

Variable EPSILON : float.
Variable G : Graph.

Local Abbreviation n := (Gr.GetNumVertices G).
Local Abbreviation m := (Gr.GetNumEdges G).

Lemma positive_dual_kept (s s' : Matching) :
  positive_dual_blocked EPSILON G s ->
  keeps (kept_blocked EPSILON (dual s) (fun i => n <= i < 2 * n)) s s' ->
  positive_dual_blocked EPSILON G s'.
Proof.
  intros H K.
  destruct K as [D B].
  { split; [reflexivity|]. intros i d Hi Hd Hg. apply (H i d); assumption. }
  intros i d Hi Hd Hg. rewrite D in Hd. apply (B i d); assumption.
Qed.

Lemma positive_dual_cleared (s : Matching) :
  (0 <=? EPSILON)%float = true -> cleared G s -> positive_dual_blocked EPSILON G s.
Proof.
  intros He [_ C] i d Hi Hd Hg. exfalso.
  destruct (C i) as [_ [_ [_ [_ [_ [_ [_ [_ [D _]]]]]]]]]; [lia|].
  rewrite D in Hd. injection Hd as Hd. subst d.
  rewrite (GREATER_0_0 EPSILON He) in Hg. discriminate.
Qed.

Lemma positive_dual_same (s s' : Matching) :
  dual s' = dual s -> blocked s' = blocked s ->
  positive_dual_blocked EPSILON G s -> positive_dual_blocked EPSILON G s'.
Proof.
  intros D B H i d Hi Hd Hg. rewrite D in Hd. rewrite B. apply (H i d); assumption.
Qed.

Lemma positive_dual_UpdateDualCosts (fuel : nat) (s s' : Matching) :
  UpdateDualCosts EPSILON G fuel s = Ok (tt, s') -> positive_dual_blocked EPSILON G s'.
Proof.
  intros H i d Hi Hd Hg.
  apply (proj1 (blocked_iff_positive_dual_aux EPSILON G fuel s s' H i Hi) d Hd Hg).
Qed.

Lemma positive_dual_iteration (fuel : nat) (s s' : Matching) :
  iteration EPSILON G fuel s = Ok (tt, s') -> positive_dual_blocked EPSILON G s'.
Proof.
  unfold iteration. intros H.
  apply bind_Ok in H. destruct H as [[] [s1 [_ H]]].
  apply bind_Ok in H. destruct H as [[] [s2 [_ H]]].
  apply bind_Ok in H. destruct H as [[] [s3 [H3 H]]].
  apply positive_dual_UpdateDualCosts in H3.
  apply (positive_dual_kept _ _ H3).
  exact (inv_Reset EPSILON G _ _ fuel _ _ _ H).
Qed.

Lemma positive_dual_primal_dual (fuel k : nat) (s s' : Matching) :
  positive_dual_blocked EPSILON G s ->
  primal_dual EPSILON G fuel k s = Ok (tt, s') -> positive_dual_blocked EPSILON G s'.
Proof.
  revert s. induction k as [|k IH]; intros s Hs H; simpl in H; rewrite bind_gets in H;
    destruct (perfect s).
  - apply ret_Ok in H. destruct H as [_ H]. subst s'. exact Hs.
  - discriminate H.
  - apply ret_Ok in H. destruct H as [_ H]. subst s'. exact Hs.
  - apply bind_Ok in H. destruct H as [[] [s1 [H1 H]]].
    apply positive_dual_iteration in H1. exact (IH _ H1 H).
Qed.

(** X22.  A pseudo-vertex whose dual is GREATER than [0] is blocked: this
    holds in the state that [Clear] builds when the tolerance is not
    negative, every call of [UpdateDualCosts] establishes it, and
    [Heuristic], [Grow], [Reset], [RetrieveMatching], [Augment], [Blossom],
    [Expand] and [DestroyBlossom] keep it.  So it holds when
    [SolveMinimumCostPerfectMatching] returns. *)
Theorem positive_duals_stay_blocked (fuel : nat) (s s' : Matching) :
  ((0 <=? EPSILON)%float = true -> sized G s -> Clear G s = Ok (tt, s') ->
   positive_dual_blocked EPSILON G s') /\
  (UpdateDualCosts EPSILON G fuel s = Ok (tt, s') -> positive_dual_blocked EPSILON G s') /\
  (positive_dual_blocked EPSILON G s ->
   (Heuristic EPSILON G s = Ok (tt, s') -> positive_dual_blocked EPSILON G s') /\
   (Grow EPSILON G fuel s = Ok (tt, s') -> positive_dual_blocked EPSILON G s') /\
   (Reset EPSILON G fuel s = Ok (tt, s') -> positive_dual_blocked EPSILON G s') /\
   (forall l, RetrieveMatching EPSILON G fuel s = Ok (l, s') ->
      positive_dual_blocked EPSILON G s') /\
   (forall u v, Augment EPSILON G fuel u v s = Ok (tt, s') ->
      positive_dual_blocked EPSILON G s') /\
   (forall u v t, Blossom G fuel u v s = Ok (t, s') ->
      positive_dual_blocked EPSILON G s') /\
   (forall u b, Expand EPSILON G fuel u b s = Ok (tt, s') ->
      positive_dual_blocked EPSILON G s') /\
   (forall t, DestroyBlossom EPSILON G fuel t s = Ok (tt, s') ->
      positive_dual_blocked EPSILON G s')) /\
  ((0 <=? EPSILON)%float = true -> sized G s ->
   forall cost r, SolveMinimumCostPerfectMatching EPSILON G fuel cost s = Ok (r, s') ->
     positive_dual_blocked EPSILON G s').
Proof.
  split.
  { intros He Hs H. destruct (Clear_run G s Hs) as [c [Hc [_ [C _]]]].
    rewrite H in Hc. injection Hc as Hc. subst c. apply positive_dual_cleared; assumption. }
  split; [apply positive_dual_UpdateDualCosts|].
  split.
  { intros K.
    split; [intros H; apply (positive_dual_kept _ _ K);
            exact (inv_Heuristic EPSILON G _ _ _ _ _ H)|].
    split; [intros H; apply (positive_dual_kept _ _ K);
            exact (inv_Grow EPSILON G _ _ fuel _ _ _ H)|].
    split; [intros H; apply (positive_dual_kept _ _ K);
            exact (inv_Reset EPSILON G _ _ fuel _ _ _ H)|].
    split; [intros l H; apply (positive_dual_kept _ _ K);
            exact (inv_RetrieveMatching EPSILON G _ _ fuel _ _ _ H)|].
    split; [intros u v H; apply (positive_dual_kept _ _ K);
            exact (inv_Augment EPSILON G _ _ fuel u v _ _ _ H)|].
    split; [intros u v t H; apply (positive_dual_kept _ _ K);
            exact (inv_Blossom EPSILON G _ _ fuel u v _ _ _ H)|].
    split; [intros u b H; apply (positive_dual_kept _ _ K);
            exact (inv_Expand EPSILON G _ _ fuel u b _ _ _ H)|].
    intros t H; apply (positive_dual_kept _ _ K);
      exact (inv_DestroyBlossom EPSILON G _ _ fuel t _ _ _ H). }
  intros He Hs cost r H. unfold SolveMinimumCostPerfectMatching in H.
  apply bind_Ok in H. destruct H as [l [s1 [H1 H]]].
  pose proof (sized_SolveMaximumMatching EPSILON G fuel _ _ _ H1 Hs) as Hs1.
  apply bind_Ok in H. destruct H as [p [t [Hp H]]].
  apply gets_Ok in Hp. destruct Hp as [_ E]. subst t.
  destruct (negb p); [discriminate H|].
  apply bind_Ok in H. destruct H as [[] [s2 [H2 H]]].
  unfold initialise in H2.
  destruct (Clear_run G s1 Hs1) as [c [Hc [_ [C _]]]].
  rewrite (@bind_step _ _ _ _ _ _ _ Hc) in H2.
  unfold assign in H2. rewrite bind_modify in H2.
  assert (K2 : positive_dual_blocked EPSILON G s2).
  { assert (F : preserves (same_on (fun x => (dual x, blocked x))) (PositiveCosts EPSILON G)).
    { unfold PositiveCosts.
      pres_with (@same_on_refl _ (fun x : Matching => (dual x, blocked x)))
                (@same_on_trans _ (fun x : Matching => (dual x, blocked x)))
                ltac:(reflexivity) idtac. }
    apply F in H2. unfold same_on in H2. simpl in H2. injection H2 as D B.
    apply (positive_dual_same c); [congruence|congruence|].
    apply positive_dual_cleared; assumption. }
  rewrite bind_modify in H.
  apply bind_Ok in H. destruct H as [[] [s3 [H3 H]]].
  apply positive_dual_primal_dual in H3.
  2:{ revert K2. apply positive_dual_same; reflexivity. }
  apply bind_Ok in H. destruct H as [mt [s4 [H4 H]]].
  apply bind_Ok in H. destruct H as [obj [t [Ho H]]].
  apply reads_Ok in Ho. destruct Ho as [_ E]. subst t.
  apply ret_Ok in H. destruct H as [_ H]. subst s'.
  apply (positive_dual_kept _ _ H3).
  exact (inv_RetrieveMatching EPSILON G _ _ fuel _ _ _ H4).
Qed.

End PositiveDualsInvariant.

(** ** A public call starts afresh *)

Section Reuse.

Variable EPSILON : float.
Variable G : Graph.

Local Abbreviation n := (Gr.GetNumVertices G).
Local Abbreviation m := (Gr.GetNumEdges G).

Section Independence.

Variable T : Matching -> Matching.

Lemma indep_ret (A : Type) (a : A) : independent_of T (ret a).
Proof. intros s. reflexivity. Qed.

Lemma indep_undefined (A : Type) : independent_of T (@undefined A).
Proof. intros s. reflexivity. Qed.

Lemma indep_out_of_fuel (A : Type) : independent_of T (@out_of_fuel A).
Proof. intros s. reflexivity. Qed.

Lemma indep_bind (A B : Type) (c : M A) (k : A -> M B) :
  independent_of T c -> (forall a, independent_of T (k a)) ->
  independent_of T (bind c k).
Proof.
  intros Hc Hk s. unfold bind. rewrite Hc.
  destruct (c s) as [[a s1]| | |]; simpl; [apply Hk|reflexivity..].
Qed.

Lemma indep_reads (A : Type) (f : Matching -> option A) :
  (forall s, f (T s) = f s) -> independent_of T (reads f).
Proof. intros Hf s. unfold reads. rewrite Hf. destruct (f s); reflexivity. Qed.

Lemma indep_gets (A : Type) (f : Matching -> A) :
  (forall s, f (T s) = f s) -> independent_of T (gets f).
Proof. intros Hf s. unfold gets. rewrite Hf. reflexivity. Qed.

Lemma indep_modify (g : Matching -> Matching) :
  (forall s, g (T s) = T (g s)) -> independent_of T (modify g).
Proof. intros Hg s. unfold modify. rewrite Hg. reflexivity. Qed.

Lemma indep_rd (A : Type) (f : field A) (i : Z) :
  (forall s, fget f (T s) = fget f s) -> independent_of T (rd f i).
Proof. intros Hf. apply indep_reads. intros s. rewrite Hf. reflexivity. Qed.

Lemma indep_wr (A : Type) (f : field A) (i : Z) (x : A) :
  (forall s, fget f (T s) = fget f s) ->
  (forall v s, fput f v (T s) = T (fput f v s)) ->
  independent_of T (wr f i x).
Proof.
  intros Hg Hp s. unfold wr. rewrite Hg.
  destruct (Vec.set (fget f s) i x); simpl; [rewrite Hp|]; reflexivity.
Qed.

Lemma indep_forM (A : Type) (l : list A) (body : A -> M unit) :
  (forall x, independent_of T (body x)) -> independent_of T (forM l body).
Proof.
  intros Hb. induction l as [|x r IH]; simpl.
  - apply indep_ret.
  - apply indep_bind; [apply Hb|intros _; exact IH].
Qed.

Lemma indep_foldM (A B : Type) (l : list B) (f : A -> B -> M A) (a : A) :
  (forall a x, independent_of T (f a x)) -> independent_of T (foldM l f a).
Proof.
  intros Hf. revert a. induction l as [|x r IH]; intros a; simpl.
  - apply indep_ret.
  - apply indep_bind; [apply Hf|intros a'; apply IH].
Qed.

Hypothesis T_slack : forall s, slack (T s) = slack s.
Hypothesis T_deep : forall s, deep (T s) = deep s.

Lemma Expand_find_row_indep (s : Matching) (di : Z) (dv : list Z) (acc : Z * Z * Z) :
  Expand_find_row EPSILON G (T s) di dv acc = Expand_find_row EPSILON G s di dv acc.
Proof.
  revert acc. induction dv as [|dj r IH]; intros acc; simpl; [reflexivity|].
  unfold adjacent, edgeBlocked. rewrite T_slack.
  destruct (Gr.AdjMat G di dj) as [[|]|]; [|apply IH|reflexivity].
  destruct (option_map negb
              (option_map (fun x => GREATER EPSILON x 0)
                 (Vec.get (slack s) (Gr.GetEdgeIndex G di dj)))) as [a|]; [|reflexivity].
  destruct (a && (Gr.GetEdgeIndex G di dj <? fst (fst acc))); apply IH.
Qed.

Lemma Expand_find_indep (s : Matching) (u v : Z) :
  Expand_find EPSILON G (T s) u v = Expand_find EPSILON G s u v.
Proof.
  unfold Expand_find. rewrite T_deep.
  destruct (Vec.get (deep s) u) as [du|]; [|reflexivity].
  destruct (Vec.get (deep s) v) as [dv|]; [|reflexivity].
  generalize (m, -1, -1). induction du as [|di r IH]; intros acc; simpl; [reflexivity|].
  rewrite Expand_find_row_indep.
  destruct (Expand_find_row EPSILON G s di dv acc); [apply IH|reflexivity].
Qed.

End Independence.

(** The structural steps of an independence proof; [side] closes what the
    reads and writes leave, [known] the calls of other methods. *)
Ltac indep_with side known :=
  lazymatch goal with
  | |- independent_of _ (bind _ _) =>
      apply indep_bind; [indep_with side known|intros; indep_with side known]
  | |- independent_of _ (ret _) => apply indep_ret
  | |- independent_of _ (gets _) => apply indep_gets; intros; side
  | |- independent_of _ (reads _) => apply indep_reads; intros; side
  | |- independent_of _ (rd _ _) => apply indep_rd; intros; side
  | |- independent_of _ (wr _ _ _) => apply indep_wr; intros; side
  | |- independent_of _ (modify _) => apply indep_modify; intros; side
  | |- independent_of _ (assign _ _) => apply indep_modify; intros; side
  | |- independent_of _ (@undefined _) => apply indep_undefined
  | |- independent_of _ (@out_of_fuel _) => apply indep_out_of_fuel
  | |- independent_of _ (forM _ _) => apply indep_forM; intros; indep_with side known
  | |- independent_of _ (foldM _ _ _) =>
      apply indep_foldM; intros; indep_with side known
  | |- independent_of _ (if ?b then _ else _) => destruct b; indep_with side known
  | |- independent_of _ (match ?x with _ => _ end) => destruct x; indep_with side known
  | |- _ => first [assumption | known | idtac]
  end.

Ltac indep known :=
  indep_with ltac:(first [reflexivity
                         |apply Expand_find_indep; intros; reflexivity]) known.

(** *** Nothing below [Grow] reads the flag [perfect] *)

Section Flag.

Variable P : bool.

Lemma flag_DestroyBlossom (fuel : nat) (t : Z) :
  independent_of (set_perfect P) (DestroyBlossom EPSILON G fuel t).
Proof.
  revert t. induction fuel as [|fuel IH]; intros t; simpl.
  - apply indep_out_of_fuel.
  - unfold AddFreeBlossomIndex. indep ltac:(apply IH).
Qed.

Lemma flag_Expand_rotate (fuel : nat) (u p : Z) :
  independent_of (set_perfect P) (Expand_rotate fuel u p).
Proof.
  revert u p. induction fuel as [|fuel IH]; intros u p; simpl.
  - apply indep_out_of_fuel.
  - indep ltac:(apply IH).
Qed.

Lemma flag_Expand_pairs (l : list Z) : independent_of (set_perfect P) (Expand_pairs l).
Proof.
  assert (H : forall k l, (length l <= k)%nat ->
            independent_of (set_perfect P) (Expand_pairs l)).
  { clear l. induction k as [|k IH]; intros l Hl.
    - destruct l; [apply indep_ret|simpl in Hl; lia].
    - destruct l as [|a [|b r]]; simpl.
      + apply indep_ret.
      + apply indep_undefined.
      + indep ltac:(apply IH; simpl in Hl; lia). }
  apply (H (length l)). lia.
Qed.

Lemma flag_Expand (fuel : nat) (u : Z) (b : bool) :
  independent_of (set_perfect P) (Expand EPSILON G fuel u b).
Proof.
  revert u b. induction fuel as [|fuel IH]; intros u b; simpl.
  - apply indep_out_of_fuel.
  - unfold Expand_remate, release_members, AddFreeBlossomIndex.
    indep ltac:(first [apply IH|apply flag_Expand_rotate|apply flag_Expand_pairs]).
Qed.

Lemma flag_Augment_pair (fuel : nat) (p q : Z) :
  independent_of (set_perfect P) (Augment_pair EPSILON G fuel p q).
Proof. unfold Augment_pair. indep ltac:(apply flag_Expand). Qed.

Lemma flag_Augment_walk (fuel k : nat) (p fp : Z) :
  independent_of (set_perfect P) (Augment_walk EPSILON G fuel k p fp).
Proof.
  revert p fp. induction k as [|k IH]; intros p fp; simpl;
    indep ltac:(first [apply IH|apply flag_Augment_pair]).
Qed.

Lemma flag_Augment (fuel : nat) (u v : Z) :
  independent_of (set_perfect P) (Augment EPSILON G fuel u v).
Proof.
  unfold Augment. indep ltac:(first [apply flag_Augment_pair|apply flag_Augment_walk]).
Qed.

Lemma flag_Reset (fuel : nat) : independent_of (set_perfect P) (Reset EPSILON G fuel).
Proof. unfold Reset, Reset_roots. indep ltac:(apply flag_DestroyBlossom). Qed.

Lemma flag_Blossom_mark (k : nat) (u_ : Z) (isInPath : list bool) :
  independent_of (set_perfect P) (Blossom_mark k u_ isInPath).
Proof.
  revert u_ isInPath. induction k as [|k IH]; intros u_ isInPath; simpl;
    indep ltac:(apply IH).
Qed.

Lemma flag_Blossom_tip (k : nat) (v_ : Z) (isInPath : list bool) :
  independent_of (set_perfect P) (Blossom_tip k v_ isInPath).
Proof.
  revert v_. induction k as [|k IH]; intros v_; simpl; indep ltac:(apply IH).
Qed.

Lemma flag_Blossom_circuit (k : nat) (u_ tp : Z) (circuit : list Z) :
  independent_of (set_perfect P) (Blossom_circuit k u_ tp circuit).
Proof.
  revert u_ circuit. induction k as [|k IH]; intros u_ circuit; simpl;
    indep ltac:(apply IH).
Qed.

Lemma flag_Blossom_tail (k : nat) (t v_ tp : Z) :
  independent_of (set_perfect P) (Blossom_tail k t v_ tp).
Proof.
  revert v_. induction k as [|k IH]; intros v_; simpl; indep ltac:(apply IH).
Qed.

Lemma flag_Blossom (fuel : nat) (u v : Z) :
  independent_of (set_perfect P) (Blossom G fuel u v).
Proof.
  unfold Blossom, GetFreeBlossomIndex, Blossom_absorb.
  indep ltac:(first [apply flag_Blossom_mark|apply flag_Blossom_tip
                    |apply flag_Blossom_circuit|apply flag_Blossom_tail]).
Qed.

Lemma flag_Grow_adj (fuel : nat) (u : Z) (adj : list Z) :
  independent_of (set_perfect P) (Grow_adj EPSILON G fuel u adj).
Proof.
  induction adj as [|v rest IH]; simpl.
  - apply indep_ret.
  - unfold IsEdgeBlocked2, Grow_extend.
    indep ltac:(first [apply IH|apply flag_Augment|apply flag_Reset|apply flag_Blossom]).
Qed.

Lemma flag_Grow_deep (fuel : nat) (dw : list Z) :
  independent_of (set_perfect P) (Grow_deep EPSILON G fuel dw).
Proof.
  induction dw as [|u rest IH]; simpl.
  - apply indep_ret.
  - indep ltac:(first [apply IH|apply flag_Grow_adj]).
Qed.

Lemma flag_Grow_forest (fuel k : nat) :
  independent_of (set_perfect P) (Grow_forest EPSILON G fuel k).
Proof.
  induction k as [|k IH]; simpl; indep ltac:(first [apply IH|apply flag_Grow_deep]).
Qed.

End Flag.

(** *** [DestroyBlossom] reads no bookkeeping of [Grow] *)

Section Bookkeeping.

Variable V F : list Z.

Lemma book_DestroyBlossom (fuel : nat) (t : Z) :
  independent_of (set_bookkeeping V F) (DestroyBlossom EPSILON G fuel t).
Proof.
  revert t. induction fuel as [|fuel IH]; intros t; simpl.
  - apply indep_out_of_fuel.
  - unfold AddFreeBlossomIndex. indep ltac:(apply IH).
Qed.

End Bookkeeping.

(** *** Composition *)

Lemma carries_bind (T T1 T2 : Matching -> Matching) (A B : Type) (c : M A)
  (k : A -> M B) :
  carries T T1 c -> (forall a, carries T1 T2 (k a)) -> carries T T2 (bind c k).
Proof.
  intros Hc Hk s. unfold bind. rewrite Hc.
  destruct (c s) as [[a s1]| | |]; simpl; [apply Hk|reflexivity..].
Qed.

Lemma carries_compose (T1 T2 : Matching -> Matching) (A : Type) (c : M A) :
  independent_of T1 c -> independent_of T2 c ->
  independent_of (fun s => T1 (T2 s)) c.
Proof.
  intros H1 H2 s. rewrite H1, H2. destruct (c s) as [[a s1]| | |]; reflexivity.
Qed.

Lemma rmap_id (A : Type) (r : result (A * Matching)) : rmap (fun s => s) r = r.
Proof. destruct r as [[a s]| | |]; reflexivity. Qed.

(** *** [Grow] forgets the flag and the bookkeeping *)

Lemma Reset_carries (fuel : nat) (P : bool) (V F : list Z) :
  carries (fun s => set_perfect P (set_bookkeeping V F s)) (set_perfect P)
    (Reset EPSILON G fuel).
Proof.
  unfold Reset.
  apply (carries_bind _ (fun s => set_perfect P (set_bookkeeping V F s))).
  - apply (carries_compose (set_perfect P) (set_bookkeeping V F)).
    + indep ltac:(apply flag_DestroyBlossom).
    + indep ltac:(apply book_DestroyBlossom).
  - intros _.
    apply (carries_bind _ (fun s => set_perfect P (set_forestList F s)));
      [intros s; reflexivity|]. intros _.
    apply (carries_bind _ (set_perfect P)); [intros s; reflexivity|]. intros _.
    unfold Reset_roots.
    change (independent_of (set_perfect P)
      (forM (Vec.range 0 n) (fun i =>
         oi <- rd f_outer i ;;
         mo <- rd f_mate oi ;;
         if mo =? -1 then
           wr f_type oi 2 ;;
           vis <- rd f_visited oi ;;
           (if vis =? 0
            then modify (fun s => set_forestList (forestList s ++ [i]) s)
            else ret tt) ;;
           wr f_visited oi 1
         else wr f_type oi 0))).
    indep idtac.
Qed.

Lemma Grow_forgets (fuel : nat) (P : bool) (V F : list Z) (s : Matching) :
  Grow EPSILON G fuel (set_perfect P (set_bookkeeping V F s)) = Grow EPSILON G fuel s.
Proof.
  unfold Grow.
  rewrite <- (rmap_id _ ((Reset EPSILON G fuel ;; Grow_forest EPSILON G fuel fuel ;;
                          check_perfect G) s)).
  revert s.
  change (carries (fun s => set_perfect P (set_bookkeeping V F s)) (fun s => s)
            (Reset EPSILON G fuel ;; Grow_forest EPSILON G fuel fuel ;; check_perfect G)).
  apply (carries_bind _ (set_perfect P)); [apply Reset_carries|]. intros _.
  apply (carries_bind _ (set_perfect P)); [apply flag_Grow_forest|]. intros _.
  intros s. unfold check_perfect. rewrite rmap_id. reflexivity.
Qed.

(** *** [Clear] builds one state *)

Lemma get_out_of_range (A : Type) (v : list A) (i : Z) :
  i < 0 \/ len v <= i -> Vec.get v i = None.
Proof.
  intros H. destruct (Vec.get v i) eqn:E; [|reflexivity].
  apply get_Some_range in E. unfold len in H. lia.
Qed.

Lemma vec_determined (A : Type) (v w : list A) (k : Z) (f : Z -> A) :
  len v = k -> len w = k ->
  (forall i, 0 <= i < k -> Vec.get v i = Some (f i)) ->
  (forall i, 0 <= i < k -> Vec.get w i = Some (f i)) ->
  v = w.
Proof.
  intros Lv Lw Hv Hw. apply vec_ext. intros i.
  destruct (Z_lt_dec i 0) as [L|L].
  { rewrite !get_out_of_range by (left; exact L). reflexivity. }
  destruct (Z_lt_dec i k) as [U|U].
  - rewrite Hv, Hw by lia. reflexivity.
  - rewrite !get_out_of_range by (right; lia). reflexivity.
Qed.

Lemma Clear_keeps_bookkeeping :
  preserves (same_on (fun s => (visited s, forestList s, perfect s))) (Clear G).
Proof.
  unfold Clear, ClearBlossomIndices, AddFreeBlossomIndex.
  pres_with (@same_on_refl _ (fun s => (visited s, forestList s, perfect s)))
            (@same_on_trans _ (fun s => (visited s, forestList s, perfect s)))
            ltac:(reflexivity) idtac.
Qed.

Lemma Clear_same (s1 s2 c1 c2 : Matching) :
  sized G s1 -> sized G s2 ->
  Clear G s1 = Ok (tt, c1) -> Clear G s2 = Ok (tt, c2) ->
  c2 = set_perfect (perfect s2) (set_bookkeeping (visited s2) (forestList s2) c1).
Proof.
  intros Z1 Z2 H1 H2.
  pose proof (Clear_keeps_bookkeeping _ _ _ H2) as B2. unfold same_on in B2.
  injection B2 as Bv Bf Bp.
  destruct (Clear_run G s1 Z1) as [x1 [E1 [S1 [[F1 C1] [L1 _]]]]].
  rewrite H1 in E1. injection E1 as E1. subst x1.
  destruct (Clear_run G s2 Z2) as [x2 [E2 [S2 [[F2 C2] [L2 _]]]]].
  rewrite H2 in E2. injection E2 as E2. subst x2.
  destruct S1 as [N0 [A1 [A2 [A3 [A4 [A5 [A6 [A7 [A8 [A9 [A10 [A11 A12]]]]]]]]]]]].
  destruct S2 as [_ [B1 [B2 [B3 [B4 [B5 [B6 [B7 [B8 [B9 [B10 [B11 B12]]]]]]]]]]]].
  assert (Eouter : outer c2 = outer c1).
  { apply (vec_determined _ _ _ (2 * n) (fun i => i)); try assumption;
      intros i Hi; [apply (C2 i Hi)|apply (C1 i Hi)]. }
  assert (Edeep : deep c2 = deep c1).
  { apply (vec_determined _ _ _ (2 * n) (fun i => if i <? n then [i] else []));
      try assumption; intros i Hi; [apply (C2 i Hi)|apply (C1 i Hi)]. }
  assert (Eshallow : shallow c2 = shallow c1).
  { apply (vec_determined _ _ _ (2 * n) (fun _ => [])); try assumption;
      intros i Hi; [apply (C2 i Hi)|apply (C1 i Hi)]. }
  assert (Etip : tip c2 = tip c1).
  { apply (vec_determined _ _ _ (2 * n) (fun i => i)); try assumption;
      intros i Hi; [apply (C2 i Hi)|apply (C1 i Hi)]. }
  assert (Eactive : active c2 = active c1).
  { apply (vec_determined _ _ _ (2 * n) (fun i => i <? n)); try assumption;
      intros i Hi; [apply (C2 i Hi)|apply (C1 i Hi)]. }
  assert (Etype : type c2 = type c1).
  { apply (vec_determined _ _ _ (2 * n) (fun _ => 0)); try assumption;
      intros i Hi; [apply (C2 i Hi)|apply (C1 i Hi)]. }
  assert (Eforest : forest c2 = forest c1).
  { apply (vec_determined _ _ _ (2 * n) (fun _ => -1)); try assumption;
      intros i Hi; [apply (C2 i Hi)|apply (C1 i Hi)]. }
  assert (Eroot : root c2 = root c1).
  { apply (vec_determined _ _ _ (2 * n) (fun i => i)); try assumption;
      intros i Hi; [apply (C2 i Hi)|apply (C1 i Hi)]. }
  assert (Eblocked : blocked c2 = blocked c1).
  { apply (vec_determined _ _ _ (2 * n) (fun _ => false)); try assumption;
      intros i Hi; [apply (C2 i Hi)|apply (C1 i Hi)]. }
  assert (Edual : dual c2 = dual c1).
  { apply (vec_determined _ _ _ (2 * n) (fun _ => 0%float)); try assumption;
      intros i Hi; [apply (C2 i Hi)|apply (C1 i Hi)]. }
  assert (Emate : mate c2 = mate c1).
  { apply (vec_determined _ _ _ (2 * n) (fun _ => -1)); try assumption;
      intros i Hi; [apply (C2 i Hi)|apply (C1 i Hi)]. }
  destruct c1, c2. unfold set_perfect, set_bookkeeping, set_forestList. simpl in *.
  congruence.
Qed.

Lemma bind_same (A B : Type) (c : M A) (k : A -> M B) (s1 s2 : Matching) :
  c s1 = c s2 -> bind c k s1 = bind c k s2.
Proof. intros H. unfold bind. rewrite H. reflexivity. Qed.

(** X23.  A public call does not depend on what earlier calls have left in
    the object: on two objects of the same graph whose vectors have their
    sizes, [SolveMaximumMatching] has the same outcome and leaves the same
    state, and so does [SolveMinimumCostPerfectMatching] for every cost
    vector. *)
Theorem public_calls_forget_the_past (fuel : nat) (s1 s2 : Matching) :
  sized G s1 -> sized G s2 ->
  SolveMaximumMatching EPSILON G fuel s1 = SolveMaximumMatching EPSILON G fuel s2 /\
  forall cost,
    SolveMinimumCostPerfectMatching EPSILON G fuel cost s1
    = SolveMinimumCostPerfectMatching EPSILON G fuel cost s2.
Proof.
  intros Z1 Z2.
  assert (E : SolveMaximumMatching EPSILON G fuel s1
              = SolveMaximumMatching EPSILON G fuel s2).
  { unfold SolveMaximumMatching.
    destruct (Clear_run G s1 Z1) as [c1 [H1 _]].
    destruct (Clear_run G s2 Z2) as [c2 [H2 _]].
    rewrite (@bind_step _ _ _ _ _ _ _ H1), (@bind_step _ _ _ _ _ _ _ H2).
    rewrite (Clear_same _ _ _ _ Z1 Z2 H1 H2).
    unfold bind. rewrite Grow_forgets. reflexivity. }
  split; [exact E|].
  intros cost. unfold SolveMinimumCostPerfectMatching.
  apply bind_same. exact E.
Qed.

End Reuse.

(** *** On runs *)

Lemma public_calls_forget_the_past_witness :
  SolveMaximumMatching eps10 G_pennant 20 pennant_grown
  = SolveMaximumMatching eps10 G_pennant 20 (Matching_new G_pennant).
Proof.
  assert (Z1 : sized G_pennant pennant_grown) by (vm_compute; repeat split; discriminate).
  assert (Z2 : sized G_pennant (Matching_new G_pennant))
    by (vm_compute; repeat split; discriminate).
  exact (proj1 (public_calls_forget_the_past eps10 G_pennant 20 _ _ Z1 Z2)).
Defined.
